(** * TPIE: block files and the pipelining runtime

    A shallow embedding of [tpie/file_base.cpp] and
    [tpie/pipelining/runtime.cpp].

    Conventions.
    - [stream_size_type] and [memory_size_type] are unsigned 64-bit
      integers.  They are modelled as [Z] and every arithmetic operation
      the source performs on them is followed by [wrap64].
    - [double] is IEEE binary64, modelled by the kernel's primitive floats.
    - A C++ exception is a value of an error type; a function that may
      throw returns a [result]. *)

From Stdlib Require Import ZArith List Bool Lia String Ascii Floats Permutation.
From Stdlib Require Import Relations Sorted.
Import ListNotations.

Local Open Scope Z_scope.

(** ** Machine integers *)

Definition two64 : Z := 2 ^ 64.

(** Reduction of an unbounded integer to an unsigned 64-bit one. *)
Definition wrap64 (z : Z) : Z := z mod two64.

(** [std::numeric_limits<size_t>::max()]. *)
Definition size_max : Z := two64 - 1.

Definition is_u64 (z : Z) : Prop := 0 <= z < two64.

Lemma wrap64_range z : is_u64 (wrap64 z).
Proof. unfold is_u64, wrap64, two64. apply Z.mod_pos_bound. reflexivity. Qed.

Lemma wrap64_small z : is_u64 z -> wrap64 z = z.
Proof. unfold is_u64, wrap64. intros H. apply Z.mod_small. exact H. Qed.

(** ** Errors raised by the modelled code *)

Inductive error : Type :=
| end_of_stream_exception
| not_a_dag_exception
| no_initiator_node
| exception (msg : string)
| out_of_fuel
| undefined (what : string).

(** [out_of_fuel] is no exception of the source.  The recursive functions
    of the source are modelled by recursion on a bound ([fuel]) that the
    model computes from the size of the graph they traverse; a run that
    reaches the bound returns [out_of_fuel].  Neither is [undefined]:
    it marks a point where C++ leaves the behaviour of the source
    undefined (an end iterator is dereferenced, a vector is indexed out
    of range). *)

Inductive result (A : Type) : Type :=
| Ok (a : A)
| Err (e : error).
Arguments Ok {A} a.
Arguments Err {A} e.

Definition bind {A B} (r : result A) (k : A -> result B) : result B :=
  match r with
  | Ok a => k a
  | Err e => Err e
  end.

Declare Scope result_scope.
Delimit Scope result_scope with result.
Notation "x <- r ;; k" := (bind r (fun x => k))
  (at level 61, r at next level, right associativity) : result_scope.
Notation "r ;;; k" := (bind r (fun _ => k))
  (at level 61, right associativity) : result_scope.

(** Splits a conjunction of closed facts and decides each by
    evaluation. *)
Ltac by_evaluation := repeat apply conj; vm_compute; reflexivity.

(** * file_base.cpp *)

Module FileBase.

(** ** Block size: [the_block_size], [get_block_size], [set_block_size] *)

(** The default block size, [1024*1024*2]. *)
Definition default_block_size : Z := 1024 * 1024 * 2.

Section BlockSize.

(** [atol] belongs to the C library.  It maps a string to a [long]; the
    assignment [the_block_size = atol(v)] converts that [long] to the
    unsigned 64-bit [stream_size_type]. *)
Variable atol : string -> Z.

(** The process state [get_block_size] depends on: the file-scope static
    [the_block_size] and what [getenv("TPIE_BLOCK_SIZE")] returns
    ([None] for [NULL]). *)
Record process : Type := mk_process {
  the_block_size : Z;
  env_TPIE_BLOCK_SIZE : option string
}.

(** [get_block_size()]: the returned value and the state it leaves. *)
Definition get_block_size (p : process) : Z * process :=
  if the_block_size p =? 0 then
    let b1 := match env_TPIE_BLOCK_SIZE p with
              | Some v => wrap64 (atol v)
              | None => the_block_size p
              end in
    let b2 := if b1 =? 0 then default_block_size else b1 in
    (b2, mk_process b2 (env_TPIE_BLOCK_SIZE p))
  else (the_block_size p, p).

(** [set_block_size(block_size)]. *)
Definition set_block_size (block_size : Z) (p : process) : process :=
  mk_process block_size (env_TPIE_BLOCK_SIZE p).

(** The environment is not under the program's control: [setenv v] stands
    for any change of [TPIE_BLOCK_SIZE] between two calls. *)
Inductive op : Type :=
| op_get
| op_set (block_size : Z)
| op_setenv (v : option string).

(** Runs a sequence of operations and collects what each [get_block_size]
    returned, oldest first. *)
Fixpoint run (ops : list op) (p : process) : list Z * process :=
  match ops with
  | [] => ([], p)
  | op_get :: rest =>
      let '(v, p1) := get_block_size p in
      let '(vs, p2) := run rest p1 in
      (v :: vs, p2)
  | op_set b :: rest => run rest (set_block_size b p)
  | op_setenv v :: rest => run rest (mk_process (the_block_size p) v)
  end.

(** No [set_block_size] call at all in [ops]. *)
Definition no_set (o : op) : bool :=
  match o with op_set _ => false | _ => true end.

(** No [set_block_size] call with a non-zero argument in [ops]. *)
Definition no_nonzero_set (o : op) : bool :=
  match o with op_set b => b =? 0 | _ => true end.

Lemma get_block_size_nonzero p :
  is_u64 (the_block_size p) -> fst (get_block_size p) <> 0.
Proof.
  intros Hu. unfold get_block_size.
  destruct (the_block_size p =? 0) eqn:E; simpl.
  - destruct (env_TPIE_BLOCK_SIZE p) as [v|].
    + destruct (wrap64 (atol v) =? 0) eqn:E1.
      * discriminate.
      * apply Z.eqb_neq. exact E1.
    + rewrite E. discriminate.
  - apply Z.eqb_neq. exact E.
Qed.

Lemma get_block_size_cached p :
  the_block_size (snd (get_block_size p)) = fst (get_block_size p).
Proof.
  unfold get_block_size.
  destruct (the_block_size p =? 0); reflexivity.
Qed.

Lemma get_block_size_u64 p :
  is_u64 (the_block_size p) -> is_u64 (fst (get_block_size p)).
Proof.
  intros Hu. unfold get_block_size.
  destruct (the_block_size p =? 0) eqn:E; simpl; [|exact Hu].
  destruct (env_TPIE_BLOCK_SIZE p) as [v|].
  - destruct (wrap64 (atol v) =? 0).
    + unfold is_u64, default_block_size, two64. lia.
    + apply wrap64_range.
  - rewrite E. unfold is_u64, default_block_size, two64. lia.
Qed.

(** Once the cache holds a non-zero value, operations other than
    [set_block_size] leave it alone and every read returns it. *)
Lemma run_no_set ops : forall p,
  forallb no_set ops = true ->
  the_block_size p <> 0 ->
  Forall (fun v => v = the_block_size p) (fst (run ops p)) /\
  the_block_size (snd (run ops p)) = the_block_size p.
Proof.
  induction ops as [|o rest IH]; intros p Hall Hnz; simpl.
  - split; [constructor | reflexivity].
  - simpl in Hall. apply andb_true_iff in Hall as [Ho Hrest].
    destruct o as [|b|v]; simpl in Ho.
    + assert (Hg : get_block_size p = (the_block_size p, p)).
      { unfold get_block_size. apply Z.eqb_neq in Hnz. rewrite Hnz. reflexivity. }
      rewrite Hg. destruct (run rest p) as [vs p2] eqn:Er.
      specialize (IH p Hrest Hnz). rewrite Er in IH. simpl in *.
      destruct IH as [IH1 IH2]. split; [constructor; [reflexivity | exact IH1] | exact IH2].
    + discriminate.
    + apply (IH (mk_process (the_block_size p) v) Hrest Hnz).
Qed.

End BlockSize.

(** ** [file_base_crtp::get_block_check] *)

(** The fields of a file that [get_block_check] reads: [m_blockItems]
    (a [memory_size_type]) and the result of [self().size()]
    (a [stream_size_type]). *)
Record file : Type := mk_file {
  m_blockItems : Z;
  size : Z
}.

Definition file_wf (f : file) : Prop :=
  is_u64 (m_blockItems f) /\ is_u64 (size f).

(** [get_block_check(block)]: the product is an unsigned 64-bit one. *)
Definition get_block_check (f : file) (block : Z) : result unit :=
  if wrap64 (block * m_blockItems f) >? size f
  then Err end_of_stream_exception
  else Ok tt.

Lemma get_block_check_spec f block :
  get_block_check f block = Err end_of_stream_exception <->
  wrap64 (block * m_blockItems f) > size f.
Proof.
  unfold get_block_check.
  destruct (wrap64 (block * m_blockItems f) >? size f) eqn:E.
  - split; [intros _ | reflexivity]. apply Z.gtb_lt in E. lia.
  - split; [discriminate | intros H].
    apply Z.gt_lt, Z.gtb_lt in H. congruence.
Qed.

(** A concrete [atol] for examples, after the C library's description:
    leading white space is skipped, an optional sign is read, then as
    many decimal digits as there are; the value saturates at the bounds
    of [long] (glibc's [strtol]). *)
Definition is_space (c : ascii) : bool :=
  let n := nat_of_ascii c in
  (Nat.eqb n 32 || (Nat.leb 9 n && Nat.leb n 13))%bool.

Definition digit_of (c : ascii) : option Z :=
  let n := nat_of_ascii c in
  if (Nat.leb 48 n && Nat.leb n 57)%bool then Some (Z.of_nat n - 48) else None.

Fixpoint skip_spaces (s : string) : string :=
  match s with
  | String c rest => if is_space c then skip_spaces rest else s
  | EmptyString => s
  end.

Fixpoint read_digits (acc : Z) (s : string) : Z :=
  match s with
  | String c rest =>
      match digit_of c with
      | Some d => read_digits (10 * acc + d) rest
      | None => acc
      end
  | EmptyString => acc
  end.

Definition long_max : Z := 2 ^ 63 - 1.
Definition long_min : Z := - 2 ^ 63.

Definition atol_libc (s : string) : Z :=
  match skip_spaces s with
  | String "-" rest => Z.max long_min (- read_digits 0 rest)
  | String "+" rest => Z.min long_max (read_digits 0 rest)
  | rest => Z.min long_max (read_digits 0 rest)
  end.

(** *** Claims on the block size *)

(** What the cache is said to guarantee: after a call returned [v], every
    later call returns [v] as long as no [set_block_size] with a non-zero
    argument intervenes. *)
Definition cached_until_nonzero_set (atol : string -> Z) : Prop :=
  forall p ops,
    is_u64 (the_block_size p) ->
    forallb no_nonzero_set ops = true ->
    Forall (fun w => w = fst (get_block_size atol p))
           (fst (run atol ops (snd (get_block_size atol p)))).

(** C10, as stated, fails: [set_block_size(0)] clears the cache, and the
    next [get_block_size()] reads the environment again.  With 5 cached
    and [TPIE_BLOCK_SIZE] unset, a call returns 5; after
    [set_block_size(0)] the next call returns the default 2097152. *)
Lemma C10_set_zero_clears_cache :
  is_u64 (the_block_size (mk_process 5 None)) /\
  forallb no_nonzero_set [op_set 0; op_get] = true /\
  fst (get_block_size atol_libc (mk_process 5 None)) = 5 /\
  fst (run atol_libc [op_set 0; op_get]
         (snd (get_block_size atol_libc (mk_process 5 None)))) = [2097152] /\
  ~ cached_until_nonzero_set atol_libc.
Proof.
  assert (Hu : is_u64 5) by (unfold is_u64, two64; lia).
  repeat split; try reflexivity; try (simpl; lia).
  intros H.
  specialize (H (mk_process 5 None) [op_set 0; op_get] Hu eq_refl).
  simpl in H. inversion H as [|x l Hx _]. discriminate Hx.
Qed.

(** C10 (amended): [get_block_size()] returns a non-zero value: the cached
    or programmatically set value when that is non-zero; otherwise what
    [atol] makes of [TPIE_BLOCK_SIZE], converted to the unsigned type,
    when that is non-zero; otherwise the default [2*1024*1024].  The
    returned value is cached: all later calls return it, whatever happens
    to the environment, until [set_block_size] is called (with any
    argument: a zero argument clears the cache). *)
Theorem C10_get_block_size (atol : string -> Z) (p : process) :
  is_u64 (the_block_size p) ->
  let v := fst (get_block_size atol p) in
  v <> 0 /\
  (the_block_size p <> 0 -> v = the_block_size p) /\
  (the_block_size p = 0 ->
     forall s, env_TPIE_BLOCK_SIZE p = Some s -> wrap64 (atol s) <> 0 ->
               v = wrap64 (atol s)) /\
  (the_block_size p = 0 ->
     (env_TPIE_BLOCK_SIZE p = None \/
      exists s, env_TPIE_BLOCK_SIZE p = Some s /\ wrap64 (atol s) = 0) ->
     v = default_block_size) /\
  (forall ops, forallb no_set ops = true ->
     Forall (fun w => w = v) (fst (run atol ops (snd (get_block_size atol p))))).
Proof.
  intros Hu v. subst v.
  split; [apply get_block_size_nonzero; exact Hu|].
  split.
  { intros Hnz. unfold get_block_size. apply Z.eqb_neq in Hnz. rewrite Hnz. reflexivity. }
  split.
  { intros Hz s Hs Hnz. unfold get_block_size. rewrite Hz, Hs. simpl.
    apply Z.eqb_neq in Hnz. rewrite Hnz. reflexivity. }
  split.
  { intros Hz [Hn | [s [Hs Hw]]]; unfold get_block_size; rewrite Hz; simpl.
    - rewrite Hn. reflexivity.
    - rewrite Hs, Hw. reflexivity. }
  intros ops Hops.
  pose proof (get_block_size_nonzero atol p Hu) as Hnz.
  rewrite <- (get_block_size_cached atol p) in Hnz.
  destruct (run_no_set atol ops _ Hops Hnz) as [Hall _].
  rewrite (get_block_size_cached atol p) in Hall. exact Hall.
Qed.

(** C10 on a concrete process: nothing cached, [TPIE_BLOCK_SIZE=4096]. *)
Lemma C10_get_block_size_witness :
  is_u64 (the_block_size (mk_process 0 (Some "4096"%string))) /\
  fst (get_block_size atol_libc (mk_process 0 (Some "4096"%string))) <> 0 /\
  Forall (fun w => w = fst (get_block_size atol_libc (mk_process 0 (Some "4096"%string))))
    (fst (run atol_libc [op_get; op_setenv None; op_get]
            (snd (get_block_size atol_libc (mk_process 0 (Some "4096"%string)))))).
Proof.
  assert (Hu : is_u64 (the_block_size (mk_process 0 (Some "4096"%string))))
    by (unfold is_u64, two64; simpl; lia).
  destruct (C10_get_block_size atol_libc _ Hu) as (H1 & _ & _ & _ & H5).
  split; [exact Hu|]. split; [exact H1|].
  apply H5. reflexivity.
Defined.

Example get_block_size_env_4096 :
  fst (get_block_size atol_libc (mk_process 0 (Some "4096"%string))) = 4096.
Proof. reflexivity. Qed.

(** *** Claims on [get_block_check] *)

(** When the product of block index and block length is representable in
    64 bits, the check is the mathematical comparison. *)
Lemma get_block_check_no_overflow f block :
  0 <= block -> file_wf f -> block * m_blockItems f < two64 ->
  (get_block_check f block = Err end_of_stream_exception <->
   block * m_blockItems f > size f).
Proof.
  intros Hb [[Hi _] _] Hlt.
  rewrite get_block_check_spec, wrap64_small; [reflexivity|].
  unfold is_u64. split; [apply Z.mul_nonneg_nonneg; assumption | exact Hlt].
Qed.

(** A file of exactly [n] full blocks: requesting block [n] passes. *)
Lemma get_block_check_full_blocks f n :
  0 <= n -> file_wf f -> size f = n * m_blockItems f ->
  get_block_check f n = Ok tt.
Proof.
  intros Hn [Hi Hs] Hsz. unfold get_block_check.
  rewrite <- Hsz, (wrap64_small _ Hs).
  destruct (size f >? size f) eqn:E; [|reflexivity].
  apply Z.gtb_lt in E. lia.
Qed.

(** [stream_crtp::update_block()], at its start: the block a stream
    requests.  [m_nextBlock] is the largest [stream_size_type] unless a
    seek has set it, and the stream then asks for the block after the one
    it holds; [number] is that of [m_emptyBlock], the largest
    [stream_size_type] again, when it holds none. *)
Definition requested_block (m_nextBlock number : Z) : Z :=
  if m_nextBlock =? size_max then wrap64 (number + 1) else m_nextBlock.

(** The requests of a stream stay in the range of [get_block_check]: a
    stream that holds no block asks for block 0, and one that holds a block
    the check let through asks for the next, whose product with the block
    length is at most a block behind the end of the file. *)
Lemma stream_request_fits f number :
  file_wf f -> is_u64 number -> size f + m_blockItems f < two64 ->
  number = size_max \/ number * m_blockItems f <= size f ->
  0 <= requested_block size_max number /\
  requested_block size_max number * m_blockItems f < two64.
Proof.
  intros [[Hi Hi'] [Hs Hs']] [Hn Hn'] Hfit Hheld.
  unfold requested_block. rewrite Z.eqb_refl.
  destruct (Z.eq_dec number size_max) as [-> | Hne].
  - replace (size_max + 1) with two64 by (unfold size_max; lia).
    unfold wrap64. rewrite Z.mod_same by (unfold two64; lia).
    split; [lia | unfold two64; simpl; lia].
  - destruct Hheld as [H | H]; [contradiction|].
    rewrite wrap64_small by (unfold is_u64, size_max in *; lia).
    split; [lia|]. lia.
Qed.

(** C9: for a request whose product of block index and block length fits
    the unsigned 64-bit type in which the source computes it, as the
    requests of a stream do ([stream_request_fits]), [get_block_check]
    throws [end_of_stream_exception] exactly when that product exceeds the
    item count of the file; in particular block [n] of a file of exactly
    [n] full blocks may be requested. *)
Theorem C9_get_block_check f block :
  file_wf f -> 0 <= block -> block * m_blockItems f < two64 ->
  (get_block_check f block = Err end_of_stream_exception <->
   block * m_blockItems f > size f) /\
  (size f = block * m_blockItems f -> get_block_check f block = Ok tt).
Proof.
  intros Hwf Hb Hlt. split.
  - exact (get_block_check_no_overflow f block Hb Hwf Hlt).
  - intros Hsz. exact (get_block_check_full_blocks f block Hb Hwf Hsz).
Qed.

(** C9 on a file of two full blocks of four items: block 3 is behind the
    end, block 2 may be requested. *)
Lemma C9_get_block_check_witness :
  file_wf (mk_file 4 8) /\
  get_block_check (mk_file 4 8) 3 = Err end_of_stream_exception /\
  get_block_check (mk_file 4 8) 2 = Ok tt.
Proof.
  assert (Hwf : file_wf (mk_file 4 8)) by (unfold file_wf, is_u64, two64; simpl; lia).
  split; [exact Hwf|]. split.
  - apply (C9_get_block_check (mk_file 4 8) 3 Hwf); [lia | unfold two64; simpl; lia |].
    simpl. lia.
  - apply (C9_get_block_check (mk_file 4 8) 2 Hwf); [lia | unfold two64; simpl; lia |].
    reflexivity.
Defined.

(** The product is taken in 64 bits: for an index as large as [2^63],
    which is not the successor of a block of the file, it wraps. *)
Example get_block_check_wraps :
  let f := mk_file 2 0 in
  file_wf f /\ 2 ^ 63 * m_blockItems f > size f /\
  get_block_check f (2 ^ 63) = Ok tt.
Proof.
  simpl. unfold file_wf, is_u64, two64. simpl.
  repeat split; try lia; reflexivity.
Qed.

End FileBase.

(** * pipelining/runtime.cpp *)

(** ** Numbers: [double] and its conversions *)

(** Implicit conversion of an unsigned 64-bit integer to [double]:
    rounding to nearest, ties to even. *)
Definition double_of_size (z : Z) : float :=
  SF2Prim (binary_normalize prec emax z 0 false).

(** [static_cast<memory_size_type>(v)]: truncation towards zero.  C++
    leaves the conversion undefined when the truncated value is not
    representable (negative below -1, [2^64] and above, NaN); the model
    returns 0 for those but for the large values, which it reduces
    modulo [2^64]. *)
Definition size_of_double (v : float) : Z :=
  match Prim2SF v with
  | S754_finite false m e =>
      wrap64 (if 0 <=? e then Z.pos m * 2 ^ e else Z.pos m / 2 ^ (- e))
  | _ => 0
  end.

(** [std::min] and [std::max] on [double]. *)
Definition fmin (a b : float) : float := if PrimFloat.ltb b a then b else a.
Definition fmax (a b : float) : float := if PrimFloat.ltb a b then b else a.

(** The literals [1e-9] and [1e-6], as the nearest binary64 values. *)
Definition lit_1e_9 : float := 0x1.12e0be826d695p-30%float.
Definition lit_1e_6 : float := 0x1.0c6f7a0b5ed8dp-20%float.

(** [std::numeric_limits<double>::max()]. *)
Definition double_max : float := 0x1.fffffffffffffp+1023%float.

(** ** Nodes, as the runtime sees them *)

Inductive resource_type : Type := FILES | MEMORY.

(** [node::datastructure_info_t]: what a node declares for a named
    datastructure. *)
Record datastructure_decl : Type := mk_ds_decl {
  ds_min : Z;
  ds_max : Z;
  ds_priority : float
}.

(** The capabilities of a [node] the runtime reads.  [addr] is the
    node's address: [std::map<node *, ...>] iterates in address order.
    The node's virtual methods are taken to return the same value at
    every call. *)
Record node : Type := mk_node {
  addr : nat;
  get_id : nat;
  get_minimum_resource_usage : resource_type -> Z;
  get_maximum_resource_usage : resource_type -> Z;
  get_resource_fraction : resource_type -> float;
  can_evacuate : bool;
  is_go_free : bool;
  get_datastructures : list (string * datastructure_decl)
}.

(** ** Resource allocation: [resource_runtime], [datastructure_runtime],
       [get_files_factor], [get_memory_factor] *)

Module Resource.

(** [resource_runtime::clamp] and [datastructure_runtime::clamp]. *)
Definition clamp (lo hi : Z) (v : float) : Z :=
  if PrimFloat.ltb v (double_of_size lo) then lo
  else if PrimFloat.ltb (double_of_size hi) v then hi
  else size_of_double v.

Section ResourceRuntime.

(** A [resource_runtime] is its node vector [m_nodes] and [m_type]. *)
Variable m_type : resource_type.
Variable m_nodes : list node.

Definition minimum_usage (n : node) : Z := get_minimum_resource_usage n m_type.
Definition maximum_usage (n : node) : Z := get_maximum_resource_usage n m_type.
Definition fraction (n : node) : float := get_resource_fraction n m_type.

(** The aggregates the constructor accumulates. *)
Definition sum_minimum_usage : Z :=
  fold_left (fun total n => wrap64 (total + minimum_usage n)) m_nodes 0.
Definition sum_maximum_usage : Z :=
  fold_left (fun total n => wrap64 (total + maximum_usage n)) m_nodes 0.
Definition sum_fraction : float :=
  fold_left (fun total n => PrimFloat.add total (fraction n)) m_nodes 0%float.

Definition get_assigned_usage (n : node) (factor : float) : Z :=
  clamp (minimum_usage n) (maximum_usage n) (PrimFloat.mul factor (fraction n)).

Definition sum_assigned_usage (factor : float) : Z :=
  fold_left (fun total n => wrap64 (total + get_assigned_usage n factor)) m_nodes 0.

(** [assign_usage(factor)]: the amounts passed to [set_usage], node by
    node. *)
Definition assign_usage (factor : float) : list Z :=
  map (fun n => get_assigned_usage n factor) m_nodes.

(** [assign_minimum_resource()]. *)
Definition assign_minimum_resource : list Z := map minimum_usage m_nodes.

End ResourceRuntime.

(** *** The two numeric searches

    Both loops of [get_files_factor] and [get_memory_factor] are written
    over [assigned], the amount assigned in total at a given factor.
    [fuel] bounds the number of iterations; [None] means it ran out. *)

Section Search.

Variable assigned : float -> Z.
(** The budget ([files] or [memory]) and [fraction_sum]. *)
Variable budget : Z.
Variable fraction_sum : float.

Definition factor_of (c : float) : float :=
  (double_of_size budget * c / fraction_sum)%float.

(** The exponential search: [c_hi] and [oldFilesAssigned] are the loop's
    variables; the result is the final [c_hi]. *)
Fixpoint exponential_search (fuel : nat) (c_hi : float) (old : Z) : option float :=
  match fuel with
  | O => None
  | S fuel' =>
      let a := assigned (factor_of c_hi) in
      if (a <? budget) && negb (a =? old)
      then exponential_search fuel' (c_hi * 2)%float a
      else Some c_hi
  end.

(** The binary search; the result is the final [c_lo]. *)
Fixpoint binary_search (fuel : nat) (c_lo c_hi : float) : option float :=
  match fuel with
  | O => None
  | S fuel' =>
      if PrimFloat.ltb lit_1e_6 (c_hi - c_lo)%float then
        let c := (c_lo + (c_hi - c_lo) / 2)%float in
        if assigned (factor_of c) >? budget
        then binary_search fuel' c_lo c
        else binary_search fuel' c c_hi
      else Some c_lo
  end.

(** What follows the two early returns. *)
Definition search (fuel : nat) : option float :=
  match exponential_search fuel 1%float 0 with
  | None => None
  | Some c_hi =>
      match binary_search fuel 0%float c_hi with
      | None => None
      | Some c_lo => Some (factor_of c_lo)
      end
  end.

Lemma exponential_search_fuel fuel : forall fuel' c_hi old r,
  exponential_search fuel c_hi old = Some r ->
  (fuel <= fuel')%nat ->
  exponential_search fuel' c_hi old = Some r.
Proof.
  induction fuel as [|fuel IH]; intros fuel' c_hi old r H Hle; [discriminate|].
  destruct fuel' as [|fuel']; [lia|].
  simpl in *.
  destruct ((assigned (factor_of c_hi) <? budget)
            && negb (assigned (factor_of c_hi) =? old)).
  - apply IH; [exact H | lia].
  - exact H.
Qed.

Lemma binary_search_fuel fuel : forall fuel' c_lo c_hi r,
  binary_search fuel c_lo c_hi = Some r ->
  (fuel <= fuel')%nat ->
  binary_search fuel' c_lo c_hi = Some r.
Proof.
  induction fuel as [|fuel IH]; intros fuel' c_lo c_hi r H Hle; [discriminate|].
  destruct fuel' as [|fuel']; [lia|].
  simpl in *.
  destruct (PrimFloat.ltb lit_1e_6 (c_hi - c_lo)); [|exact H].
  destruct (assigned (factor_of (c_lo + (c_hi - c_lo) / 2)) >? budget);
    (apply IH; [exact H | lia]).
Qed.

Lemma search_fuel fuel fuel' r :
  search fuel = Some r -> (fuel <= fuel')%nat -> search fuel' = Some r.
Proof.
  unfold search. intros H Hle.
  destruct (exponential_search fuel 1 0) as [c_hi|] eqn:E1; [|discriminate].
  rewrite (exponential_search_fuel _ _ _ _ _ E1 Hle).
  destruct (binary_search fuel 0 c_hi) as [c_lo|] eqn:E2; [|discriminate].
  rewrite (binary_search_fuel _ _ _ _ _ E2 Hle). exact H.
Qed.

(** The binary search only ever raises [c_lo] to a value it has tested:
    its result is the initial [c_lo] or a [c] whose total assignment did
    not exceed the budget. *)
Lemma binary_search_tested fuel : forall c_lo c_hi r,
  binary_search fuel c_lo c_hi = Some r ->
  r = c_lo \/ assigned (factor_of r) <= budget.
Proof.
  induction fuel as [|fuel IH]; intros c_lo c_hi r H; [discriminate|].
  simpl in H.
  destruct (PrimFloat.ltb lit_1e_6 (c_hi - c_lo)).
  - destruct (assigned (factor_of (c_lo + (c_hi - c_lo) / 2)) >? budget) eqn:E.
    + apply IH in H. exact H.
    + apply IH in H. destruct H as [-> | H]; [|right; exact H].
      right. rewrite Z.gtb_ltb in E. apply Z.ltb_ge in E. exact E.
  - injection H as <-. left. reflexivity.
Qed.

End Search.

(** [runtime::get_files_factor(files, frt)]. *)
Definition get_files_factor (fuel : nat) (files : Z) (nodes : list node)
  : option float :=
  let min := sum_minimum_usage FILES nodes in
  if min >? files then Some 0%float else
  let fraction_sum := sum_fraction FILES nodes in
  if PrimFloat.ltb fraction_sum lit_1e_9 then Some 0%float else
  search (sum_assigned_usage FILES nodes) files fraction_sum fuel.

(** [runtime::assign_files] and [runtime::reassign_files]: the amounts
    set on the nodes of each phase. *)
Definition reassign_files (fuel : nat) (phase : list node) (files : Z)
  : option (list Z) :=
  option_map (assign_usage FILES phase) (get_files_factor fuel files phase).

Fixpoint assign_files (fuel : nat) (phases : list (list node)) (files : Z)
  : option (list (list Z)) :=
  match phases with
  | [] => Some []
  | phase :: rest =>
      match reassign_files fuel phase files, assign_files fuel rest files with
      | Some a, Some r => Some (a :: r)
      | _, _ => None
      end
  end.

(** *** [datastructure_runtime] *)

Record datastructure_info_t : Type := mk_ds_info {
  min : Z;
  max : Z;
  priority : float;
  right_most_phase : nat;
  left_most_phase : nat;
  factor : float
}.

(** [m_datastructures], a [std::map] keyed by name: an association list
    in increasing key order. *)
Definition datastructure_runtime : Type := list (string * datastructure_info_t).

(** Applies [f] to the entry of [name], inserting at its place in the
    order when there is none. *)
Fixpoint upsert (name : string)
    (f : option datastructure_info_t -> datastructure_info_t)
    (m : datastructure_runtime) : datastructure_runtime :=
  match m with
  | [] => [(name, f None)]
  | (k, v) :: rest =>
      match String.compare name k with
      | Eq => (k, f (Some v)) :: rest
      | Lt => (name, f None) :: m
      | Gt => (k, v) :: upsert name f rest
      end
  end.

(** The body of the constructor's innermost loop. *)
Definition declare (phase : nat) (d : string * datastructure_decl)
    (m : datastructure_runtime) : datastructure_runtime :=
  let info := snd d in
  upsert (fst d)
    (fun o =>
       match o with
       | None =>
           mk_ds_info (ds_min info) (ds_max info) (ds_priority info)
                      phase phase double_max
       | Some agg =>
           mk_ds_info (Z.max (min agg) (ds_min info))
                      (Z.min (max agg) (ds_max info))
                      (fmin (priority agg) (ds_priority info))
                      phase (left_most_phase agg) (factor agg)
       end) m.

Fixpoint build_drt (phase : nat) (phases : list (list node))
    (m : datastructure_runtime) : datastructure_runtime :=
  match phases with
  | [] => m
  | nodes :: rest =>
      build_drt (S phase) rest
        (fold_left
           (fun m n => fold_left (fun m d => declare phase d m)
                                 (get_datastructures n) m)
           nodes m)
  end.

(** [datastructure_runtime::datastructure_runtime(phases, nodeMap)]. *)
Definition make_drt (phases : list (list node)) : datastructure_runtime :=
  build_drt 0 phases [].

Definition alive (phase : nat) (agg : datastructure_info_t) : bool :=
  (Nat.leb (left_most_phase agg) phase && Nat.leb phase (right_most_phase agg))%bool.

Definition sum_minimum_memory (drt : datastructure_runtime) (phase : nat) : Z :=
  fold_left (fun r p => if alive phase (snd p) then wrap64 (r + min (snd p)) else r)
            drt 0.

Definition drt_sum_fraction (drt : datastructure_runtime) (phase : nat) : float :=
  fold_left (fun r p => if alive phase (snd p)
                        then PrimFloat.add r (priority (snd p)) else r)
            drt 0%float.

(** [sum_assigned_memory(factor, phase)]. *)
Definition sum_assigned_memory_at (drt : datastructure_runtime)
    (f : float) (phase : nat) : Z :=
  fold_left
    (fun r p =>
       let agg := snd p in
       if alive phase agg
       then wrap64 (r + clamp (min agg) (max agg) (PrimFloat.mul (priority agg) f))
       else r)
    drt 0.

(** [sum_assigned_memory(phase)], with the stored factors. *)
Definition sum_assigned_memory (drt : datastructure_runtime) (phase : nat) : Z :=
  fold_left
    (fun r p =>
       let agg := snd p in
       if alive phase agg
       then wrap64 (r + clamp (min agg) (max agg)
                          (PrimFloat.mul (priority agg) (factor agg)))
       else r)
    drt 0.

Definition minimize_factor (f : float) (phase : nat)
    (drt : datastructure_runtime) : datastructure_runtime :=
  map (fun p =>
         let agg := snd p in
         if alive phase agg
         then (fst p, mk_ds_info (min agg) (max agg) (priority agg)
                        (right_most_phase agg) (left_most_phase agg)
                        (fmin (factor agg) f))
         else p)
      drt.

(** [datastructure_runtime::assign_memory()]: the sizes offered to the
    node map, by name. *)
Definition drt_assign_memory (drt : datastructure_runtime) : list (string * Z) :=
  map (fun p =>
         let agg := snd p in
         (fst p, clamp (min agg) (max agg) (PrimFloat.mul (factor agg) (priority agg))))
      drt.

(** [runtime::get_memory_factor]. *)
Definition get_memory_factor (fuel : nat) (memory : Z) (phase : nat)
    (nodes : list node) (drt : datastructure_runtime)
    (datastructures_locked : bool) : option float :=
  let min := wrap64 (sum_minimum_usage MEMORY nodes + sum_minimum_memory drt phase) in
  if min >? memory then Some 0%float else
  let fraction_sum :=
    PrimFloat.add (sum_fraction MEMORY nodes) (drt_sum_fraction drt phase) in
  if PrimFloat.ltb fraction_sum lit_1e_9 then Some 0%float else
  search
    (fun f =>
       wrap64 (sum_assigned_usage MEMORY nodes f
               + (if datastructures_locked
                  then sum_assigned_memory drt phase
                  else sum_assigned_memory_at drt f phase)))
    memory fraction_sum fuel.

(** [runtime::reassign_memory]. *)
Definition reassign_memory (fuel : nat) (nodes : list node) (phase : nat)
    (memory : Z) (drt : datastructure_runtime) : option (list Z) :=
  option_map (assign_usage MEMORY nodes)
             (get_memory_factor fuel memory phase nodes drt true).

(** The first loop of [runtime::assign_memory]. *)
Fixpoint assign_memory_pass1 (fuel : nat) (phase : nat)
    (phases : list (list node)) (memory : Z) (drt : datastructure_runtime)
  : option datastructure_runtime :=
  match phases with
  | [] => Some drt
  | nodes :: rest =>
      match get_memory_factor fuel memory phase nodes drt false with
      | Some c => assign_memory_pass1 fuel (S phase) rest memory
                    (minimize_factor c phase drt)
      | None => None
      end
  end.

(** The second loop. *)
Fixpoint assign_memory_pass2 (fuel : nat) (phase : nat)
    (phases : list (list node)) (memory : Z) (drt : datastructure_runtime)
  : option (list (list Z)) :=
  match phases with
  | [] => Some []
  | nodes :: rest =>
      match reassign_memory fuel nodes phase memory drt,
            assign_memory_pass2 fuel (S phase) rest memory drt with
      | Some a, Some r => Some (a :: r)
      | _, _ => None
      end
  end.

(** [runtime::assign_memory]: the amounts set on the nodes of each phase,
    the datastructure runtime with its factors, and the sizes of the
    datastructures. *)
Definition assign_memory (fuel : nat) (phases : list (list node)) (memory : Z)
    (drt : datastructure_runtime)
  : option (list (list Z) * datastructure_runtime * list (string * Z)) :=
  match assign_memory_pass1 fuel 0 phases memory drt with
  | None => None
  | Some drt1 =>
      match assign_memory_pass2 fuel 0 phases memory drt1 with
      | None => None
      | Some a => Some (a, drt1, drt_assign_memory drt1)
      end
  end.

(** *** More fuel does not change a result *)

Lemma get_memory_factor_fuel fuel fuel' memory phase nodes drt locked r :
  get_memory_factor fuel memory phase nodes drt locked = Some r ->
  (fuel <= fuel')%nat ->
  get_memory_factor fuel' memory phase nodes drt locked = Some r.
Proof.
  unfold get_memory_factor. intros H Hle.
  destruct (_ >? memory); [exact H|].
  destruct (PrimFloat.ltb _ lit_1e_9); [exact H|].
  eapply search_fuel; eassumption.
Qed.

Lemma get_files_factor_fuel fuel fuel' files nodes r :
  get_files_factor fuel files nodes = Some r ->
  (fuel <= fuel')%nat ->
  get_files_factor fuel' files nodes = Some r.
Proof.
  unfold get_files_factor. intros H Hle.
  destruct (_ >? files); [exact H|].
  destruct (PrimFloat.ltb _ lit_1e_9); [exact H|].
  eapply search_fuel; eassumption.
Qed.

Lemma reassign_files_fuel fuel fuel' phase files r :
  reassign_files fuel phase files = Some r ->
  (fuel <= fuel')%nat ->
  reassign_files fuel' phase files = Some r.
Proof.
  unfold reassign_files. intros H Hle.
  destruct (get_files_factor fuel files phase) as [c|] eqn:E; [|discriminate].
  rewrite (get_files_factor_fuel _ _ _ _ _ E Hle). exact H.
Qed.

Lemma assign_memory_pass1_fuel fuel fuel' memory phases :
  (fuel <= fuel')%nat ->
  forall phase drt r,
  assign_memory_pass1 fuel phase phases memory drt = Some r ->
  assign_memory_pass1 fuel' phase phases memory drt = Some r.
Proof.
  intros Hle. induction phases as [|nodes rest IH]; intros phase drt r H.
  - exact H.
  - simpl in *.
    destruct (get_memory_factor fuel memory phase nodes drt false) as [c|] eqn:E;
      [|discriminate].
    rewrite (get_memory_factor_fuel _ _ _ _ _ _ _ _ E Hle). apply IH. exact H.
Qed.

Lemma assign_memory_pass2_fuel fuel fuel' memory drt phases :
  (fuel <= fuel')%nat ->
  forall phase r,
  assign_memory_pass2 fuel phase phases memory drt = Some r ->
  assign_memory_pass2 fuel' phase phases memory drt = Some r.
Proof.
  intros Hle. induction phases as [|nodes rest IH]; intros phase r H.
  - exact H.
  - simpl in *. unfold reassign_memory in *.
    destruct (get_memory_factor fuel memory phase nodes drt true) as [c|] eqn:E;
      [|discriminate].
    rewrite (get_memory_factor_fuel _ _ _ _ _ _ _ _ E Hle). simpl in *.
    destruct (assign_memory_pass2 fuel (S phase) rest memory drt) as [a|] eqn:E2;
      [|discriminate].
    rewrite (IH _ _ E2). exact H.
Qed.

Lemma assign_memory_fuel fuel fuel' phases memory drt r :
  assign_memory fuel phases memory drt = Some r ->
  (fuel <= fuel')%nat ->
  assign_memory fuel' phases memory drt = Some r.
Proof.
  unfold assign_memory. intros H Hle.
  destruct (assign_memory_pass1 fuel 0 phases memory drt) as [drt1|] eqn:E1;
    [|discriminate].
  rewrite (assign_memory_pass1_fuel _ _ _ _ Hle _ _ _ E1).
  destruct (assign_memory_pass2 fuel 0 phases memory drt1) as [a|] eqn:E2;
    [|discriminate].
  rewrite (assign_memory_pass2_fuel _ _ _ _ _ Hle _ _ E2). exact H.
Qed.

(** *** What the search guarantees *)

(** A sum accumulated in a 64-bit variable is the sum modulo [2^64]. *)
Lemma fold_wrap_sum {A} (f : A -> Z) (l : list A) : forall acc,
  fold_left (fun total n => wrap64 (total + f n)) l (wrap64 acc)
  = wrap64 (acc + fold_right (fun n s => f n + s) 0 l).
Proof.
  induction l as [|a l IH]; intros acc; simpl.
  - f_equal. lia.
  - replace (wrap64 (wrap64 acc + f a)) with (wrap64 (acc + f a)).
    + rewrite IH. f_equal. lia.
    + unfold wrap64. rewrite Zplus_mod_idemp_l. reflexivity.
Qed.

(** The sum of the amounts [assign_usage] sets, as a mathematical
    integer. *)
Definition total_assigned (ty : resource_type) (nodes : list node) (f : float) : Z :=
  fold_right (fun n s => get_assigned_usage ty n f + s) 0 nodes.

Lemma sum_assigned_usage_total ty nodes f :
  sum_assigned_usage ty nodes f = wrap64 (total_assigned ty nodes f).
Proof.
  unfold sum_assigned_usage, total_assigned.
  change 0 with (wrap64 0) at 1.
  rewrite (fold_wrap_sum (fun n => get_assigned_usage ty n f)). reflexivity.
Qed.

(** The factor [get_files_factor] returns is 0, or the factor of
    [c_lo = 0], or a factor at which the 64-bit total was found within
    the budget. *)
Lemma get_files_factor_tested fuel files nodes f :
  get_files_factor fuel files nodes = Some f ->
  f = 0%float \/
  f = factor_of files (sum_fraction FILES nodes) 0%float \/
  sum_assigned_usage FILES nodes f <= files.
Proof.
  unfold get_files_factor, search. intros H.
  destruct (_ >? files); [injection H as <-; left; reflexivity|].
  destruct (PrimFloat.ltb _ lit_1e_9); [injection H as <-; left; reflexivity|].
  destruct (exponential_search _ _ _ fuel 1 0) as [c_hi|]; [|discriminate].
  destruct (binary_search _ _ _ fuel 0 c_hi) as [c_lo|] eqn:E; [|discriminate].
  injection H as <-.
  apply binary_search_tested in E. destruct E as [-> | E].
  - right. left. reflexivity.
  - right. right. exact E.
Qed.

(** Hence: when at factor 0 every node gets its minimum, the minima fit
    the budget and the total of the returned assignment does not wrap, the
    total is within the budget. *)
Lemma files_within_budget fuel files nodes f :
  get_files_factor fuel files nodes = Some f ->
  sum_minimum_usage FILES nodes <= files ->
  factor_of files (sum_fraction FILES nodes) 0%float = 0%float ->
  assign_usage FILES nodes 0%float = assign_minimum_resource FILES nodes ->
  total_assigned FILES nodes f < two64 ->
  Forall (fun a => 0 <= a) (assign_usage FILES nodes f) ->
  total_assigned FILES nodes f <= files.
Proof.
  intros H Hmin H0 Hz Hnw Hpos.
  assert (Hnn : 0 <= total_assigned FILES nodes f).
  { clear - Hpos. unfold total_assigned, assign_usage in *.
    induction nodes as [|n l IH]; simpl; [lia|].
    inversion Hpos; subst. specialize (IH H2). lia. }
  assert (Hz' : sum_assigned_usage FILES nodes 0%float = sum_minimum_usage FILES nodes).
  { unfold sum_assigned_usage, sum_minimum_usage.
    unfold assign_usage, assign_minimum_resource in Hz.
    clear - Hz. generalize 0 as acc. induction nodes as [|n l IH]; intros acc; simpl.
    - reflexivity.
    - simpl in Hz. injection Hz as Hn Hl. rewrite Hn. apply IH. exact Hl. }
  rewrite <- (wrap64_small (total_assigned FILES nodes f)) by (split; assumption).
  rewrite <- sum_assigned_usage_total.
  destruct (get_files_factor_tested _ _ _ _ H) as [-> | [-> | Ht]].
  - rewrite Hz'. exact Hmin.
  - rewrite H0, Hz'. exact Hmin.
  - exact Ht.
Qed.

(** *** The memory split of the specification's scenario *)

Definition split_node_1 : node :=
  mk_node 0 0 (fun _ => 100) (fun _ => 1000) (fun _ => 1%float) false false [].
Definition split_node_2 : node :=
  mk_node 1 1 (fun _ => 200) (fun _ => 400) (fun _ => 3%float) false false [].
Definition split_phases : list (list node) := [[split_node_1; split_node_2]].

(** C5, as stated, fails: with budget 800 the first node is assigned 399,
    not 400.  The binary search approaches [c = 2] from below and stops at
    [c_lo = 2 - 2^-20]; the factor is [800 * c_lo / 4 = 399.9998...],
    which the conversion to an integer truncates. *)
Lemma C5_first_node_gets_399 :
  get_memory_factor 22 800 0 [split_node_1; split_node_2] [] true
    = Some 0x1.8ffff38p+8%float /\
  get_assigned_usage MEMORY split_node_1 0x1.8ffff38p+8%float = 399 /\
  399 <> 400.
Proof.
  split; [vm_compute; reflexivity|].
  split; [vm_compute; reflexivity | discriminate].
Qed.

(** C5 (amended): for the two nodes (min=100, max=1000, fraction=1) and
    (min=200, max=400, fraction=3) in one phase, no datastructures and a
    memory budget of 800, the allocator assigns exactly 400 to the second
    node, capped at its maximum, and exactly 399 to the first. *)
Theorem C5_memory_split (fuel : nat) :
  (22 <= fuel)%nat ->
  assign_memory fuel split_phases 800 (make_drt split_phases)
    = Some ([[399; 400]], [], []).
Proof.
  intros Hle. apply (assign_memory_fuel 22); [|exact Hle].
  vm_compute. reflexivity.
Qed.

Lemma C5_memory_split_witness :
  (22 <= 64)%nat /\
  assign_memory 64 split_phases 800 (make_drt split_phases)
    = Some ([[399; 400]], [], []).
Proof.
  assert (H : (22 <= 64)%nat) by lia.
  split; [exact H | exact (C5_memory_split 64 H)].
Defined.

(** *** A budget at the top of the 64-bit range *)

Definition wide_node_1 : node :=
  mk_node 0 0 (fun _ => 10) (fun _ => 10) (fun _ => 2%float) false false [].
Definition wide_node_2 : node :=
  mk_node 1 1 (fun _ => 0) (fun _ => size_max) (fun _ => 1%float) false false [].

(** C4, at the failing input: a file budget of [2^64 - 1] and two nodes,
    (min=10, max=10, fraction=2) and (min=0, max=2^64-1, fraction=1).
    The minima sum to 10, within the budget.  The nodes are assigned 10
    and [2^64 - 1]: [sum_assigned_usage] adds them modulo [2^64] and finds
    9, so the search accepts the factor, while the amounts assigned exceed
    the budget by 10. *)
Theorem C4_assigned_sum_wraps :
  sum_minimum_usage FILES [wide_node_1; wide_node_2] = 10 /\
  10 <= size_max /\
  reassign_files 24 [wide_node_1; wide_node_2] size_max
    = Some [10; size_max] /\
  option_map (sum_assigned_usage FILES [wide_node_1; wide_node_2])
             (get_files_factor 24 size_max [wide_node_1; wide_node_2])
    = Some 9 /\
  10 + size_max > size_max.
Proof.
  split; [vm_compute; reflexivity|].
  split; [vm_compute; discriminate|].
  split; [vm_compute; reflexivity|].
  split; [vm_compute; reflexivity|].
  lia.
Qed.

End Resource.

Local Open Scope nat_scope.
Local Open Scope result_scope.

(** ** Small containers *)

(** A [std::map] or [std::unordered_map] with [nat] keys, when only
    looked up and updated: an association list, latest binding first. *)
Fixpoint lookup {A} (k : nat) (m : list (nat * A)) : option A :=
  match m with
  | [] => None
  | (k', a) :: rest => if k' =? k then Some a else lookup k rest
  end.

(** A [std::set<T>], and the key order of a [std::map]: insertion into
    a list kept in increasing order, without repetition. *)
Fixpoint set_insert (v : nat) (s : list nat) : list nat :=
  match s with
  | [] => [v]
  | k :: rest =>
      if v <? k then v :: s
      else if v =? k then s
      else k :: set_insert v rest
  end.

Definition pair_ltb (p q : nat * nat) : bool :=
  (fst p <? fst q) || ((fst p =? fst q) && (snd p <? snd q)).
Definition pair_eqb (p q : nat * nat) : bool :=
  (fst p =? fst q) && (snd p =? snd q).

(** A [std::set<std::pair<size_t, size_t>>]. *)
Fixpoint pset_insert (p : nat * nat) (s : list (nat * nat)) : list (nat * nat) :=
  match s with
  | [] => [p]
  | q :: rest =>
      if pair_ltb p q then p :: s
      else if pair_eqb p q then s
      else q :: pset_insert p rest
  end.

Definition pset_mem (p : nat * nat) (s : list (nat * nat)) : bool :=
  existsb (pair_eqb p) s.

Definition pset_erase (p : nat * nat) (s : list (nat * nat)) : list (nat * nat) :=
  filter (fun q => negb (pair_eqb p q)) s.

Definition mem (v : nat) (s : list nat) : bool := existsb (Nat.eqb v) s.

(** [std::sort] of a vector of pairs with [std::greater]: decreasing
    lexicographic order. *)
Fixpoint insert_desc (p : nat * nat) (l : list (nat * nat)) : list (nat * nat) :=
  match l with
  | [] => [p]
  | q :: rest => if pair_ltb p q then q :: insert_desc p rest else p :: l
  end.

Definition sort_desc (l : list (nat * nat)) : list (nat * nat) :=
  fold_right insert_desc [] l.

(** ** The directed graph [graph<T>] *)

Module Graph.

(** [m_edgeLists], a [std::map<T, std::vector<T>>], as an association
    list in increasing key order.  [m_nodes] always holds the keys of
    [m_edgeLists]: [add_node] is the only function that inserts into
    either, and it inserts into both.  Labels are natural numbers. *)
Definition graph : Type := list (nat * list nat).

Definition empty : graph := [].

Fixpoint add_node (v : nat) (g : graph) : graph :=
  match g with
  | [] => [(v, [])]
  | (k, es) :: rest =>
      if v <? k then (v, []) :: g
      else if v =? k then g
      else (k, es) :: add_node v rest
  end.

(** [m_edgeLists[u].push_back(v)], for a node [u] of the graph. *)
Fixpoint push_back (u v : nat) (g : graph) : graph :=
  match g with
  | [] => []
  | (k, es) :: rest =>
      if k =? u then (k, es ++ [v]) :: rest else (k, es) :: push_back u v rest
  end.

Definition add_edge (u v : nat) (g : graph) : graph :=
  push_back u v (add_node v (add_node u g)).

(** [std::find] and [erase]: the first occurrence goes. *)
Fixpoint erase_first (v : nat) (es : list nat) : list nat :=
  match es with
  | [] => []
  | e :: rest => if e =? v then rest else e :: erase_first v rest
  end.

(** [remove_edge(u, v)], for a node [u] of the graph. *)
Fixpoint remove_edge (u v : nat) (g : graph) : graph :=
  match g with
  | [] => []
  | (k, es) :: rest =>
      if k =? u then (k, erase_first v es) :: rest
      else (k, es) :: remove_edge u v rest
  end.

Definition get_node_set (g : graph) : list nat := map fst g.

(** [None] where the source finds no entry. *)
Definition get_edge_list (g : graph) (u : nat) : option (list nat) := lookup u g.

Definition size (g : graph) : nat := List.length g.

Definition has_edge (g : graph) (u v : nat) : bool :=
  match get_edge_list g u with
  | Some es => mem v es
  | None => false
  end.

(** [u -> v] is an edge of [g]. *)
Definition edge (g : graph) (u v : nat) : Prop :=
  exists es, get_edge_list g u = Some es /\ In v es.

(** *** [depth_first_search] *)

Record dfs : Type := mk_dfs {
  m_time : nat;
  m_finishTime : list (nat * nat)
}.

(** What [visit] returns: [BAD], the largest [size_t], or a finish
    time.  [m_time] grows by two for each node and stays far below
    [BAD], which is kept apart from the finish times here. *)
Inductive visit_result : Type :=
| BAD
| finished (t : nat).

(** The loop of [visit] over the edge list; [rec] is [visit] itself. *)
Fixpoint visit_edges (rec : nat -> dfs -> result (visit_result * dfs))
    (es : list nat) (d : dfs) : result (bool * dfs) :=
  match es with
  | [] => Ok (false, d)
  | e :: rest =>
      r <- rec e d ;;
      match r with
      | (BAD, d') => Ok (true, d')
      | (finished _, d') => visit_edges rec rest d'
      end
  end.

Fixpoint visit (fuel : nat) (g : graph) (u : nat) (d : dfs)
  : result (visit_result * dfs) :=
  match fuel with
  | O => Err out_of_fuel
  | S fuel' =>
      match lookup u (m_finishTime d) with
      | Some t => Ok (if t =? 0 then BAD else finished t, d)
      | None =>
          let d1 := mk_dfs (S (m_time d)) ((u, 0) :: m_finishTime d) in
          match get_edge_list g u with
          | None => Err (exception "get_edge_list: no such node")
          | Some es =>
              r <- visit_edges (visit fuel' g) es d1 ;;
              match r with
              | (true, d2) => Ok (BAD, d2)
              | (false, d2) =>
                  Ok (finished (m_time d2),
                      mk_dfs (S (m_time d2)) ((u, m_time d2) :: m_finishTime d2))
              end
          end
      end
  end.

(** The recursion of [visit] is at most as deep as the graph has nodes. *)
Definition dfs_fuel (g : graph) : nat := S (List.length g).

Definition dfs_init : dfs := mk_dfs 0 [].

(** [check_acyclical()]. *)
Fixpoint check_acyclical_loop (g : graph) (vs : list nat) (d : dfs) : result bool :=
  match vs with
  | [] => Ok true
  | v :: rest =>
      r <- visit (dfs_fuel g) g v d ;;
      match r with
      | (BAD, _) => Ok false
      | (finished _, d') => check_acyclical_loop g rest d'
      end
  end.

Definition check_acyclical (g : graph) : result bool :=
  check_acyclical_loop g (get_node_set g) dfs_init.

Definition validate_acyclical (g : graph) : result unit :=
  b <- check_acyclical g ;;
  if b then Ok tt else Err not_a_dag_exception.

(** The loop of [topological_order] and of
    [rootfirst_topological_order]: visits [vs] in turn and collects the
    pairs of finish time and node.  [strict] tells whether [BAD] is
    checked for. *)
Fixpoint finish_times (strict : bool) (g : graph) (vs : list nat) (d : dfs)
  : result (list (nat * nat)) :=
  match vs with
  | [] => Ok []
  | v :: rest =>
      r <- visit (dfs_fuel g) g v d ;;
      match r with
      | (BAD, d') =>
          if strict then Err not_a_dag_exception
          else ps <- finish_times strict g rest d' ;;
               Ok ((Z.to_nat size_max, v) :: ps)
      | (finished t, d') =>
          ps <- finish_times strict g rest d' ;; Ok ((t, v) :: ps)
      end
  end.

(** The vector [nodes] starts with [N] value-initialised pairs, the
    visited nodes are pushed behind them, and the first [N] pairs of the
    sorted vector are kept. *)
Definition by_finish_time (g : graph) (ps : list (nat * nat)) : list nat :=
  let N := size g in
  map snd (firstn N (sort_desc (repeat (0, 0) N ++ ps))).

Definition topological_order (g : graph) : result (list nat) :=
  ps <- finish_times true g (get_node_set g) dfs_init ;;
  Ok (by_finish_time g ps).

Definition rootfirst_topological_order (g : graph) : result (list nat) :=
  topologicalOrder <- topological_order g ;;
  ps <- finish_times false g topologicalOrder dfs_init ;;
  Ok (by_finish_time g ps).

(** [sort_edge_list(u, comp)].  [std::sort] may order equivalent
    elements in any way; the model keeps them in their order. *)
Fixpoint insert_by (comp : nat -> nat -> bool) (a : nat) (l : list nat) : list nat :=
  match l with
  | [] => [a]
  | b :: rest => if comp a b then a :: l else b :: insert_by comp a rest
  end.

Definition stable_sort (comp : nat -> nat -> bool) (l : list nat) : list nat :=
  fold_left (fun acc a => insert_by comp a acc) l [].

Fixpoint sort_edge_list (u : nat) (comp : nat -> nat -> bool) (g : graph) : graph :=
  match g with
  | [] => []
  | (k, es) :: rest =>
      if k =? u then (k, stable_sort comp es) :: rest
      else (k, es) :: sort_edge_list u comp rest
  end.

(** *** [SCC]: Tarjan's algorithm *)

Record scc : Type := mk_scc {
  index : nat;
  S_ : list nat;                  (* the stack [S], top first *)
  indices : list (nat * nat);
  lowlinks : list (nat * nat);
  onStack : list (nat * bool);
  components : list (list nat)     (* each a [std::set<T>] *)
}.

Definition scc_init : scc := mk_scc 0 [] [] [] [] [].

(** [m[k]] on a [std::map<T, size_t>] or [std::map<T, bool>]: a missing
    entry reads as the value-initialised one. *)
Definition at_ (m : list (nat * nat)) (k : nat) : nat :=
  match lookup k m with Some v => v | None => 0 end.
Definition at_bool (m : list (nat * bool)) (k : nat) : bool :=
  match lookup k m with Some b => b | None => false end.

(** [lowlinks[u] = std::min(lowlinks[u], lowlinks[v])]. *)
Definition min_lowlink (u v : nat) (st : scc) : scc :=
  mk_scc (index st) (S_ st) (indices st)
         ((u, Nat.min (at_ (lowlinks st) u) (at_ (lowlinks st) v)) :: lowlinks st)
         (onStack st) (components st).

(** The first five statements of [SCC::visit]. *)
Definition enter (u : nat) (st : scc) : scc :=
  mk_scc (S (index st)) (u :: S_ st)
         ((u, index st) :: indices st)
         ((u, index st) :: lowlinks st)
         ((u, true) :: onStack st)
         (components st).

(** The [do ... while (v != u)] loop: pops the stack down to [u]. *)
Fixpoint pop_component (u : nat) (stack : list nat) (on : list (nat * bool))
    (component : list nat) : list nat * list (nat * bool) * list nat :=
  match stack with
  | [] => ([], on, component)
  | v :: rest =>
      let on' := (v, false) :: on in
      let component' := set_insert v component in
      if v =? u then (rest, on', component')
      else pop_component u rest on' component'
  end.

(** The last statement of [SCC::visit]. *)
Definition close_component (u : nat) (st : scc) : scc :=
  if at_ (indices st) u =? at_ (lowlinks st) u then
    let '(stack, on, component) := pop_component u (S_ st) (onStack st) [] in
    mk_scc (index st) stack (indices st) (lowlinks st) on
           (components st ++ [component])
  else st.

(** The loop of [SCC::visit] over the edge list; [rec] is [visit]. *)
Fixpoint scc_edges (rec : nat -> scc -> result scc) (u : nat)
    (es : list nat) (st : scc) : result scc :=
  match es with
  | [] => Ok st
  | v :: rest =>
      match lookup v (indices st) with
      | None =>
          st' <- rec v st ;;
          scc_edges rec u rest (min_lowlink u v st')
      | Some _ =>
          if at_bool (onStack st) v
          then scc_edges rec u rest (min_lowlink u v st)
          else scc_edges rec u rest st
      end
  end.

Fixpoint scc_visit (fuel : nat) (g : graph) (u : nat) (st : scc) : result scc :=
  match fuel with
  | O => Err out_of_fuel
  | S fuel' =>
      match get_edge_list g u with
      | None => Err (exception "get_edge_list: no such node")
      | Some es =>
          st' <- scc_edges (scc_visit fuel' g) u es (enter u st) ;;
          Ok (close_component u st')
      end
  end.

(** The loop of [get_components()]. *)
Fixpoint scc_loop (g : graph) (vs : list nat) (st : scc) : result scc :=
  match vs with
  | [] => Ok st
  | u :: rest =>
      match lookup u (indices st) with
      | None => st' <- scc_visit (dfs_fuel g) g u st ;; scc_loop g rest st'
      | Some _ => scc_loop g rest st
      end
  end.

Definition get_components (g : graph) : result (list (list nat)) :=
  st <- scc_loop g (get_node_set g) scc_init ;;
  Ok (components st).

(** [strongly_connected_components()]. *)
Definition strongly_connected_components (g : graph) : result (list (list nat)) :=
  cs <- get_components g ;;
  Ok (rev cs).

(** [m_edgeLists.find(u)->second], for a node [u] of the graph. *)
Definition edge_list (g : graph) (u : nat) : list nat :=
  match get_edge_list g u with Some es => es | None => [] end.

(** The expansion of a contracted node, as [bruteforce_satisfiable_edges]
    and [runtime::get_phases] both write it: the first occurrence of [i]
    in [order] becomes the last element of [path], and the rest of [path]
    is inserted before it.  When [i] does not occur, [std::find] returns
    the end iterator and the assignment through it is undefined; so is
    [*path.rbegin()] on an empty [path]. *)
Fixpoint expand_contracted (i : nat) (path : list nat) (order : list nat)
  : result (list nat) :=
  match order with
  | [] => Err (undefined "*it, it == end()")
  | x :: rest =>
      if x =? i then
        match path with
        | [] => Err (undefined "*path.rbegin(), path empty")
        | _ => Ok (path ++ rest)
        end
      else
        rest' <- expand_contracted i path rest ;; Ok (x :: rest')
  end.

(** The loop that expands every contracted node; [paths] maps a
    contracted node to the graph of the edges contracted into it. *)
Fixpoint expand_all (paths : list (nat * graph)) (order : list nat)
  : result (list nat) :=
  match paths with
  | [] => Ok order
  | (i, g) :: rest =>
      path <- topological_order g ;;
      order' <- expand_contracted i path order ;;
      expand_all rest order'
  end.

End Graph.

(** ** [tpie::disjoint_sets] *)

Module DisjointSets.

(** Modelled from the spec: [tpie/disjoint_sets.h] is not among the
    sources.  The specification names the structure a union-find:
    [make_set] makes an element a class of its own, [find_set] returns the
    representative of an element's class, [union_set] merges two classes.
    The structure is a parent map; the class that [union_set] gets as its
    first argument keeps its representative. *)
Definition disjoint_sets : Type := list (nat * nat).

Definition make_set (e : nat) (d : disjoint_sets) : disjoint_sets := (e, e) :: d.

Fixpoint find_set_from (fuel : nat) (d : disjoint_sets) (t : nat) : nat :=
  match fuel with
  | O => t
  | S fuel' =>
      match lookup t d with
      | Some p => if p =? t then t else find_set_from fuel' d p
      | None => t
      end
  end.

Definition find_set (d : disjoint_sets) (t : nat) : nat :=
  find_set_from (S (List.length d)) d t.

Definition union_set (a b : nat) (d : disjoint_sets) : disjoint_sets :=
  let ra := find_set d a in
  let rb := find_set d b in
  if ra =? rb then d else (rb, ra) :: d.

End DisjointSets.

(** ** [satisfiable_graph] *)

Module Satisfiable.

Import Graph.

Record satisfiable_graph : Type := mk_sg {
  m_graph : graph;
  m_satisfiableEdges : list (nat * nat)   (* a [std::set] of pairs *)
}.

Definition empty : satisfiable_graph := mk_sg Graph.empty [].

Definition add_node (u : nat) (sg : satisfiable_graph) : satisfiable_graph :=
  mk_sg (Graph.add_node u (m_graph sg)) (m_satisfiableEdges sg).

Definition add_edge (u v : nat) (satisfiable : bool) (sg : satisfiable_graph)
  : satisfiable_graph :=
  mk_sg (Graph.add_edge u v (m_graph sg))
        (if satisfiable then pset_insert (u, v) (m_satisfiableEdges sg)
         else m_satisfiableEdges sg).

Definition remove_edge (u v : nat) (sg : satisfiable_graph) : satisfiable_graph :=
  mk_sg (Graph.remove_edge u v (m_graph sg))
        (pset_erase (u, v) (m_satisfiableEdges sg)).

Definition get_node_set (sg : satisfiable_graph) : list nat :=
  Graph.get_node_set (m_graph sg).

Definition max_bruteforce_depth : nat := 10.
Definition max_bruteforce_satisfiable : nat := 18.

(** *** [paths] and [preprocess] *)

(** A [std::unordered_map<node_t, size_t>] that is looked up and
    updated key by key (the indegrees below): a missing entry reads as 0,
    and the values are 64-bit. *)
Definition counts : Type := list (nat * Z).

Definition count_at (m : counts) (w : nat) : Z :=
  match lookup w m with Some c => c | None => 0%Z end.

Fixpoint count_set (w : nat) (c : Z) (m : counts) : counts :=
  match m with
  | [] => [(w, c)]
  | (k, x) :: rest =>
      if k =? w then (k, c) :: rest else (k, x) :: count_set w c rest
  end.

(** [result[w] += d]. *)
Definition count_add (w : nat) (d : Z) (m : counts) : counts :=
  count_set w (wrap64 (count_at m w + d)) m.

(** [nodeIndices]: the position of a node in the node set. *)
Fixpoint index_of (nodes : list nat) (u : nat) : nat :=
  match nodes with
  | [] => 0
  | x :: rest => if x =? u then 0 else S (index_of rest u)
  end.

(** The path counts [paths] returns, a
    [std::unordered_map<node_t, size_t>] whose keys are nodes of the
    graph: the list of its values at the nodes, in the order of the node
    set.  A missing entry reads as 0. *)
Definition path_counts : Type := list Z.

Definition no_paths (nodes : list nat) : path_counts := map (fun _ => 0%Z) nodes.

Definition paths_to (nodes : list nat) (m : path_counts) (v : nat) : Z :=
  nth (index_of nodes v) m 0%Z.

(** [result[v]++]. *)
Fixpoint increment (nodes : list nat) (v : nat) (m : path_counts) : path_counts :=
  match nodes, m with
  | w :: nodes', c :: m' =>
      if w =? v then wrap64 (c + 1) :: m' else c :: increment nodes' v m'
  | _, _ => m
  end.

(** [for (node_t w : get_node_set()) result[w] += pv[w]]. *)
Fixpoint add_counts (m pv : path_counts) : path_counts :=
  match m, pv with
  | c :: m', d :: pv' => wrap64 (c + d) :: add_counts m' pv'
  | _, _ => m
  end.

Definition cache : Type := list (nat * path_counts).

(** The loop of [paths] over the edge list of [u]; [rec] is [paths].
    The source calls [paths(v, cache)] once for every [w]; all calls
    return the same counts, the model makes one. *)
Fixpoint paths_edges (rec : nat -> cache -> result (path_counts * cache))
    (nodes es : list nat) (res : path_counts) (c : cache)
  : result (path_counts * cache) :=
  match es with
  | [] => Ok (res, c)
  | v :: rest =>
      r <- rec v c ;;
      paths_edges rec nodes rest
        (add_counts (increment nodes v res) (fst r)) (snd r)
  end.

(** [paths(u, cache)].  The source returns the cached counts when they
    are not empty, and computes empty counts anew. *)
Fixpoint paths (fuel : nat) (sg : satisfiable_graph) (u : nat) (c : cache)
  : result (path_counts * cache) :=
  match fuel with
  | O => Err out_of_fuel
  | S fuel' =>
      match lookup u c with
      | Some m => Ok (m, c)
      | None =>
          match edge_list (m_graph sg) u with
          | [] => Ok (no_paths (get_node_set sg), c)
          | es =>
              r <- paths_edges (paths fuel' sg) (get_node_set sg) es
                               (no_paths (get_node_set sg)) c ;;
              Ok (fst r, (u, fst r) :: snd r)
          end
      end
  end.

(** The first inner loop of [preprocess]: the edges of [u] to remove. *)
Fixpoint unnecessary_edges (sg : satisfiable_graph) (u : nat) (es : list nat)
    (c : cache) : result (list nat * cache) :=
  match es with
  | [] => Ok ([], c)
  | v :: rest =>
      r <- paths (dfs_fuel (m_graph sg)) sg u c ;;
      r' <- unnecessary_edges sg u rest (snd r) ;;
      Ok (if (paths_to (get_node_set sg) (fst r) v >? 1)%Z
          then v :: fst r' else fst r', snd r')
  end.

Fixpoint preprocess_loop (us : list nat) (sg : satisfiable_graph) (c : cache)
  : result satisfiable_graph :=
  match us with
  | [] => Ok sg
  | u :: rest =>
      r <- unnecessary_edges sg u (edge_list (m_graph sg) u) c ;;
      preprocess_loop rest
        (fold_left (fun s v => remove_edge u v s) (fst r) sg) (snd r)
  end.

Definition preprocess (sg : satisfiable_graph) : result satisfiable_graph :=
  validate_acyclical (m_graph sg) ;;;
  preprocess_loop (get_node_set sg) sg [].

(** *** [subgraph] and [split_graph] *)

Definition subgraph (sg : satisfiable_graph) (nodes : list nat) : satisfiable_graph :=
  fold_left
    (fun g u =>
       fold_left
         (fun g v =>
            if mem v nodes
            then add_edge u v (pset_mem (u, v) (m_satisfiableEdges sg)) g
            else g)
         (edge_list (m_graph sg) u) (add_node u g))
    nodes empty.

Definition split_graph (sg : satisfiable_graph) : result (list satisfiable_graph) :=
  let sccGraph :=
    fold_left (fun g p => Graph.add_edge (snd p) (fst p) g)
              (m_satisfiableEdges sg) (m_graph sg) in
  cs <- strongly_connected_components sccGraph ;;
  Ok (map (subgraph sg) cs).

Definition minimum_satisfiable_edges (sg : satisfiable_graph) : nat :=
  match m_satisfiableEdges sg with [] => 0 | _ => 1 end.

(** *** [bruteforce_optimal_topological_order] *)

Record result_t : Type := mk_result_t {
  satisfied : nat;
  order : list nat
}.

Definition set_erase (v : nat) (s : list nat) : list nat :=
  filter (fun x => negb (x =? v)) s.

(** The first loop over the edge list of [u]: decrements the indegrees
    and collects the new roots. *)
Fixpoint release_edges (es : list nat) (indegrees : counts) (roots newRoots : list nat)
  : counts * list nat * list nat :=
  match es with
  | [] => (indegrees, roots, newRoots)
  | v :: rest =>
      let indegrees' := count_add v (-1)%Z indegrees in
      if (count_at indegrees' v =? 0)%Z
      then release_edges rest indegrees' (set_insert v roots) (newRoots ++ [v])
      else release_edges rest indegrees' roots newRoots
  end.

(** The loop of the helper over [rootsCopy]; [rec] is the helper.  The
    order in which a [std::unordered_set] is iterated is not specified;
    the model keeps the roots in increasing order. *)
Fixpoint optimal_loop
    (rec : counts -> list nat -> list nat -> result result_t)
    (sg : satisfiable_graph) (rootsCopy : list nat)
    (indegrees : counts) (roots order : list nat)
    (best : result_t) (first : bool) : result result_t :=
  match rootsCopy with
  | [] => Ok best
  | u :: rest =>
      let satisfiedEdge :=
        match rev order with
        | [] => false
        | l :: _ => pset_mem (l, u) (m_satisfiableEdges sg)
        end in
      let es := edge_list (m_graph sg) u in
      let '(indegrees1, roots1, newRoots) :=
        release_edges es indegrees (set_erase u roots) [] in
      r <- rec indegrees1 roots1 (order ++ [u]) ;;
      let r' := mk_result_t (satisfied r + (if satisfiedEdge then 1 else 0)) (Satisfiable.order r) in
      let take := first || (satisfied best <? satisfied r') in
      let best' := if take then r' else best in
      let first' := if take then false else first in
      if take && (satisfied best' =? List.length (m_satisfiableEdges sg))
      then Ok best'
      else
        let roots2 := set_insert u (fold_left (fun s v => set_erase v s) newRoots roots1) in
        let indegrees2 := fold_left (fun m v => count_add v 1%Z m) es indegrees1 in
        optimal_loop rec sg rest indegrees2 roots2 order best' first'
  end.

Fixpoint bruteforce_optimal_topological_order_helper (fuel : nat)
    (sg : satisfiable_graph) (indegrees : counts) (roots order : list nat)
  : result result_t :=
  match fuel with
  | O => Err out_of_fuel
  | S fuel' =>
      if List.length order =? Graph.size (m_graph sg) then Ok (mk_result_t 0 order)
      else
        match roots with
        | [] => Err (exception "No nodes with indegree 0!")
        | _ =>
            optimal_loop (bruteforce_optimal_topological_order_helper fuel' sg)
                         sg roots indegrees roots order (mk_result_t 0 []) true
        end
  end.

Definition bruteforce_optimal_topological_order (sg : satisfiable_graph)
  : result (list nat) :=
  let nodes := get_node_set sg in
  let indegrees :=
    fold_left
      (fun m u => fold_left (fun m v => count_add v 1%Z m) (edge_list (m_graph sg) u) m)
      nodes [] in
  let roots :=
    fold_left (fun s u => if (count_at indegrees u =? 0)%Z then set_insert u s else s)
              nodes [] in
  r <- bruteforce_optimal_topological_order_helper
         (S (S (Graph.size (m_graph sg)))) sg indegrees roots [] ;;
  Ok (order r).

(** *** [bruteforce_satisfiable_edges] *)

(** [revNodeIndices]: from a position in the node set to the node. *)
Definition node_at (nodes : list nat) (i : nat) : nat := nth i nodes 0.

(** [contractedPaths[k].add_edge(a, b)] on the
    [std::unordered_map<size_t, graph<size_t>>]; keys are kept in
    increasing order, the order in which the model iterates the map. *)
Fixpoint paths_add_edge (k a b : nat) (m : list (nat * graph)) : list (nat * graph) :=
  match m with
  | [] => [(k, Graph.add_edge a b Graph.empty)]
  | (k', g) :: rest =>
      if k <? k' then (k, Graph.add_edge a b Graph.empty) :: m
      else if k =? k' then (k', Graph.add_edge a b g) :: rest
      else (k', g) :: paths_add_edge k a b rest
  end.

(** The first loop over the satisfiable edges for the combination [i]:
    [j] counts the edges; the result is [None] when the loop breaks
    with [bad]. *)
Fixpoint select_edges (nodes : list nat) (i j : nat) (edges : list (nat * nat))
    (contractedNodes : DisjointSets.disjoint_sets)
    (satisfiedOut satisfiedIn : list nat) (satisfied : nat)
  : option (DisjointSets.disjoint_sets * nat) :=
  match edges with
  | [] => Some (contractedNodes, satisfied)
  | p :: rest =>
      if Nat.testbit i j then
        let k := index_of nodes (fst p) in
        let l := index_of nodes (snd p) in
        let contractedNodes' := DisjointSets.union_set k l contractedNodes in
        if mem k satisfiedOut || mem l satisfiedIn then None
        else select_edges nodes i (S j) rest contractedNodes'
               (k :: satisfiedOut) (l :: satisfiedIn) (S satisfied)
      else select_edges nodes i (S j) rest contractedNodes
             satisfiedOut satisfiedIn satisfied
  end.

(** The second loop over the satisfiable edges. *)
Fixpoint contracted_paths (nodes : list nat) (i j : nat) (edges : list (nat * nat))
    (contractedNodes : DisjointSets.disjoint_sets) (m : list (nat * graph))
  : list (nat * graph) :=
  match edges with
  | [] => m
  | p :: rest =>
      let m' :=
        if Nat.testbit i j then
          paths_add_edge
            (DisjointSets.find_set contractedNodes (index_of nodes (fst p)))
            (index_of nodes (fst p)) (index_of nodes (snd p)) m
        else m in
      contracted_paths nodes i (S j) rest contractedNodes m'
  end.

(** The contracted graph of a combination. *)
Definition contracted_graph (sg : satisfiable_graph) (nodes : list nat)
    (contractedNodes : DisjointSets.disjoint_sets) : graph :=
  let g0 :=
    fold_left (fun g j => Graph.add_node (DisjointSets.find_set contractedNodes j) g)
              (seq 0 (List.length nodes)) Graph.empty in
  fold_left
    (fun g u =>
       let j := DisjointSets.find_set contractedNodes (index_of nodes u) in
       fold_left
         (fun g v =>
            let k := DisjointSets.find_set contractedNodes (index_of nodes v) in
            if j =? k then g else Graph.add_edge j k g)
         (edge_list (m_graph sg) u) g)
    nodes g0.

Record best_t : Type := mk_best {
  bestSatisfied : nat;
  bestContractedPaths : list (nat * graph);
  bestContractedGraph : graph
}.

(** One iteration of the loop over the combinations: the candidate it
    offers, if any. *)
Definition combination (sg : satisfiable_graph) (nodes : list nat) (i : nat)
  : result (option best_t) :=
  let N := List.length nodes in
  let sets0 := fold_left (fun d j => DisjointSets.make_set j d) (seq 0 N) [] in
  match select_edges nodes i 0 (m_satisfiableEdges sg) sets0 [] [] 0 with
  | None => Ok None
  | Some (contractedNodes, satisfied) =>
      if satisfied <? minimum_satisfiable_edges sg then Ok None
      else
        let contractedPaths :=
          contracted_paths nodes i 0 (m_satisfiableEdges sg) contractedNodes [] in
        let contractedGraph := contracted_graph sg nodes contractedNodes in
        acyclic <- check_acyclical contractedGraph ;;
        if acyclic
        then Ok (Some (mk_best satisfied contractedPaths contractedGraph))
        else Ok None
  end.

(** The loop over the combinations, with its [break]. *)
Fixpoint combinations_loop (sg : satisfiable_graph) (nodes : list nat)
    (todo : list nat) (best : option best_t) : result (option best_t) :=
  match todo with
  | [] => Ok best
  | i :: rest =>
      c <- combination sg nodes i ;;
      match c with
      | None => combinations_loop sg nodes rest best
      | Some b =>
          let take :=
            match best with
            | None => true
            | Some b0 => bestSatisfied b0 <? bestSatisfied b
            end in
          if take then
            if bestSatisfied b =? List.length (m_satisfiableEdges sg)
            then Ok (Some b)
            else combinations_loop sg nodes rest (Some b)
          else combinations_loop sg nodes rest best
      end
  end.

(** [1 << M] is computed on [int]; [M] is at most 18 whenever [AUTO]
    selects this strategy. *)
Definition bruteforce_satisfiable_edges (sg : satisfiable_graph)
  : result (list nat) :=
  let nodes := get_node_set sg in
  let M := List.length (m_satisfiableEdges sg) in
  best <- combinations_loop sg nodes (seq 0 (2 ^ M)) None ;;
  match best with
  | None => Err (exception "Couldn't find any best solution!")
  | Some b =>
      indexOrder <- Graph.topological_order (bestContractedGraph b) ;;
      indexOrder' <- expand_all (bestContractedPaths b) indexOrder ;;
      Ok (map (node_at nodes) indexOrder')
  end.

(** *** [greedy_topological_order], [auto_topological_order] *)

Definition greedy_topological_order (sg : satisfiable_graph) : result (list nat) :=
  let g :=
    fold_left
      (fun g u =>
         sort_edge_list u
           (fun a b => negb (pset_mem (u, a) (m_satisfiableEdges sg))
                       && pset_mem (u, b) (m_satisfiableEdges sg))
           g)
      (get_node_set sg) (m_graph sg) in
  rootfirst_topological_order g.

Definition auto_topological_order (sg : satisfiable_graph) : result (list nat) :=
  if List.length (m_satisfiableEdges sg) <=? max_bruteforce_satisfiable
  then bruteforce_satisfiable_edges sg
  else if Graph.size (m_graph sg) <=? max_bruteforce_depth
  then bruteforce_optimal_topological_order sg
  else greedy_topological_order sg.

Inductive strategy_t : Type :=
| BRUTEFORCE_ORDER
| BRUTEFORCE_SATISFIABLE
| GREEDY
| AUTO.

Definition get_order (strategy : strategy_t) : satisfiable_graph -> result (list nat) :=
  match strategy with
  | BRUTEFORCE_ORDER => bruteforce_optimal_topological_order
  | BRUTEFORCE_SATISFIABLE => bruteforce_satisfiable_edges
  | GREEDY => greedy_topological_order
  | AUTO => auto_topological_order
  end.

Fixpoint order_subgraphs (strategy : strategy_t) (subgraphs : list satisfiable_graph)
  : result (list nat) :=
  match subgraphs with
  | [] => Ok []
  | g :: rest =>
      g' <- preprocess g ;;
      subOrder <- get_order strategy g' ;;
      restOrder <- order_subgraphs strategy rest ;;
      Ok (subOrder ++ restOrder)
  end.

(** [satisfiable_graph::topological_order(order, strategy)]. *)
Definition topological_order (strategy : strategy_t) (sg : satisfiable_graph)
  : result (list nat) :=
  sg' <- preprocess sg ;;
  subgraphs <- split_graph sg' ;;
  order_subgraphs strategy subgraphs.

(** [satisfied_in_order(order)]. *)
Fixpoint satisfied_in_order (sg : satisfiable_graph) (order : list nat) : nat :=
  match order with
  | a :: ((b :: _) as rest) =>
      (if pset_mem (a, b) (m_satisfiableEdges sg) then 1 else 0)
      + satisfied_in_order sg rest
  | _ => 0
  end.

(** *** C6: path counts are 64-bit *)

(** [p] is a path of [g]: each node has an edge to the next. *)
Fixpoint is_path (g : graph) (p : list nat) : bool :=
  match p with
  | a :: ((b :: _) as rest) => Graph.has_edge g a b && is_path g rest
  | _ => true
  end.

(** A ladder: node 0, then [n] layers of two nodes, [2i-1] and [2i],
    then node [2n+1].  Node 0 has an edge to both nodes of the first
    layer, each node of a layer to both nodes of the next, both nodes of
    the last layer to node [2n+1].  There are [2^n] paths from node 0 to
    node [2n+1], and an edge joins the two directly. *)
Fixpoint layers (n a : nat) (g : satisfiable_graph) : satisfiable_graph :=
  match n with
  | O => g
  | S n' =>
      layers n' (a + 2)
        (add_edge (a + 1) (a + 3) false
           (add_edge (a + 1) (a + 2) false
              (add_edge a (a + 3) false (add_edge a (a + 2) false g))))
  end.

Definition ladder (n : nat) : satisfiable_graph :=
  add_edge 0 (2 * n + 1) false
    (add_edge (2 * n) (2 * n + 1) false
       (add_edge (2 * n - 1) (2 * n + 1) false
          (layers (n - 1) 1 (add_edge 0 2 false (add_edge 0 1 false empty))))).

(** The path through the odd nodes. *)
Definition odd_path (n : nat) : list nat :=
  0 :: map (fun i => 2 * i + 1) (seq 0 (S n)).

(** With 63 layers the direct edge is removed. *)
Example preprocess_ladder_63 :
  match preprocess (ladder 63) with
  | Ok g => Some (edge_list (m_graph g) 0)
  | Err _ => None
  end = Some [1; 2].
Proof. vm_compute. reflexivity. Qed.

(** C6, at the failing input: the ladder of 64 layers is acyclic and has
    a path of length 65 from node 0 to node 129 beside the edge between
    them, [2^64] such paths in all.  The count of paths from 0 to 129,
    [2^64 + 1], is 1 in 64 bits, so [preprocess] keeps the edge. *)
Theorem C6_path_count_wraps :
  validate_acyclical (m_graph (ladder 64)) = Ok tt /\
  Graph.has_edge (m_graph (ladder 64)) 0 129 = true /\
  is_path (m_graph (ladder 64)) (odd_path 64) = true /\
  last (odd_path 64) 0 = 129 /\
  match paths (dfs_fuel (m_graph (ladder 64))) (ladder 64) 0 [] with
  | Ok r => Some (paths_to (get_node_set (ladder 64)) (fst r) 129)
  | Err _ => None
  end = Some 1%Z /\
  match preprocess (ladder 64) with
  | Ok g => Some (edge_list (m_graph g) 0)
  | Err _ => None
  end = Some [1; 2; 129].
Proof. by_evaluation. Qed.

End Satisfiable.

(** ** The node map *)

Inductive node_relation : Type :=
| pushes
| pulls
| depends
| no_forward_depends
| memory_share_depends.

Definition relation_eqb (a b : node_relation) : bool :=
  match a, b with
  | pushes, pushes | pulls, pulls | depends, depends
  | no_forward_depends, no_forward_depends
  | memory_share_depends, memory_share_depends => true
  | _, _ => false
  end.

(** Modelled from the spec: [node_map] is declared in
    [tpie/pipelining/tokens.h], which is not among the sources.  After the
    specification it is an associative map from id to node and a multimap
    [from_id -> (to_id, kind)] of relations; [in_degree(id, kind)] counts
    the relations of that kind that point to [id].  The map is taken to be
    its own authority.

    [m_tokens] lists the nodes in increasing id order, [m_relations] the
    relations in increasing key order, those of one key in the order of
    their insertion. *)
Record node_map : Type := mk_node_map {
  m_tokens : list node;
  m_relations : list (nat * (nat * node_relation))
}.

Module NodeMap.

Definition get (nm : node_map) (id : nat) : option node :=
  find (fun n => get_id n =? id) (m_tokens nm).

Definition size (nm : node_map) : nat := List.length (m_tokens nm).

Definition in_degree (nm : node_map) (id : nat) (rel : node_relation) : nat :=
  List.length
    (filter (fun r => (fst (snd r) =? id) && relation_eqb (snd (snd r)) rel)
            (m_relations nm)).

(** [get_relations().equal_range(id)]. *)
Definition equal_range (nm : node_map) (id : nat) : list (nat * (nat * node_relation)) :=
  filter (fun r => fst r =? id) (m_relations nm).

(** Insertion of a node and of a relation, keeping the orders. *)
Fixpoint insert_node (n : node) (l : list node) : list node :=
  match l with
  | [] => [n]
  | m :: rest =>
      if get_id n <? get_id m then n :: l
      else if get_id n =? get_id m then l
      else m :: insert_node n rest
  end.

Fixpoint insert_relation (r : nat * (nat * node_relation))
    (l : list (nat * (nat * node_relation))) : list (nat * (nat * node_relation)) :=
  match l with
  | [] => [r]
  | q :: rest => if fst r <? fst q then r :: l else q :: insert_relation r rest
  end.

Definition add_node (n : node) (nm : node_map) : node_map :=
  mk_node_map (insert_node n (m_tokens nm)) (m_relations nm).

Definition add_relation (from to : nat) (rel : node_relation) (nm : node_map) : node_map :=
  mk_node_map (m_tokens nm) (insert_relation (from, (to, rel)) (m_relations nm)).

Definition empty : node_map := mk_node_map [] [].

End NodeMap.

(** ** The runtime *)

Module Runtime.

Import Graph.

(** [std::map<node *, size_t>]: in increasing address order. *)
Definition phase_map : Type := list (node * nat).

Fixpoint phase_map_set (n : node) (phase : nat) (m : phase_map) : phase_map :=
  match m with
  | [] => [(n, phase)]
  | (k, p) :: rest =>
      if addr n <? addr k then (n, phase) :: m
      else if addr n =? addr k then (k, phase) :: rest
      else (k, p) :: phase_map_set n phase rest
  end.

Definition phase_of (m : phase_map) (n : node) : option nat :=
  option_map snd (find (fun e => addr (fst e) =? addr n) m).

(** [v[i] = x] on a vector. *)
Fixpoint vector_set {A} (i : nat) (x : A) (v : list A) : list A :=
  match v, i with
  | [], _ => []
  | _ :: rest, O => x :: rest
  | a :: rest, S i' => a :: vector_set i' x rest
  end.

(** *** [get_phase_map] *)

(** [numbering[id]]: a missing id reads as 0. *)
Definition numbering_at (numbering : list (nat * nat)) (id : nat) : nat :=
  match lookup id numbering with Some i => i | None => 0 end.

Fixpoint number_nodes (ns : list node) (i : nat) : list (nat * nat) :=
  match ns with
  | [] => []
  | n :: rest => (get_id n, i) :: number_nodes rest (S i)
  end.

Definition is_depends (rel : node_relation) : bool :=
  match rel with
  | depends | no_forward_depends | memory_share_depends => true
  | _ => false
  end.

(** The last loop of [get_phase_map]. *)
Fixpoint assign_phases (unionFind : DisjointSets.disjoint_sets) (NIL : nat)
    (nodeOrder : list node) (i : nat) (phaseNumber : list nat) (nextPhase : nat)
    (phaseMap : phase_map) : phase_map :=
  match nodeOrder with
  | [] => phaseMap
  | n :: rest =>
      let root := DisjointSets.find_set unionFind i in
      let phase := nth root phaseNumber NIL in
      if phase =? NIL then
        assign_phases unionFind NIL rest (S i)
          (vector_set root nextPhase phaseNumber) (S nextPhase)
          (phase_map_set n nextPhase phaseMap)
      else
        assign_phases unionFind NIL rest (S i) phaseNumber nextPhase
          (phase_map_set n phase phaseMap)
  end.

Definition get_phase_map (nm : node_map) : phase_map :=
  let nodeOrder := m_tokens nm in
  let numbering := number_nodes nodeOrder 0 in
  let N := List.length nodeOrder in
  let unionFind0 := fold_left (fun d i => DisjointSets.make_set i d) (seq 0 N) [] in
  let unionFind :=
    fold_left
      (fun d r =>
         if is_depends (snd (snd r)) then d
         else DisjointSets.union_set (numbering_at numbering (fst r))
                                     (numbering_at numbering (fst (snd r))) d)
      (m_relations nm) unionFind0 in
  assign_phases unionFind N nodeOrder 0 (repeat N N) 0 [].

(** *** [get_phase_graph] *)

(** [phaseMap.find(m_nodeMap.get(id))->second]; undefined when the id has
    no node or the node no phase. *)
Definition phase_of_id (nm : node_map) (phaseMap : phase_map) (id : nat)
  : result nat :=
  match NodeMap.get nm id with
  | None => Err (undefined "m_nodeMap.get")
  | Some n =>
      match phase_of phaseMap n with
      | None => Err (undefined "phaseMap.find(...)->second")
      | Some p => Ok p
      end
  end.

Fixpoint phase_graph_edges (nm : node_map) (phaseMap : phase_map)
    (rels : list (nat * (nat * node_relation))) (g : graph) : result graph :=
  match rels with
  | [] => Ok g
  | r :: rest =>
      if is_depends (snd (snd r)) then
        u <- phase_of_id nm phaseMap (fst (snd r)) ;;
        v <- phase_of_id nm phaseMap (fst r) ;;
        phase_graph_edges nm phaseMap rest (Graph.add_edge u v g)
      else phase_graph_edges nm phaseMap rest g
  end.

Definition get_phase_graph (nm : node_map) (phaseMap : phase_map) : result graph :=
  phase_graph_edges nm phaseMap (m_relations nm)
    (fold_left (fun g e => Graph.add_node (snd e) g) phaseMap Graph.empty).

(** *** [inverse_permutation] *)

Fixpoint invert (f : list nat) (i n : nat) (res : list nat) : result (list nat) :=
  match f with
  | [] => Ok res
  | x :: rest =>
      if n <=? x then Err (exception "inverse_permutation: f has bad range")
      else if negb (nth x res n =? n)
      then Err (exception "inverse_permutation: f is not injective")
      else invert rest (S i) n (vector_set x i res)
  end.

Definition inverse_permutation (f : list nat) : result (list nat) :=
  let n := List.length f in
  res <- invert f 0 n (repeat n n) ;;
  if existsb (fun x => x =? n) res
  then Err (exception "inverse_permutation: f is not surjective")
  else Ok res.

(** *** [get_phases] *)

Definition cannot_satisfy : error :=
  exception "get_phases: can't satisfy all green edges".

(** The edges between phases, by colour.  [greenEdges] and
    [revGreenEdges] are [std::unordered_map]s; the model keeps their
    entries in increasing key order and iterates them in that order. *)
Record coloured_edges : Type := mk_edges {
  blackEdges : list (nat * nat);
  redEdges : list (nat * nat);
  greenEdges : list (nat * nat);
  revGreenEdges : list (nat * nat)
}.

Definition has_key (k : nat) (m : list (nat * nat)) : bool :=
  match lookup k m with Some _ => true | None => false end.

(** The first loop of [get_phases], over the relations. *)
Fixpoint colour_edges (nm : node_map) (phaseMap : phase_map)
    (rels : list (nat * (nat * node_relation))) (e : coloured_edges)
  : result coloured_edges :=
  match rels with
  | [] => Ok e
  | r :: rest =>
      match NodeMap.get nm (fst (snd r)), NodeMap.get nm (fst r) with
      | Some from, Some to =>
          match phase_of phaseMap from, phase_of phaseMap to with
          | Some fromPhase, Some toPhase =>
              if fromPhase =? toPhase then colour_edges nm phaseMap rest e
              else if negb (relation_eqb (snd (snd r)) memory_share_depends) then
                colour_edges nm phaseMap rest
                  (mk_edges (blackEdges e ++ [(fromPhase, toPhase)]) (redEdges e)
                            (greenEdges e) (revGreenEdges e))
              else if can_evacuate from then
                colour_edges nm phaseMap rest
                  (mk_edges (blackEdges e) (redEdges e ++ [(fromPhase, toPhase)])
                            (greenEdges e) (revGreenEdges e))
              else if has_key fromPhase (greenEdges e)
                      || has_key toPhase (revGreenEdges e)
              then Err cannot_satisfy
              else
                colour_edges nm phaseMap rest
                  (mk_edges (blackEdges e) (redEdges e)
                            (pset_insert (fromPhase, toPhase) (greenEdges e))
                            (pset_insert (toPhase, fromPhase) (revGreenEdges e)))
          | _, _ => Err (undefined "phaseMap.find(...)->second")
          end
      | _, _ => Err (undefined "m_nodeMap.get")
      end
  end.

(** The loops over [redEdges] and [blackEdges] that build [redEdgeSet]
    and [blackEdgeSet]; [skip] is the set an edge must not be in. *)
Definition contract_edges (contractedNodes : DisjointSets.disjoint_sets)
    (edges skip : list (nat * nat)) : list (nat * nat) :=
  fold_left
    (fun s p =>
       let p' := (DisjointSets.find_set contractedNodes (fst p),
                  DisjointSets.find_set contractedNodes (snd p)) in
       if fst p' =? snd p' then s
       else if pset_mem p' skip then s
       else pset_insert p' s)
    edges [].

(** The vector [phases]: the nodes of [phaseMap], each pushed to the
    phase at the position [topoOrderMap] gives. *)
Fixpoint distribute (phaseMap : phase_map) (topoOrderMap : list nat)
    (phases : list (list node)) : result (list (list node)) :=
  match phaseMap with
  | [] => Ok phases
  | (n, phase) :: rest =>
      match nth_error topoOrderMap phase with
      | None => Err (undefined "topoOrderMap[i->second]")
      | Some k =>
          match nth_error phases k with
          | None => Err (undefined "phases[...]")
          | Some ns => distribute rest topoOrderMap (vector_set k (ns ++ [n]) phases)
          end
      end
  end.

(** The last loop: [previousNodes] holds the ids of the phase before. *)
Fixpoint evacuation_set (nm : node_map) (phases : list (list node))
    (previousNodes : list nat) (evacuateWhenDone : list nat) : list nat :=
  match phases with
  | [] => evacuateWhenDone
  | phase :: rest =>
      let evacuateWhenDone' :=
        fold_left
          (fun acc n =>
             fold_left
               (fun acc r =>
                  if negb (relation_eqb (snd (snd r)) memory_share_depends) then acc
                  else if mem (fst (snd r)) previousNodes then acc
                  else set_insert (fst (snd r)) acc)
               (NodeMap.equal_range nm (get_id n)) acc)
          phase evacuateWhenDone in
      evacuation_set nm rest (map get_id phase) evacuateWhenDone'
  end.

(** What [get_phases] computes up to [topologicalOrder], expansion
    included. *)
Definition phase_order (e : coloured_edges) (phaseGraph : graph)
  : result (list nat) :=
  let nodes := Graph.get_node_set phaseGraph in
  let contractedNodes0 :=
    fold_left (fun d i => DisjointSets.make_set i d) nodes [] in
  let contractedNodes :=
    fold_left (fun d p => DisjointSets.union_set (fst p) (snd p) d)
              (greenEdges e) contractedNodes0 in
  let greenPaths :=
    fold_left
      (fun m p =>
         Satisfiable.paths_add_edge (DisjointSets.find_set contractedNodes (fst p))
                                    (fst p) (snd p) m)
      (greenEdges e) [] in
  let contractedGraph0 :=
    fold_left
      (fun g i => Satisfiable.add_node (DisjointSets.find_set contractedNodes i) g)
      nodes Satisfiable.empty in
  let redEdgeSet := contract_edges contractedNodes (redEdges e) [] in
  let blackEdgeSet := contract_edges contractedNodes (blackEdges e) redEdgeSet in
  let contractedGraph1 :=
    fold_left (fun g p => Satisfiable.add_edge (fst p) (snd p) false g)
              blackEdgeSet contractedGraph0 in
  let contractedGraph :=
    fold_left (fun g p => Satisfiable.add_edge (fst p) (snd p) true g)
              redEdgeSet contractedGraph1 in
  topologicalOrder <-
    match Satisfiable.topological_order Satisfiable.AUTO contractedGraph with
    | Err not_a_dag_exception => Err cannot_satisfy
    | r => r
    end ;;
  expand_all greenPaths topologicalOrder.

(** [runtime::get_phases]: the set [evacuateWhenDone] and the vector
    [phases]. *)
Definition get_phases (nm : node_map) (phaseMap : phase_map) (phaseGraph : graph)
  : result (list nat * list (list node)) :=
  e <- colour_edges nm phaseMap (m_relations nm) (mk_edges [] [] [] []) ;;
  topologicalOrder <- phase_order e phaseGraph ;;
  topoOrderMap <- inverse_permutation topologicalOrder ;;
  phases <- distribute phaseMap topoOrderMap
              (repeat [] (List.length topologicalOrder)) ;;
  match phases with
  | (_ :: _) :: _ => Ok (evacuation_set nm phases [] [], phases)
  | _ => Err (undefined "phases.front().front()")
  end.

(** *** The graphs of a phase *)

(** [get_graph(phase, result, itemFlow)].  A [graph<node *>] is keyed by
    address: its labels are the [addr] of the nodes. *)
Fixpoint graph_edges (nm : node_map) (itemFlow : bool)
    (rels : list (nat * (nat * node_relation))) (g : graph) : result graph :=
  match rels with
  | [] => Ok g
  | r :: rest =>
      match NodeMap.get nm (fst r), NodeMap.get nm (fst (snd r)) with
      | Some u, Some v =>
          if is_depends (snd (snd r)) then graph_edges nm itemFlow rest g
          else if itemFlow && relation_eqb (snd (snd r)) pulls
          then graph_edges nm itemFlow rest (Graph.add_edge (addr v) (addr u) g)
          else graph_edges nm itemFlow rest (Graph.add_edge (addr u) (addr v) g)
      | _, _ => Err (undefined "m_nodeMap.get")
      end
  end.

Fixpoint get_graph (nm : node_map) (phase : list node) (itemFlow : bool) (g : graph)
  : result graph :=
  match phase with
  | [] => Ok g
  | n :: rest =>
      g' <- graph_edges nm itemFlow (NodeMap.equal_range nm (get_id n))
                        (Graph.add_node (addr n) g) ;;
      get_graph nm rest itemFlow g'
  end.

Fixpoint get_graphs (nm : node_map) (phases : list (list node)) (itemFlow : bool)
  : result (list graph) :=
  match phases with
  | [] => Ok []
  | phase :: rest =>
      g <- get_graph nm phase itemFlow Graph.empty ;;
      gs <- get_graphs nm rest itemFlow ;;
      Ok (g :: gs)
  end.

Definition get_item_flow_graphs nm phases := get_graphs nm phases true.
Definition get_actor_graphs nm phases := get_graphs nm phases false.

(** *** Initiators *)

Definition is_initiator (nm : node_map) (n : node) : bool :=
  (NodeMap.in_degree nm (get_id n) pushes =? 0)
  && (NodeMap.in_degree nm (get_id n) pulls =? 0).

Definition has_initiator (nm : node_map) (phase : list node) : bool :=
  existsb (is_initiator nm) phase.

Fixpoint ensure_initiators (nm : node_map) (phases : list (list node)) : result unit :=
  match phases with
  | [] => Ok tt
  | phase :: rest =>
      if has_initiator nm phase then ensure_initiators nm rest
      else Err no_initiator_node
  end.

(** *** What the runtime does to the nodes

    The calls the runtime makes on the nodes, in order.  The nodes'
    methods are taken to return normally.  Progress indicators and log
    output are left out. *)
Inductive event : Type :=
| ev_prepare (id : nat)
| ev_propagate (id : nat)
| ev_set_available (id : nat) (type : resource_type) (usage : Z)
| ev_begin (id : nat)
| ev_go (id : nat)
| ev_end (id : nat)
| ev_evacuate (id : nat).

Definition trace : Type := list event.

(** A computation that calls nodes and may throw: the calls made and the
    outcome. *)
Definition run (A : Type) : Type := trace * result A.

Definition ret {A} (a : A) : run A := ([], Ok a).
Definition lift {A} (r : result A) : run A := ([], r).
Definition emit (es : trace) : run unit := (es, Ok tt).

Definition bind_run {A B} (m : run A) (k : A -> run B) : run B :=
  match m with
  | (t, Ok a) => let '(t', r) := k a in (t ++ t', r)
  | (t, Err e) => (t, Err e)
  end.

Declare Scope run_scope.
Delimit Scope run_scope with run.
Notation "x <~ m ;; k" := (bind_run m (fun x => k))
  (at level 61, m at next level, right associativity) : run_scope.
Notation "m ~;; k" := (bind_run m (fun _ => k))
  (at level 61, right associativity) : run_scope.
Local Open Scope run_scope.

(** The nodes behind a list of addresses. *)
Definition node_at_addr (nm : node_map) (a : nat) : option node :=
  find (fun n => addr n =? a) (m_tokens nm).

Definition nodes_at (nm : node_map) (addrs : list nat) : list node :=
  flat_map (fun a => match node_at_addr nm a with Some n => [n] | None => [] end)
           addrs.

(** [prepare_all] and [propagate_all]. *)
Fixpoint prepare_all (nm : node_map) (itemFlow : list graph) : run unit :=
  match itemFlow with
  | [] => ret tt
  | g :: rest =>
      topoOrder <~ lift (Graph.topological_order g) ;;
      emit (map (fun n => ev_prepare (get_id n)) (nodes_at nm topoOrder)) ~;;
      prepare_all nm rest
  end.

Definition propagate_all (nm : node_map) (itemFlow : graph) : run unit :=
  topoOrder <~ lift (Graph.topological_order itemFlow) ;;
  emit (map (fun n => ev_propagate (get_id n)) (nodes_at nm topoOrder)).

(** [evacuate_all]: a node of the set that cannot evacuate is only
    logged. *)
Definition evacuate_all (phase : list node) (evacuateWhenDone : list nat) : run unit :=
  emit (map (fun n => ev_evacuate (get_id n))
            (filter (fun n => mem (get_id n) evacuateWhenDone && can_evacuate n) phase)).

(** [go_initiators]. *)
Definition go_initiators (nm : node_map) (phase : list node) : run unit :=
  emit (map (fun n => ev_go (get_id n)) (filter (is_initiator nm) phase)).

(** [begin_end]: the constructor orders the actor graph, [begin] walks
    the order backwards, [end] forwards. *)
Definition begin_end (actorGraph : graph) : run (list nat) :=
  lift (Graph.topological_order actorGraph).

Definition begin_end_begin (nm : node_map) (topologicalOrder : list nat) : run unit :=
  emit (map (fun n => ev_begin (get_id n)) (rev (nodes_at nm topologicalOrder))).

Definition begin_end_end (nm : node_map) (topologicalOrder : list nat) : run unit :=
  emit (map (fun n => ev_end (get_id n)) (nodes_at nm topologicalOrder)).

(** The [set_usage] calls of [assign_usage] on a phase. *)
Definition set_usage (type : resource_type) (phase : list node) (usage : list Z)
  : trace :=
  map (fun p => ev_set_available (get_id (fst p)) type (snd p)) (combine phase usage).

Definition out_of (A : Type) (o : option A) : run A :=
  match o with
  | Some a => ret a
  | None => lift (Err out_of_fuel)
  end.
Arguments out_of {A} o.

(** [gocontext], without the progress indicators. *)
Record gocontext : Type := mk_gocontext {
  gc_phaseMap : phase_map;
  gc_phaseGraph : graph;
  gc_phases : list (list node);
  gc_evacuateWhenDone : list nat;
  gc_itemFlow : list graph;
  gc_actor : list graph;
  gc_drt : Resource.datastructure_runtime;
  gc_files : Z;
  gc_memory : Z
}.

(** [runtime::go_init].  [fuel] bounds the numeric searches of the
    resource assignment. *)
Definition go_init (fuel : nat) (nm : node_map) (files memory : Z) : run gocontext :=
  if NodeMap.size nm =? 0
  then lift (Err (exception "no nodes in pipelining graph"))
  else
    let phaseMap := get_phase_map nm in
    if negb (List.length phaseMap =? NodeMap.size nm)
    then lift (Err (exception "get_phase_map did not return correct number of nodes"))
    else
      phaseGraph <~ lift (get_phase_graph nm phaseMap) ;;
      ph <~ lift (get_phases nm phaseMap phaseGraph) ;;
      let evacuateWhenDone := fst ph in
      let phases := snd ph in
      itemFlow <~ lift (get_item_flow_graphs nm phases) ;;
      actor <~ lift (get_actor_graphs nm phases) ;;
      prepare_all nm itemFlow ~;;
      let drt := Resource.make_drt phases in
      fa <~ out_of (Resource.assign_files fuel phases files) ;;
      emit (List.concat (map (fun p => set_usage FILES (fst p) (snd p)) (combine phases fa))) ~;;
      ma <~ out_of (Resource.assign_memory fuel phases memory drt) ;;
      emit (List.concat (map (fun p => set_usage MEMORY (fst p) (snd p))
                        (combine phases (fst (fst ma))))) ~;;
      ret (mk_gocontext phaseMap phaseGraph phases evacuateWhenDone itemFlow actor
                        (snd (fst ma)) files memory).

(** One turn of the loop of [go_until], for the phase at position [i];
    [previous] is the phase before it, if any. *)
Definition run_phase (fuel : nat) (nm : node_map) (gc : gocontext) (i : nat)
    (previous : option (list node)) (phase : list node) : run unit :=
  match previous with
  | Some p => evacuate_all p (gc_evacuateWhenDone gc)
  | None => ret tt
  end ~;;
  propagate_all nm (nth i (gc_itemFlow gc) Graph.empty) ~;;
  fa <~ out_of (Resource.reassign_files fuel phase (gc_files gc)) ;;
  emit (set_usage FILES phase fa) ~;;
  ma <~ out_of (Resource.reassign_memory fuel phase i (gc_memory gc) (gc_drt gc)) ;;
  emit (set_usage MEMORY phase ma) ~;;
  topologicalOrder <~ begin_end (nth i (gc_actor gc) Graph.empty) ;;
  begin_end_begin nm topologicalOrder ~;;
  go_initiators nm phase ~;;
  begin_end_end nm topologicalOrder.

Fixpoint run_phases (fuel : nat) (nm : node_map) (gc : gocontext) (i : nat)
    (previous : option (list node)) (phases : list (list node)) : run unit :=
  match phases with
  | [] => ret tt
  | phase :: rest =>
      run_phase fuel nm gc i previous phase ~;;
      run_phases fuel nm gc (S i) (Some phase) rest
  end.

(** [runtime::go_until(gc, nullptr)], from the first phase on: no node
    is the null pointer, so every phase runs to its end. *)
Definition go_until (fuel : nat) (nm : node_map) (gc : gocontext) : run unit :=
  run_phases fuel nm gc 0 None (gc_phases gc).

(** [runtime::go]. *)
Definition go (fuel : nat) (nm : node_map) (filesAvailable memory : Z) : run unit :=
  gc <~ go_init fuel nm filesAvailable memory ;;
  lift (ensure_initiators nm (gc_phases gc)) ~;;
  go_until fuel nm gc.

(** *** Reading a trace *)

Definition go_calls (t : trace) : list nat :=
  flat_map (fun e => match e with ev_go i => [i] | _ => [] end) t.

Definition evacuate_calls (t : trace) : list nat :=
  flat_map (fun e => match e with ev_evacuate i => [i] | _ => [] end) t.

Lemma go_calls_app t1 t2 : go_calls (t1 ++ t2) = go_calls t1 ++ go_calls t2.
Proof. apply flat_map_app. Qed.

Lemma evacuate_calls_app t1 t2 :
  evacuate_calls (t1 ++ t2) = evacuate_calls t1 ++ evacuate_calls t2.
Proof. apply flat_map_app. Qed.

(** A [bind_run] that ends well is two runs that end well. *)
Lemma bind_run_ok {A B} (m : run A) (k : A -> run B) t b :
  bind_run m k = (t, Ok b) ->
  exists t1 a t2, m = (t1, Ok a) /\ k a = (t2, Ok b) /\ t = t1 ++ t2.
Proof.
  destruct m as [t1 [a|e]]; simpl; [|discriminate].
  destruct (k a) as [t2 r] eqn:E. intros H. injection H as <- ->.
  exists t1, a, t2. repeat split; assumption.
Qed.

(** The trace of a [bind_run] starts with the trace of its first run. *)
Lemma bind_run_trace {A B} (m : run A) (k : A -> run B) :
  fst (bind_run m k) = fst m \/
  exists a, snd m = Ok a /\ fst (bind_run m k) = fst m ++ fst (k a).
Proof.
  destruct m as [t1 [a|e]]; simpl; [|left; reflexivity].
  right. exists a. destruct (k a) as [t2 r]. split; reflexivity.
Qed.

(** A property of traces that holds of the empty trace and is kept by
    concatenation holds of a [bind_run] when it holds of its parts. *)
Lemma bind_run_all {A B} (P : trace -> Prop) (m : run A) (k : A -> run B) :
  (forall t1 t2, P t1 -> P t2 -> P (t1 ++ t2)) ->
  P (fst m) -> (forall a, P (fst (k a))) -> P (fst (bind_run m k)).
Proof.
  intros Happ Hm Hk.
  destruct (bind_run_trace m k) as [-> | [a [_ ->]]]; [exact Hm|].
  apply Happ; [exact Hm | apply Hk].
Qed.

Definition no_go (t : trace) : Prop := go_calls t = [].
Definition no_evacuate (t : trace) : Prop := evacuate_calls t = [].

Lemma no_go_app t1 t2 : no_go t1 -> no_go t2 -> no_go (t1 ++ t2).
Proof. unfold no_go. intros H1 H2. rewrite go_calls_app, H1, H2. reflexivity. Qed.

Lemma no_evacuate_app t1 t2 : no_evacuate t1 -> no_evacuate t2 -> no_evacuate (t1 ++ t2).
Proof.
  unfold no_evacuate. intros H1 H2. rewrite evacuate_calls_app, H1, H2. reflexivity.
Qed.

(** No call of [go] and no call of [evacuate] in a trace that only holds
    calls of other methods. *)
Definition quiet (t : trace) : Prop := no_go t /\ no_evacuate t.

Lemma quiet_app t1 t2 : quiet t1 -> quiet t2 -> quiet (t1 ++ t2).
Proof.
  intros [G1 E1] [G2 E2]. split; [apply no_go_app | apply no_evacuate_app]; assumption.
Qed.

Lemma quiet_nil : quiet [].
Proof. split; reflexivity. Qed.

Lemma quiet_lift {A} (r : result A) : quiet (fst (lift r)).
Proof. apply quiet_nil. Qed.

Lemma quiet_ret {A} (a : A) : quiet (fst (ret a)).
Proof. apply quiet_nil. Qed.

Lemma quiet_out_of {A} (o : option A) : quiet (fst (out_of o)).
Proof. destruct o; apply quiet_nil. Qed.

Lemma quiet_map {A} (f : A -> event) (l : list A) :
  (forall a, match f a with ev_go _ | ev_evacuate _ => False | _ => True end) ->
  quiet (map f l).
Proof.
  intros Hf. induction l as [|a l IH]; [apply quiet_nil|].
  change (map f (a :: l)) with ([f a] ++ map f l).
  apply quiet_app; [|exact IH].
  specialize (Hf a). destruct (f a); try contradiction; split; reflexivity.
Qed.

Lemma quiet_set_usage type phase usage : quiet (set_usage type phase usage).
Proof. unfold set_usage. apply quiet_map. intros a. exact I. Qed.

Lemma quiet_concat (ts : list trace) :
  Forall quiet ts -> quiet (List.concat ts).
Proof.
  induction 1 as [|t ts Ht _ IH]; simpl; [apply quiet_nil|].
  apply quiet_app; assumption.
Qed.

Lemma quiet_prepare_all nm itemFlow : quiet (fst (prepare_all nm itemFlow)).
Proof.
  induction itemFlow as [|g rest IH]; [apply quiet_nil|].
  cbn [prepare_all].
  apply bind_run_all; [apply quiet_app | apply quiet_lift |].
  intros topoOrder.
  apply bind_run_all; [apply quiet_app | | intros _; exact IH].
  simpl. apply quiet_map. intros a. exact I.
Qed.

Lemma quiet_propagate_all nm g : quiet (fst (propagate_all nm g)).
Proof.
  unfold propagate_all.
  apply bind_run_all; [apply quiet_app | apply quiet_lift |].
  intros topoOrder. simpl. apply quiet_map. intros a. exact I.
Qed.

(** [go_init] calls neither [go] nor [evacuate]. *)
Lemma quiet_go_init fuel nm files memory :
  quiet (fst (go_init fuel nm files memory)).
Proof.
  unfold go_init.
  destruct (NodeMap.size nm =? 0); [apply quiet_lift|].
  destruct (negb _); [apply quiet_lift|].
  apply bind_run_all; [apply quiet_app | apply quiet_lift | intros phaseGraph].
  apply bind_run_all; [apply quiet_app | apply quiet_lift | intros ph].
  apply bind_run_all; [apply quiet_app | apply quiet_lift | intros itemFlow].
  apply bind_run_all; [apply quiet_app | apply quiet_lift | intros actor].
  apply bind_run_all; [apply quiet_app | apply quiet_prepare_all | intros _].
  apply bind_run_all; [apply quiet_app | apply quiet_out_of | intros fa].
  apply bind_run_all; [apply quiet_app | | intros _].
  { simpl. apply quiet_concat. apply Forall_forall. intros t Ht.
    apply in_map_iff in Ht. destruct Ht as [p [<- _]]. apply quiet_set_usage. }
  apply bind_run_all; [apply quiet_app | apply quiet_out_of | intros ma].
  apply bind_run_all; [apply quiet_app | | intros _; apply quiet_ret].
  simpl. apply quiet_concat. apply Forall_forall. intros t Ht.
  apply in_map_iff in Ht. destruct Ht as [p [<- _]]. apply quiet_set_usage.
Qed.

(** The initiators of a phase and the nodes evacuated after it. *)
Definition initiators (nm : node_map) (phase : list node) : list nat :=
  map get_id (filter (is_initiator nm) phase).

Definition evacuated (evacuateWhenDone : list nat) (phase : list node) : list nat :=
  map get_id
      (filter (fun n => mem (get_id n) evacuateWhenDone && can_evacuate n) phase).

Lemma go_calls_go_initiators nm phase :
  go_calls (fst (go_initiators nm phase)) = initiators nm phase.
Proof.
  unfold go_initiators, initiators. simpl.
  induction (filter (is_initiator nm) phase) as [|n l IH]; simpl; [reflexivity|].
  f_equal. exact IH.
Qed.

Lemma no_evacuate_go_initiators nm phase :
  no_evacuate (fst (go_initiators nm phase)).
Proof.
  unfold go_initiators, no_evacuate. simpl.
  induction (filter (is_initiator nm) phase) as [|n l IH]; simpl; [reflexivity|].
  exact IH.
Qed.

Lemma evacuate_calls_evacuate_all phase set :
  evacuate_calls (fst (evacuate_all phase set)) = evacuated set phase.
Proof.
  unfold evacuate_all, evacuated. simpl.
  induction (filter _ phase) as [|n l IH]; simpl; [reflexivity|].
  f_equal. exact IH.
Qed.

Lemma no_go_evacuate_all phase set : no_go (fst (evacuate_all phase set)).
Proof.
  unfold evacuate_all, no_go. simpl.
  induction (filter _ phase) as [|n l IH]; simpl; [reflexivity|].
  exact IH.
Qed.

(** The calls of a run that ends well after a quiet start are those of
    what follows. *)
Lemma bind_run_quiet {A B} (m : run A) (k : A -> run B) t b :
  bind_run m k = (t, Ok b) ->
  quiet (fst m) ->
  exists a t2, k a = (t2, Ok b) /\
               go_calls t = go_calls t2 /\ evacuate_calls t = evacuate_calls t2.
Proof.
  intros H [G E].
  apply bind_run_ok in H. destruct H as (t1 & a & t2 & Hm & Hk & ->).
  rewrite Hm in G, E. simpl in G, E. unfold no_go, no_evacuate in G, E.
  exists a, t2. rewrite go_calls_app, evacuate_calls_app, G, E.
  repeat split; [exact Hk].
Qed.

Lemma quiet_begin_end g : quiet (fst (begin_end g)).
Proof. apply quiet_lift. Qed.

Lemma quiet_begin_end_begin nm o : quiet (fst (begin_end_begin nm o)).
Proof. simpl. apply quiet_map. intros x. exact I. Qed.

Lemma quiet_begin_end_end nm o : quiet (fst (begin_end_end nm o)).
Proof. simpl. apply quiet_map. intros x. exact I. Qed.

Lemma quiet_emit_set_usage type phase usage :
  quiet (fst (emit (set_usage type phase usage))).
Proof. simpl. apply quiet_set_usage. Qed.

(** The calls of one phase that runs to its end. *)
Lemma run_phase_calls fuel nm gc i previous phase t :
  run_phase fuel nm gc i previous phase = (t, Ok tt) ->
  go_calls t = initiators nm phase /\
  evacuate_calls t =
    match previous with
    | Some p => evacuated (gc_evacuateWhenDone gc) p
    | None => []
    end.
Proof.
  unfold run_phase. intros H.
  apply bind_run_ok in H. destruct H as (t0 & [] & t' & H0 & H & ->).
  assert (G0 : go_calls t0 = []).
  { destruct previous as [p|].
    - pose proof (no_go_evacuate_all p (gc_evacuateWhenDone gc)) as Q.
      rewrite H0 in Q. exact Q.
    - injection H0 as <-. reflexivity. }
  assert (E0 : evacuate_calls t0 =
               match previous with
               | Some p => evacuated (gc_evacuateWhenDone gc) p
               | None => []
               end).
  { destruct previous as [p|].
    - rewrite <- evacuate_calls_evacuate_all, H0. reflexivity.
    - injection H0 as <-. reflexivity. }
  rewrite go_calls_app, evacuate_calls_app, G0, E0. clear G0 E0 H0 t0.
  apply bind_run_quiet in H; [|apply quiet_propagate_all].
  destruct H as (_ & t1 & H & -> & ->). clear t'.
  apply bind_run_quiet in H; [|apply quiet_out_of].
  destruct H as (fa & t2 & H & -> & ->). clear t1.
  apply bind_run_quiet in H; [|apply quiet_emit_set_usage].
  destruct H as (_ & t3 & H & -> & ->). clear t2.
  apply bind_run_quiet in H; [|apply quiet_out_of].
  destruct H as (ma & t4 & H & -> & ->). clear t3.
  apply bind_run_quiet in H; [|apply quiet_emit_set_usage].
  destruct H as (_ & t5 & H & -> & ->). clear t4.
  apply bind_run_quiet in H; [|apply quiet_begin_end].
  destruct H as (topologicalOrder & t6 & H & -> & ->). clear t5.
  apply bind_run_quiet in H; [|apply quiet_begin_end_begin].
  destruct H as (_ & t7 & H & -> & ->). clear t6.
  apply bind_run_ok in H. destruct H as (tg & [] & te & Hg & He & ->).
  pose proof (quiet_begin_end_end nm topologicalOrder) as [Ge Ee].
  rewrite He in Ge, Ee. simpl in Ge, Ee. unfold no_go, no_evacuate in Ge, Ee.
  pose proof (go_calls_go_initiators nm phase) as Gg.
  pose proof (no_evacuate_go_initiators nm phase) as Eg.
  rewrite Hg in Gg, Eg. simpl in Gg, Eg. unfold no_evacuate in Eg.
  rewrite go_calls_app, evacuate_calls_app, Gg, Eg, Ge, Ee.
  simpl. repeat rewrite app_nil_r. split; reflexivity.
Qed.

(** The nodes evacuated in a run of the phases: after each phase but the
    last. *)
Fixpoint evacuated_between (set : list nat) (previous : option (list node))
    (phases : list (list node)) : list nat :=
  match phases with
  | [] => []
  | phase :: rest =>
      match previous with
      | Some p => evacuated set p
      | None => []
      end ++ evacuated_between set (Some phase) rest
  end.

Lemma run_phases_calls fuel nm gc phases : forall i previous t,
  run_phases fuel nm gc i previous phases = (t, Ok tt) ->
  go_calls t = flat_map (initiators nm) phases /\
  evacuate_calls t = evacuated_between (gc_evacuateWhenDone gc) previous phases.
Proof.
  induction phases as [|phase rest IH]; intros i previous t H.
  - injection H as <-. split; reflexivity.
  - cbn [run_phases] in H.
    apply bind_run_ok in H. destruct H as (t1 & [] & t2 & Hrun & Hrest & ->).
    apply run_phase_calls in Hrun. destruct Hrun as [G1 E1].
    apply IH in Hrest. destruct Hrest as [G2 E2].
    rewrite go_calls_app, evacuate_calls_app, G1, G2, E1, E2.
    split; reflexivity.
Qed.

Lemma evacuated_between_some set phases : forall p,
  evacuated_between set (Some p) phases
  = flat_map (evacuated set) (removelast (p :: phases)).
Proof.
  induction phases as [|q rest IH]; intros p.
  - reflexivity.
  - cbn [evacuated_between]. rewrite IH.
    change (removelast (p :: q :: rest)) with (p :: removelast (q :: rest)).
    reflexivity.
Qed.

Lemma evacuated_between_removelast set phases :
  evacuated_between set None phases
  = flat_map (evacuated set) (removelast phases).
Proof.
  destruct phases as [|p rest]; [reflexivity|].
  cbn [evacuated_between]. rewrite evacuated_between_some. reflexivity.
Qed.

Lemma ensure_initiators_spec nm phases :
  ensure_initiators nm phases =
  if forallb (has_initiator nm) phases then Ok tt else Err no_initiator_node.
Proof.
  induction phases as [|p rest IH]; simpl; [reflexivity|].
  destruct (has_initiator nm p); simpl; [exact IH | reflexivity].
Qed.

(** The calls of a whole run, given what [go_init] returned. *)
Lemma go_after_init fuel nm files memory t0 gc :
  go_init fuel nm files memory = (t0, Ok gc) ->
  go fuel nm files memory =
    (t0 ++ fst (lift (ensure_initiators nm (gc_phases gc)) ~;; go_until fuel nm gc),
     snd (lift (ensure_initiators nm (gc_phases gc)) ~;; go_until fuel nm gc)).
Proof.
  intros H. unfold go. rewrite H. cbn [bind_run].
  destruct (lift (ensure_initiators nm (gc_phases gc)) ~;; go_until fuel nm gc).
  reflexivity.
Qed.

Lemma go_calls_of_run fuel nm files memory t0 gc t :
  go_init fuel nm files memory = (t0, Ok gc) ->
  go fuel nm files memory = (t, Ok tt) ->
  go_calls t = flat_map (initiators nm) (gc_phases gc) /\
  evacuate_calls t
  = flat_map (evacuated (gc_evacuateWhenDone gc)) (removelast (gc_phases gc)).
Proof.
  intros Hinit Hgo.
  rewrite (go_after_init _ _ _ _ _ _ Hinit) in Hgo.
  destruct (lift (ensure_initiators nm (gc_phases gc)) ~;; go_until fuel nm gc)
    as [t' r] eqn:E.
  simpl in Hgo. injection Hgo as <- ->.
  apply bind_run_ok in E. destruct E as (t1 & [] & t2 & H1 & H2 & ->).
  unfold lift in H1. injection H1 as <- _.
  unfold go_until in H2. apply run_phases_calls in H2. destruct H2 as [G E].
  destruct (quiet_go_init fuel nm files memory) as [G0 E0].
  rewrite Hinit in G0, E0. simpl in G0, E0. unfold no_go, no_evacuate in G0, E0.
  repeat rewrite go_calls_app. repeat rewrite evacuate_calls_app.
  rewrite G0, E0, G, E, evacuated_between_removelast. split; reflexivity.
Qed.

(** *** Example pipelines *)

Definition plain_node (i : nat) (evacuates : bool) : node :=
  mk_node i i (fun _ => 0%Z) (fun _ => 100%Z) (fun _ => 1%float) evacuates false [].

Definition pipeline (ns : list node) (rs : list (nat * nat * node_relation)) : node_map :=
  fold_left (fun m r => NodeMap.add_relation (fst (fst r)) (snd (fst r)) (snd r) m) rs
    (fold_left (fun m n => NodeMap.add_node n m) ns NodeMap.empty).

(** The ids of the phases [get_phases] returns for a node map. *)
Definition phases_of (nm : node_map) : result (list nat * list (list nat)) :=
  let phaseMap := get_phase_map nm in
  phaseGraph <- get_phase_graph nm phaseMap ;;
  r <- get_phases nm phaseMap phaseGraph ;;
  Ok (fst r, map (map get_id) (snd r)).

(** The position in the final order of the phase that holds a node. *)
Fixpoint phase_position (phases : list (list nat)) (id : nat) : option nat :=
  match phases with
  | [] => None
  | phase :: rest =>
      if mem id phase then Some 0 else option_map S (phase_position rest id)
  end.

(** The phase of [a] immediately precedes the phase of [b]. *)
Definition adjacent (phases : list (list nat)) (a b : nat) : bool :=
  match phase_position phases a, phase_position phases b with
  | Some i, Some j => j =? S i
  | _, _ => false
  end.

(** The phase of [a] is strictly before the phase of [b]. *)
Definition before (phases : list (list nat)) (a b : nat) : bool :=
  match phase_position phases a, phase_position phases b with
  | Some i, Some j => i <? j
  | _, _ => false
  end.

Definition same_phase (phases : list (list nat)) (a b : nat) : bool :=
  match phase_position phases a, phase_position phases b with
  | Some i, Some j => i =? j
  | _, _ => false
  end.

(** Every dependency between two phases runs forward in the order: in
    a relation [(to, (from, kind))], [to] depends on [from]. *)
Definition topological (nm : node_map) (phases : list (list nat)) : bool :=
  forallb
    (fun r =>
       negb (is_depends (snd (snd r)))
       || same_phase phases (fst (snd r)) (fst r)
       || before phases (fst (snd r)) (fst r))
    (m_relations nm).

(** *** The evacuation set, edge by edge *)

(** Membership in the containers. *)
Lemma mem_In v s : mem v s = true <-> In v s.
Proof.
  unfold mem. rewrite existsb_exists. split.
  - intros [x [Hx E]]. apply Nat.eqb_eq in E. subst. exact Hx.
  - intros H. exists v. split; [exact H | apply Nat.eqb_refl].
Qed.

Lemma In_set_insert x v s : In x (set_insert v s) <-> x = v \/ In x s.
Proof.
  induction s as [|k rest IH]; simpl.
  - intuition.
  - destruct (v <? k); simpl; [intuition|].
    destruct (v =? k) eqn:E; simpl.
    + apply Nat.eqb_eq in E. subst. intuition.
    + rewrite IH. intuition.
Qed.

Definition is_msd (r : nat * (nat * node_relation)) : bool :=
  relation_eqb (snd (snd r)) memory_share_depends.

(** What one relation adds to the set. *)
Lemma In_evacuation_relations rels prev : forall acc s,
  In s (fold_left
          (fun acc r =>
             if negb (relation_eqb (snd (snd r)) memory_share_depends) then acc
             else if mem (fst (snd r)) prev then acc
             else set_insert (fst (snd r)) acc)
          rels acc)
  <-> In s acc \/
      exists r, In r rels /\ is_msd r = true /\ fst (snd r) = s /\ ~ In s prev.
Proof.
  induction rels as [|r rels IH]; intros acc s; simpl.
  - split; [intros H; left; exact H | intros [H | [r [[] _]]]; exact H].
  - rewrite IH. unfold is_msd.
    destruct (relation_eqb (snd (snd r)) memory_share_depends) eqn:Em; simpl.
    + destruct (mem (fst (snd r)) prev) eqn:Ep.
      * split.
        -- intros [H | [r' [Hr' H]]]; [left; exact H | right; exists r'; tauto].
        -- intros [H | [r' [[<- | Hr'] (M & S & N)]]].
           ++ left; exact H.
           ++ subst s. apply mem_In in Ep. contradiction.
           ++ right. exists r'. tauto.
      * rewrite In_set_insert. split.
        -- intros [[-> | H] | [r' [Hr' H]]].
           ++ right. exists r. repeat split; [left; reflexivity | exact Em |].
              intros H. apply mem_In in H. congruence.
           ++ left; exact H.
           ++ right. exists r'. tauto.
        -- intros [H | [r' [[<- | Hr'] (M & S & N)]]].
           ++ left. right. exact H.
           ++ left. left. symmetry. exact S.
           ++ right. exists r'. tauto.
    + split.
      * intros [H | [r' [Hr' H]]]; [left; exact H | right; exists r'; tauto].
      * intros [H | [r' [[<- | Hr'] (M & S & N)]]].
        -- left; exact H.
        -- congruence.
        -- right. exists r'. tauto.
Qed.

Definition marks (nm : node_map) (prev : list nat) (phase : list node) (s : nat) : Prop :=
  exists n r, In n phase /\ In r (NodeMap.equal_range nm (get_id n)) /\
              is_msd r = true /\ fst (snd r) = s /\ ~ In s prev.

Lemma In_evacuation_phase nm prev phase : forall acc s,
  In s (fold_left
          (fun acc n =>
             fold_left
               (fun acc r =>
                  if negb (relation_eqb (snd (snd r)) memory_share_depends) then acc
                  else if mem (fst (snd r)) prev then acc
                  else set_insert (fst (snd r)) acc)
               (NodeMap.equal_range nm (get_id n)) acc)
          phase acc)
  <-> In s acc \/ marks nm prev phase s.
Proof.
  induction phase as [|n phase IH]; intros acc s; simpl.
  - split; [intros H; left; exact H | intros [H | (n & r & [] & _)]; exact H].
  - rewrite IH, In_evacuation_relations. unfold marks. split.
    + intros [[H | (r & Hr & M & S & N)] | (n' & r & Hn & Hr & M & S & N)].
      * left; exact H.
      * right. exists n, r. simpl. intuition.
      * right. exists n', r. simpl. intuition.
    + intros [H | (n' & r & [<- | Hn] & Hr & M & S & N)].
      * left. left. exact H.
      * left. right. exists r. intuition.
      * right. exists n', r. intuition.
Qed.

(** The phase before position [k], as the loop sees it. *)
Definition previous_ids (prev : list nat) (phases : list (list node)) (k : nat) : list nat :=
  match k with
  | O => prev
  | S i => map get_id (nth i phases [])
  end.

Lemma In_evacuation_set nm phases : forall prev acc s,
  In s (evacuation_set nm phases prev acc)
  <-> In s acc \/
      exists k phase, nth_error phases k = Some phase /\
                      marks nm (previous_ids prev phases k) phase s.
Proof.
  induction phases as [|ph phases IH]; intros prev acc s; cbn [evacuation_set].
  - split; [intros H; left; exact H|].
    intros [H | (k & phase & Hk & _)]; [exact H|]. destruct k; discriminate.
  - rewrite IH, In_evacuation_phase. split.
    + intros [[H | H] | (k & phase & Hk & H)].
      * left; exact H.
      * right. exists 0, ph. split; [reflexivity | exact H].
      * right. exists (S k), phase. split; [exact Hk|].
        destruct k; exact H.
    + intros [H | (k & phase & Hk & H)].
      * left. left. exact H.
      * destruct k as [|k].
        -- injection Hk as <-. left. right. exact H.
        -- right. exists k, phase. split; [exact Hk|]. destruct k; exact H.
Qed.

(** Positions of ids in the phases. *)
Lemma phase_position_some P : forall a k,
  phase_position P a = Some k ->
  exists ph, nth_error P k = Some ph /\ In a ph.
Proof.
  induction P as [|ph P IH]; intros a k H; simpl in H; [discriminate|].
  destruct (mem a ph) eqn:E.
  - injection H as <-. exists ph. split; [reflexivity | apply mem_In; exact E].
  - destruct (phase_position P a) as [j|] eqn:Ej; [|discriminate].
    injection H as <-. destruct (IH a j Ej) as (ph' & H1 & H2).
    exists ph'. split; assumption.
Qed.

Lemma phase_position_unique P : forall a k ph,
  NoDup (List.concat P) -> nth_error P k = Some ph -> In a ph ->
  phase_position P a = Some k.
Proof.
  induction P as [|q P IH]; intros a k ph Hnd Hk Ha; [destruct k; discriminate|].
  simpl in Hnd. simpl.
  destruct (mem a q) eqn:E.
  - destruct k as [|k]; [reflexivity|]. exfalso.
    apply mem_In in E. simpl in Hk.
    apply NoDup_app_remove_l in Hnd as Hnd'.
    assert (In a (List.concat P)).
    { apply in_concat. exists ph. split; [eapply nth_error_In; exact Hk | exact Ha]. }
    clear - Hnd E H. induction q as [|x q IHq]; [contradiction|].
    simpl in Hnd. inversion Hnd; subst. destruct E as [-> | E].
    + apply H2. apply in_or_app. right. exact H.
    + apply IHq; assumption.
  - destruct k as [|k].
    + simpl in Hk. injection Hk as <-. apply mem_In in Ha. congruence.
    + simpl in Hk. apply NoDup_app_remove_l in Hnd.
      rewrite (IH a k ph Hnd Hk Ha). reflexivity.
Qed.

Lemma phase_position_exists P a :
  In a (List.concat P) -> exists k, phase_position P a = Some k.
Proof.
  induction P as [|q P IH]; simpl; [contradiction|].
  intros H. destruct (mem a q) eqn:E; [exists 0; reflexivity|].
  apply in_app_or in H. destruct H as [H | H].
  - apply mem_In in H. congruence.
  - destruct (IH H) as [k ->]. exists (S k). reflexivity.
Qed.

Lemma In_equal_range nm id r :
  In r (NodeMap.equal_range nm id) <-> In r (m_relations nm) /\ fst r = id.
Proof.
  unfold NodeMap.equal_range. rewrite filter_In, Nat.eqb_eq. reflexivity.
Qed.

Definition ids_of (phases : list (list node)) : list (list nat) :=
  map (map get_id) phases.

Lemma nth_error_ids_of phases k :
  nth_error (ids_of phases) k = option_map (map get_id) (nth_error phases k).
Proof. apply nth_error_map. Qed.

Lemma nth_ids_of phases i ph :
  nth_error (ids_of phases) i = Some ph -> map get_id (nth i phases []) = ph.
Proof.
  rewrite nth_error_ids_of. destruct (nth_error phases i) as [p|] eqn:E; [|discriminate].
  simpl. intros H. injection H as <-.
  rewrite (nth_error_nth _ _ _ E). reflexivity.
Qed.

(** A source is marked exactly when one of its [memory_share_depends]
    edges leads to a phase that does not follow its own. *)
Lemma marked_iff_unsatisfied nm phases s :
  NoDup (List.concat (ids_of phases)) ->
  (forall r, In r (m_relations nm) -> In (fst r) (List.concat (ids_of phases))) ->
  (exists k phase, nth_error phases k = Some phase /\
                   marks nm (previous_ids [] phases k) phase s)
  <-> exists r, In r (m_relations nm) /\ is_msd r = true /\ fst (snd r) = s /\
                adjacent (ids_of phases) s (fst r) = false.
Proof.
  intros Hnd Hkeys. split.
  - intros (k & phase & Hk & n & r & Hn & Hr & Hm & Hs & Hnot).
    apply In_equal_range in Hr. destruct Hr as [Hr Hkey].
    exists r. repeat split; try assumption.
    assert (Hpos : phase_position (ids_of phases) (fst r) = Some k).
    { apply (phase_position_unique _ _ _ (map get_id phase) Hnd).
      - rewrite nth_error_ids_of, Hk. reflexivity.
      - rewrite Hkey. apply in_map. exact Hn. }
    unfold adjacent. rewrite Hpos.
    destruct (phase_position (ids_of phases) s) as [i|] eqn:Ei; [|reflexivity].
    destruct (k =? S i) eqn:E; [|reflexivity]. exfalso.
    apply Nat.eqb_eq in E. subst k.
    apply phase_position_some in Ei. destruct Ei as (ph' & H1 & H2).
    apply Hnot. simpl. rewrite (nth_ids_of _ _ _ H1). exact H2.
  - intros (r & Hr & Hm & Hs & A).
    destruct (phase_position_exists _ _ (Hkeys r Hr)) as [k Hk].
    destruct (phase_position_some _ _ _ Hk) as (ph & H1 & H2).
    rewrite nth_error_ids_of in H1.
    destruct (nth_error phases k) as [phase|] eqn:E; [|discriminate].
    simpl in H1. injection H1 as <-.
    apply in_map_iff in H2. destruct H2 as (n & Hid & Hn).
    exists k, phase. split; [exact E|].
    exists n, r. repeat split; try assumption.
    + apply In_equal_range. split; [exact Hr | symmetry; exact Hid].
    + intros Hin. destruct k as [|i]; [exact Hin|]. simpl in Hin.
      assert (Hi : nth_error (ids_of phases) i = Some (map get_id (nth i phases []))).
      { rewrite nth_error_ids_of.
        assert (Hlt : i < List.length phases).
        { apply Nat.lt_trans with (S i); [lia|].
          apply nth_error_Some. rewrite E. discriminate. }
        destruct (nth_error phases i) as [q|] eqn:Eq.
        - simpl. rewrite (nth_error_nth _ _ _ Eq). reflexivity.
        - apply nth_error_None in Eq. lia. }
      pose proof (phase_position_unique _ _ _ _ Hnd Hi Hin) as Hpos.
      unfold adjacent in A. rewrite Hpos, Hk, Nat.eqb_refl in A. discriminate.
Qed.

(** *** The phases hold every node once *)

Lemma phase_map_set_perm n p : forall m,
  ~ In (addr n) (map (fun e => addr (fst e)) m) ->
  Permutation (map fst (phase_map_set n p m)) (n :: map fst m).
Proof.
  induction m as [|[k q] m IH]; intros Hn; simpl.
  - apply Permutation_refl.
  - destruct (addr n <? addr k); [apply Permutation_refl|].
    destruct (addr n =? addr k) eqn:E.
    + apply Nat.eqb_eq in E. exfalso. apply Hn. left. symmetry. exact E.
    + simpl. eapply Permutation_trans; [apply perm_skip, IH | apply perm_swap].
      intros H. apply Hn. right. exact H.
Qed.

Lemma assign_phases_perm uf NIL : forall nodeOrder i phaseNumber nextPhase phaseMap,
  NoDup (map addr nodeOrder ++ map addr (map fst phaseMap)) ->
  Permutation (map fst (assign_phases uf NIL nodeOrder i phaseNumber nextPhase phaseMap))
              (nodeOrder ++ map fst phaseMap).
Proof.
  induction nodeOrder as [|n rest IH]; intros i phaseNumber nextPhase phaseMap Hnd.
  - apply Permutation_refl.
  - cbn [assign_phases].
    simpl in Hnd. inversion Hnd as [|x l Hx Hl]; subst.
    assert (Hfresh : ~ In (addr n) (map (fun e => addr (fst e)) phaseMap)).
    { intros H. apply Hx. apply in_or_app. right. rewrite map_map. exact H. }
    assert (Hstep : forall p,
              NoDup (map addr rest ++ map addr (map fst (phase_map_set n p phaseMap)))).
    { intros p.
      pose proof (phase_map_set_perm n p phaseMap Hfresh) as Hp.
      apply (Permutation_map addr) in Hp.
      eapply Permutation_NoDup.
      - apply Permutation_app_head. apply Permutation_sym. exact Hp.
      - simpl. apply NoDup_Add with (a := addr n) (l := map addr rest ++ map addr (map fst phaseMap)).
        + apply Add_app.
        + constructor; assumption. }
    destruct (_ =? NIL).
    + eapply Permutation_trans; [apply IH, Hstep|].
      eapply Permutation_trans.
      * apply Permutation_app_head. apply phase_map_set_perm. exact Hfresh.
      * apply Permutation_sym. apply Permutation_middle.
    + eapply Permutation_trans; [apply IH, Hstep|].
      eapply Permutation_trans.
      * apply Permutation_app_head. apply phase_map_set_perm. exact Hfresh.
      * apply Permutation_sym. apply Permutation_middle.
Qed.

Lemma get_phase_map_perm nm :
  NoDup (map addr (m_tokens nm)) ->
  Permutation (map fst (get_phase_map nm)) (m_tokens nm).
Proof.
  intros Hnd. unfold get_phase_map.
  eapply Permutation_trans.
  - apply assign_phases_perm. simpl. rewrite app_nil_r. exact Hnd.
  - simpl. rewrite app_nil_r. apply Permutation_refl.
Qed.

Lemma concat_vector_set {A} (n : A) : forall (phases : list (list A)) k ns,
  nth_error phases k = Some ns ->
  Permutation (List.concat (vector_set k (ns ++ [n]) phases)) (n :: List.concat phases).
Proof.
  induction phases as [|p phases IH]; intros k ns Hk; [destruct k; discriminate|].
  destruct k as [|k]; simpl in *.
  - injection Hk as <-. rewrite <- app_assoc. simpl.
    apply Permutation_sym. apply Permutation_middle.
  - eapply Permutation_trans; [apply Permutation_app_head, IH; exact Hk|].
    apply Permutation_sym. apply Permutation_middle.
Qed.

Lemma distribute_perm topoOrderMap : forall phaseMap phases phases',
  distribute phaseMap topoOrderMap phases = Ok phases' ->
  Permutation (List.concat phases') (map fst phaseMap ++ List.concat phases).
Proof.
  induction phaseMap as [|[n p] phaseMap IH]; intros phases phases' H; simpl in H.
  - injection H as <-. apply Permutation_refl.
  - destruct (nth_error topoOrderMap p) as [k|]; [|discriminate].
    destruct (nth_error phases k) as [ns|] eqn:Ek; [|discriminate].
    apply IH in H. eapply Permutation_trans; [exact H|].
    simpl. eapply Permutation_trans.
    + apply Permutation_app_head. apply concat_vector_set. exact Ek.
    + apply Permutation_sym. apply Permutation_middle.
Qed.

Lemma concat_repeat_nil {A} n : List.concat (repeat (@nil A) n) = [].
Proof. induction n; simpl; auto. Qed.

Lemma get_In nm id n :
  NodeMap.get nm id = Some n -> In n (m_tokens nm) /\ get_id n = id.
Proof.
  unfold NodeMap.get. intros H. apply find_some in H.
  destruct H as [H E]. apply Nat.eqb_eq in E. split; assumption.
Qed.

(** [get_phases] has looked up both ends of every relation. *)
Lemma colour_edges_keys nm phaseMap rels : forall e e',
  colour_edges nm phaseMap rels e = Ok e' ->
  forall r, In r rels -> exists n, In n (m_tokens nm) /\ get_id n = fst r.
Proof.
  induction rels as [|q rels IH]; intros e e' H r Hr; [contradiction|].
  cbn [colour_edges] in H.
  destruct (NodeMap.get nm (fst (snd q))) as [from|]; [|discriminate].
  destruct (NodeMap.get nm (fst q)) as [to|] eqn:Eto; [|discriminate].
  destruct Hr as [<- | Hr].
  - exists to. apply get_In. exact Eto.
  - destruct (phase_of phaseMap from) as [fromPhase|]; [|discriminate].
    destruct (phase_of phaseMap to) as [toPhase|]; [|discriminate].
    destruct (fromPhase =? toPhase); [eapply IH; eassumption|].
    destruct (negb _); [eapply IH; eassumption|].
    destruct (can_evacuate from); [eapply IH; eassumption|].
    destruct (_ || _); [discriminate|].
    eapply IH; eassumption.
Qed.

(** What [get_phases] returned when it returned. *)
Lemma get_phases_ok nm phaseMap phaseGraph set phases :
  get_phases nm phaseMap phaseGraph = Ok (set, phases) ->
  exists e topoOrderMap n,
    colour_edges nm phaseMap (m_relations nm) (mk_edges [] [] [] []) = Ok e /\
    distribute phaseMap topoOrderMap (repeat [] n) = Ok phases /\
    set = evacuation_set nm phases [] [].
Proof.
  unfold get_phases. intros H.
  destruct (colour_edges _ _ _ _) as [e|]; [|discriminate]. simpl in H.
  destruct (phase_order e phaseGraph) as [o|]; [|discriminate]. simpl in H.
  destruct (inverse_permutation o) as [m|]; [|discriminate]. simpl in H.
  destruct (distribute phaseMap m _) as [ps|] eqn:Ed; [|discriminate]. simpl in H.
  destruct ps as [|[|x p] ps]; try discriminate.
  injection H as <- <-.
  exists e, m, (List.length o). repeat split. exact Ed.
Qed.

(** What [go_init] returned when it returned. *)
Lemma go_init_phases fuel nm files memory t0 gc :
  go_init fuel nm files memory = (t0, Ok gc) ->
  exists phaseGraph,
    get_phases nm (get_phase_map nm) phaseGraph
    = Ok (gc_evacuateWhenDone gc, gc_phases gc).
Proof.
  unfold go_init. intros H.
  destruct (NodeMap.size nm =? 0); [discriminate|].
  destruct (negb _); [discriminate|].
  apply bind_run_ok in H. destruct H as (t1 & phaseGraph & t2 & _ & H & _).
  apply bind_run_ok in H. destruct H as (t3 & ph & t4 & Hph & H & _).
  exists phaseGraph.
  unfold lift in Hph. injection Hph as _ Hph.
  apply bind_run_ok in H. destruct H as (t5 & itemFlow & t6 & _ & H & _).
  apply bind_run_ok in H. destruct H as (t7 & actor & t8 & _ & H & _).
  apply bind_run_ok in H. destruct H as (t9 & [] & t10 & _ & H & _).
  apply bind_run_ok in H. destruct H as (t11 & fa & t12 & _ & H & _).
  apply bind_run_ok in H. destruct H as (t13 & [] & t14 & _ & H & _).
  apply bind_run_ok in H. destruct H as (t15 & ma & t16 & _ & H & _).
  apply bind_run_ok in H. destruct H as (t17 & [] & t18 & _ & H & _).
  unfold ret in H. injection H as _ <-. simpl.
  rewrite Hph. destruct ph; reflexivity.
Qed.

(** A node map is well formed when its nodes have distinct ids and
    distinct addresses. *)
Definition wf_node_map (nm : node_map) : Prop :=
  NoDup (map get_id (m_tokens nm)) /\ NoDup (map addr (m_tokens nm)).

Lemma concat_ids_of phases :
  List.concat (ids_of phases) = map get_id (List.concat phases).
Proof. unfold ids_of. symmetry. apply concat_map. Qed.

(** Whether a [memory_share_depends] edge leaves the node [id] for a
    phase that does not immediately follow its own. *)
Definition has_unsatisfied_edge (nm : node_map) (P : list (list nat)) (id : nat) : bool :=
  existsb
    (fun r => is_msd r && (fst (snd r) =? id) && negb (adjacent P id (fst r)))
    (m_relations nm).

Lemma evacuation_set_spec fuel nm files memory t0 gc :
  wf_node_map nm ->
  go_init fuel nm files memory = (t0, Ok gc) ->
  forall s, mem s (gc_evacuateWhenDone gc)
            = has_unsatisfied_edge nm (ids_of (gc_phases gc)) s.
Proof.
  intros [Hids Haddrs] Hinit s.
  destruct (go_init_phases _ _ _ _ _ _ Hinit) as [phaseGraph Hph].
  destruct (get_phases_ok _ _ _ _ _ Hph) as (e & m & n & Hc & Hd & Hset).
  assert (Hperm : Permutation (List.concat (gc_phases gc)) (m_tokens nm)).
  { eapply Permutation_trans; [apply (distribute_perm _ _ _ _ Hd)|].
    rewrite concat_repeat_nil, app_nil_r. apply get_phase_map_perm. exact Haddrs. }
  assert (Hnd : NoDup (List.concat (ids_of (gc_phases gc)))).
  { rewrite concat_ids_of. eapply Permutation_NoDup; [|exact Hids].
    apply Permutation_map, Permutation_sym. exact Hperm. }
  assert (Hkeys : forall r, In r (m_relations nm) ->
                            In (fst r) (List.concat (ids_of (gc_phases gc)))).
  { intros r Hr. destruct (colour_edges_keys _ _ _ _ _ Hc r Hr) as (k & Hk & <-).
    rewrite concat_ids_of. apply in_map.
    eapply Permutation_in; [apply Permutation_sym; exact Hperm | exact Hk]. }
  apply eq_true_iff_eq. rewrite mem_In, Hset, In_evacuation_set.
  unfold has_unsatisfied_edge. rewrite existsb_exists. split.
  - intros [[] | H].
    apply (marked_iff_unsatisfied nm _ s Hnd Hkeys) in H.
    destruct H as (r & Hr & Hm & Hs & A). exists r. split; [exact Hr|].
    rewrite Hm, A. simpl. rewrite andb_true_r. apply Nat.eqb_eq. exact Hs.
  - intros (r & Hr & H). right.
    apply (marked_iff_unsatisfied nm _ s Hnd Hkeys).
    apply andb_true_iff in H. destruct H as [H A].
    apply andb_true_iff in H. destruct H as [Hm Hs].
    exists r. repeat split; try assumption.
    + apply Nat.eqb_eq. exact Hs.
    + apply negb_true_iff. exact A.
Qed.

Lemma flat_map_filter_concat {A B} (f : A -> B) (p : A -> bool) (l : list (list A)) :
  flat_map (fun x => map f (filter p x)) l = map f (filter p (List.concat l)).
Proof.
  induction l as [|x l IH]; simpl; [reflexivity|].
  rewrite filter_app, map_app, IH. reflexivity.
Qed.

(** The nodes evacuated in a completed run. *)
Definition evacuated_nodes (nm : node_map) (phases : list (list node)) : list node :=
  filter (fun n => has_unsatisfied_edge nm (ids_of phases) (get_id n) && can_evacuate n)
         (List.concat (removelast phases)).

(** *** C1: a cycle of green edges *)

(** Two nodes, neither of which can evacuate, each sharing memory with
    the other. *)
Definition green_cycle : node_map :=
  pipeline [plain_node 0 false; plain_node 1 false]
           [(0, 1, memory_share_depends); (1, 0, memory_share_depends)].

(** C1, at the failing input: the two green edges of [green_cycle] cannot
    both be satisfied, and the run aborts, but with [not_a_dag_exception]:
    the contracted graph is a single node, its order is found, and the
    exception comes from the topological order of the green path, outside
    the [try] block that turns it into "can't satisfy all green edges". *)
Theorem C1_green_cycle_not_a_dag :
  colour_edges green_cycle (get_phase_map green_cycle)
               (m_relations green_cycle) (mk_edges [] [] [] [])
    = Ok (mk_edges [] [] [(0, 1); (1, 0)] [(0, 1); (1, 0)]) /\
  phases_of green_cycle = Err not_a_dag_exception /\
  go 64 green_cycle 100 1000 = ([], Err not_a_dag_exception) /\
  not_a_dag_exception <> cannot_satisfy.
Proof.
  repeat apply conj; try (vm_compute; reflexivity). discriminate.
Qed.

(** *** C2: a cycle hidden in a green contraction *)

(** Node 0 depends on node 1, and node 1 shares the memory of node 0,
    which cannot evacuate: a black edge from phase 1 to phase 0 and a
    green edge from phase 0 to phase 1. *)
Definition hidden_cycle : node_map :=
  pipeline [plain_node 0 false; plain_node 1 false]
           [(0, 1, depends); (1, 0, memory_share_depends)].

(** C2, at the failing input: [get_phases] returns normally with the
    order [[0]; [1]], in which the phase of node 1 runs after the phase
    of node 0 that depends on it.  The black edge joins two phases that
    the green edge has contracted into one, and is dropped. *)
Theorem C2_hidden_cycle_order :
  phases_of hidden_cycle = Ok ([], [[0]; [1]]) /\
  In (0, (1, depends)) (m_relations hidden_cycle) /\
  before [[0]; [1]] 1 0 = false /\
  topological hidden_cycle [[0]; [1]] = false /\
  fst (go 64 hidden_cycle 100 1000) <> [] /\
  snd (go 64 hidden_cycle 100 1000) = Ok tt.
Proof.
  repeat apply conj; try (vm_compute; reflexivity).
  - left. reflexivity.
  - vm_compute. discriminate.
Qed.

(** *** C3: evacuations are counted by node *)

(** The count of the claim: the [memory_share_depends] edges whose
    source can evacuate and whose source phase does not immediately
    precede the destination phase. *)
Definition unsatisfied_edges (nm : node_map) (phases : list (list nat))
  : list (nat * (nat * node_relation)) :=
  filter
    (fun r =>
       relation_eqb (snd (snd r)) memory_share_depends
       && match NodeMap.get nm (fst (snd r)) with
          | Some from => can_evacuate from
          | None => false
          end
       && negb (adjacent phases (fst (snd r)) (fst r)))
    (m_relations nm).

(** Node 0 can evacuate; node 1 depends on it; nodes 2 and 3 depend on
    node 1 and share the memory of node 0. *)
Definition fan : node_map :=
  pipeline [plain_node 0 true; plain_node 1 false; plain_node 2 false; plain_node 3 false]
           [(1, 0, depends); (2, 1, depends); (3, 1, depends);
            (2, 0, memory_share_depends); (3, 0, memory_share_depends)].

(** C3, as stated, fails on [fan]: two [memory_share_depends] edges
    leave node 0 for phases that do not follow its own, and [evacuate()]
    is called once. *)
Lemma C3_one_call_for_two_edges :
  phases_of fan = Ok ([0], [[0]; [1]; [3]; [2]]) /\
  List.length (unsatisfied_edges fan [[0]; [1]; [3]; [2]]) = 2 /\
  snd (go 64 fan 100 1000) = Ok tt /\
  evacuate_calls (fst (go 64 fan 100 1000)) = [0].
Proof. by_evaluation. Qed.

(** C3 (amended): for every well-formed pipeline executed to completion
    via [runtime::go], [evacuate()] is called once on every node that can
    evacuate, lies in a phase other than the last, and is the source of at
    least one [memory_share_depends] edge whose source phase does not
    immediately precede its destination phase in the final order; it is
    called on no other node.  The number of calls is the number of such
    nodes, however many such edges leave each. *)
Theorem C3_evacuate_calls fuel nm files memory t0 gc t :
  wf_node_map nm ->
  go_init fuel nm files memory = (t0, Ok gc) ->
  go fuel nm files memory = (t, Ok tt) ->
  evacuate_calls t = map get_id (evacuated_nodes nm (gc_phases gc)) /\
  List.length (evacuate_calls t) = List.length (evacuated_nodes nm (gc_phases gc)).
Proof.
  intros Hwf Hinit Hgo.
  assert (H : evacuate_calls t = map get_id (evacuated_nodes nm (gc_phases gc))).
  { rewrite (proj2 (go_calls_of_run _ _ _ _ _ _ _ Hinit Hgo)).
    unfold evacuated, evacuated_nodes.
    rewrite (flat_map_filter_concat get_id). f_equal.
    apply filter_ext. intros n.
    rewrite (evacuation_set_spec _ _ _ _ _ _ Hwf Hinit). reflexivity. }
  split; [exact H|]. rewrite H. apply length_map.
Qed.

Lemma C3_evacuate_calls_witness :
  wf_node_map fan /\
  exists t0 gc t,
    go_init 64 fan 100 1000 = (t0, Ok gc) /\
    go 64 fan 100 1000 = (t, Ok tt) /\
    evacuate_calls t = map get_id (evacuated_nodes fan (gc_phases gc)) /\
    List.length (evacuate_calls t) = List.length (evacuated_nodes fan (gc_phases gc)).
Proof.
  assert (Hwf : wf_node_map fan).
  { split; vm_compute; repeat constructor; simpl; intuition discriminate. }
  split; [exact Hwf|].
  destruct (go_init 64 fan 100 1000) as [t0 [gc|e]] eqn:E;
    [|vm_compute in E; discriminate E].
  destruct (go 64 fan 100 1000) as [t [[]|e]] eqn:G;
    [|vm_compute in G; discriminate G].
  exists t0, gc, t. split; [reflexivity|]. split; [reflexivity|].
  exact (C3_evacuate_calls 64 fan 100 1000 t0 gc t Hwf E G).
Defined.

(** *** C8: initiators *)

(** Three nodes, each pulling from the next. *)
Definition pulls_cycle : node_map :=
  pipeline [plain_node 0 false; plain_node 1 false; plain_node 2 false]
           [(0, 1, pulls); (1, 2, pulls); (2, 0, pulls)].

(** C8, as stated, fails on [pulls_cycle]: its three nodes form one
    phase without an initiator, and [runtime::go] raises
    [not_a_dag_exception]: [go_init] orders the item-flow graph of the
    phase, which is cyclic, before [ensure_initiators] is reached. *)
Lemma C8_pulls_cycle_not_a_dag :
  map (fun e => (get_id (fst e), snd e)) (get_phase_map pulls_cycle)
    = [(0, 0); (1, 0); (2, 0)] /\
  has_initiator pulls_cycle (m_tokens pulls_cycle) = false /\
  go 64 pulls_cycle 100 1000 = ([], Err not_a_dag_exception).
Proof. by_evaluation. Qed.

(** C8 (amended): once [go_init] has returned (the phases are ordered,
    the item-flow graphs are acyclic, the resources assigned): if some
    phase has no initiator, [runtime::go] raises [no_initiator_node] and
    [go()] is called on no node; and in a run that completes, [go()] is
    called exactly on the initiators of each phase, phase after phase. *)
Theorem C8_go_on_initiators fuel nm files memory t0 gc :
  go_init fuel nm files memory = (t0, Ok gc) ->
  (forallb (has_initiator nm) (gc_phases gc) = false ->
   go fuel nm files memory = (t0, Err no_initiator_node) /\ go_calls t0 = []) /\
  (forall t, go fuel nm files memory = (t, Ok tt) ->
   go_calls t = flat_map (initiators nm) (gc_phases gc)).
Proof.
  intros Hinit. split.
  - intros Hno. rewrite (go_after_init _ _ _ _ _ _ Hinit).
    rewrite ensure_initiators_spec, Hno. simpl. rewrite app_nil_r.
    split; [reflexivity|].
    destruct (quiet_go_init fuel nm files memory) as [G0 _].
    rewrite Hinit in G0. exact G0.
  - intros t Hgo.
    exact (proj1 (go_calls_of_run _ _ _ _ _ _ _ Hinit Hgo)).
Qed.

(** Node 0 pushes to node 1 and node 1 pulls from node 0: the items flow
    one way, and neither node is an initiator. *)
Definition push_pull : node_map :=
  pipeline [plain_node 0 false; plain_node 1 false] [(0, 1, pushes); (1, 0, pulls)].

(** C8 on [push_pull]: [go_init] returns, and [runtime::go] raises
    [no_initiator_node]. *)
Lemma C8_go_on_initiators_witness :
  exists t0 gc,
    go_init 64 push_pull 100 1000 = (t0, Ok gc) /\
    forallb (has_initiator push_pull) (gc_phases gc) = false /\
    go 64 push_pull 100 1000 = (t0, Err no_initiator_node) /\
    go_calls t0 = [].
Proof.
  destruct (go_init 64 push_pull 100 1000) as [t0 [gc|e]] eqn:E.
  - exists t0, gc. split; [reflexivity|].
    assert (Hno : forallb (has_initiator push_pull) (gc_phases gc) = false).
    { vm_compute in E. injection E as _ <-. reflexivity. }
    split; [exact Hno|].
    exact (proj1 (C8_go_on_initiators 64 push_pull 100 1000 t0 gc E) Hno).
  - vm_compute in E. discriminate E.
Defined.

(** The linear pipeline of the specification: node 0 pushes to node 1,
    node 1 to node 2.  One phase; [begin] from the sink, [go] on node 0
    only, [end] from the source. *)
Definition linear : node_map :=
  pipeline [plain_node 0 false; plain_node 1 false; plain_node 2 false]
           [(0, 1, pushes); (1, 2, pushes)].

Example linear_run :
  phases_of linear = Ok ([], [[0; 1; 2]]) /\
  snd (go 64 linear 100 1000) = Ok tt /\
  go_calls (fst (go 64 linear 100 1000)) = [0] /\
  filter (fun e => match e with ev_begin _ | ev_end _ => true | _ => false end)
         (fst (go 64 linear 100 1000))
  = [ev_begin 2; ev_begin 1; ev_begin 0; ev_end 0; ev_end 1; ev_end 2].
Proof. by_evaluation. Qed.

End Runtime.

(** * Correctness of [graph::strongly_connected_components]

    The source's [SCC] class is Tarjan's algorithm, with the lowlink of a
    node lowered to the lowlink (not the index) of a node found on the
    stack.  The proof follows the recursion of [visit]: an invariant of the
    state between any two steps, and what one call of [visit] changes. *)
Module TarjanSCC.

Import Graph.

Lemma lookup_cons {A} k k' (a : A) m :
  lookup k ((k', a) :: m) = if k' =? k then Some a else lookup k m.
Proof. reflexivity. Qed.

Lemma lookup_In {A} k (m : list (nat * A)) :
  lookup k m <> None <-> In k (map fst m).
Proof.
  induction m as [|[k' a] m IH]; simpl.
  - split; [congruence | contradiction].
  - destruct (k' =? k) eqn:E.
    + apply Nat.eqb_eq in E. split; [intros _; left; exact E | discriminate].
    + apply Nat.eqb_neq in E. rewrite IH. split; [intros H; right; exact H|].
      intros [H | H]; [contradiction | exact H].
Qed.

Lemma In_node_set g v : In v (get_node_set g) <-> get_edge_list g v <> None.
Proof. symmetry. apply lookup_In. Qed.

(** Every edge leads to a node of the graph, as [add_edge] ensures. *)
Definition wf_graph (g : graph) : Prop :=
  forall u v, edge g u v -> In v (get_node_set g).

Definition wf_graphb (g : graph) : bool :=
  forallb (fun e => forallb (fun v => mem v (get_node_set g)) (snd e)) g.

Lemma lookup_some_In {A} k (m : list (nat * A)) a :
  lookup k m = Some a -> In (k, a) m.
Proof.
  induction m as [|[k' a'] m IH]; simpl; [discriminate|].
  destruct (k' =? k) eqn:E.
  - apply Nat.eqb_eq in E. intros [= ->]. left. subst. reflexivity.
  - intros H. right. exact (IH H).
Qed.

Lemma wf_graphb_spec g : wf_graphb g = true -> wf_graph g.
Proof.
  unfold wf_graphb. rewrite forallb_forall. intros H u v (es & E & Hv).
  apply lookup_some_In in E. specialize (H _ E). simpl in H.
  rewrite forallb_forall in H. apply Runtime.mem_In, H, Hv.
Qed.

(** The graphs that [add_node], [add_edge] and [remove_edge] build are
    well formed. *)
Lemma wf_graph_empty : wf_graph empty.
Proof. intros u v (es & E & _). discriminate E. Qed.

Lemma lookup_add_node u v g :
  lookup u (add_node v g) = lookup u g \/ lookup u (add_node v g) = Some [].
Proof.
  induction g as [|[k es] rest IH]; simpl.
  - destruct (v =? u); auto.
  - destruct (v <? k) eqn:E1.
    + simpl. destruct (v =? u); auto.
    + destruct (v =? k) eqn:E2; simpl; [auto|].
      destruct (k =? u); auto.
Qed.

Lemma nodes_add_node x v g :
  In x (get_node_set (add_node v g)) <-> x = v \/ In x (get_node_set g).
Proof.
  unfold get_node_set. induction g as [|[k es] rest IH]; simpl.
  - intuition.
  - destruct (v <? k) eqn:E1; simpl; [intuition|].
    destruct (v =? k) eqn:E2; simpl.
    + apply Nat.eqb_eq in E2. subst. intuition.
    + rewrite IH. intuition.
Qed.

Lemma wf_graph_add_node v g : wf_graph g -> wf_graph (add_node v g).
Proof.
  intros H x y (es & E & Hy). apply nodes_add_node. right.
  destruct (lookup_add_node x v g) as [E' | E']; unfold get_edge_list in E;
    rewrite E' in E.
  - apply (H x y). exists es. auto.
  - injection E as <-. contradiction.
Qed.

Lemma lookup_push_back x u v g :
  lookup x (push_back u v g)
  = if x =? u then option_map (fun es => es ++ [v]) (lookup u g) else lookup x g.
Proof.
  induction g as [|[k es] rest IH]; simpl.
  - destruct (x =? u); reflexivity.
  - destruct (k =? u) eqn:E1; simpl.
    + apply Nat.eqb_eq in E1. subst k. rewrite (Nat.eqb_sym u x).
      destruct (x =? u); reflexivity.
    + rewrite IH. destruct (x =? u) eqn:E2.
      * apply Nat.eqb_eq in E2. subst x. rewrite E1. reflexivity.
      * reflexivity.
Qed.

Lemma nodes_push_back u v g : get_node_set (push_back u v g) = get_node_set g.
Proof.
  unfold get_node_set. induction g as [|[k es] rest IH]; simpl; [reflexivity|].
  destruct (k =? u); simpl; [reflexivity | rewrite IH; reflexivity].
Qed.

Lemma wf_graph_add_edge u v g : wf_graph g -> wf_graph (add_edge u v g).
Proof.
  intros H. unfold add_edge.
  pose proof (wf_graph_add_node v _ (wf_graph_add_node u _ H)) as H'.
  set (g' := add_node v (add_node u g)) in *.
  intros x y (es & E & Hy). rewrite nodes_push_back.
  unfold get_edge_list in E. rewrite lookup_push_back in E.
  destruct (x =? u) eqn:Ex.
  - apply Nat.eqb_eq in Ex. subst x.
    destruct (lookup u g') as [es' |] eqn:E'; [|discriminate E].
    injection E as <-. apply in_app_or in Hy. destruct Hy as [Hy | [<- | []]].
    + apply (H' u y). exists es'. auto.
    + apply nodes_add_node. left. reflexivity.
  - apply (H' x y). exists es. auto.
Qed.

Lemma In_erase_first x v es : In x (erase_first v es) -> In x es.
Proof.
  induction es as [|e rest IH]; simpl; [auto|].
  destruct (e =? v); simpl; [auto|]. intros [H | H]; auto.
Qed.

Lemma lookup_remove_edge x u v g :
  lookup x (remove_edge u v g)
  = if x =? u then option_map (erase_first v) (lookup u g) else lookup x g.
Proof.
  induction g as [|[k es] rest IH]; simpl.
  - destruct (x =? u); reflexivity.
  - destruct (k =? u) eqn:E1; simpl.
    + apply Nat.eqb_eq in E1. subst k. rewrite (Nat.eqb_sym u x).
      destruct (x =? u); reflexivity.
    + rewrite IH. destruct (x =? u) eqn:E2.
      * apply Nat.eqb_eq in E2. subst x. rewrite E1. reflexivity.
      * reflexivity.
Qed.

Lemma nodes_remove_edge u v g : get_node_set (remove_edge u v g) = get_node_set g.
Proof.
  unfold get_node_set. induction g as [|[k es] rest IH]; simpl; [reflexivity|].
  destruct (k =? u); simpl; [reflexivity | rewrite IH; reflexivity].
Qed.

Lemma wf_graph_remove_edge u v g : wf_graph g -> wf_graph (remove_edge u v g).
Proof.
  intros H x y (es & E & Hy). rewrite nodes_remove_edge.
  unfold get_edge_list in E. rewrite lookup_remove_edge in E.
  destruct (x =? u) eqn:Ex.
  - apply Nat.eqb_eq in Ex. subst x.
    destruct (lookup u g) as [es' |] eqn:E'; [|discriminate E].
    injection E as <-. apply (H u y). exists es'. split; [exact E'|].
    exact (In_erase_first _ _ _ Hy).
  - apply (H x y). exists es. auto.
Qed.

Section Tarjan.

Variable g : graph.
Hypothesis closed : wf_graph g.

Definition reach : nat -> nat -> Prop := clos_refl_trans nat (edge g).

Definition visited (st : scc) (v : nat) : Prop := lookup v (indices st) <> None.
Definition idx (st : scc) (v : nat) : nat := at_ (indices st) v.
Definition low (st : scc) (v : nat) : nat := at_ (lowlinks st) v.
Definition done (st : scc) (v : nat) : Prop := visited st v /\ ~ In v (S_ st).

(** A strongly connected component: not empty, and with each of its
    nodes it holds exactly the nodes that reach it and that it reaches. *)
Definition is_scc (c : list nat) : Prop :=
  c <> [] /\ forall x, In x c -> forall y, In y c <-> (reach x y /\ reach y x).

Record Inv (st : scc) (G : list nat) : Prop := mk_Inv {
  inv_on : forall v, at_bool (onStack st) v = true <-> In v (S_ st);
  inv_vis : forall v, In v (S_ st) -> visited st v;
  inv_idx : forall v, visited st v -> idx st v < index st;
  inv_sorted : StronglySorted (fun a b => idx st b < idx st a) (S_ st);
  inv_low : forall x, In x (S_ st) ->
            low st x <= idx st x /\
            exists w, In w (S_ st) /\ low st x = idx st w /\ reach x w;
  inv_gray : forall x, In x G -> In x (S_ st);
  inv_black : forall x, In x (S_ st) -> ~ In x G ->
              low st x < idx st x /\
              forall y, edge g x y ->
                        done st y \/ (In y (S_ st) /\ low st x <= idx st y);
  inv_done : forall x y, done st x -> edge g x y -> done st y;
  inv_comp_scc : forall c, In c (components st) -> is_scc c;
  inv_comp_cover : forall x, done st x <-> exists c, In c (components st) /\ In x c;
  inv_comp_order : forall pre c post, components st = pre ++ c :: post ->
                   forall x y, In x c -> edge g x y ->
                               In y c \/ exists c', In c' pre /\ In y c';
  inv_comp_nodup : NoDup (List.concat (components st));
  inv_nodes : forall v, visited st v -> In v (get_node_set g)
}.

(** What a call of [visit] on [u] changes. *)
Record Post (st : scc) (u : nat) (st' : scc) : Prop := mk_Post {
  post_mono : forall v, visited st v -> visited st' v;
  post_u : visited st' u;
  post_idx : forall v, visited st v -> idx st' v = idx st v;
  post_low : forall v, visited st v -> low st' v = low st v;
  post_new_idx : forall v, visited st' v -> ~ visited st v -> index st <= idx st' v;
  post_new_reach : forall v, visited st' v -> ~ visited st v -> reach u v;
  post_stack : exists N, S_ st' = N ++ S_ st /\
                         forall x, In x N -> ~ visited st x;
  post_root : ~ In u (S_ st') -> low st' u = idx st' u /\ S_ st' = S_ st;
  post_low_u : In u (S_ st') ->
               forall x, In x (S_ st') -> idx st' u <= idx st' x ->
                         low st' u <= low st' x;
  post_index : index st <= index st';
  post_idx_u : idx st' u = index st
}.

(** *** The accessors through the updates *)

Lemma visited_enter u st v : visited (enter u st) v <-> v = u \/ visited st v.
Proof.
  unfold visited, enter. simpl.
  destruct (u =? v) eqn:E.
  - apply Nat.eqb_eq in E. subst. split; [intros _; left; reflexivity | discriminate].
  - apply Nat.eqb_neq in E. split; [intros H; right; exact H|].
    intros [H | H]; [congruence | exact H].
Qed.

Lemma idx_enter u st v : idx (enter u st) v = if u =? v then index st else idx st v.
Proof. unfold idx, at_, enter. simpl. destruct (u =? v); reflexivity. Qed.

Lemma low_enter u st v : low (enter u st) v = if u =? v then index st else low st v.
Proof. unfold low, at_, enter. simpl. destruct (u =? v); reflexivity. Qed.

Lemma on_enter u st v :
  at_bool (onStack (enter u st)) v = (u =? v) || at_bool (onStack st) v.
Proof. unfold at_bool, enter. simpl. destruct (u =? v); reflexivity. Qed.

Lemma low_min_lowlink u v st x :
  low (min_lowlink u v st) x
  = if u =? x then Nat.min (low st u) (low st v) else low st x.
Proof. unfold low, at_, min_lowlink. simpl. destruct (u =? x); reflexivity. Qed.

(** The number of nodes not yet visited bounds the depth of the
    recursion. *)
Definition is_visited (st : scc) (v : nat) : bool :=
  match lookup v (indices st) with Some _ => true | None => false end.

Lemma is_visited_spec st v : is_visited st v = true <-> visited st v.
Proof.
  unfold is_visited, visited. destruct (lookup v (indices st)).
  - split; [discriminate | reflexivity].
  - split; [discriminate | congruence].
Qed.

Definition unvisited (st : scc) : nat :=
  List.length (filter (fun v => negb (is_visited st v)) (get_node_set g)).

Lemma filter_length_le {A} (p q : A -> bool) (l : list A) :
  (forall a, q a = true -> p a = true) ->
  List.length (filter q l) <= List.length (filter p l).
Proof.
  intros H. induction l as [|a l IH]; simpl; [lia|].
  destruct (q a) eqn:Eq.
  - rewrite (H a Eq). simpl. lia.
  - destruct (p a); simpl; lia.
Qed.

Lemma filter_length_lt {A} (p q : A -> bool) (l : list A) a :
  (forall a, q a = true -> p a = true) ->
  In a l -> p a = true -> q a = false ->
  List.length (filter q l) < List.length (filter p l).
Proof.
  intros H. induction l as [|b l IH]; simpl; [contradiction|].
  intros [-> | Hin] Hp Hq.
  - rewrite Hp, Hq. simpl.
    pose proof (filter_length_le p q l H). lia.
  - specialize (IH Hin Hp Hq). destruct (q b) eqn:Eq.
    + rewrite (H b Eq). simpl. lia.
    + destruct (p b); simpl; lia.
Qed.

Lemma unvisited_mono st st' :
  (forall v, visited st v -> visited st' v) -> unvisited st' <= unvisited st.
Proof.
  intros H. unfold unvisited. apply filter_length_le. intros a Ha.
  apply negb_true_iff in Ha. apply negb_true_iff.
  destruct (is_visited st a) eqn:E; [|reflexivity].
  apply is_visited_spec, H, is_visited_spec in E. congruence.
Qed.

Lemma unvisited_enter u st :
  ~ visited st u -> In u (get_node_set g) -> unvisited (enter u st) < unvisited st.
Proof.
  intros Hu Hin. unfold unvisited. apply filter_length_lt with (a := u).
  - intros a Ha. apply negb_true_iff in Ha. apply negb_true_iff.
    destruct (is_visited st a) eqn:E; [|reflexivity].
    apply is_visited_spec in E.
    assert (visited (enter u st) a) by (apply visited_enter; right; exact E).
    apply is_visited_spec in H. congruence.
  - exact Hin.
  - apply negb_true_iff. destruct (is_visited st u) eqn:E; [|reflexivity].
    apply is_visited_spec in E. contradiction.
  - apply negb_false_iff. apply is_visited_spec, visited_enter. left. reflexivity.
Qed.

(** *** The stack is sorted by decreasing index *)

Lemma sorted_ext {A} (R R' : A -> A -> Prop) l :
  (forall a b, In a l -> In b l -> R a b -> R' a b) ->
  StronglySorted R l -> StronglySorted R' l.
Proof.
  intros H Hs. induction Hs as [|a l Hs IH Hall]; constructor.
  - apply IH. intros x y Hx Hy. apply H; right; assumption.
  - rewrite Forall_forall in *. intros x Hx. apply H; [left; reflexivity | right; exact Hx |].
    apply Hall, Hx.
Qed.

Lemma sorted_app {A} (R : A -> A -> Prop) l1 x l2 :
  StronglySorted R (l1 ++ x :: l2) ->
  (forall a, In a l1 -> R a x) /\ (forall b, In b l2 -> R x b) /\
  (forall a b, In a l1 -> In b l2 -> R a b) /\ StronglySorted R l2.
Proof.
  induction l1 as [|c l1 IH]; simpl; intros Hs.
  - inversion Hs as [|? ? Hs' Hall]; subst. rewrite Forall_forall in Hall.
    repeat split; [contradiction | exact Hall | contradiction | exact Hs'].
  - inversion Hs as [|? ? Hs' Hall]; subst. rewrite Forall_forall in Hall.
    destruct (IH Hs') as (H1 & H2 & H3 & H4).
    repeat split.
    + intros a [<- | Ha]; [apply Hall, in_elt | apply H1, Ha].
    + exact H2.
    + intros a b [<- | Ha] Hb; [apply Hall, in_or_app; right; right; exact Hb|].
      apply H3; assumption.
    + exact H4.
Qed.

Lemma sorted_NoDup {A} (R : A -> A -> Prop) l :
  (forall a, ~ R a a) -> StronglySorted R l -> NoDup l.
Proof.
  intros Hirr Hs. induction Hs as [|a l Hs IH Hall]; constructor; [|exact IH].
  rewrite Forall_forall in Hall. intros Hin. exact (Hirr a (Hall a Hin)).
Qed.

Lemma stack_NoDup st G : Inv st G -> NoDup (S_ st).
Proof.
  intros I. apply sorted_NoDup with (R := fun a b => idx st b < idx st a).
  - intros a. lia.
  - apply (inv_sorted _ _ I).
Qed.

(** *** Changing the lowlinks of the nodes being visited *)

Definition set_lowlinks (m : list (nat * nat)) (st : scc) : scc :=
  mk_scc (index st) (S_ st) (indices st) m (onStack st) (components st).

Lemma Inv_set_lowlinks st G m :
  Inv st G ->
  (forall x, In x (S_ st) -> ~ In x G ->
             low (set_lowlinks m st) x = low st x) ->
  (forall x, In x G ->
             low (set_lowlinks m st) x <= idx st x /\
             exists w, In w (S_ st) /\
                       low (set_lowlinks m st) x = idx st w /\ reach x w) ->
  Inv (set_lowlinks m st) G.
Proof.
  intros I Hsame Hgray.
  assert (Hdone : forall x, done (set_lowlinks m st) x <-> done st x)
    by (intros x; reflexivity).
  constructor.
  - exact (inv_on _ _ I).
  - exact (inv_vis _ _ I).
  - exact (inv_idx _ _ I).
  - exact (inv_sorted _ _ I).
  - intros x Hx. destruct (in_dec Nat.eq_dec x G) as [Hg | Hg].
    + exact (Hgray x Hg).
    + rewrite (Hsame x Hx Hg). exact (inv_low _ _ I x Hx).
  - exact (inv_gray _ _ I).
  - intros x Hx Hg. rewrite (Hsame x Hx Hg). exact (inv_black _ _ I x Hx Hg).
  - exact (inv_done _ _ I).
  - exact (inv_comp_scc _ _ I).
  - exact (inv_comp_cover _ _ I).
  - exact (inv_comp_order _ _ I).
  - exact (inv_comp_nodup _ _ I).
  - exact (inv_nodes _ _ I).
Qed.

Lemma min_lowlink_set u v st :
  min_lowlink u v st
  = set_lowlinks ((u, Nat.min (at_ (lowlinks st) u) (at_ (lowlinks st) v))
                    :: lowlinks st) st.
Proof. reflexivity. Qed.

Lemma reach_edge u v w : edge g u v -> reach v w -> reach u w.
Proof.
  intros E R. apply rt_trans with v; [apply rt_step; exact E | exact R].
Qed.

(** An edge to a node of the stack. *)
Lemma Inv_min_lowlink u v st G :
  Inv st (u :: G) -> In v (S_ st) -> edge g u v ->
  Inv (min_lowlink u v st) (u :: G).
Proof.
  intros I Hv E. rewrite min_lowlink_set.
  apply Inv_set_lowlinks; [exact I | |].
  - intros x Hx Hg. rewrite <- min_lowlink_set, low_min_lowlink.
    destruct (u =? x) eqn:Eu; [|reflexivity].
    apply Nat.eqb_eq in Eu. subst. exfalso. apply Hg. left. reflexivity.
  - intros x Hg. rewrite <- min_lowlink_set, low_min_lowlink.
    assert (Hx : In x (S_ st)) by exact (inv_gray _ _ I x Hg).
    destruct (inv_low _ _ I x Hx) as (Hle & w & Hw & Hlw & Hr).
    destruct (u =? x) eqn:Eu.
    + apply Nat.eqb_eq in Eu. subst x.
      split; [lia|].
      destruct (inv_low _ _ I v Hv) as (Hlev & wv & Hwv & Hlwv & Hrv).
      destruct (Nat.le_gt_cases (low st u) (low st v)) as [Hc | Hc].
      * exists w. rewrite Nat.min_l by exact Hc. auto.
      * exists wv. rewrite Nat.min_r by lia.
        repeat split; [exact Hwv | exact Hlwv | exact (reach_edge _ _ _ E Hrv)].
    + split; [exact Hle|]. exists w. auto.
Qed.

(** An edge to a node whose lowlink is above the one of [u]. *)
Lemma Inv_min_lowlink_same u v st G :
  Inv st G -> low st u <= low st v -> Inv (min_lowlink u v st) G.
Proof.
  intros I Hle. rewrite min_lowlink_set.
  assert (Hsame : forall x, low (set_lowlinks ((u, Nat.min (at_ (lowlinks st) u)
                     (at_ (lowlinks st) v)) :: lowlinks st) st) x = low st x).
  { intros x. rewrite <- min_lowlink_set, low_min_lowlink.
    destruct (u =? x) eqn:Eu; [|reflexivity].
    apply Nat.eqb_eq in Eu. subst x. apply Nat.min_l, Hle. }
  apply Inv_set_lowlinks; [exact I | |].
  - intros x _ _. apply Hsame.
  - intros x Hg. rewrite Hsame. apply (inv_low _ _ I). exact (inv_gray _ _ I x Hg).
Qed.

(** *** Entering a node *)

Lemma done_enter u st x : ~ visited st u -> (done (enter u st) x <-> done st x).
Proof.
  intros Hu. unfold done. rewrite visited_enter. simpl. split.
  - intros [[-> | Hv] Hn]; [exfalso; apply Hn; left; reflexivity|].
    split; [exact Hv | intros Hin; apply Hn; right; exact Hin].
  - intros [Hv Hn]. split; [right; exact Hv|].
    intros [<- | Hin]; [exact (Hu Hv) | exact (Hn Hin)].
Qed.

Lemma Inv_enter u st G :
  Inv st G -> ~ visited st u -> In u (get_node_set g) ->
  Inv (enter u st) (u :: G).
Proof.
  intros I Hu Hnode.
  assert (Hne : forall x, visited st x -> (u =? x) = false).
  { intros x Hx. apply Nat.eqb_neq. intros ->. exact (Hu Hx). }
  assert (HneS : forall x, In x (S_ st) -> (u =? x) = false).
  { intros x Hx. apply Hne, (inv_vis _ _ I), Hx. }
  constructor.
  - intros v. rewrite on_enter. simpl. rewrite orb_true_iff, (inv_on _ _ I), Nat.eqb_eq.
    reflexivity.
  - intros v Hv. apply visited_enter. destruct Hv as [<- | Hv]; [left; reflexivity|].
    right. exact (inv_vis _ _ I v Hv).
  - intros v Hv. rewrite idx_enter. simpl. apply visited_enter in Hv.
    destruct Hv as [-> | Hv].
    + rewrite Nat.eqb_refl. lia.
    + rewrite (Hne v Hv). pose proof (inv_idx _ _ I v Hv). lia.
  - simpl. constructor.
    + apply sorted_ext with (2 := inv_sorted _ _ I).
      intros a b Ha Hb. rewrite !idx_enter, (HneS a Ha), (HneS b Hb). auto.
    + rewrite Forall_forall. intros x Hx.
      rewrite !idx_enter, Nat.eqb_refl, (HneS x Hx).
      apply (inv_idx _ _ I), (inv_vis _ _ I), Hx.
  - intros x Hx. rewrite low_enter, idx_enter. destruct Hx as [<- | Hx].
    + rewrite Nat.eqb_refl. split; [lia|]. exists u.
      rewrite idx_enter, Nat.eqb_refl.
      repeat split; [left; reflexivity | apply rt_refl].
    + rewrite (HneS x Hx).
      destruct (inv_low _ _ I x Hx) as (Hle & w & Hw & Hlw & Hr).
      split; [exact Hle|]. exists w. rewrite idx_enter, (HneS w Hw).
      repeat split; [right; exact Hw | exact Hlw | exact Hr].
  - intros x [<- | Hx]; [left; reflexivity | right; exact (inv_gray _ _ I x Hx)].
  - intros x Hx Hg.
    assert (Hxu : x <> u) by (intros ->; apply Hg; left; reflexivity).
    destruct Hx as [-> | Hx]; [congruence|].
    assert (Hg' : ~ In x G) by (intros Hin; apply Hg; right; exact Hin).
    rewrite low_enter, idx_enter, (HneS x Hx).
    destruct (inv_black _ _ I x Hx Hg') as (Hlt & Hed).
    split; [exact Hlt|]. intros y E.
    destruct (Hed y E) as [Hd | [Hy Hl]].
    + left. apply done_enter; assumption.
    + right. rewrite idx_enter, (HneS y Hy). split; [right; exact Hy | exact Hl].
  - intros x y Hd E. apply done_enter in Hd; [|exact Hu].
    apply done_enter; [exact Hu|]. exact (inv_done _ _ I x y Hd E).
  - exact (inv_comp_scc _ _ I).
  - intros x. rewrite done_enter by exact Hu. exact (inv_comp_cover _ _ I x).
  - exact (inv_comp_order _ _ I).
  - exact (inv_comp_nodup _ _ I).
  - intros v Hv. apply visited_enter in Hv. destruct Hv as [-> | Hv]; [exact Hnode|].
    exact (inv_nodes _ _ I v Hv).
Qed.

(** *** The loop over the edges of a node *)

(** The state after the edges to the nodes [P] of the node [u], entered
    in state [st0], have been handled. *)
Record Loop (st0 : scc) (u : nat) (G P : list nat) (st : scc) : Prop := mk_Loop {
  loop_inv : Inv st (u :: G);
  loop_inv0 : Inv st0 G;
  loop_unv : ~ visited st0 u;
  loop_mono : forall v, visited st0 v -> visited st v;
  loop_idx_u : idx st u = index st0;
  loop_idx : forall v, visited st0 v -> idx st v = idx st0 v;
  loop_low : forall v, visited st0 v -> low st v = low st0 v;
  loop_new_idx : forall v, visited st v -> ~ visited st0 v -> index st0 <= idx st v;
  loop_new_reach : forall v, visited st v -> ~ visited st0 v -> reach u v;
  loop_stack : exists N, S_ st = N ++ u :: S_ st0 /\
                         forall x, In x N -> ~ visited st0 x;
  loop_low_above : forall x, In x (S_ st) -> idx st u <= idx st x ->
                             low st u <= low st x;
  loop_edges : forall y, In y P ->
                         done st y \/ (In y (S_ st) /\ low st u <= idx st y);
  loop_index : index st0 < index st
}.

Lemma Loop_u_on_stack st0 u G P st : Loop st0 u G P st -> In u (S_ st).
Proof. intros L. apply (inv_gray _ _ (loop_inv _ _ _ _ _ L)). left. reflexivity. Qed.

Lemma Loop_u_visited st0 u G P st : Loop st0 u G P st -> visited st u.
Proof.
  intros L. apply (inv_vis _ _ (loop_inv _ _ _ _ _ L)), (Loop_u_on_stack _ _ _ _ _ L).
Qed.

Lemma Loop_start st0 u G :
  Inv st0 G -> ~ visited st0 u -> In u (get_node_set g) ->
  Loop st0 u G [] (enter u st0).
Proof.
  intros I Hu Hnode.
  assert (Hne : forall x, visited st0 x -> (u =? x) = false).
  { intros x Hx. apply Nat.eqb_neq. intros ->. exact (Hu Hx). }
  constructor.
  - apply Inv_enter; assumption.
  - exact I.
  - exact Hu.
  - intros v Hv. apply visited_enter. right. exact Hv.
  - rewrite idx_enter, Nat.eqb_refl. reflexivity.
  - intros v Hv. rewrite idx_enter, (Hne v Hv). reflexivity.
  - intros v Hv. rewrite low_enter, (Hne v Hv). reflexivity.
  - intros v Hv Hn. apply visited_enter in Hv. destruct Hv as [-> | Hv]; [|contradiction].
    rewrite idx_enter, Nat.eqb_refl. lia.
  - intros v Hv Hn. apply visited_enter in Hv. destruct Hv as [-> | Hv]; [|contradiction].
    apply rt_refl.
  - exists []. split; [reflexivity | contradiction].
  - intros x Hx Hle. rewrite !low_enter, Nat.eqb_refl.
    destruct Hx as [<- | Hx]; [rewrite Nat.eqb_refl; lia|].
    exfalso. revert Hle. rewrite !idx_enter, Nat.eqb_refl.
    assert (Hv : visited st0 x) by exact (inv_vis _ _ I x Hx).
    rewrite (Hne x Hv). pose proof (inv_idx _ _ I x Hv). lia.
  - contradiction.
  - simpl. lia.
Qed.

(** An edge to a node that is in a component already. *)
Lemma Loop_done st0 u G P st v :
  Loop st0 u G P st -> done st v -> Loop st0 u G (v :: P) st.
Proof.
  intros L Hd. destruct L. constructor; try assumption.
  intros y [<- | Hy]; [left; exact Hd | apply loop_edges0, Hy].
Qed.

(** The changes of [min_lowlink] to a loop state, when the invariant is
    kept and the lowlink of [u] does not go above the index of [v]. *)
Lemma Loop_min_lowlink st0 u G P st v :
  Loop st0 u G P st ->
  Inv (min_lowlink u v st) (u :: G) ->
  (forall x, In x (S_ st) -> idx st u <= idx st x ->
             Nat.min (low st u) (low st v) <= low st x) ->
  done st v \/ (In v (S_ st) /\ Nat.min (low st u) (low st v) <= idx st v) ->
  Loop st0 u G (v :: P) (min_lowlink u v st).
Proof.
  intros L I Habove Hv.
  assert (Hne : forall x, visited st0 x -> (u =? x) = false).
  { intros x Hx. apply Nat.eqb_neq. intros ->. exact (loop_unv _ _ _ _ _ L Hx). }
  constructor.
  - exact I.
  - exact (loop_inv0 _ _ _ _ _ L).
  - exact (loop_unv _ _ _ _ _ L).
  - exact (loop_mono _ _ _ _ _ L).
  - exact (loop_idx_u _ _ _ _ _ L).
  - exact (loop_idx _ _ _ _ _ L).
  - intros x Hx. rewrite low_min_lowlink, (Hne x Hx). exact (loop_low _ _ _ _ _ L x Hx).
  - exact (loop_new_idx _ _ _ _ _ L).
  - exact (loop_new_reach _ _ _ _ _ L).
  - exact (loop_stack _ _ _ _ _ L).
  - intros x Hx Hle. change (S_ (min_lowlink u v st)) with (S_ st) in Hx.
    change (idx (min_lowlink u v st)) with (idx st) in Hle.
    rewrite !low_min_lowlink, Nat.eqb_refl.
    destruct (u =? x) eqn:Eu; [lia|]. exact (Habove x Hx Hle).
  - intros y Hy. change (done (min_lowlink u v st) y) with (done st y).
    change (S_ (min_lowlink u v st)) with (S_ st).
    change (idx (min_lowlink u v st)) with (idx st).
    rewrite low_min_lowlink, Nat.eqb_refl.
    destruct Hy as [<- | Hy]; [exact Hv|].
    destruct (loop_edges _ _ _ _ _ L y Hy) as [Hd | [Hs Hl]]; [left; exact Hd|].
    right. split; [exact Hs | lia].
  - exact (loop_index _ _ _ _ _ L).
Qed.

(** An edge to a node of the stack. *)
Lemma Loop_back st0 u G P st v :
  Loop st0 u G P st -> edge g u v -> In v (S_ st) ->
  Loop st0 u G (v :: P) (min_lowlink u v st).
Proof.
  intros L E Hv.
  pose proof (loop_inv _ _ _ _ _ L) as I.
  apply Loop_min_lowlink; [exact L | apply Inv_min_lowlink; assumption | |].
  - intros x Hx Hle. pose proof (loop_low_above _ _ _ _ _ L x Hx Hle). lia.
  - right. split; [exact Hv|]. destruct (inv_low _ _ I v Hv) as [Hl _]. lia.
Qed.

(** An edge to a node not seen before, after the recursive call. *)
Lemma Loop_tree st0 u G P st v st' :
  Loop st0 u G P st -> edge g u v -> ~ visited st v ->
  Inv st' (u :: G) -> Post st v st' ->
  Loop st0 u G (v :: P) (min_lowlink u v st').
Proof.
  intros L E Hv I' Po.
  pose proof (loop_inv _ _ _ _ _ L) as I.
  pose proof (Loop_u_visited _ _ _ _ _ L) as Hu.
  pose proof (Loop_u_on_stack _ _ _ _ _ L) as HuS.
  assert (Hne : forall x, visited st0 x -> (u =? x) = false).
  { intros x Hx. apply Nat.eqb_neq. intros ->. exact (loop_unv _ _ _ _ _ L Hx). }
  assert (Hidxu : idx st' u = idx st u) by exact (post_idx _ _ _ Po u Hu).
  assert (Hlowu : low st' u = low st u) by exact (post_low _ _ _ Po u Hu).
  assert (Hidxv : idx st' v = index st) by exact (post_idx_u _ _ _ Po).
  assert (Hlt : idx st u < index st) by exact (inv_idx _ _ I u Hu).
  destruct (post_stack _ _ _ Po) as (N' & HS' & HN').
  assert (HuS' : In u (S_ st')) by (rewrite HS'; apply in_or_app; right; exact HuS).
  assert (Hlu : low st' u <= idx st' u) by (apply (inv_low _ _ I' u HuS')).
  assert (Hroot : ~ In v (S_ st') -> low st' u <= low st' v /\ N' = []).
  { intros Hn. destruct (post_root _ _ _ Po Hn) as [Hr Hs]. split; [lia|].
    rewrite Hs in HS'. symmetry. apply (app_inv_tail (S_ st) [] N'). exact HS'. }
  assert (I'' : Inv (min_lowlink u v st') (u :: G)).
  { destruct (in_dec Nat.eq_dec v (S_ st')) as [Hin | Hn].
    - apply Inv_min_lowlink; assumption.
    - apply Inv_min_lowlink_same; [exact I' | apply Hroot, Hn]. }
  constructor.
  - exact I''.
  - exact (loop_inv0 _ _ _ _ _ L).
  - exact (loop_unv _ _ _ _ _ L).
  - intros x Hx. apply (post_mono _ _ _ Po), (loop_mono _ _ _ _ _ L), Hx.
  - change (idx st' u = index st0). rewrite Hidxu. exact (loop_idx_u _ _ _ _ _ L).
  - intros x Hx. change (idx st' x = idx st0 x).
    rewrite (post_idx _ _ _ Po x (loop_mono _ _ _ _ _ L x Hx)).
    exact (loop_idx _ _ _ _ _ L x Hx).
  - intros x Hx. rewrite low_min_lowlink, (Hne x Hx).
    rewrite (post_low _ _ _ Po x (loop_mono _ _ _ _ _ L x Hx)).
    exact (loop_low _ _ _ _ _ L x Hx).
  - intros x Hx Hn. change (index st0 <= idx st' x).
    change (visited st' x) in Hx.
    destruct (is_visited st x) eqn:Ex.
    + apply is_visited_spec in Ex. rewrite (post_idx _ _ _ Po x Ex).
      exact (loop_new_idx _ _ _ _ _ L x Ex Hn).
    + assert (Hnx : ~ visited st x).
      { intros H. apply is_visited_spec in H. congruence. }
      pose proof (post_new_idx _ _ _ Po x Hx Hnx).
      pose proof (loop_index _ _ _ _ _ L). lia.
  - intros x Hx Hn. change (visited st' x) in Hx.
    destruct (is_visited st x) eqn:Ex.
    + apply is_visited_spec in Ex. exact (loop_new_reach _ _ _ _ _ L x Ex Hn).
    + assert (Hnx : ~ visited st x).
      { intros H. apply is_visited_spec in H. congruence. }
      exact (reach_edge _ _ _ E (post_new_reach _ _ _ Po x Hx Hnx)).
  - destruct (loop_stack _ _ _ _ _ L) as (N & HS & HN).
    exists (N' ++ N). split.
    + change (S_ st' = (N' ++ N) ++ u :: S_ st0). rewrite HS', HS, app_assoc. reflexivity.
    + intros x Hx. apply in_app_or in Hx. destruct Hx as [Hx | Hx]; [|exact (HN x Hx)].
      intros H0. exact (HN' x Hx (loop_mono _ _ _ _ _ L x H0)).
  - intros x Hx Hle. change (In x (S_ st')) in Hx.
    change (idx st' u <= idx st' x) in Hle.
    rewrite !low_min_lowlink, Nat.eqb_refl.
    destruct (u =? x) eqn:Eu; [lia|].
    rewrite HS' in Hx. apply in_app_or in Hx. destruct Hx as [Hx | Hx].
    + destruct (in_dec Nat.eq_dec v (S_ st')) as [Hin | Hn].
      * assert (low st' v <= low st' x); [|lia].
        apply (post_low_u _ _ _ Po Hin).
        -- rewrite HS'. apply in_or_app. left. exact Hx.
        -- rewrite Hidxv. apply (post_new_idx _ _ _ Po).
           ++ apply (inv_vis _ _ I'). rewrite HS'. apply in_or_app. left. exact Hx.
           ++ exact (HN' x Hx).
      * destruct (Hroot Hn) as [_ ->]. contradiction.
    + assert (Hvx : visited st x) by exact (inv_vis _ _ I x Hx).
      rewrite (post_low _ _ _ Po x Hvx), Hlowu.
      rewrite (post_idx _ _ _ Po x Hvx), Hidxu in Hle.
      pose proof (loop_low_above _ _ _ _ _ L x Hx Hle). lia.
  - intros y Hy.
    change (done st' y \/
            (In y (S_ st') /\ low (min_lowlink u v st') u <= idx st' y)).
    rewrite low_min_lowlink, Nat.eqb_refl.
    destruct Hy as [<- | Hy].
    + destruct (in_dec Nat.eq_dec v (S_ st')) as [Hin | Hn].
      * right. split; [exact Hin|].
        destruct (inv_low _ _ I' v Hin) as [Hl _]. lia.
      * left. split; [exact (post_u _ _ _ Po) | exact Hn].
    + destruct (loop_edges _ _ _ _ _ L y Hy) as [[Hvy Hny] | [Hs Hl]].
      * left. split; [exact (post_mono _ _ _ Po y Hvy)|].
        rewrite HS'. intros Hin. apply in_app_or in Hin.
        destruct Hin as [Hin | Hin]; [exact (HN' y Hin Hvy) | exact (Hny Hin)].
      * right. split; [rewrite HS'; apply in_or_app; right; exact Hs|].
        rewrite (post_idx _ _ _ Po y (inv_vis _ _ I y Hs)). lia.
  - change (index st0 < index st'). pose proof (post_index _ _ _ Po).
    pose proof (loop_index _ _ _ _ _ L). lia.
Qed.

(** *** Closing a node *)

Lemma set_insert_sorted v s :
  StronglySorted lt s -> StronglySorted lt (set_insert v s).
Proof.
  intros Hs. induction Hs as [|k rest Hs IH Hall]; simpl.
  - constructor; constructor.
  - rewrite Forall_forall in Hall.
    destruct (v <? k) eqn:E1.
    + apply Nat.ltb_lt in E1. constructor.
      * constructor; [exact Hs | rewrite Forall_forall; exact Hall].
      * rewrite Forall_forall. intros x [<- | Hx]; [exact E1|].
        pose proof (Hall x Hx). lia.
    + destruct (v =? k) eqn:E2.
      * constructor; [exact Hs | rewrite Forall_forall; exact Hall].
      * apply Nat.ltb_ge in E1. apply Nat.eqb_neq in E2. constructor; [exact IH|].
        rewrite Forall_forall. intros x Hx. apply Runtime.In_set_insert in Hx.
        destruct Hx as [-> | Hx]; [lia | exact (Hall x Hx)].
Qed.

Lemma pop_component_spec u S0 : forall N on comp,
  ~ In u N ->
  exists on' comp',
    pop_component u (N ++ u :: S0) on comp = (S0, on', comp') /\
    (forall v, In v (N ++ [u]) -> at_bool on' v = false) /\
    (forall v, ~ In v (N ++ [u]) -> at_bool on' v = at_bool on v) /\
    (forall x, In x comp' <-> In x comp \/ In x (N ++ [u])) /\
    (StronglySorted lt comp -> StronglySorted lt comp').
Proof.
  induction N as [|a N IH]; intros on comp Hu; simpl.
  - rewrite Nat.eqb_refl. eexists. eexists. split; [reflexivity|].
    repeat split.
    + intros v [<- | []]. unfold at_bool. simpl. rewrite Nat.eqb_refl. reflexivity.
    + intros v Hv. unfold at_bool. simpl. destruct (u =? v) eqn:E; [|reflexivity].
      apply Nat.eqb_eq in E. exfalso. apply Hv. left. exact E.
    + intros H. apply Runtime.In_set_insert in H. destruct H as [-> | H]; auto.
    + intros H. apply Runtime.In_set_insert. destruct H as [H | [<- | []]]; auto.
    + apply set_insert_sorted.
  - assert (Hau : (a =? u) = false).
    { apply Nat.eqb_neq. intros ->. apply Hu. left. reflexivity. }
    rewrite Hau.
    destruct (IH ((a, false) :: on) (set_insert a comp)) as (on' & comp' & E & H1 & H2 & H3 & H4).
    { intros H. apply Hu. right. exact H. }
    exists on', comp'. split; [exact E|]. repeat split.
    + intros v [<- | Hv]; [|exact (H1 v Hv)].
      destruct (in_dec Nat.eq_dec a (N ++ [u])) as [Hin | Hn]; [exact (H1 a Hin)|].
      rewrite (H2 a Hn). unfold at_bool. simpl. rewrite Nat.eqb_refl. reflexivity.
    + intros v Hv. rewrite H2 by (intros H; apply Hv; right; exact H).
      unfold at_bool. simpl. destruct (a =? v) eqn:E'; [|reflexivity].
      apply Nat.eqb_eq in E'. exfalso. apply Hv. left. exact E'.
    + intros H. apply H3 in H. rewrite Runtime.In_set_insert in H.
      destruct H as [[-> | H] | H]; auto.
    + intros H. apply H3. rewrite Runtime.In_set_insert.
      destruct H as [H | [<- | H]]; auto.
    + intros H. apply H4, set_insert_sorted, H.
Qed.

Lemma sorted_lt_NoDup (l : list nat) : StronglySorted lt l -> NoDup l.
Proof. apply sorted_NoDup. intros a. lia. Qed.

(** The node is not the root of a component: it stays on the stack. *)
Lemma close_keep st0 u G P st :
  Loop st0 u G P st -> (forall y, edge g u y -> In y P) ->
  idx st u <> low st u ->
  Inv st G /\ Post st0 u st.
Proof.
  intros L HP Hne.
  pose proof (loop_inv _ _ _ _ _ L) as I.
  pose proof (Loop_u_on_stack _ _ _ _ _ L) as HuS.
  split.
  - constructor; try (destruct I; assumption).
    + intros x Hx. apply (inv_gray _ _ I). right. exact Hx.
    + intros x Hx Hg. destruct (Nat.eq_dec x u) as [-> | Hxu].
      * destruct (inv_low _ _ I u HuS) as [Hle _]. split; [lia|].
        intros y E. exact (loop_edges _ _ _ _ _ L y (HP y E)).
      * apply (inv_black _ _ I x Hx). intros [-> | H]; [congruence | exact (Hg H)].
  - constructor.
    + exact (loop_mono _ _ _ _ _ L).
    + exact (Loop_u_visited _ _ _ _ _ L).
    + exact (loop_idx _ _ _ _ _ L).
    + exact (loop_low _ _ _ _ _ L).
    + exact (loop_new_idx _ _ _ _ _ L).
    + exact (loop_new_reach _ _ _ _ _ L).
    + destruct (loop_stack _ _ _ _ _ L) as (N & HS & HN).
      exists (N ++ [u]). split; [rewrite HS, <- app_assoc; reflexivity|].
      intros x Hx. apply in_app_or in Hx. destruct Hx as [Hx | [<- | []]].
      * exact (HN x Hx).
      * exact (loop_unv _ _ _ _ _ L).
    + intros H. contradiction.
    + intros _. exact (loop_low_above _ _ _ _ _ L).
    + pose proof (loop_index _ _ _ _ _ L). lia.
    + exact (loop_idx_u _ _ _ _ _ L).
Qed.

(** The node is the root of a component: the stack down to it is the
    component. *)
Section Root.

Variables (st0 : scc) (u : nat) (G P : list nat) (st : scc) (N : list nat).
Hypothesis L : Loop st0 u G P st.
Hypothesis HP : forall y, edge g u y -> In y P.
Hypothesis Hroot : idx st u = low st u.
Hypothesis HS : S_ st = N ++ u :: S_ st0.
Hypothesis HN : forall x, In x N -> ~ visited st0 x.

Let I : Inv st (u :: G) := loop_inv _ _ _ _ _ L.

Definition popped (x : nat) : Prop := In x (N ++ [u]).

Lemma popped_cases x : popped x <-> In x N \/ x = u.
Proof.
  unfold popped. rewrite in_app_iff. simpl. intuition.
Qed.

Lemma stack_cases x : In x (S_ st) <-> popped x \/ In x (S_ st0).
Proof.
  rewrite HS, popped_cases, in_app_iff. simpl. intuition.
Qed.

Lemma root_sorted :
  (forall x, In x N -> idx st u < idx st x) /\
  (forall z, In z (S_ st0) -> idx st z < idx st u) /\
  (forall x z, In x N -> In z (S_ st0) -> idx st z < idx st x).
Proof.
  pose proof (inv_sorted _ _ I) as Hs. rewrite HS in Hs.
  destruct (sorted_app _ _ _ _ Hs) as (H1 & H2 & H3 & _). auto.
Qed.

Lemma popped_idx x : popped x -> idx st u <= idx st x.
Proof.
  intros Hx. apply popped_cases in Hx. destruct Hx as [Hx | ->]; [|lia].
  destruct root_sorted as (H1 & _). pose proof (H1 x Hx). lia.
Qed.

Lemma below_idx z : In z (S_ st0) -> idx st z < idx st u.
Proof. destruct root_sorted as (_ & H2 & _). apply H2. Qed.

Lemma popped_above w : In w (S_ st) -> idx st u <= idx st w -> popped w.
Proof.
  intros Hw Hle. apply stack_cases in Hw. destruct Hw as [Hw | Hw]; [exact Hw|].
  pose proof (below_idx w Hw). lia.
Qed.

Lemma popped_not_below x : popped x -> ~ In x (S_ st0).
Proof.
  intros Hx Hin. pose proof (popped_idx x Hx). pose proof (below_idx x Hin). lia.
Qed.

Lemma popped_on_stack x : popped x -> In x (S_ st).
Proof. intros Hx. apply stack_cases. left. exact Hx. Qed.

Lemma popped_not_gray x : In x N -> ~ In x (u :: G).
Proof.
  intros Hx [<- | Hg].
  - destruct root_sorted as (H1 & _). pose proof (H1 u Hx). lia.
  - apply (popped_not_below x); [apply popped_cases; left; exact Hx|].
    exact (inv_gray _ _ (loop_inv0 _ _ _ _ _ L) x Hg).
Qed.

Lemma popped_from_root x : popped x -> reach u x.
Proof.
  intros Hx. apply popped_cases in Hx. destruct Hx as [Hx | ->]; [|apply rt_refl].
  apply (loop_new_reach _ _ _ _ _ L); [|exact (HN x Hx)].
  apply (inv_vis _ _ I), popped_on_stack, popped_cases. left. exact Hx.
Qed.

Lemma popped_to_root x : popped x -> reach x u.
Proof.
  assert (H : forall n x, idx st x < n -> popped x -> reach x u).
  { induction n as [|n IH]; intros y Hlt Hy; [lia|].
    pose proof Hy as Hy'. apply popped_cases in Hy'.
    destruct Hy' as [Hin | ->]; [|apply rt_refl].
    pose proof (popped_on_stack y Hy) as HyS.
    destruct (inv_black _ _ I y HyS (popped_not_gray y Hin)) as [Hlow _].
    destruct (inv_low _ _ I y HyS) as (_ & w & Hw & Hlw & Hr).
    pose proof (loop_low_above _ _ _ _ _ L y HyS (popped_idx y Hy)) as Hab.
    apply rt_trans with w; [exact Hr|].
    apply IH; [lia|]. apply popped_above; [exact Hw | lia]. }
  intros Hx. exact (H (S (idx st x)) x (Nat.lt_succ_diag_r _) Hx).
Qed.

Lemma popped_edge x y : popped x -> edge g x y -> done st y \/ popped y.
Proof.
  intros Hx E. pose proof Hx as Hx'. apply popped_cases in Hx'.
  destruct Hx' as [Hin | ->].
  - pose proof (popped_on_stack x Hx) as HxS.
    destruct (inv_black _ _ I x HxS (popped_not_gray x Hin)) as [_ Hed].
    destruct (Hed y E) as [Hd | [Hy Hl]]; [left; exact Hd|].
    right. apply popped_above; [exact Hy|].
    pose proof (loop_low_above _ _ _ _ _ L x HxS (popped_idx x Hx)). lia.
  - destruct (loop_edges _ _ _ _ _ L y (HP y E)) as [Hd | [Hy Hl]]; [left; exact Hd|].
    right. apply popped_above; [exact Hy | lia].
Qed.

Lemma reach_from_root y : reach u y -> done st y \/ popped y.
Proof.
  intros R. apply clos_rt_rtn1 in R. induction R as [|y z E R IH].
  - right. apply popped_cases. right. reflexivity.
  - destruct IH as [Hd | Hp].
    + left. exact (inv_done _ _ I y z Hd E).
    + exact (popped_edge y z Hp E).
Qed.

Lemma reach_from_done x y : done st x -> reach x y -> done st y.
Proof.
  intros Hd R. apply clos_rt_rtn1 in R. induction R as [|y z E R IH].
  - exact Hd.
  - exact (inv_done _ _ I y z IH E).
Qed.

Lemma popped_scc x : popped x -> forall y, popped y <-> reach x y /\ reach y x.
Proof.
  intros Hx y. split.
  - intros Hy. split.
    + apply rt_trans with u; [apply popped_to_root | apply popped_from_root]; assumption.
    + apply rt_trans with u; [apply popped_to_root | apply popped_from_root]; assumption.
  - intros [Rxy Ryx].
    assert (Ruy : reach u y) by (apply rt_trans with x; [apply popped_from_root|]; assumption).
    assert (Ryu : reach y u) by (apply rt_trans with x; [|apply popped_to_root]; assumption).
    destruct (reach_from_root y Ruy) as [Hd | Hp]; [|exact Hp].
    destruct (reach_from_done y u Hd Ryu) as [_ Hn].
    exfalso. apply Hn, (Loop_u_on_stack _ _ _ _ _ L).
Qed.

Lemma root_not_in_N : ~ In u N.
Proof.
  intros Hin. destruct root_sorted as (H1 & _). pose proof (H1 u Hin). lia.
Qed.

Lemma close_pop :
  Inv (close_component u st) G /\ Post st0 u (close_component u st).
Proof.
  pose proof (loop_inv0 _ _ _ _ _ L) as I0.
  destruct (pop_component_spec u (S_ st0) N (onStack st) [] root_not_in_N)
    as (on' & comp & Epop & Hoff & Hon & Hcomp & Hsorted).
  assert (Est : close_component u st
                = mk_scc (index st) (S_ st0) (indices st) (lowlinks st) on'
                    (components st ++ [comp])).
  { unfold close_component. fold (idx st u). fold (low st u).
    rewrite Hroot, Nat.eqb_refl, HS, Epop. reflexivity. }
  rewrite Est. set (st' := mk_scc _ _ _ _ _ _).
  assert (Hc : forall x, In x comp <-> popped x).
  { intros x. rewrite Hcomp. simpl. unfold popped. intuition. }
  assert (Hdone : forall x, done st' x <-> done st x \/ popped x).
  { intros x. unfold done. change (visited st' x) with (visited st x).
    change (S_ st') with (S_ st0). split.
    - intros [Hv Hn]. destruct (in_dec Nat.eq_dec x (S_ st)) as [Hin | Hin].
      + right. apply stack_cases in Hin. destruct Hin; [assumption | contradiction].
      + left. split; assumption.
    - intros [[Hv Hn] | Hp].
      + split; [exact Hv|]. intros Hin. apply Hn, stack_cases. right. exact Hin.
      + split; [apply (inv_vis _ _ I), popped_on_stack, Hp|].
        apply popped_not_below, Hp. }
  split.
  - constructor.
    + intros v. change (at_bool on' v = true <-> In v (S_ st0)).
      destruct (in_dec Nat.eq_dec v (N ++ [u])) as [Hin | Hin].
      * rewrite (Hoff v Hin). split; [discriminate|].
        intros Hb. exfalso. exact (popped_not_below v Hin Hb).
      * rewrite (Hon v Hin), (inv_on _ _ I v), stack_cases.
        split; [intros [Hp | Hb]; [contradiction | exact Hb] | intros Hb; right; exact Hb].
    + intros v Hv. apply (inv_vis _ _ I), stack_cases. right. exact Hv.
    + exact (inv_idx _ _ I).
    + pose proof (inv_sorted _ _ I) as Hs. rewrite HS in Hs.
      destruct (sorted_app _ _ _ _ Hs) as (_ & _ & _ & H4). exact H4.
    + intros x Hx. change (In x (S_ st0)) in Hx.
      assert (HxS : In x (S_ st)) by (apply stack_cases; right; exact Hx).
      destruct (inv_low _ _ I x HxS) as (Hle & w & Hw & Hlw & Hr).
      split; [exact Hle|]. exists w. repeat split; [|exact Hlw | exact Hr].
      apply stack_cases in Hw. destruct Hw as [Hw | Hw]; [|exact Hw].
      pose proof (popped_idx w Hw). pose proof (below_idx x Hx).
      change (low st' x) with (low st x) in *. change (idx st' x) with (idx st x) in *.
      change (idx st' w) with (idx st w) in *. lia.
    + exact (inv_gray _ _ I0).
    + intros x Hx Hg. change (In x (S_ st0)) in Hx.
      assert (HxS : In x (S_ st)) by (apply stack_cases; right; exact Hx).
      assert (Hg' : ~ In x (u :: G)).
      { intros [<- | H]; [|exact (Hg H)].
        apply (popped_not_below u); [apply popped_cases; right; reflexivity | exact Hx]. }
      destruct (inv_black _ _ I x HxS Hg') as [Hlt Hed].
      split; [exact Hlt|]. intros y E.
      destruct (Hed y E) as [Hd | [Hy Hl]].
      * left. apply Hdone. left. exact Hd.
      * apply stack_cases in Hy. destruct Hy as [Hy | Hy].
        -- left. apply Hdone. right. exact Hy.
        -- right. split; [exact Hy | exact Hl].
    + intros x y Hd E. apply Hdone. apply Hdone in Hd. destruct Hd as [Hd | Hp].
      * left. exact (inv_done _ _ I x y Hd E).
      * exact (popped_edge x y Hp E).
    + intros c Hin. change (In c (components st ++ [comp])) in Hin.
      apply in_app_or in Hin. destruct Hin as [Hin | [<- | []]].
      * exact (inv_comp_scc _ _ I c Hin).
      * split.
        -- intros Hnil. assert (Hu : In u comp) by (apply Hc, popped_cases; right; reflexivity).
           rewrite Hnil in Hu. contradiction.
        -- intros x Hx y. rewrite Hc. apply popped_scc, Hc, Hx.
    + intros x. rewrite Hdone. change (components st') with (components st ++ [comp]).
      split.
      * intros [Hd | Hp].
        -- apply (inv_comp_cover _ _ I) in Hd. destruct Hd as (c & Hin & Hx).
           exists c. split; [apply in_or_app; left; exact Hin | exact Hx].
        -- exists comp. split; [apply in_or_app; right; left; reflexivity | apply Hc, Hp].
      * intros (c & Hin & Hx). apply in_app_or in Hin. destruct Hin as [Hin | [<- | []]].
        -- left. apply (inv_comp_cover _ _ I). exists c. auto.
        -- right. apply Hc, Hx.
    + intros pre c post E x y Hx Ed. change (components st ++ [comp] = pre ++ c :: post) in E.
      destruct post as [|p0 post0].
      * apply app_inj_tail in E. destruct E as [<- <-].
        apply Hc in Hx. destruct (popped_edge x y Hx Ed) as [Hd | Hp].
        -- right. apply (inv_comp_cover _ _ I), Hd.
        -- left. apply Hc, Hp.
      * destruct (exists_last (l := p0 :: post0)) as (post' & a & Ep); [discriminate|].
        rewrite Ep in E. change (pre ++ c :: post' ++ [a]) with (pre ++ (c :: post') ++ [a]) in E.
        rewrite app_assoc in E. apply app_inj_tail in E. destruct E as [E _].
        exact (inv_comp_order _ _ I pre c post' E x y Hx Ed).
    + change (NoDup (List.concat (components st ++ [comp]))).
      rewrite concat_app. simpl. rewrite app_nil_r. apply NoDup_app.
      * exact (inv_comp_nodup _ _ I).
      * apply sorted_lt_NoDup, Hsorted. constructor.
      * intros a Ha Hca. apply Hc in Hca. apply in_concat in Ha.
        destruct Ha as (c & Hin & Ha).
        assert (Hd : done st a) by (apply (inv_comp_cover _ _ I); exists c; auto).
        destruct Hd as [_ Hn]. apply Hn, popped_on_stack, Hca.
    + exact (inv_nodes _ _ I).
  - constructor.
    + exact (loop_mono _ _ _ _ _ L).
    + exact (Loop_u_visited _ _ _ _ _ L).
    + exact (loop_idx _ _ _ _ _ L).
    + exact (loop_low _ _ _ _ _ L).
    + exact (loop_new_idx _ _ _ _ _ L).
    + exact (loop_new_reach _ _ _ _ _ L).
    + exists []. split; [reflexivity | contradiction].
    + intros _. split; [symmetry; exact Hroot | reflexivity].
    + intros Hin. exfalso.
      apply (popped_not_below u); [apply popped_cases; right; reflexivity | exact Hin].
    + pose proof (loop_index _ _ _ _ _ L). change (index st') with (index st). lia.
    + exact (loop_idx_u _ _ _ _ _ L).
Qed.

End Root.

(** *** [visit] *)

Definition visit_ok (fuel : nat) : Prop :=
  forall v st G,
    Inv st G -> ~ visited st v -> In v (get_node_set g) -> unvisited st <= fuel ->
    exists st', scc_visit fuel g v st = Ok st' /\ Inv st' G /\ Post st v st'.

Lemma scc_edges_correct fuel st0 u G :
  visit_ok fuel ->
  forall es P st,
    Loop st0 u G P st -> (forall y, In y es -> edge g u y) ->
    unvisited st <= fuel ->
    exists st' P',
      scc_edges (scc_visit fuel g) u es st = Ok st' /\
      Loop st0 u G P' st' /\
      forall y, In y es \/ In y P -> In y P'.
Proof.
  intros IHf. induction es as [|v rest IH]; intros P st L Hes Hfuel.
  - exists st, P. split; [reflexivity|]. split; [exact L|].
    intros y [[] | Hy]. exact Hy.
  - assert (E : edge g u v) by (apply Hes; left; reflexivity).
    assert (Hrest : forall y, In y rest -> edge g u y) by (intros y Hy; apply Hes; right; exact Hy).
    pose proof (loop_inv _ _ _ _ _ L) as I.
    assert (Hnext : forall st1, Loop st0 u G (v :: P) st1 -> unvisited st1 <= fuel ->
              exists st' P', scc_edges (scc_visit fuel g) u rest st1 = Ok st' /\
                Loop st0 u G P' st' /\ forall y, In y (v :: rest) \/ In y P -> In y P').
    { intros st1 L1 Hf1. destruct (IH (v :: P) st1 L1 Hrest Hf1) as (st' & P' & Er & L' & HP').
      exists st', P'. split; [exact Er|]. split; [exact L'|].
      intros y [[<- | Hy] | Hy]; apply HP'.
      - right. left. reflexivity.
      - left. exact Hy.
      - right. right. exact Hy. }
    simpl. destruct (lookup v (indices st)) as [i |] eqn:Elook.
    + assert (Hvis : visited st v) by (unfold visited; rewrite Elook; discriminate).
      destruct (at_bool (onStack st) v) eqn:Eon.
      * apply Hnext.
        -- apply Loop_back; [exact L | exact E | apply (inv_on _ _ I), Eon].
        -- exact Hfuel.
      * apply Hnext; [|exact Hfuel]. apply Loop_done; [exact L|].
        split; [exact Hvis|]. intros Hin. apply (inv_on _ _ I) in Hin. congruence.
    + assert (Hv : ~ visited st v) by (unfold visited; rewrite Elook; congruence).
      destruct (IHf v st (u :: G) I Hv (closed u v E) Hfuel) as (st1 & Ev & I1 & Po).
      rewrite Ev. simpl. apply Hnext.
      * exact (Loop_tree _ _ _ _ _ _ _ L E Hv I1 Po).
      * apply Nat.le_trans with (unvisited st); [|exact Hfuel].
        apply unvisited_mono. intros x Hx. exact (post_mono _ _ _ Po x Hx).
Qed.

Lemma scc_visit_correct : forall fuel, visit_ok fuel.
Proof.
  induction fuel as [|fuel IH]; intros u st G I Hu Hnode Hfuel.
  - pose proof (unvisited_enter u st Hu Hnode). lia.
  - simpl. destruct (get_edge_list g u) as [es |] eqn:Ees.
    2:{ apply In_node_set in Hnode. contradiction. }
    pose proof (Loop_start st u G I Hu Hnode) as L.
    destruct (scc_edges_correct fuel st u G IH es [] (enter u st) L) as (st1 & P & E1 & L1 & HP).
    { intros y Hy. exists es. split; [exact Ees | exact Hy]. }
    { pose proof (unvisited_enter u st Hu Hnode). lia. }
    rewrite E1. simpl.
    assert (HP' : forall y, edge g u y -> In y P).
    { intros y (es' & Ees' & Hy). apply HP. left. congruence. }
    exists (close_component u st1). split; [reflexivity|].
    destruct (Nat.eq_dec (idx st1 u) (low st1 u)) as [Heq | Hne].
    + destruct (loop_stack _ _ _ _ _ L1) as (N & HS & HN).
      exact (close_pop st u G P st1 N L1 HP' Heq HS HN).
    + assert (Est : close_component u st1 = st1).
      { unfold close_component. fold (idx st1 u). fold (low st1 u).
        apply Nat.eqb_neq in Hne. rewrite Hne. reflexivity. }
      rewrite Est. exact (close_keep st u G P st1 L1 HP' Hne).
Qed.

(** *** The loop over the nodes *)

Lemma lookup_nil v : ~ visited scc_init v.
Proof. unfold visited. simpl. congruence. Qed.

Lemma Inv_init : Inv scc_init [].
Proof.
  constructor.
  - intros v. unfold at_bool. simpl. split; [discriminate | contradiction].
  - intros v [].
  - intros v Hv. exfalso. exact (lookup_nil v Hv).
  - constructor.
  - intros x [].
  - intros x [].
  - intros x [].
  - intros x y [Hv _]. exfalso. exact (lookup_nil x Hv).
  - intros c [].
  - intros x. split.
    + intros [Hv _]. exfalso. exact (lookup_nil x Hv).
    + intros (c & [] & _).
  - intros pre c post E. destruct pre; discriminate E.
  - constructor.
  - intros v Hv. exfalso. exact (lookup_nil v Hv).
Qed.

Lemma unvisited_le_fuel st : unvisited st <= dfs_fuel g.
Proof.
  unfold unvisited, dfs_fuel.
  pose proof (filter_length_le (fun _ => true)
                (fun v => negb (is_visited st v)) (get_node_set g) (fun _ _ => eq_refl)) as H.
  assert (E : forall l : list nat, filter (fun _ : nat => true) l = l).
  { induction l as [|a l IH]; simpl; [reflexivity | rewrite IH; reflexivity]. }
  rewrite E in H. unfold get_node_set in H |- *. rewrite length_map in H. lia.
Qed.

Lemma scc_loop_correct : forall vs st,
  Inv st [] -> (forall v, In v vs -> In v (get_node_set g)) ->
  exists st', scc_loop g vs st = Ok st' /\ Inv st' [] /\
              (forall v, visited st v -> visited st' v) /\
              (forall v, In v vs -> visited st' v).
Proof.
  induction vs as [|u rest IH]; intros st I Hvs.
  - exists st. split; [reflexivity|]. split; [exact I|]. split; [auto | contradiction].
  - assert (Hrest : forall v, In v rest -> In v (get_node_set g))
      by (intros v Hv; apply Hvs; right; exact Hv).
    cbn [scc_loop]. destruct (lookup u (indices st)) as [i |] eqn:Elook.
    + destruct (IH st I Hrest) as (st' & E & I' & Hmono & Hall).
      exists st'. split; [exact E|]. split; [exact I'|]. split; [exact Hmono|].
      intros v [<- | Hv]; [|exact (Hall v Hv)].
      apply Hmono. unfold visited. rewrite Elook. discriminate.
    + assert (Hu : ~ visited st u) by (unfold visited; rewrite Elook; congruence).
      destruct (scc_visit_correct (dfs_fuel g) u st [] I Hu (Hvs u (or_introl eq_refl))
                  (unvisited_le_fuel st)) as (st1 & E1 & I1 & Po).
      rewrite E1. cbn [bind].
      destruct (IH st1 I1 Hrest) as (st' & E & I' & Hmono & Hall).
      exists st'. split; [exact E|]. split; [exact I'|]. split.
      * intros v Hv. apply Hmono, (post_mono _ _ _ Po), Hv.
      * intros v [<- | Hv]; [|exact (Hall v Hv)].
        apply Hmono, (post_u _ _ _ Po).
Qed.

(** Between two calls of [visit] from the loop the stack is empty. *)
Lemma stack_empty st : Inv st [] -> S_ st = [].
Proof.
  intros I.
  assert (H : forall n x, In x (S_ st) -> idx st x < n -> False).
  { induction n as [|n IH]; intros x Hx Hlt; [lia|].
    destruct (inv_black _ _ I x Hx (fun H => H)) as [Hlow _].
    destruct (inv_low _ _ I x Hx) as (_ & w & Hw & Hlw & _).
    apply (IH w Hw). lia. }
  destruct (S_ st) as [|x l] eqn:E; [reflexivity|].
  exfalso. apply (H (S (idx st x)) x); [left; reflexivity | lia].
Qed.

Lemma concat_rev_perm {A} (l : list (list A)) :
  Permutation (List.concat (rev l)) (List.concat l).
Proof.
  induction l as [|a l IH]; simpl; [constructor|].
  rewrite concat_app. simpl. rewrite app_nil_r.
  apply Permutation_trans with (List.concat l ++ a).
  - apply Permutation_app_tail, IH.
  - apply Permutation_app_comm.
Qed.

End Tarjan.

(** C7: for every graph whose edges lead to nodes of the graph (as
    [add_edge] ensures), [strongly_connected_components()] returns, and
    returns exactly the strongly connected components of the graph: every
    returned set is a strongly connected component made of nodes of the
    graph, every node is in one of them, and no node is in two.  They are
    listed in topological order of the condensation: an edge from a node of
    a component leads into the same component or into one listed later. *)
Theorem C7_strongly_connected_components (g : graph) :
  wf_graph g ->
  exists cs,
    strongly_connected_components g = Ok cs /\
    (forall c, In c cs -> is_scc g c) /\
    (forall c v, In c cs -> In v c -> In v (get_node_set g)) /\
    (forall v, In v (get_node_set g) -> exists c, In c cs /\ In v c) /\
    NoDup (List.concat cs) /\
    (forall pre c post, cs = pre ++ c :: post ->
       forall x y, In x c -> edge g x y ->
                   In y c \/ exists c', In c' post /\ In y c').
Proof.
  intros closed.
  destruct (scc_loop_correct g closed (get_node_set g) scc_init (Inv_init g)
              (fun v H => H)) as (st & E & I & _ & Hall).
  pose proof (stack_empty g st I) as Hs.
  exists (rev (components st)). split.
  { unfold strongly_connected_components, get_components. rewrite E. reflexivity. }
  split; [|split; [|split; [|split]]].
  - intros c Hc. apply in_rev in Hc. exact (inv_comp_scc _ _ _ I c Hc).
  - intros c v Hc Hv. apply in_rev in Hc. apply (inv_nodes _ _ _ I).
    assert (Hd : done st v) by (apply (inv_comp_cover _ _ _ I); exists c; auto).
    exact (proj1 Hd).
  - intros v Hv.
    assert (Hd : done st v) by (split; [exact (Hall v Hv) | rewrite Hs; intros []]).
    apply (inv_comp_cover _ _ _ I) in Hd. destruct Hd as (c & Hc & Hvc).
    exists c. split; [apply in_rev in Hc; exact Hc | exact Hvc].
  - apply Permutation_NoDup with (List.concat (components st)).
    + apply Permutation_sym, concat_rev_perm.
    + exact (inv_comp_nodup _ _ _ I).
  - intros pre c post Ecs x y Hx Ed.
    assert (Ec : components st = rev post ++ c :: rev pre).
    { rewrite <- (rev_involutive (components st)), Ecs, rev_app_distr. simpl.
      rewrite <- app_assoc. reflexivity. }
    destruct (inv_comp_order _ _ _ I _ _ _ Ec x y Hx Ed) as [Hy | (c' & Hc' & Hy)].
    + left. exact Hy.
    + right. exists c'. split; [apply in_rev; exact Hc' | exact Hy].
Qed.

(** A cycle 0 -> 1 -> 2 -> 0 that leads into the cycle 3 <-> 4, a node 5
    that leads into the first cycle, and a loop on node 6. *)
Definition two_cycles : graph :=
  add_edge 6 6 (add_edge 5 0 (add_edge 4 3 (add_edge 3 4 (add_edge 2 3
    (add_edge 2 0 (add_edge 1 2 (add_edge 0 1 empty))))))).

Lemma C7_strongly_connected_components_witness :
  wf_graph two_cycles /\
  strongly_connected_components two_cycles = Ok [[6]; [5]; [0; 1; 2]; [3; 4]] /\
  (forall c, In c [[6]; [5]; [0; 1; 2]; [3; 4]] -> is_scc two_cycles c).
Proof.
  assert (Hwf : wf_graph two_cycles) by (apply wf_graphb_spec; vm_compute; reflexivity).
  split; [exact Hwf|].
  destruct (C7_strongly_connected_components two_cycles Hwf) as (cs & E & Hscc & _).
  assert (Ecs : cs = [[6]; [5]; [0; 1; 2]; [3; 4]]).
  { vm_compute in E. injection E as <-. reflexivity. }
  rewrite Ecs in Hscc. split; [vm_compute; reflexivity | exact Hscc].
Defined.

End TarjanSCC.

(** * The operations of [graph]

    What [add_node], [add_edge], [remove_edge] and [sort_edge_list] do to
    the nodes and the edge lists of a graph, and what they keep. *)
Module GraphOps.

Local Open Scope nat_scope.
Local Open Scope result_scope.

Import Graph.
Import TarjanSCC.

(** The keys of a [std::map] come in increasing order, each once. *)
Definition is_map (g : graph) : Prop := StronglySorted lt (get_node_set g).

(** What the class keeps of a graph: its edge lists are those of a map,
    and every edge leads to a node. *)
Definition graph_ok (g : graph) : Prop := is_map g /\ wf_graph g.

Lemma is_map_tail k es rest : is_map ((k, es) :: rest) -> is_map rest.
Proof. intros H. inversion H; assumption. Qed.

Lemma is_map_head k es rest x :
  is_map ((k, es) :: rest) -> In x (get_node_set rest) -> k < x.
Proof.
  intros H Hx. inversion H as [|? ? _ Hall]. subst.
  rewrite Forall_forall in Hall. exact (Hall x Hx).
Qed.

Lemma lookup_below k es rest x :
  is_map ((k, es) :: rest) -> x <= k -> lookup x rest = None.
Proof.
  intros H Hle. destruct (lookup x rest) eqn:E; [|reflexivity].
  assert (Hin : In x (get_node_set rest)) by (apply In_node_set; unfold get_edge_list; congruence).
  pose proof (is_map_head _ _ _ _ H Hin). lia.
Qed.

Lemma lookup_add_node_map v g x :
  is_map g ->
  lookup x (add_node v g)
  = if x =? v then Some (edge_list g v) else lookup x g.
Proof.
  unfold edge_list, get_edge_list. induction g as [|[k es] rest IH]; intros Hm.
  - simpl. rewrite (Nat.eqb_sym v x). destruct (x =? v); reflexivity.
  - cbn [add_node]. destruct (v <? k) eqn:E1.
    + apply Nat.ltb_lt in E1. cbn [lookup]. rewrite (Nat.eqb_sym v x).
      destruct (x =? v) eqn:Ex; [|reflexivity].
      assert (Ek : (k =? v) = false) by (apply Nat.eqb_neq; lia).
      rewrite Ek, (lookup_below k es rest v Hm) by lia. reflexivity.
    + apply Nat.ltb_ge in E1. destruct (v =? k) eqn:E2.
      * apply Nat.eqb_eq in E2. subst k. cbn [lookup]. rewrite Nat.eqb_refl.
        destruct (x =? v) eqn:Ex; [|reflexivity].
        apply Nat.eqb_eq in Ex. subst x. rewrite Nat.eqb_refl. reflexivity.
      * apply Nat.eqb_neq in E2. cbn [lookup]. rewrite (IH (is_map_tail _ _ _ Hm)).
        assert (Ek : (k =? v) = false) by (apply Nat.eqb_neq; lia). rewrite Ek.
        destruct (k =? x) eqn:Ekx; [|reflexivity].
        apply Nat.eqb_eq in Ekx. subst x. rewrite Ek. reflexivity.
Qed.

Lemma is_map_add_node v g : is_map g -> is_map (add_node v g).
Proof.
  unfold is_map, get_node_set. induction g as [|[k es] rest IH]; intros Hm; simpl.
  - repeat constructor.
  - inversion Hm as [|? ? Hs Hall]. subst. rewrite Forall_forall in Hall.
    destruct (v <? k) eqn:E1.
    + apply Nat.ltb_lt in E1. simpl. constructor; [exact Hm|].
      rewrite Forall_forall. intros x [<- | Hx]; [exact E1|].
      pose proof (Hall x Hx). lia.
    + apply Nat.ltb_ge in E1. destruct (v =? k) eqn:E2; [exact Hm|].
      apply Nat.eqb_neq in E2. simpl. constructor; [exact (IH Hs)|].
      rewrite Forall_forall. intros x Hx.
      apply nodes_add_node in Hx. destruct Hx as [-> | Hx]; [lia | exact (Hall x Hx)].
Qed.

Lemma is_map_push_back u v g : is_map g -> is_map (push_back u v g).
Proof. unfold is_map. rewrite nodes_push_back. auto. Qed.

Lemma is_map_remove_edge u v g : is_map g -> is_map (remove_edge u v g).
Proof. unfold is_map. rewrite nodes_remove_edge. auto. Qed.

Lemma is_map_add_edge u v g : is_map g -> is_map (add_edge u v g).
Proof.
  intros H. apply is_map_push_back, is_map_add_node, is_map_add_node, H.
Qed.

(** [sort_edge_list] *)
Lemma insert_by_perm comp a l : Permutation (insert_by comp a l) (a :: l).
Proof.
  induction l as [|b rest IH]; simpl; [apply Permutation_refl|].
  destruct (comp a b); [apply Permutation_refl|].
  apply Permutation_trans with (b :: a :: rest); [constructor; exact IH | constructor].
Qed.

Lemma stable_sort_perm comp l : Permutation (stable_sort comp l) l.
Proof.
  unfold stable_sort.
  assert (H : forall acc, Permutation (fold_left (fun acc a => insert_by comp a acc) l acc)
                                      (acc ++ l)).
  { induction l as [|a l IH]; intros acc; simpl.
    - rewrite app_nil_r. apply Permutation_refl.
    - apply Permutation_trans with (insert_by comp a acc ++ l); [apply IH|].
      apply Permutation_trans with ((a :: acc) ++ l).
      + apply Permutation_app_tail, insert_by_perm.
      + simpl. apply Permutation_middle. }
  exact (H []).
Qed.

Lemma lookup_sort_edge_list x u comp g :
  lookup x (sort_edge_list u comp g)
  = if x =? u then option_map (stable_sort comp) (lookup u g) else lookup x g.
Proof.
  induction g as [|[k es] rest IH]; simpl.
  - destruct (x =? u); reflexivity.
  - destruct (k =? u) eqn:E1; simpl.
    + apply Nat.eqb_eq in E1. subst k. rewrite (Nat.eqb_sym u x).
      destruct (x =? u); reflexivity.
    + rewrite IH. destruct (x =? u) eqn:E2.
      * apply Nat.eqb_eq in E2. subst x. rewrite E1. reflexivity.
      * reflexivity.
Qed.

Lemma nodes_sort_edge_list u comp g :
  get_node_set (sort_edge_list u comp g) = get_node_set g.
Proof.
  unfold get_node_set. induction g as [|[k es] rest IH]; simpl; [reflexivity|].
  destruct (k =? u); simpl; [reflexivity | rewrite IH; reflexivity].
Qed.

Lemma edge_sort_edge_list u comp g x y :
  edge (sort_edge_list u comp g) x y <-> edge g x y.
Proof.
  unfold edge, get_edge_list. rewrite lookup_sort_edge_list.
  destruct (x =? u) eqn:E.
  - apply Nat.eqb_eq in E. subst x. destruct (lookup u g) as [es|]; simpl.
    + split.
      * intros (es' & [= <-] & Hy). exists es. split; [reflexivity|].
        exact (Permutation_in _ (stable_sort_perm comp es) Hy).
      * intros (es' & [= <-] & Hy). exists (stable_sort comp es). split; [reflexivity|].
        exact (Permutation_in _ (Permutation_sym (stable_sort_perm comp es)) Hy).
    + split; intros (es' & H & _); discriminate H.
  - reflexivity.
Qed.

Lemma graph_ok_sort_edge_list u comp g :
  graph_ok g -> graph_ok (sort_edge_list u comp g).
Proof.
  intros [Hm Hw]. split.
  - unfold is_map. rewrite nodes_sort_edge_list. exact Hm.
  - intros x y E. rewrite nodes_sort_edge_list. apply edge_sort_edge_list in E.
    exact (Hw x y E).
Qed.

Lemma graph_ok_empty : graph_ok empty.
Proof. split; [constructor | exact wf_graph_empty]. Qed.

Lemma graph_ok_add_node v g : graph_ok g -> graph_ok (add_node v g).
Proof. intros [Hm Hw]. split; [apply is_map_add_node | apply wf_graph_add_node]; assumption. Qed.

Lemma graph_ok_add_edge u v g : graph_ok g -> graph_ok (add_edge u v g).
Proof. intros [Hm Hw]. split; [apply is_map_add_edge | apply wf_graph_add_edge]; assumption. Qed.

Lemma graph_ok_remove_edge u v g : graph_ok g -> graph_ok (remove_edge u v g).
Proof.
  intros [Hm Hw]. split; [apply is_map_remove_edge | apply wf_graph_remove_edge]; assumption.
Qed.

(** X1: The class invariant: every operation that changes a graph keeps its
    edge lists those of a map and its edges between its nodes. *)
Theorem graph_operations_keep_ok g :
  graph_ok g ->
  (forall v, graph_ok (add_node v g)) /\
  (forall u v, graph_ok (add_edge u v g)) /\
  (forall u v, In u (get_node_set g) -> graph_ok (remove_edge u v g)) /\
  (forall u comp, In u (get_node_set g) -> graph_ok (sort_edge_list u comp g)).
Proof.
  intros H. split; [|split; [|split]].
  - intros v. apply graph_ok_add_node, H.
  - intros u v. apply graph_ok_add_edge, H.
  - intros u v _. apply graph_ok_remove_edge, H.
  - intros u comp _. apply graph_ok_sort_edge_list, H.
Qed.

Lemma edge_list_add_node v g x :
  is_map g -> edge_list (add_node v g) x = edge_list g x.
Proof.
  intros Hm. unfold edge_list, get_edge_list. rewrite (lookup_add_node_map v g x Hm).
  destruct (x =? v) eqn:E; [|reflexivity].
  apply Nat.eqb_eq in E. subst x. reflexivity.
Qed.

(** The edge list of every node after [add_edge(u, v)]. *)
Lemma edge_list_add_edge u v g x :
  is_map g ->
  edge_list (add_edge u v g) x
  = if x =? u then edge_list g u ++ [v] else edge_list g x.
Proof.
  intros Hm. unfold add_edge.
  pose proof (is_map_add_node u g Hm) as Hm1.
  assert (Hl : forall y, edge_list (add_node v (add_node u g)) y = edge_list g y).
  { intros y. rewrite (edge_list_add_node v _ y Hm1). apply edge_list_add_node, Hm. }
  unfold edge_list at 1. unfold get_edge_list. rewrite lookup_push_back.
  destruct (x =? u) eqn:E.
  - assert (Hu : In u (get_node_set (add_node v (add_node u g)))).
    { apply nodes_add_node. right. apply nodes_add_node. left. reflexivity. }
    apply In_node_set in Hu. unfold get_edge_list in Hu.
    specialize (Hl u). unfold edge_list, get_edge_list in Hl.
    destruct (lookup u (add_node v (add_node u g))) as [es|]; [|contradiction].
    simpl. rewrite Hl. reflexivity.
  - exact (Hl x).
Qed.

Lemma has_edge_edge_list g u v :
  has_edge g u v = mem v (edge_list g u).
Proof.
  unfold has_edge, edge_list. destruct (get_edge_list g u); reflexivity.
Qed.

Lemma mem_app v l1 l2 : mem v (l1 ++ l2) = mem v l1 || mem v l2.
Proof. unfold mem. apply existsb_app. Qed.

Lemma add_edge_cases u v g :
  is_map g ->
  (forall x, In x (get_node_set (add_edge u v g)) <->
             x = u \/ x = v \/ In x (get_node_set g)) /\
  (forall x, edge_list (add_edge u v g) x
             = if x =? u then edge_list g u ++ [v] else edge_list g x).
Proof.
  intros Hm. split.
  - intros x. unfold add_edge. rewrite nodes_push_back, !nodes_add_node. tauto.
  - intros x. apply edge_list_add_edge, Hm.
Qed.

Lemma has_edge_add_edge u v g x y :
  is_map g ->
  has_edge (add_edge u v g) x y = ((x =? u) && (y =? v)) || has_edge g x y.
Proof.
  intros Hm. rewrite !has_edge_edge_list, (edge_list_add_edge u v g x Hm).
  destruct (x =? u) eqn:E.
  - apply Nat.eqb_eq in E. subst x. rewrite mem_app. simpl.
    unfold mem at 2. simpl. rewrite orb_false_r, orb_comm. reflexivity.
  - reflexivity.
Qed.

(** X2: [add_edge(u, v)] makes both ends nodes, appends [v] to the edge list
    of [u] and changes no other edge list: the edge is there afterwards, no
    other edge is gained and none is lost. *)
Theorem add_edge_spec u v g :
  is_map g ->
  (forall x, In x (get_node_set (add_edge u v g)) <->
             x = u \/ x = v \/ In x (get_node_set g)) /\
  (forall x, edge_list (add_edge u v g) x
             = if x =? u then edge_list g u ++ [v] else edge_list g x) /\
  (forall x y, has_edge (add_edge u v g) x y
               = ((x =? u) && (y =? v)) || has_edge g x y).
Proof.
  intros Hm. destruct (add_edge_cases u v g Hm) as [H1 H2].
  split; [exact H1|]. split; [exact H2|].
  intros x y. apply has_edge_add_edge, Hm.
Qed.

(** *** [remove_edge] *)

Lemma count_erase_first v es w :
  count_occ Nat.eq_dec (erase_first v es) w
  = if w =? v then pred (count_occ Nat.eq_dec es v) else count_occ Nat.eq_dec es w.
Proof.
  induction es as [|e rest IH]; simpl.
  - destruct (w =? v); reflexivity.
  - destruct (e =? v) eqn:E.
    + apply Nat.eqb_eq in E. subst e.
      destruct (Nat.eq_dec v v) as [_|N]; [|contradiction]. simpl.
      destruct (w =? v) eqn:Ew.
      * apply Nat.eqb_eq in Ew. subst w. reflexivity.
      * apply Nat.eqb_neq in Ew. destruct (Nat.eq_dec v w); [congruence | reflexivity].
    + apply Nat.eqb_neq in E. simpl. rewrite IH.
      destruct (Nat.eq_dec e v) as [Y|_]; [contradiction|].
      destruct (w =? v) eqn:Ew.
      * apply Nat.eqb_eq in Ew. subst w.
        destruct (Nat.eq_dec e v); [contradiction | reflexivity].
      * reflexivity.
Qed.

Lemma edge_list_remove_edge u v g x :
  edge_list (remove_edge u v g) x
  = if x =? u then erase_first v (edge_list g u) else edge_list g x.
Proof.
  unfold edge_list, get_edge_list. rewrite lookup_remove_edge.
  destruct (x =? u); [|reflexivity]. destruct (lookup u g); reflexivity.
Qed.

(** X3: [remove_edge(u, v)] takes one occurrence of [v], the first, out of
    the edge list of [u], when there is one; it changes nothing else. *)
Theorem remove_edge_spec u v g :
  In u (get_node_set g) ->
  get_node_set (remove_edge u v g) = get_node_set g /\
  (forall x, x <> u -> edge_list (remove_edge u v g) x = edge_list g x) /\
  (forall w, count_occ Nat.eq_dec (edge_list (remove_edge u v g) u) w
             = if w =? v then pred (count_occ Nat.eq_dec (edge_list g u) v)
               else count_occ Nat.eq_dec (edge_list g u) w) /\
  (has_edge g u v = false -> remove_edge u v g = g).
Proof.
  intros _. split; [apply nodes_remove_edge|]. split; [|split].
  - intros x Hx. rewrite edge_list_remove_edge.
    apply Nat.eqb_neq in Hx. rewrite Hx. reflexivity.
  - intros w. rewrite edge_list_remove_edge, Nat.eqb_refl. apply count_erase_first.
  - unfold has_edge, get_edge_list. induction g as [|[k es] rest IH]; simpl; [reflexivity|].
    destruct (k =? u) eqn:E.
    + intros Hm. f_equal. f_equal. clear -Hm.
      induction es as [|e es IH]; simpl; [reflexivity|].
      unfold mem in Hm. simpl in Hm. apply orb_false_iff in Hm. destruct Hm as [H1 H2].
      rewrite (Nat.eqb_sym e v), H1. f_equal. apply IH. exact H2.
    + intros Hm. f_equal. apply IH. exact Hm.
Qed.

(** X4: Removing an edge just added gives back the edges there were, each as
    often as before; the order of an edge list changes when it held the
    edge already. *)
Theorem remove_added_edge u v g x :
  is_map g ->
  Permutation (edge_list (remove_edge u v (add_edge u v g)) x) (edge_list g x) /\
  (has_edge g u v = false ->
   edge_list (remove_edge u v (add_edge u v g)) x = edge_list g x).
Proof.
  intros Hm. rewrite edge_list_remove_edge, !(edge_list_add_edge u v g _ Hm), Nat.eqb_refl.
  destruct (x =? u) eqn:E; [|split; [apply Permutation_refl | reflexivity]].
  apply Nat.eqb_eq in E. subst x. rewrite has_edge_edge_list.
  generalize (edge_list g u) as es. intros es. split.
  - induction es as [|e es IH]; simpl.
    + rewrite Nat.eqb_refl. constructor.
    + destruct (e =? v) eqn:Ee.
      * apply Nat.eqb_eq in Ee. subst e.
        apply Permutation_sym, Permutation_cons_append.
      * constructor. exact IH.
  - induction es as [|e es IH]; simpl.
    + rewrite Nat.eqb_refl. reflexivity.
    + unfold mem. simpl. intros H. apply orb_false_iff in H. destruct H as [H1 H2].
      rewrite (Nat.eqb_sym e v), H1. f_equal. apply IH. exact H2.
Qed.

(** *** A graph for the examples: 0 -> 1 -> 3 and 0 -> 2 -> 3. *)
Definition diamond : graph :=
  add_edge 2 3 (add_edge 1 3 (add_edge 0 2 (add_edge 0 1 empty))).

Lemma graph_ok_diamond : graph_ok diamond.
Proof.
  split; [vm_compute; repeat constructor | apply wf_graphb_spec; vm_compute; reflexivity].
Qed.

Lemma graph_operations_keep_ok_witness :
  graph_ok diamond /\
  (forall v, graph_ok (add_node v diamond)) /\
  (forall u v, graph_ok (add_edge u v diamond)) /\
  (forall u v, In u (get_node_set diamond) -> graph_ok (remove_edge u v diamond)) /\
  (forall u comp, In u (get_node_set diamond) -> graph_ok (sort_edge_list u comp diamond)).
Proof.
  split; [exact graph_ok_diamond|].
  exact (graph_operations_keep_ok diamond graph_ok_diamond).
Defined.

Lemma add_edge_spec_witness :
  is_map diamond /\
  edge_list (add_edge 0 3 diamond) 0 = [1; 2; 3] /\
  has_edge (add_edge 0 3 diamond) 0 3 = true /\
  has_edge (add_edge 0 3 diamond) 3 0 = false.
Proof.
  assert (Hm : is_map diamond) by exact (proj1 graph_ok_diamond).
  split; [exact Hm|].
  destruct (add_edge_spec 0 3 diamond Hm) as (_ & He & Hh).
  split; [rewrite He; reflexivity|]. split; rewrite Hh; reflexivity.
Defined.

Lemma remove_edge_spec_witness :
  In 0 (get_node_set diamond) /\
  get_node_set (remove_edge 0 2 diamond) = get_node_set diamond /\
  count_occ Nat.eq_dec (edge_list (remove_edge 0 2 diamond) 0) 2 = 0 /\
  count_occ Nat.eq_dec (edge_list (remove_edge 0 2 diamond) 0) 1 = 1.
Proof.
  assert (Hin : In 0 (get_node_set diamond)) by (left; reflexivity).
  split; [exact Hin|].
  destruct (remove_edge_spec 0 2 diamond Hin) as (Hn & _ & Hc & _).
  split; [exact Hn|]. split; rewrite Hc; reflexivity.
Defined.

Lemma remove_added_edge_witness :
  is_map diamond /\
  Permutation (edge_list (remove_edge 0 1 (add_edge 0 1 diamond)) 0) (edge_list diamond 0) /\
  edge_list (remove_edge 0 1 (add_edge 0 1 diamond)) 0 = [2; 1].
Proof.
  assert (Hm : is_map diamond) by exact (proj1 graph_ok_diamond).
  split; [exact Hm|].
  split; [exact (proj1 (remove_added_edge 0 1 diamond 0 Hm)) | reflexivity].
Defined.

End GraphOps.

(** * Correctness of the depth-first search of [graph]

    [check_acyclical], [topological_order] and
    [rootfirst_topological_order] run [depth_first_search::visit] from the
    nodes in turn.  The finish time of a node is larger than that of every
    node one of its edges leads to, unless the search met a node whose
    visit had not ended: then the graph has a cycle. *)
Module TopologicalOrder.

Local Open Scope nat_scope.
Local Open Scope result_scope.

Import Graph.
Import TarjanSCC.
Import GraphOps.

(** A cycle: a node that reaches itself along at least one edge. *)
Definition path (g : graph) : nat -> nat -> Prop := clos_trans nat (edge g).
Definition acyclic (g : graph) : Prop := forall x, ~ path g x x.

(** [u] comes before [v] in [l]. *)
Definition precedes (l : list nat) (u v : nat) : Prop :=
  exists l1 l2 l3, l = l1 ++ u :: l2 ++ v :: l3.

(** [l] is a topological order of [g]: it lists every node once, and every
    edge leads from a node to a later one. *)
Definition is_topological (g : graph) (l : list nat) : Prop :=
  Permutation l (get_node_set g) /\
  forall u v, edge g u v -> precedes l u v.

Section Visit.

Variable g : graph.
Hypothesis closed : wf_graph g.

Definition ft (d : dfs) (x : nat) : option nat := lookup x (m_finishTime d).
Definition gray (d : dfs) (x : nat) : Prop := ft d x = Some 0.

Record DInv (d : dfs) : Prop := mk_DInv {
  dinv_time : forall x t, ft d x = Some t -> t < m_time d;
  dinv_edge : forall x t, ft d x = Some t -> 0 < t ->
              forall y, edge g x y -> exists s, ft d y = Some s /\ 0 < s < t;
  dinv_inj : forall x y t, ft d x = Some t -> ft d y = Some t -> 0 < t -> x = y;
  dinv_node : forall x t, ft d x = Some t -> In x (get_node_set g)
}.

Definition is_seen (d : dfs) (x : nat) : bool :=
  match ft d x with Some _ => true | None => false end.

Definition unseen (d : dfs) : nat :=
  List.length (filter (fun x => negb (is_seen d x)) (get_node_set g)).

(** Entries are only added. *)
Definition keeps (d d' : dfs) : Prop :=
  forall x t, ft d x = Some t -> ft d' x = Some t.

Lemma unseen_keeps d d' : keeps d d' -> unseen d' <= unseen d.
Proof.
  intros H. unfold unseen. apply filter_length_le. intros a Ha.
  apply negb_true_iff in Ha. apply negb_true_iff. unfold is_seen in *.
  destruct (ft d a) as [t|] eqn:E; [|reflexivity].
  rewrite (H a t E) in Ha. discriminate.
Qed.

Definition mark (u : nat) (d : dfs) : dfs :=
  mk_dfs (S (m_time d)) ((u, 0) :: m_finishTime d).

Definition finish (u : nat) (d : dfs) : dfs :=
  mk_dfs (S (m_time d)) ((u, m_time d) :: m_finishTime d).

Lemma ft_mark u d x : ft (mark u d) x = if u =? x then Some 0 else ft d x.
Proof. reflexivity. Qed.

Lemma ft_finish u d x : ft (finish u d) x = if u =? x then Some (m_time d) else ft d x.
Proof. reflexivity. Qed.

Lemma unseen_mark u d :
  ft d u = None -> In u (get_node_set g) -> unseen (mark u d) < unseen d.
Proof.
  intros Hu Hin. unfold unseen. apply filter_length_lt with (a := u).
  - intros a Ha. apply negb_true_iff in Ha. apply negb_true_iff.
    unfold is_seen in *. rewrite ft_mark in Ha.
    destruct (u =? a); [discriminate|]. exact Ha.
  - exact Hin.
  - unfold is_seen. rewrite Hu. reflexivity.
  - unfold is_seen. rewrite ft_mark, Nat.eqb_refl. reflexivity.
Qed.

Lemma DInv_mark u d :
  DInv d -> ft d u = None -> In u (get_node_set g) -> DInv (mark u d).
Proof.
  intros I Hu Hin. constructor.
  - intros x t. rewrite ft_mark. simpl. destruct (u =? x).
    + intros [= <-]. lia.
    + intros H. pose proof (dinv_time _ I x t H). lia.
  - intros x t. rewrite ft_mark. destruct (u =? x) eqn:E; [intros [= <-]; lia|].
    intros H Ht y Ey. destruct (dinv_edge _ I x t H Ht y Ey) as (s & Hs & Hlt).
    exists s. split; [|exact Hlt]. rewrite ft_mark.
    destruct (u =? y) eqn:E'; [|exact Hs].
    apply Nat.eqb_eq in E'. subst y. congruence.
  - intros x y t. rewrite !ft_mark.
    destruct (u =? x); [intros [= <-]; lia|].
    destruct (u =? y); [intros _ [= <-]; lia|].
    apply (dinv_inj _ I).
  - intros x t. rewrite ft_mark. destruct (u =? x) eqn:E.
    + apply Nat.eqb_eq in E. subst x. intros _. exact Hin.
    + apply (dinv_node _ I).
Qed.

(** The state of the loop over the edges of [u], marked in state [d]:
    the edges to [P] are done. *)
Record ELoop (d : dfs) (u : nat) (P : list nat) (dk : dfs) : Prop := mk_ELoop {
  eloop_inv : DInv dk;
  eloop_keeps : keeps (mark u d) dk;
  eloop_gray : forall x, gray dk x -> gray (mark u d) x;
  eloop_done : forall y, In y P -> exists s, ft dk y = Some s /\ 0 < s
}.

Lemma DInv_finish d u P dk :
  ft d u = None -> ELoop d u P dk -> (forall y, edge g u y -> In y P) ->
  DInv (finish u dk) /\ keeps d (finish u dk) /\
  (forall x, gray (finish u dk) x -> gray d x) /\
  ft (finish u dk) u = Some (m_time dk) /\ 0 < m_time dk.
Proof.
  intros Hu L HP. destruct L as [I K Gr Dn].
  assert (Hgu : ft dk u = Some 0).
  { apply K. rewrite ft_mark, Nat.eqb_refl. reflexivity. }
  assert (Hpos : 0 < m_time dk) by exact (dinv_time _ I u 0 Hgu).
  split; [|split; [|split; [|split]]].
  - constructor.
    + intros x t. rewrite ft_finish. simpl. destruct (u =? x).
      * intros [= <-]. lia.
      * intros H. pose proof (dinv_time _ I x t H). lia.
    + intros x t. rewrite ft_finish. destruct (u =? x) eqn:E.
      * apply Nat.eqb_eq in E. subst x. intros [= <-] _ y Ey.
        destruct (Dn y (HP y Ey)) as (s & Hs & Hs0).
        exists s. rewrite ft_finish. destruct (u =? y) eqn:E'.
        -- apply Nat.eqb_eq in E'. subst y. rewrite Hgu in Hs. injection Hs as <-. lia.
        -- split; [exact Hs|]. pose proof (dinv_time _ I y s Hs). lia.
      * intros H Ht y Ey. destruct (dinv_edge _ I x t H Ht y Ey) as (s & Hs & Hlt).
        exists s. split; [|exact Hlt]. rewrite ft_finish.
        destruct (u =? y) eqn:E'; [|exact Hs].
        apply Nat.eqb_eq in E'. subst y. rewrite Hgu in Hs. injection Hs as <-. lia.
    + intros x y t. rewrite !ft_finish.
      destruct (u =? x) eqn:Ex; destruct (u =? y) eqn:Ey.
      * apply Nat.eqb_eq in Ex, Ey. congruence.
      * intros [= <-] H _. pose proof (dinv_time _ I y _ H). lia.
      * intros H [= <-] _. pose proof (dinv_time _ I x _ H). lia.
      * apply (dinv_inj _ I).
    + intros x t. rewrite ft_finish. destruct (u =? x) eqn:E.
      * apply Nat.eqb_eq in E. subst x. intros _. exact (dinv_node _ I u 0 Hgu).
      * apply (dinv_node _ I).
  - intros x t H. rewrite ft_finish. destruct (u =? x) eqn:E.
    + apply Nat.eqb_eq in E. subst x. congruence.
    + apply K. rewrite ft_mark, E. exact H.
  - intros x. unfold gray. rewrite ft_finish. destruct (u =? x) eqn:E.
    + intros [= H]. lia.
    + intros H. apply Gr in H. unfold gray in H. rewrite ft_mark, E in H. exact H.
  - rewrite ft_finish, Nat.eqb_refl. reflexivity.
  - exact Hpos.
Qed.

(** What a call of [visit] does: it never runs out of fuel and finds
    every node it looks for; when it returns a finish time the invariant
    holds again, and when it returns [BAD] the graph has a cycle. *)
Definition dfs_visit_ok (fuel : nat) : Prop :=
  forall u d,
    DInv d -> In u (get_node_set g) -> unseen d < fuel ->
    (forall x, gray d x -> path g x u) ->
    exists r d', visit fuel g u d = Ok (r, d') /\
      match r with
      | finished t =>
          DInv d' /\ keeps d d' /\ (forall x, gray d' x -> gray d x) /\
          ft d' u = Some t /\ 0 < t
      | BAD => exists x, path g x x
      end.

Lemma visit_edges_correct fuel d u :
  dfs_visit_ok fuel -> ft d u = None ->
  (forall x, gray d x -> path g x u) ->
  forall es P dk,
    ELoop d u P dk -> (forall y, In y es -> edge g u y) -> unseen dk < fuel ->
    exists b d', visit_edges (visit fuel g) es dk = Ok (b, d') /\
      if b then exists x, path g x x
      else exists P', ELoop d u P' d' /\ forall y, In y es \/ In y P -> In y P'.
Proof.
  intros IH Hu Hg. induction es as [|e rest IHes]; intros P dk L Hes Hf.
  - exists false, dk. split; [reflexivity|]. exists P. split; [exact L|].
    intros y [[] | Hy]. exact Hy.
  - assert (E : edge g u e) by (apply Hes; left; reflexivity).
    destruct (IH e dk (eloop_inv _ _ _ _ L) (closed u e E) Hf) as (r & d1 & Ev & Hr).
    { intros x Hx. apply (eloop_gray _ _ _ _ L) in Hx. unfold gray in Hx.
      rewrite ft_mark in Hx. destruct (u =? x) eqn:Ex.
      - apply Nat.eqb_eq in Ex. subst x. apply t_step. exact E.
      - apply t_trans with u; [apply Hg; exact Hx | apply t_step; exact E]. }
    cbn [visit_edges]. rewrite Ev. cbn [bind]. destruct r as [|t].
    + exists true, d1. split; [reflexivity | exact Hr].
    + destruct Hr as (I1 & K1 & G1 & Ft & Ht).
      destruct (IHes (e :: P) d1) as (b & d' & Er & Hb).
      * constructor.
        -- exact I1.
        -- intros x s Hx. apply K1, (eloop_keeps _ _ _ _ L), Hx.
        -- intros x Hx. apply (eloop_gray _ _ _ _ L), G1, Hx.
        -- intros y [<- | Hy]; [exists t; auto|].
           destruct (eloop_done _ _ _ _ L y Hy) as (s & Hs & Hs0).
           exists s. split; [apply K1; exact Hs | exact Hs0].
      * intros y Hy. apply Hes. right. exact Hy.
      * pose proof (unseen_keeps _ _ K1). lia.
      * exists b, d'. split; [exact Er|]. destruct b; [exact Hb|].
        destruct Hb as (P' & L' & HP'). exists P'. split; [exact L'|].
        intros y [[<- | Hy] | Hy]; apply HP'.
        -- right. left. reflexivity.
        -- left. exact Hy.
        -- right. right. exact Hy.
Qed.

Lemma visit_correct : forall fuel, dfs_visit_ok fuel.
Proof.
  induction fuel as [|fuel IH]; intros u d I Hin Hf Hg; [lia|].
  cbn [visit]. fold (ft d u). destruct (ft d u) as [t|] eqn:Hu.
  - exists (if t =? 0 then BAD else finished t), d. split; [reflexivity|].
    destruct (t =? 0) eqn:Et.
    + apply Nat.eqb_eq in Et. subst t. exists u. apply Hg. exact Hu.
    + apply Nat.eqb_neq in Et. split; [exact I|]. split; [intros x s H; exact H|].
      split; [auto|]. split; [exact Hu | lia].
  - destruct (get_edge_list g u) as [es|] eqn:Ees.
    2:{ apply In_node_set in Hin. contradiction. }
    fold (mark u d).
    assert (L0 : ELoop d u [] (mark u d)).
    { constructor; [apply DInv_mark; assumption | intros x s H; exact H | auto |].
      intros y []. }
    destruct (visit_edges_correct fuel d u IH Hu Hg es [] (mark u d) L0)
      as (b & d2 & Ee & Hb).
    { intros y Hy. exists es. auto. }
    { pose proof (unseen_mark u d Hu Hin). lia. }
    rewrite Ee. cbn [bind]. destruct b.
    + exists BAD, d2. split; [reflexivity | exact Hb].
    + destruct Hb as (P & L & HP).
      exists (finished (m_time d2)), (finish u d2). split; [reflexivity|].
      assert (HP' : forall y, edge g u y -> In y P).
      { intros y (es' & Ees' & Hy). apply HP. left. congruence. }
      destruct (DInv_finish d u P d2 Hu L HP') as (H1 & H2 & H3 & H4 & H5).
      auto.
Qed.

Lemma DInv_init : DInv dfs_init.
Proof. constructor; intros; discriminate. Qed.

Lemma unseen_lt_fuel d : unseen d < dfs_fuel g.
Proof.
  unfold unseen, dfs_fuel.
  pose proof (filter_length_le (fun _ => true)
                (fun x => negb (is_seen d x)) (get_node_set g) (fun _ _ => eq_refl)) as H.
  assert (E : forall l : list nat, filter (fun _ : nat => true) l = l).
  { induction l as [|a l IH]; simpl; [reflexivity | rewrite IH; reflexivity]. }
  rewrite E in H. unfold get_node_set in H |- *. rewrite length_map in H. lia.
Qed.

(** A state between two calls from a loop over the nodes: no node is
    being visited. *)
Definition settled (d : dfs) : Prop := DInv d /\ forall x, ~ gray d x.

Lemma settled_init : settled dfs_init.
Proof. split; [exact DInv_init | intros x H; discriminate H]. Qed.

Lemma visit_settled u d :
  settled d -> In u (get_node_set g) ->
  exists r d', visit (dfs_fuel g) g u d = Ok (r, d') /\
    match r with
    | finished t => settled d' /\ keeps d d' /\ ft d' u = Some t /\ 0 < t
    | BAD => exists x, path g x x
    end.
Proof.
  intros [I Hg] Hin.
  destruct (visit_correct (dfs_fuel g) u d I Hin (unseen_lt_fuel d)) as (r & d' & E & Hr).
  { intros x Hx. exfalso. exact (Hg x Hx). }
  exists r, d'. split; [exact E|]. destruct r as [|t]; [exact Hr|].
  destruct Hr as (I' & K & G' & Ft & Ht).
  split; [split; [exact I' | intros x Hx; exact (Hg x (G' x Hx))]|].
  split; [exact K|]. split; [exact Ft | exact Ht].
Qed.

(** In a settled state the finish times decrease along the edges. *)
Lemma settled_path d x y :
  settled d -> path g x y ->
  forall t, ft d x = Some t -> exists s, ft d y = Some s /\ 0 < s < t.
Proof.
  intros [I Hg] Hp. induction Hp as [x y E | x y z _ IH1 _ IH2]; intros t Ht.
  - apply (dinv_edge _ I x t Ht); [|exact E].
    destruct t; [exfalso; exact (Hg x Ht) | lia].
  - destruct (IH1 t Ht) as (s & Hs & Hlt). destruct (IH2 s Hs) as (r & Hr & Hlt').
    exists r. split; [exact Hr | lia].
Qed.

Lemma path_from_node x y : path g x y -> In x (get_node_set g).
Proof.
  intros Hp. induction Hp as [x y (es & E & _) | x y z _ IH1 _ _]; [|exact IH1].
  apply In_node_set. congruence.
Qed.

Lemma settled_acyclic d :
  settled d -> (forall x, In x (get_node_set g) -> ft d x <> None) -> acyclic g.
Proof.
  intros Hs Hall x Hp.
  destruct (ft d x) as [t|] eqn:Ht.
  - destruct (settled_path d x x Hs Hp t Ht) as (s & Hs' & Hlt).
    rewrite Ht in Hs'. injection Hs' as <-. lia.
  - exact (Hall x (path_from_node x x Hp) Ht).
Qed.

(** The pairs a loop collects: the nodes in their order, each with its
    finish time. *)
Definition timed (d : dfs) (vs : list nat) (ps : list (nat * nat)) : Prop :=
  map snd ps = vs /\
  forall p, In p ps -> ft d (snd p) = Some (fst p) /\ 0 < fst p.

Lemma finish_times_correct strict : forall vs d,
  settled d -> (forall v, In v vs -> In v (get_node_set g)) ->
  (exists ps d', finish_times strict g vs d = Ok ps /\
                 settled d' /\ keeps d d' /\ timed d' vs ps) \/
  ((exists x, path g x x) /\
   (strict = true -> finish_times strict g vs d = Err not_a_dag_exception)).
Proof.
  induction vs as [|v rest IH]; intros d Hd Hvs.
  - left. exists [], d. split; [reflexivity|]. split; [exact Hd|].
    split; [intros x t H; exact H|]. split; [reflexivity | intros p []].
  - destruct (visit_settled v d Hd (Hvs v (or_introl eq_refl))) as (r & d1 & E & Hr).
    cbn [finish_times]. rewrite E. cbn [bind]. destruct r as [|t].
    + right. split; [exact Hr|]. intros ->. reflexivity.
    + destruct Hr as (Hd1 & K1 & Ft & Ht).
      destruct (IH d1 Hd1) as [(ps & d' & Er & Hd' & K' & Hmap & Hps) | [Hc Herr]].
      * intros x Hx. apply Hvs. right. exact Hx.
      * left. exists ((t, v) :: ps), d'. rewrite Er. split; [reflexivity|].
        split; [exact Hd'|]. split; [intros x s H; apply K', K1, H|].
        split; [simpl; rewrite Hmap; reflexivity|].
        intros p [<- | Hp]; [|exact (Hps p Hp)].
        simpl. split; [apply K', Ft | exact Ht].
      * right. split; [exact Hc|]. intros Hst. rewrite (Herr Hst). reflexivity.
Qed.

Lemma check_acyclical_loop_correct : forall vs d,
  settled d -> (forall v, In v vs -> In v (get_node_set g)) ->
  (check_acyclical_loop g vs d = Ok true /\
   exists d', settled d' /\ keeps d d' /\ forall v, In v vs -> ft d' v <> None) \/
  (check_acyclical_loop g vs d = Ok false /\ exists x, path g x x).
Proof.
  induction vs as [|v rest IH]; intros d Hd Hvs.
  - left. split; [reflexivity|]. exists d. split; [exact Hd|].
    split; [intros x t H; exact H | intros v []].
  - destruct (visit_settled v d Hd (Hvs v (or_introl eq_refl))) as (r & d1 & E & Hr).
    cbn [check_acyclical_loop]. rewrite E. cbn [bind]. destruct r as [|t].
    + right. split; [reflexivity | exact Hr].
    + destruct Hr as (Hd1 & K1 & Ft & Ht).
      destruct (IH d1 Hd1) as [(Er & d' & Hd' & K' & Hall) | [Er Hc]].
      * intros x Hx. apply Hvs. right. exact Hx.
      * left. split; [exact Er|]. exists d'. split; [exact Hd'|].
        split; [intros x s H; apply K', K1, H|].
        intros x [<- | Hx]; [rewrite (K' _ _ Ft); discriminate | exact (Hall x Hx)].
      * right. split; [exact Er | exact Hc].
Qed.

End Visit.

(** *** Sorting by finish time *)

Lemma pair_ltb_spec p q :
  pair_ltb p q = true <-> fst p < fst q \/ (fst p = fst q /\ snd p < snd q).
Proof.
  unfold pair_ltb. rewrite orb_true_iff, andb_true_iff, !Nat.ltb_lt, Nat.eqb_eq.
  reflexivity.
Qed.

Lemma pair_ltb_false p q :
  pair_ltb p q = false <-> fst q < fst p \/ (fst p = fst q /\ snd q <= snd p).
Proof.
  destruct (pair_ltb p q) eqn:E.
  - apply pair_ltb_spec in E. split; [discriminate | lia].
  - split; [intros _ | reflexivity].
    assert (H : ~ (fst p < fst q \/ (fst p = fst q /\ snd p < snd q))).
    { intros H. apply pair_ltb_spec in H. congruence. }
    lia.
Qed.

(** [p] is not below [q]. *)
Definition ge_pair (p q : nat * nat) : Prop := pair_ltb p q = false.

Lemma insert_desc_perm p l : Permutation (insert_desc p l) (p :: l).
Proof.
  induction l as [|q rest IH]; simpl; [constructor; constructor|].
  destruct (pair_ltb p q); [|apply Permutation_refl].
  apply Permutation_trans with (q :: p :: rest); [constructor; exact IH | constructor].
Qed.

Lemma sort_desc_perm l : Permutation (sort_desc l) l.
Proof.
  induction l as [|p l IH]; simpl; [constructor|].
  apply Permutation_trans with (p :: sort_desc l); [apply insert_desc_perm|].
  constructor. exact IH.
Qed.

Lemma insert_desc_sorted p l :
  StronglySorted ge_pair l -> StronglySorted ge_pair (insert_desc p l).
Proof.
  intros Hs. induction Hs as [|q rest Hs IH Hall]; simpl.
  - constructor; constructor.
  - rewrite Forall_forall in Hall. destruct (pair_ltb p q) eqn:E.
    + constructor; [exact IH|]. rewrite Forall_forall. intros x Hx.
      apply (Permutation_in _ (insert_desc_perm p rest)) in Hx.
      destruct Hx as [<- | Hx]; [|exact (Hall x Hx)].
      apply pair_ltb_spec in E. apply pair_ltb_false. lia.
    + constructor; [constructor; [exact Hs | rewrite Forall_forall; exact Hall]|].
      rewrite Forall_forall. intros x [<- | Hx]; [exact E|].
      specialize (Hall x Hx). unfold ge_pair in *.
      apply pair_ltb_false in E, Hall. apply pair_ltb_false. lia.
Qed.

Lemma sort_desc_sorted l : StronglySorted ge_pair (sort_desc l).
Proof.
  induction l as [|p l IH]; simpl; [constructor | apply insert_desc_sorted, IH].
Qed.

(** The value-initialised pairs sort behind the pairs of the nodes. *)
Lemma insert_desc_zero A k :
  (forall p, In p A -> 0 < fst p) ->
  insert_desc (0, 0) (A ++ repeat (0, 0) k) = A ++ repeat (0, 0) (S k).
Proof.
  induction A as [|q A IH]; intros HA.
  - destruct k; reflexivity.
  - simpl. assert (E : pair_ltb (0, 0) q = true).
    { apply pair_ltb_spec. left. simpl. apply HA. left. reflexivity. }
    rewrite E. f_equal. apply IH. intros p Hp. apply HA. right. exact Hp.
Qed.

Lemma sort_desc_zeros ps k :
  (forall p, In p ps -> 0 < fst p) ->
  sort_desc (repeat (0, 0) k ++ ps) = sort_desc ps ++ repeat (0, 0) k.
Proof.
  intros Hps. induction k as [|k IH]; simpl.
  - rewrite app_nil_r. reflexivity.
  - change (insert_desc (0, 0) (sort_desc (repeat (0, 0) k ++ ps))
            = sort_desc ps ++ repeat (0, 0) (S k)).
    rewrite IH. apply insert_desc_zero. intros p Hp.
    apply Hps, (Permutation_in _ (sort_desc_perm ps)), Hp.
Qed.

Lemma by_finish_time_sorted g ps :
  List.length ps = size g -> (forall p, In p ps -> 0 < fst p) ->
  by_finish_time g ps = map snd (sort_desc ps).
Proof.
  intros Hlen Hps. unfold by_finish_time. rewrite (sort_desc_zeros _ _ Hps).
  assert (E : size g = List.length (sort_desc ps) + 0).
  { rewrite (Permutation_length (sort_desc_perm ps)). lia. }
  rewrite E at 1. rewrite firstn_app_2. simpl. rewrite app_nil_r. reflexivity.
Qed.

Lemma sorted_precedes l tu u tv v :
  StronglySorted ge_pair l -> In (tu, u) l -> In (tv, v) l -> tv < tu ->
  precedes (map snd l) u v.
Proof.
  intros Hs Hu Hv Hlt.
  destruct (in_split _ _ Hv) as (l1 & l2 & ->).
  destruct (sorted_app _ _ _ _ Hs) as (_ & H2 & _).
  apply in_app_or in Hu. destruct Hu as [Hu | [Hu | Hu]].
  - destruct (in_split _ _ Hu) as (a & b & ->).
    exists (map snd a), (map snd b), (map snd l2).
    rewrite <- app_assoc. simpl. rewrite !map_app. simpl. rewrite map_app. reflexivity.
  - injection Hu as -> _. lia.
  - specialize (H2 _ Hu). apply pair_ltb_false in H2. simpl in H2. lia.
Qed.

(** The order the two sorting functions build from the pairs of a
    settled state. *)
Lemma by_finish_time_topological g (closed : wf_graph g) d vs ps :
  settled g d -> timed d vs ps ->
  Permutation vs (get_node_set g) ->
  is_topological g (by_finish_time g ps).
Proof.
  intros Hd [Hmap Hps] Hperm.
  assert (Hlen : List.length ps = size g).
  { unfold size. rewrite <- (length_map fst g). fold (get_node_set g).
    rewrite <- (Permutation_length Hperm), <- Hmap, length_map. reflexivity. }
  rewrite (by_finish_time_sorted g ps Hlen (fun p Hp => proj2 (Hps p Hp))).
  assert (Hfind : forall x, In x (get_node_set g) ->
            exists t, In (t, x) (sort_desc ps) /\ ft d x = Some t).
  { intros x Hx. apply (Permutation_in _ (Permutation_sym Hperm)) in Hx.
    rewrite <- Hmap in Hx. apply in_map_iff in Hx. destruct Hx as ([t y] & <- & Hp).
    exists t. split; [apply (Permutation_in _ (Permutation_sym (sort_desc_perm ps))), Hp|].
    apply (Hps _ Hp). }
  split.
  - apply Permutation_trans with vs; [|exact Hperm]. rewrite <- Hmap.
    apply Permutation_map, sort_desc_perm.
  - intros u v E.
    assert (Hu : In u (get_node_set g)).
    { destruct E as (es & Ees & _). apply In_node_set. congruence. }
    destruct (Hfind u Hu) as (tu & Hinu & Ftu).
    destruct (Hfind v (closed u v E)) as (tv & Hinv & Ftv).
    assert (Hpos : 0 < tu).
    { destruct tu; [exfalso; exact (proj2 Hd u Ftu) | lia]. }
    destruct (dinv_edge _ _ (proj1 Hd) u tu Ftu Hpos v E) as (s & Hs & Hlt).
    rewrite Ftv in Hs. injection Hs as <-.
    apply (sorted_precedes _ tu u tv v (sort_desc_sorted ps) Hinu Hinv). lia.
Qed.

Lemma check_acyclical_cases g :
  wf_graph g ->
  (check_acyclical g = Ok true /\ acyclic g) \/
  (check_acyclical g = Ok false /\ exists x, path g x x).
Proof.
  intros closed. unfold check_acyclical.
  destruct (check_acyclical_loop_correct g closed (get_node_set g) dfs_init
              (settled_init g) (fun v H => H)) as [(E & d' & Hd' & _ & Hall) | H].
  - left. split; [exact E|]. exact (settled_acyclic g d' Hd' Hall).
  - right. exact H.
Qed.

(** X5: [check_acyclical()] tells whether the graph has a cycle, and
    [validate_acyclical()] throws [not_a_dag_exception] when it has one. *)
Theorem check_acyclical_spec g :
  wf_graph g ->
  (check_acyclical g = Ok true /\ validate_acyclical g = Ok tt /\ acyclic g) \/
  (check_acyclical g = Ok false /\ validate_acyclical g = Err not_a_dag_exception /\
   exists x, path g x x).
Proof.
  intros closed. unfold validate_acyclical.
  destruct (check_acyclical_cases g closed) as [[E Ha] | [E Hc]]; rewrite E.
  - left. auto.
  - right. auto.
Qed.

(** What [topological_order()] does on any graph. *)
Lemma topological_order_cases g :
  wf_graph g ->
  (exists order, topological_order g = Ok order /\ is_topological g order /\ acyclic g) \/
  (topological_order g = Err not_a_dag_exception /\ exists x, path g x x).
Proof.
  intros closed. unfold topological_order.
  destruct (finish_times_correct g closed true (get_node_set g) dfs_init
              (settled_init g) (fun v H => H))
    as [(ps & d' & E & Hd' & _ & Ht) | [Hc Herr]].
  - left. exists (by_finish_time g ps). rewrite E. split; [reflexivity|]. split.
    + exact (by_finish_time_topological g closed d' _ ps Hd' Ht (Permutation_refl _)).
    + apply (settled_acyclic g d' Hd'). intros x Hx.
      destruct Ht as [Hmap Hps]. rewrite <- Hmap in Hx. apply in_map_iff in Hx.
      destruct Hx as (p & <- & Hp). rewrite (proj1 (Hps p Hp)). discriminate.
  - right. rewrite (Herr eq_refl). split; [reflexivity | exact Hc].
Qed.

(** X6: Whenever [topological_order()] returns, it returns a topological
    order: every node once, every edge leading forward. *)
Theorem topological_order_sound g order :
  wf_graph g -> topological_order g = Ok order -> is_topological g order.
Proof.
  intros closed E.
  destruct (topological_order_cases g closed) as [(o & Eo & Ht & _) | [Eo _]];
    rewrite E in Eo; [injection Eo as <-; exact Ht | discriminate Eo].
Qed.

(** X7: [topological_order()] returns on the graphs without a cycle and
    throws [not_a_dag_exception] on the others, and nothing else. *)
Theorem topological_order_not_a_dag g :
  wf_graph g ->
  (acyclic g -> exists order, topological_order g = Ok order) /\
  ((exists x, path g x x) -> topological_order g = Err not_a_dag_exception).
Proof.
  intros closed.
  destruct (topological_order_cases g closed) as [(o & Eo & _ & Ha) | [Eo (x & Hx)]].
  - split; [intros _; exists o; exact Eo|]. intros (x & Hx). exfalso. exact (Ha x Hx).
  - split; [|intros _; exact Eo]. intros Ha. exfalso. exact (Ha x Hx).
Qed.

Lemma rootfirst_topological_order_cases g :
  wf_graph g ->
  (exists order, rootfirst_topological_order g = Ok order /\ is_topological g order) \/
  (rootfirst_topological_order g = Err not_a_dag_exception /\ exists x, path g x x).
Proof.
  intros closed. unfold rootfirst_topological_order.
  destruct (topological_order_cases g closed) as [(o & Eo & [Hperm _] & Ha) | [Eo Hc]].
  - left. rewrite Eo. cbn [bind].
    destruct (finish_times_correct g closed false o dfs_init (settled_init g))
      as [(ps & d' & E & Hd' & _ & Ht) | [(x & Hx) _]].
    + intros v Hv. exact (Permutation_in _ Hperm Hv).
    + exists (by_finish_time g ps). rewrite E. split; [reflexivity|].
      exact (by_finish_time_topological g closed d' o ps Hd' Ht Hperm).
    + exfalso. exact (Ha x Hx).
  - right. rewrite Eo. split; [reflexivity | exact Hc].
Qed.

Lemma topological_order_sound_witness :
  wf_graph diamond /\ topological_order diamond = Ok [0; 2; 1; 3] /\
  is_topological diamond [0; 2; 1; 3].
Proof.
  assert (Hw : wf_graph diamond) by exact (proj2 graph_ok_diamond).
  split; [exact Hw|]. split; [reflexivity|].
  exact (topological_order_sound diamond [0; 2; 1; 3] Hw eq_refl).
Defined.

Lemma topological_order_not_a_dag_witness :
  wf_graph two_cycles /\
  (acyclic two_cycles -> exists order, topological_order two_cycles = Ok order) /\
  ((exists x, path two_cycles x x) ->
   topological_order two_cycles = Err not_a_dag_exception).
Proof.
  assert (Hw : wf_graph two_cycles) by (apply wf_graphb_spec; vm_compute; reflexivity).
  split; [exact Hw|]. exact (topological_order_not_a_dag two_cycles Hw).
Defined.

Lemma check_acyclical_spec_witness :
  wf_graph diamond /\
  ((check_acyclical diamond = Ok true /\ validate_acyclical diamond = Ok tt /\
    acyclic diamond) \/
   (check_acyclical diamond = Ok false /\
    validate_acyclical diamond = Err not_a_dag_exception /\
    exists x, path diamond x x)).
Proof.
  assert (Hw : wf_graph diamond) by exact (proj2 graph_ok_diamond).
  split; [exact Hw|]. exact (check_acyclical_spec diamond Hw).
Defined.

(** X8: [rootfirst_topological_order()] too returns a topological order
    whenever it returns. *)
Theorem rootfirst_topological_order_sound g order :
  wf_graph g -> rootfirst_topological_order g = Ok order -> is_topological g order.
Proof.
  intros closed E.
  destruct (rootfirst_topological_order_cases g closed) as [(o & Eo & Ht) | [Eo _]];
    rewrite E in Eo; [injection Eo as <-; exact Ht | discriminate Eo].
Qed.

Lemma rootfirst_topological_order_sound_witness :
  wf_graph diamond /\ rootfirst_topological_order diamond = Ok [0; 2; 1; 3] /\
  is_topological diamond [0; 2; 1; 3].
Proof.
  assert (Hw : wf_graph diamond) by exact (proj2 graph_ok_diamond).
  split; [exact Hw|]. split; [reflexivity|].
  exact (rootfirst_topological_order_sound diamond [0; 2; 1; 3] Hw eq_refl).
Defined.

(** *** [greedy_topological_order] *)

Import Satisfiable.

Definition satisfiable_last (sg : satisfiable_graph) (u a b : nat) : bool :=
  negb (pset_mem (u, a) (m_satisfiableEdges sg))
  && pset_mem (u, b) (m_satisfiableEdges sg).

Lemma sorted_lists_same sg : forall us g,
  let g' := fold_left (fun g u => sort_edge_list u (satisfiable_last sg u) g) us g in
  Graph.get_node_set g' = Graph.get_node_set g /\
  (forall x y, edge g' x y <-> edge g x y).
Proof.
  induction us as [|u us IH]; intros g; simpl.
  - split; [reflexivity | intros; reflexivity].
  - destruct (IH (sort_edge_list u (satisfiable_last sg u) g)) as [Hn He].
    split.
    + rewrite Hn. apply nodes_sort_edge_list.
    + intros x y. rewrite He. apply edge_sort_edge_list.
Qed.

Lemma path_iff g g' :
  (forall x y, edge g' x y <-> edge g x y) -> forall x y, path g' x y -> path g x y.
Proof.
  intros He x y Hp. induction Hp as [x y E | x y z _ IH1 _ IH2].
  - apply t_step, He, E.
  - apply t_trans with y; assumption.
Qed.

(** X9: [greedy_topological_order()] returns a topological order of the
    graph when the graph has no cycle, and throws [not_a_dag_exception]
    when it has one. *)
Theorem greedy_topological_order_spec sg :
  wf_graph (m_graph sg) ->
  (exists order, greedy_topological_order sg = Ok order /\
                 is_topological (m_graph sg) order) \/
  (greedy_topological_order sg = Err not_a_dag_exception /\
   exists x, path (m_graph sg) x x).
Proof.
  intros closed. unfold greedy_topological_order.
  change (fun a b => negb (pset_mem (?u, a) _) && pset_mem (?u, b) _)
    with (satisfiable_last sg u).
  destruct (sorted_lists_same sg (Satisfiable.get_node_set sg) (m_graph sg)) as [Hn He].
  set (g' := fold_left _ _ _) in *.
  assert (closed' : wf_graph g').
  { intros x y E. rewrite Hn. apply (closed x y), He, E. }
  destruct (rootfirst_topological_order_cases g' closed')
    as [(o & Eo & [Hp Hed]) | [Eo (x & Hx)]].
  - left. exists o. split; [exact Eo|]. split.
    + rewrite <- Hn. exact Hp.
    + intros u v E. apply Hed, He, E.
  - right. split; [exact Eo|]. exists x. exact (path_iff _ _ He x x Hx).
Qed.

(** The diamond with the edge 0 -> 3 beside it; the edges 0 -> 1 and
    2 -> 3 are satisfiable. *)
Definition sdiamond : satisfiable_graph :=
  Satisfiable.add_edge 0 3 false
    (Satisfiable.add_edge 2 3 true
       (Satisfiable.add_edge 1 3 false
          (Satisfiable.add_edge 0 2 false
             (Satisfiable.add_edge 0 1 true Satisfiable.empty)))).

Lemma graph_ok_sdiamond : graph_ok (m_graph sdiamond).
Proof.
  split; [vm_compute; repeat constructor | apply wf_graphb_spec; vm_compute; reflexivity].
Qed.

Lemma greedy_topological_order_spec_witness :
  wf_graph (m_graph sdiamond) /\
  greedy_topological_order sdiamond = Ok [0; 1; 2; 3] /\
  ((exists order, greedy_topological_order sdiamond = Ok order /\
                  is_topological (m_graph sdiamond) order) \/
   (greedy_topological_order sdiamond = Err not_a_dag_exception /\
    exists x, path (m_graph sdiamond) x x)).
Proof.
  assert (Hw : wf_graph (m_graph sdiamond)) by exact (proj2 graph_ok_sdiamond).
  split; [exact Hw|]. split; [vm_compute; reflexivity|].
  exact (greedy_topological_order_spec sdiamond Hw).
Defined.

End TopologicalOrder.

(** * [satisfiable_graph::preprocess] *)
Module Preprocess.

Local Open Scope nat_scope.
Local Open Scope result_scope.

Import Graph.
Import TarjanSCC.
Import GraphOps.
Import TopologicalOrder.
Import Satisfiable.

(** [sg'] has the nodes of [sg] and some of its edges. *)
Definition thinned (sg sg' : satisfiable_graph) : Prop :=
  Satisfiable.get_node_set sg' = Satisfiable.get_node_set sg /\
  (forall x y, edge (m_graph sg') x y -> edge (m_graph sg) x y) /\
  (forall p, In p (m_satisfiableEdges sg') -> In p (m_satisfiableEdges sg)).

Lemma thinned_refl sg : thinned sg sg.
Proof. repeat split; auto. Qed.

Lemma thinned_trans a b c : thinned a b -> thinned b c -> thinned a c.
Proof.
  intros (N1 & E1 & S1) (N2 & E2 & S2). split; [congruence|]. split; auto.
Qed.

Lemma thinned_remove_edge u v sg : thinned sg (Satisfiable.remove_edge u v sg).
Proof.
  split; [apply nodes_remove_edge|]. split.
  - intros x y (es & E & Hy). simpl in E. unfold get_edge_list in E.
    rewrite lookup_remove_edge in E. destruct (x =? u) eqn:Ex.
    + apply Nat.eqb_eq in Ex. subst x. unfold edge, get_edge_list.
      destruct (lookup u (m_graph sg)) as [es'|]; [|discriminate E].
      injection E as <-. exists es'. split; [reflexivity|].
      exact (In_erase_first _ _ _ Hy).
    + exists es. auto.
  - intros p Hp. simpl in Hp. unfold pset_erase in Hp. apply filter_In in Hp. tauto.
Qed.

Lemma thinned_remove_edges u vs : forall sg,
  thinned sg (fold_left (fun s v => Satisfiable.remove_edge u v s) vs sg).
Proof.
  induction vs as [|v vs IH]; intros sg; simpl; [apply thinned_refl|].
  exact (thinned_trans _ _ _ (thinned_remove_edge u v sg) (IH _)).
Qed.

Lemma thinned_path sg sg' x y :
  thinned sg sg' -> path (m_graph sg') x y -> path (m_graph sg) x y.
Proof.
  intros (_ & He & _) Hp. induction Hp as [x y E | x y z _ IH1 _ IH2].
  - apply t_step, He, E.
  - apply t_trans with y; assumption.
Qed.

Lemma thinned_acyclic sg sg' :
  thinned sg sg' -> acyclic (m_graph sg) -> acyclic (m_graph sg').
Proof. intros Ht Ha x Hp. exact (Ha x (thinned_path _ _ _ _ Ht Hp)). Qed.

Lemma thinned_fuel sg sg' :
  thinned sg sg' -> dfs_fuel (m_graph sg') = dfs_fuel (m_graph sg).
Proof.
  intros (Hn & _). unfold dfs_fuel. f_equal.
  unfold Satisfiable.get_node_set, Graph.get_node_set in Hn.
  rewrite <- (length_map fst (m_graph sg')), Hn, length_map. reflexivity.
Qed.

(** *** [paths] returns *)

Section Paths.

Variable sg : satisfiable_graph.
Hypothesis Hacyclic : acyclic (m_graph sg).

Let nodes := Satisfiable.get_node_set sg.

(** The recursion of [paths] follows a path of the graph; as the graph
    has no cycle, the path does not come back to a node. *)
Definition paths_ok (fuel : nat) : Prop :=
  forall u c stack,
    (forall x, In x stack -> path (m_graph sg) x u) ->
    NoDup stack -> incl stack nodes ->
    List.length nodes < fuel + List.length stack ->
    exists r, paths fuel sg u c = Ok r.

Lemma paths_edges_returns fuel u stack :
  paths_ok fuel ->
  (forall x, In x stack -> path (m_graph sg) x u) ->
  NoDup (u :: stack) -> incl (u :: stack) nodes ->
  List.length nodes < fuel + List.length (u :: stack) ->
  forall es res c,
    (forall v, In v es -> edge (m_graph sg) u v) ->
    exists r, paths_edges (paths fuel sg) nodes es res c = Ok r.
Proof.
  intros IH Hs Hnd Hincl Hf. induction es as [|v es IHes]; intros res c Hes.
  - exists (res, c). reflexivity.
  - assert (E : edge (m_graph sg) u v) by (apply Hes; left; reflexivity).
    destruct (IH v c (u :: stack)) as (r & Er); try assumption.
    { intros x [<- | Hx]; [apply t_step; exact E|].
      apply t_trans with u; [exact (Hs x Hx) | apply t_step; exact E]. }
    cbn [paths_edges]. rewrite Er. cbn [bind]. apply IHes.
    intros w Hw. apply Hes. right. exact Hw.
Qed.

Lemma paths_returns : forall fuel, paths_ok fuel.
Proof.
  induction fuel as [|fuel IH]; intros u c stack Hs Hnd Hincl Hf.
  - pose proof (NoDup_incl_length Hnd Hincl). simpl in Hf. lia.
  - cbn [paths]. destruct (lookup u c) as [m|]; [eexists; reflexivity|].
    destruct (edge_list (m_graph sg) u) as [|e es] eqn:Ees; [eexists; reflexivity|].
    assert (Hlook : get_edge_list (m_graph sg) u = Some (e :: es)).
    { unfold edge_list in Ees. destruct (get_edge_list (m_graph sg) u); [congruence | discriminate]. }
    destruct (paths_edges_returns fuel u stack IH Hs) with
      (es := e :: es) (res := no_paths (Satisfiable.get_node_set sg)) (c := c) as (r & Er).
    + constructor; [|exact Hnd]. intros Hin. exact (Hacyclic u (Hs u Hin)).
    + intros x [<- | Hx]; [|exact (Hincl x Hx)].
      apply In_node_set. congruence.
    + simpl. simpl in Hf. lia.
    + intros v Hv. exists (e :: es). auto.
    + fold nodes in Er |- *. rewrite Er. eexists. reflexivity.
Qed.

Lemma paths_from_loop u c :
  exists r, paths (dfs_fuel (m_graph sg)) sg u c = Ok r.
Proof.
  apply (paths_returns _ u c []).
  - intros x [].
  - constructor.
  - intros x [].
  - unfold dfs_fuel, nodes, Satisfiable.get_node_set, Graph.get_node_set.
    rewrite length_map. simpl. lia.
Qed.

Lemma unnecessary_edges_returns u : forall es c,
  exists r, unnecessary_edges sg u es c = Ok r.
Proof.
  induction es as [|v es IH]; intros c; [eexists; reflexivity|].
  cbn [unnecessary_edges]. destruct (paths_from_loop u c) as (r & Er). rewrite Er.
  cbn [bind]. destruct (IH (snd r)) as (r' & Er'). rewrite Er'. eexists. reflexivity.
Qed.

End Paths.

Lemma preprocess_loop_returns sg0 : forall us sg c,
  thinned sg0 sg -> acyclic (m_graph sg) ->
  exists sg', preprocess_loop us sg c = Ok sg' /\ thinned sg0 sg'.
Proof.
  induction us as [|u us IH]; intros sg c Ht Ha.
  - exists sg. split; [reflexivity | exact Ht].
  - cbn [preprocess_loop].
    destruct (unnecessary_edges_returns sg Ha u (edge_list (m_graph sg) u) c) as (r & Er).
    rewrite Er. cbn [bind].
    pose proof (thinned_remove_edges u (fst r) sg) as Ht'.
    apply IH.
    + exact (thinned_trans _ _ _ Ht Ht').
    + exact (thinned_acyclic _ _ Ht' Ha).
Qed.

(** X10: [preprocess()] throws [not_a_dag_exception] when the graph has a
    cycle.  Otherwise it returns; the graph then has the nodes it had and
    some of the edges it had, and no edge is satisfiable that was not. *)
Theorem preprocess_spec sg :
  wf_graph (m_graph sg) ->
  (exists sg', preprocess sg = Ok sg' /\ thinned sg sg' /\ acyclic (m_graph sg)) \/
  (preprocess sg = Err not_a_dag_exception /\ exists x, path (m_graph sg) x x).
Proof.
  intros closed. unfold preprocess, validate_acyclical.
  destruct (check_acyclical_cases (m_graph sg) closed) as [[E Ha] | [E Hc]]; rewrite E; cbn [bind].
  - left. destruct (preprocess_loop_returns sg (Satisfiable.get_node_set sg) sg []
                      (thinned_refl sg) Ha) as (sg' & E' & Ht).
    exists sg'. auto.
  - right. split; [reflexivity | exact Hc].
Qed.

Lemma preprocess_spec_witness :
  wf_graph (m_graph sdiamond) /\
  edge_list (m_graph sdiamond) 0 = [1; 2; 3] /\
  match preprocess sdiamond with
  | Ok sg' => Some (edge_list (m_graph sg') 0)
  | Err _ => None
  end = Some [1; 2] /\
  ((exists sg', preprocess sdiamond = Ok sg' /\ thinned sdiamond sg' /\
                acyclic (m_graph sdiamond)) \/
   (preprocess sdiamond = Err not_a_dag_exception /\
    exists x, path (m_graph sdiamond) x x)).
Proof.
  assert (Hw : wf_graph (m_graph sdiamond)) by exact (proj2 graph_ok_sdiamond).
  split; [exact Hw|]. split; [reflexivity|]. split; [vm_compute; reflexivity|].
  exact (preprocess_spec sdiamond Hw).
Defined.

End Preprocess.

(** * The operations of [satisfiable_graph] *)
Module SatisfiableOps.

Local Open Scope nat_scope.

Import Graph.
Import TarjanSCC.
Import GraphOps.
Import Satisfiable.
Import TopologicalOrder.

Lemma pair_eqb_eq p q : pair_eqb p q = true <-> p = q.
Proof.
  unfold pair_eqb. rewrite andb_true_iff, !Nat.eqb_eq.
  destruct p, q; simpl. split; [intros [-> ->]; reflexivity | intros [= -> ->]; auto].
Qed.

Lemma In_pset_insert p q s : In p (pset_insert q s) <-> p = q \/ In p s.
Proof.
  induction s as [|r rest IH]; simpl.
  - intuition.
  - destruct (pair_ltb q r); simpl; [intuition|].
    destruct (pair_eqb q r) eqn:E; simpl.
    + apply pair_eqb_eq in E. subst. intuition.
    + rewrite IH. intuition.
Qed.

Lemma In_pset_erase p q s : In p (pset_erase q s) <-> p <> q /\ In p s.
Proof.
  unfold pset_erase. rewrite filter_In, negb_true_iff. split.
  - intros [H E]. split; [|exact H]. intros ->.
    rewrite (proj2 (pair_eqb_eq q q) eq_refl) in E. discriminate.
  - intros [Hne H]. split; [exact H|]. destruct (pair_eqb q p) eqn:E; [|reflexivity].
    apply pair_eqb_eq in E. congruence.
Qed.

Lemma mem_true v l : mem v l = true <-> In v l.
Proof.
  unfold mem. rewrite existsb_exists. split.
  - intros (x & Hx & E). apply Nat.eqb_eq in E. subst. exact Hx.
  - intros H. exists v. split; [exact H | apply Nat.eqb_refl].
Qed.

(** Every satisfiable edge is an edge of the graph. *)
Definition satisfiable_are_edges (sg : satisfiable_graph) : Prop :=
  forall u v, In (u, v) (m_satisfiableEdges sg) -> has_edge (m_graph sg) u v = true.

Lemma has_edge_erase g u v x y :
  has_edge g x y = true -> (x, y) <> (u, v) ->
  has_edge (Graph.remove_edge u v g) x y = true.
Proof.
  rewrite !has_edge_edge_list, edge_list_remove_edge. intros H Hne.
  destruct (x =? u) eqn:E; [|exact H]. apply Nat.eqb_eq in E. subst x.
  apply mem_true. apply mem_true in H.
  assert (Hy : y <> v) by congruence.
  induction (edge_list g u) as [|e es IH]; simpl in *; [contradiction|].
  destruct (e =? v) eqn:Ee.
  - apply Nat.eqb_eq in Ee. subst e. destruct H as [H | H]; [congruence | exact H].
  - destruct H as [H | H]; [left; exact H | right; exact (IH H)].
Qed.

(** X11: The class keeps its satisfiable edges among the edges of its graph,
    and the graph well formed. *)
Theorem satisfiable_graph_invariant sg :
  graph_ok (m_graph sg) -> satisfiable_are_edges sg ->
  (forall u, graph_ok (m_graph (Satisfiable.add_node u sg)) /\
             satisfiable_are_edges (Satisfiable.add_node u sg)) /\
  (forall u v b, graph_ok (m_graph (Satisfiable.add_edge u v b sg)) /\
                 satisfiable_are_edges (Satisfiable.add_edge u v b sg)) /\
  (forall u v, In u (Satisfiable.get_node_set sg) ->
               graph_ok (m_graph (Satisfiable.remove_edge u v sg)) /\
               satisfiable_are_edges (Satisfiable.remove_edge u v sg)).
Proof.
  intros Hok Hs. pose proof (proj1 Hok) as Hm. split; [|split].
  - intros u. split; [apply graph_ok_add_node, Hok|].
    intros x y Hin. simpl in *. rewrite has_edge_edge_list, (edge_list_add_node u _ x Hm).
    rewrite <- has_edge_edge_list. exact (Hs x y Hin).
  - intros u v b. split; [apply graph_ok_add_edge, Hok|].
    intros x y Hin. simpl in *.
    rewrite (has_edge_add_edge u v (m_graph sg) x y Hm).
    apply orb_true_iff.
    assert (Hc : (x, y) = (u, v) \/ In (x, y) (m_satisfiableEdges sg)).
    { destruct b; [apply In_pset_insert; exact Hin | right; exact Hin]. }
    destruct Hc as [[= -> ->] | Hc]; [left; rewrite !Nat.eqb_refl; reflexivity|].
    right. exact (Hs x y Hc).
  - intros u v _. split; [apply graph_ok_remove_edge, Hok|].
    intros x y Hin. simpl in *. apply In_pset_erase in Hin. destruct Hin as [Hne Hin].
    apply has_edge_erase; [exact (Hs x y Hin) | exact Hne].
Qed.

Lemma satisfiable_are_edges_sdiamond : satisfiable_are_edges sdiamond.
Proof.
  intros u v H. vm_compute in H.
  destruct H as [[= <- <-] | [[= <- <-] | []]]; reflexivity.
Qed.

Lemma satisfiable_graph_invariant_witness :
  graph_ok (m_graph sdiamond) /\ satisfiable_are_edges sdiamond /\
  satisfiable_are_edges (Satisfiable.remove_edge 0 1 sdiamond) /\
  satisfiable_are_edges (Satisfiable.add_edge 3 4 true sdiamond).
Proof.
  pose proof graph_ok_sdiamond as Hok.
  pose proof satisfiable_are_edges_sdiamond as Hs.
  destruct (satisfiable_graph_invariant sdiamond Hok Hs) as (_ & Ha & Hr).
  split; [exact Hok|]. split; [exact Hs|]. split.
  - apply (Hr 0 1). left. reflexivity.
  - apply (Ha 3 4 true).
Defined.

End SatisfiableOps.

(** * [satisfiable_graph::subgraph] and [split_graph] *)
Module SplitGraph.

Local Open Scope nat_scope.
Local Open Scope result_scope.

Import Graph.
Import TarjanSCC.
Import GraphOps.
Import Satisfiable.
Import SatisfiableOps.
Import TopologicalOrder.

Lemma pset_mem_true p s : pset_mem p s = true <-> In p s.
Proof.
  unfold pset_mem. rewrite existsb_exists. split.
  - intros (q & Hq & E). apply pair_eqb_eq in E. subst. exact Hq.
  - intros H. exists p. split; [exact H | apply pair_eqb_eq; reflexivity].
Qed.

Section Subgraph.

Variable sg : satisfiable_graph.
Variable ns : list nat.

Definition inside (v : nat) : bool := mem v ns.

(** The body of the inner loop of [subgraph]. *)
Definition copy_edge (u : nat) (g : satisfiable_graph) (v : nat) : satisfiable_graph :=
  if mem v ns
  then Satisfiable.add_edge u v (pset_mem (u, v) (m_satisfiableEdges sg)) g
  else g.

Lemma copy_edge_step u g v :
  is_map (m_graph g) -> In u (Satisfiable.get_node_set g) ->
  is_map (m_graph (copy_edge u g v)) /\
  (forall x, In x (Satisfiable.get_node_set (copy_edge u g v)) <->
             In x (Satisfiable.get_node_set g) \/ (x = v /\ inside v = true)) /\
  (forall x, edge_list (m_graph (copy_edge u g v)) x
             = if x =? u
               then edge_list (m_graph g) u ++ (if inside v then [v] else [])
               else edge_list (m_graph g) x) /\
  (forall p, In p (m_satisfiableEdges (copy_edge u g v)) <->
             In p (m_satisfiableEdges g) \/
             (p = (u, v) /\ inside v = true /\ In p (m_satisfiableEdges sg))).
Proof.
  intros Hm Hu. unfold copy_edge, inside. destruct (mem v ns) eqn:Ev.
  - destruct (add_edge_cases u v (m_graph g) Hm) as (Hn1 & He1).
    split; [apply is_map_add_edge, Hm|]. split; [|split].
    + intros x. unfold Satisfiable.get_node_set. simpl. rewrite Hn1. split.
      * intros [-> | [-> | H]]; auto.
      * intros [H | [-> _]]; auto.
    + intros x. simpl. apply He1.
    + intros p. simpl. destruct (pset_mem (u, v) (m_satisfiableEdges sg)) eqn:Es.
      * rewrite In_pset_insert. apply pset_mem_true in Es. split.
        -- intros [-> | H]; auto.
        -- intros [H | (-> & _)]; auto.
      * split; [auto|]. intros [H | (-> & _ & D)]; [exact H|].
        apply pset_mem_true in D. congruence.
  - split; [exact Hm|]. split; [|split].
    + intros x. split; [auto|]. intros [H | [_ H]]; [exact H | discriminate H].
    + intros x. destruct (x =? u) eqn:E; [|reflexivity].
      apply Nat.eqb_eq in E. subst x. rewrite app_nil_r. reflexivity.
    + intros p. split; [auto|]. intros [H | (_ & H & _)]; [exact H | discriminate H].
Qed.

Lemma copy_edges_spec u : forall es g,
  is_map (m_graph g) -> In u (Satisfiable.get_node_set g) ->
  is_map (m_graph (fold_left (copy_edge u) es g)) /\
  (forall x, In x (Satisfiable.get_node_set (fold_left (copy_edge u) es g)) <->
             In x (Satisfiable.get_node_set g) \/ (In x es /\ inside x = true)) /\
  (forall x, edge_list (m_graph (fold_left (copy_edge u) es g)) x
             = if x =? u then edge_list (m_graph g) u ++ filter inside es
               else edge_list (m_graph g) x) /\
  (forall p, In p (m_satisfiableEdges (fold_left (copy_edge u) es g)) <->
             In p (m_satisfiableEdges g) \/
             (fst p = u /\ In (snd p) es /\ inside (snd p) = true /\
              In p (m_satisfiableEdges sg))).
Proof.
  induction es as [|v es IH]; intros g Hm Hu.
  - simpl. split; [exact Hm|]. split; [intros x; tauto|]. split.
    + intros x. destruct (x =? u) eqn:E; [|reflexivity].
      apply Nat.eqb_eq in E. subst x. rewrite app_nil_r. reflexivity.
    + intros p. tauto.
  - cbn [fold_left].
    destruct (copy_edge_step u g v Hm Hu) as (S1 & S2 & S3 & S4).
    assert (Hu1 : In u (Satisfiable.get_node_set (copy_edge u g v))).
    { apply S2. left. exact Hu. }
    destruct (IH (copy_edge u g v) S1 Hu1) as (H1 & H2 & H3 & H4).
    split; [exact H1|]. split; [|split].
    + intros x. rewrite H2, S2. simpl. intuition (subst; auto).
    + intros x. rewrite H3, !S3, Nat.eqb_refl. destruct (x =? u); [|reflexivity].
      rewrite <- app_assoc. simpl. destruct (inside v); reflexivity.
    + intros p. rewrite H4, S4. destruct p as [a b]. simpl.
      intuition (subst; simpl in *; auto); try congruence.
Qed.

(** The state of the outer loop of [subgraph] after the nodes [done]. *)
Record SInv (done : list nat) (g : satisfiable_graph) : Prop := mk_SInv {
  sinv_map : is_map (m_graph g);
  sinv_inside : forall x, In x (Satisfiable.get_node_set g) -> In x ns;
  sinv_done : forall x, In x done -> In x (Satisfiable.get_node_set g);
  sinv_edges : forall x, edge_list (m_graph g) x
                         = if mem x done
                           then filter inside (edge_list (m_graph sg) x)
                           else [];
  sinv_satisfiable : forall p, In p (m_satisfiableEdges g) <->
                       In (fst p) done /\ In (snd p) (edge_list (m_graph sg) (fst p)) /\
                       inside (snd p) = true /\ In p (m_satisfiableEdges sg)
}.

Definition copy_node (g : satisfiable_graph) (u : nat) : satisfiable_graph :=
  fold_left (copy_edge u) (edge_list (m_graph sg) u) (Satisfiable.add_node u g).

Lemma SInv_empty : SInv [] Satisfiable.empty.
Proof.
  constructor.
  - constructor.
  - intros x [].
  - intros x [].
  - intros x. reflexivity.
  - intros p. simpl. tauto.
Qed.

Lemma SInv_step done g u :
  SInv done g -> ~ In u done -> In u ns -> SInv (done ++ [u]) (copy_node g u).
Proof.
  intros [Hm Hin Hd He Hs] Hu Huns. unfold copy_node.
  set (g1 := Satisfiable.add_node u g).
  assert (Hm1 : is_map (m_graph g1)) by (apply is_map_add_node, Hm).
  assert (Hu1 : In u (Satisfiable.get_node_set g1)).
  { apply nodes_add_node. left. reflexivity. }
  destruct (copy_edges_spec u (edge_list (m_graph sg) u) g1 Hm1 Hu1) as (H1 & H2 & H3 & H4).
  assert (Hmu : mem u done = false).
  { destruct (mem u done) eqn:E; [|reflexivity]. apply mem_true in E. contradiction. }
  constructor.
  - exact H1.
  - intros x Hx. apply H2 in Hx. destruct Hx as [Hx | [_ Hx]].
    + apply nodes_add_node in Hx. destruct Hx as [-> | Hx]; [exact Huns | exact (Hin x Hx)].
    + apply mem_true. exact Hx.
  - intros x Hx. apply H2. left. apply nodes_add_node. apply in_app_or in Hx.
    destruct Hx as [Hx | [<- | []]]; [right; exact (Hd x Hx) | left; reflexivity].
  - intros x. rewrite H3. unfold g1. simpl. rewrite !(edge_list_add_node u _ _ Hm), !He, Hmu.
    rewrite mem_app. destruct (x =? u) eqn:E.
    + apply Nat.eqb_eq in E. subst x. rewrite Hmu. simpl.
      unfold mem. simpl. rewrite Nat.eqb_refl. reflexivity.
    + unfold mem at 2. simpl. rewrite E, orb_false_r. reflexivity.
  - intros p. rewrite H4. unfold g1. simpl. rewrite Hs, in_app_iff. simpl.
    split.
    + intros [(A & B & C & D) | (A & B & C & D)].
      * repeat split; auto.
      * rewrite A. repeat split; auto.
    + intros ([A | [A | []]] & B & C & D).
      * left. repeat split; auto.
      * right. rewrite <- A in B |- *. repeat split; auto.
Qed.

Lemma subgraph_loop : forall us done g,
  SInv done g -> NoDup (done ++ us) -> incl us ns ->
  SInv (done ++ us) (fold_left copy_node us g).
Proof.
  induction us as [|u us IH]; intros done g I Hnd Hincl.
  - rewrite app_nil_r. exact I.
  - cbn [fold_left].
    replace (done ++ u :: us) with ((done ++ [u]) ++ us) in * by (rewrite <- app_assoc; reflexivity).
    apply IH.
    + apply SInv_step; [exact I | | apply Hincl; left; reflexivity].
      rewrite <- app_assoc in Hnd. simpl in Hnd. apply NoDup_remove_2 in Hnd.
      intros Hin. apply Hnd, in_or_app. left. exact Hin.
    + exact Hnd.
    + intros x Hx. apply Hincl. right. exact Hx.
Qed.

End Subgraph.

Lemma subgraph_fold sg ns : subgraph sg ns = fold_left (copy_node sg ns) ns Satisfiable.empty.
Proof. reflexivity. Qed.

Lemma subgraph_inv sg ns : NoDup ns -> SInv sg ns ns (subgraph sg ns).
Proof.
  intros Hnd. rewrite subgraph_fold.
  exact (subgraph_loop sg ns ns [] Satisfiable.empty (SInv_empty sg ns) Hnd (incl_refl ns)).
Qed.

(** X12: [subgraph(nodes)] is the subgraph on [nodes]: its nodes are
    [nodes], the edge list of each is its edge list in the graph without
    the nodes outside, in the same order, and the satisfiable edges are
    those of the graph between the nodes. *)
Theorem subgraph_spec sg ns :
  NoDup ns ->
  (forall x, In x (Satisfiable.get_node_set (subgraph sg ns)) <-> In x ns) /\
  (forall x, edge_list (m_graph (subgraph sg ns)) x
             = if mem x ns
               then filter (fun v => mem v ns) (edge_list (m_graph sg) x)
               else []) /\
  (forall u v, In (u, v) (m_satisfiableEdges (subgraph sg ns)) <->
               In u ns /\ In v ns /\ In v (edge_list (m_graph sg) u) /\
               In (u, v) (m_satisfiableEdges sg)).
Proof.
  intros Hnd. destruct (subgraph_inv sg ns Hnd) as [Hm Hin Hd He Hs].
  split; [|split].
  - intros x. split; [apply Hin | apply Hd].
  - exact He.
  - intros u v. rewrite Hs. simpl. unfold inside. rewrite mem_true. tauto.
Qed.


Lemma subgraph_spec_witness :
  NoDup [0; 1] /\
  edge_list (m_graph (subgraph sdiamond [0; 1])) 0 = [1] /\
  (In (0, 1) (m_satisfiableEdges (subgraph sdiamond [0; 1])) <->
   In 0 [0; 1] /\ In 1 [0; 1] /\ In 1 (edge_list (m_graph sdiamond) 0) /\
   In (0, 1) (m_satisfiableEdges sdiamond)).
Proof.
  assert (Hnd : NoDup [0; 1]).
  { repeat constructor; simpl; intuition discriminate. }
  destruct (subgraph_spec sdiamond [0; 1] Hnd) as (_ & He & Hs).
  split; [exact Hnd|]. split; [rewrite He; reflexivity | apply Hs].
Defined.

(** *** [split_graph] *)

(** The components [strongly_connected_components()] returns. *)
Lemma components_of g :
  wf_graph g ->
  exists cs,
    strongly_connected_components g = Ok cs /\
    (forall c, In c cs -> is_scc g c) /\
    (forall v, In v (Graph.get_node_set g) <-> exists c, In c cs /\ In v c) /\
    NoDup (List.concat cs) /\
    (forall pre c post, cs = pre ++ c :: post ->
       forall x y, In x c -> edge g x y ->
                   In y c \/ exists c', In c' post /\ In y c').
Proof.
  intros closed.
  destruct (scc_loop_correct g closed (Graph.get_node_set g) scc_init (Inv_init g)
              (fun v H => H)) as (st & E & I & _ & Hall).
  pose proof (stack_empty g st I) as Hs.
  assert (Hcover : forall v, In v (Graph.get_node_set g) <-> done st v).
  { intros v. split.
    - intros Hv. split; [exact (Hall v Hv) | rewrite Hs; intros []].
    - intros [Hv _]. exact (inv_nodes _ _ _ I v Hv). }
  exists (rev (components st)). split.
  { unfold strongly_connected_components, get_components. rewrite E. reflexivity. }
  split; [|split; [|split]].
  - intros c Hc. apply in_rev in Hc. exact (inv_comp_scc _ _ _ I c Hc).
  - intros v. rewrite Hcover, (inv_comp_cover _ _ _ I). split.
    + intros (c & Hc & Hv). exists c. split; [apply in_rev in Hc; exact Hc | exact Hv].
    + intros (c & Hc & Hv). exists c. split; [apply in_rev; exact Hc | exact Hv].
  - apply Permutation_NoDup with (List.concat (components st)).
    + apply Permutation_sym, concat_rev_perm.
    + exact (inv_comp_nodup _ _ _ I).
  - intros pre c post Ecs x y Hx Ed.
    assert (Ec : components st = rev post ++ c :: rev pre).
    { rewrite <- (rev_involutive (components st)), Ecs, rev_app_distr. simpl.
      rewrite <- app_assoc. reflexivity. }
    destruct (inv_comp_order _ _ _ I _ _ _ Ec x y Hx Ed) as [Hy | (c' & Hc' & Hy)].
    + left. exact Hy.
    + right. exists c'. split; [apply in_rev; exact Hc' | exact Hy].
Qed.

Lemma edge_edge_list g x y : edge g x y <-> In y (edge_list g x).
Proof.
  unfold edge, edge_list. destruct (get_edge_list g x) as [es|].
  - split; [intros (es' & [= <-] & H); exact H | intros H; exists es; auto].
  - split; [intros (es' & H & _); discriminate H | intros []].
Qed.

Lemma has_edge_edge g x y : has_edge g x y = true <-> edge g x y.
Proof. rewrite has_edge_edge_list, mem_true, edge_edge_list. reflexivity. Qed.

(** [sccGraph]: the graph with every satisfiable edge reversed beside
    it. *)
Definition with_reversed (ps : list (nat * nat)) (g : graph) : graph :=
  fold_left (fun g p => Graph.add_edge (snd p) (fst p) g) ps g.

Lemma with_reversed_spec : forall ps g,
  graph_ok g ->
  graph_ok (with_reversed ps g) /\
  (forall x, In x (Graph.get_node_set (with_reversed ps g)) <->
             In x (Graph.get_node_set g) \/
             exists p, In p ps /\ (x = fst p \/ x = snd p)) /\
  (forall x y, edge (with_reversed ps g) x y <->
               edge g x y \/ In (y, x) ps).
Proof.
  induction ps as [|[a b] ps IH]; intros g Hok.
  - simpl. split; [exact Hok|]. split.
    + intros x. split; [auto | intros [H | (p & [] & _)]; exact H].
    + intros x y. split; [auto | intros [H | []]; exact H].
  - cbn [with_reversed fold_left]. fold (with_reversed ps (Graph.add_edge b a g)).
    destruct (IH _ (graph_ok_add_edge b a g Hok)) as (H1 & H2 & H3).
    destruct (add_edge_cases b a g (proj1 Hok)) as (Hn & He).
    split; [exact H1|]. split.
    + intros x. rewrite H2, Hn. simpl. split.
      * intros [[-> | [-> | H]] | (p & Hp & Hx)]; auto.
        -- right. exists (a, b). simpl. auto.
        -- right. exists (a, b). simpl. auto.
        -- right. exists p. auto.
      * intros [H | (p & [<- | Hp] & [-> | ->])]; simpl; auto.
        -- right. exists p. auto.
        -- right. exists p. auto.
    + intros x y. rewrite H3, !edge_edge_list, He. simpl.
      destruct (x =? b) eqn:E.
      * apply Nat.eqb_eq in E. subst x. rewrite in_app_iff. simpl. split.
        -- intros [[H | [<- | []]] | H]; auto.
        -- intros [H | [[= <-] | H]]; auto.
      * apply Nat.eqb_neq in E. split.
        -- intros [H | H]; auto.
        -- intros [H | [[= _ <-] | H]]; auto. congruence.
Qed.

Lemma reach_step g x y : edge g x y -> reach g x y.
Proof. intros E. apply rt_step. exact E. Qed.

(** X13: [split_graph()] cuts the graph into the subgraphs on sets of nodes
    that hold every node once; the two ends of a satisfiable edge are in
    one set, and every edge that leaves a set leads to a later one. *)
Theorem split_graph_spec sg :
  graph_ok (m_graph sg) -> satisfiable_are_edges sg ->
  exists cs,
    split_graph sg = Ok (map (subgraph sg) cs) /\
    NoDup (List.concat cs) /\
    (forall x, In x (Satisfiable.get_node_set sg) <-> exists c, In c cs /\ In x c) /\
    (forall u v, In (u, v) (m_satisfiableEdges sg) ->
                 exists c, In c cs /\ In u c /\ In v c) /\
    (forall pre c post, cs = pre ++ c :: post ->
       forall x y, In x c -> edge (m_graph sg) x y ->
                   In y c \/ exists c', In c' post /\ In y c').
Proof.
  intros Hok Hsat. unfold split_graph.
  fold (with_reversed (m_satisfiableEdges sg) (m_graph sg)).
  destruct (with_reversed_spec (m_satisfiableEdges sg) (m_graph sg) Hok) as ([Hm Hw] & Hn & He).
  set (sccGraph := with_reversed _ _) in *.
  destruct (components_of sccGraph Hw) as (cs & E & Hscc & Hcover & Hnd & Hord).
  exists cs. rewrite E. split; [reflexivity|]. split; [exact Hnd|].
  assert (Hedge : forall u v, In (u, v) (m_satisfiableEdges sg) -> edge (m_graph sg) u v).
  { intros u v H. apply has_edge_edge, Hsat, H. }
  assert (Hnodes : forall x, In x (Graph.get_node_set sccGraph)
                             <-> In x (Satisfiable.get_node_set sg)).
  { intros x. rewrite Hn. split; [|auto].
    intros [H | ([a b] & Hp & [-> | ->])]; [exact H | |]; simpl.
    - destruct (Hedge a b Hp) as (es & Hes & _). apply In_node_set. congruence.
    - exact (proj2 Hok a b (Hedge a b Hp)). }
  split; [|split].
  - intros x. rewrite <- Hnodes. apply Hcover.
  - intros u v Huv.
    assert (Hu : In u (Graph.get_node_set sccGraph)).
    { apply Hn. right. exists (u, v). auto. }
    apply Hcover in Hu. destruct Hu as (c & Hc & Hu).
    exists c. split; [exact Hc|]. split; [exact Hu|].
    apply (proj2 (Hscc c Hc) u Hu v). split.
    + apply rt_step, He. left. exact (Hedge u v Huv).
    + apply rt_step, He. right. exact Huv.
  - intros pre c post Ecs x y Hx Ed.
    apply (Hord pre c post Ecs x y Hx), He. left. exact Ed.
Qed.

Lemma split_graph_spec_witness :
  graph_ok (m_graph sdiamond) /\ satisfiable_are_edges sdiamond /\
  split_graph sdiamond = Ok (map (subgraph sdiamond) [[0; 1]; [2; 3]]) /\
  exists cs,
    split_graph sdiamond = Ok (map (subgraph sdiamond) cs) /\
    NoDup (List.concat cs) /\
    (forall x, In x (Satisfiable.get_node_set sdiamond) <-> exists c, In c cs /\ In x c) /\
    (forall u v, In (u, v) (m_satisfiableEdges sdiamond) ->
                 exists c, In c cs /\ In u c /\ In v c) /\
    (forall pre c post, cs = pre ++ c :: post ->
       forall x y, In x c -> edge (m_graph sdiamond) x y ->
                   In y c \/ exists c', In c' post /\ In y c').
Proof.
  split; [exact graph_ok_sdiamond|]. split; [exact satisfiable_are_edges_sdiamond|].
  split; [vm_compute; reflexivity|].
  exact (split_graph_spec sdiamond graph_ok_sdiamond satisfiable_are_edges_sdiamond).
Defined.

End SplitGraph.

(** * [runtime::inverse_permutation] *)
Module InversePermutation.

Local Open Scope nat_scope.
Local Open Scope result_scope.

Lemma length_vector_set {A} i (x : A) v :
  List.length (Runtime.vector_set i x v) = List.length v.
Proof.
  revert i. induction v as [|a v IH]; intros [|i]; simpl; try reflexivity.
  rewrite IH. reflexivity.
Qed.

Lemma nth_vector_set {A} i (x : A) v j d :
  nth j (Runtime.vector_set i x v) d
  = if (j =? i) && (i <? List.length v) then x else nth j v d.
Proof.
  revert i j. induction v as [|a v IH]; intros i j.
  - simpl. rewrite andb_false_r. destruct i; reflexivity.
  - destruct i as [|i], j as [|j]; simpl; try reflexivity.
    rewrite IH. reflexivity.
Qed.

Definition bad_range : error := exception "inverse_permutation: f has bad range".
Definition not_injective : error := exception "inverse_permutation: f is not injective".

Section Invert.

Variable f0 : list nat.
Let n := List.length f0.

(** The state of the first loop after [i] turns. *)
Record PInv (i : nat) (res : list nat) : Prop := mk_PInv {
  pinv_length : List.length res = n;
  pinv_back : forall j, j < n ->
              nth j res n = n \/ (nth j res n < i /\ nth (nth j res n) f0 0 = j);
  pinv_forth : forall k, k < i -> nth k f0 0 < n /\ nth (nth k f0 0) res n = k
}.

Lemma PInv_init : PInv 0 (repeat n n).
Proof.
  constructor.
  - apply repeat_length.
  - intros j Hj. left. apply nth_repeat_lt. exact Hj.
  - intros k Hk. lia.
Qed.

Lemma nth_middle_length (done rest : list nat) x :
  nth (List.length done) (done ++ x :: rest) 0 = x.
Proof. rewrite app_nth2, Nat.sub_diag by lia. reflexivity. Qed.

Lemma PInv_step done x rest res :
  f0 = done ++ x :: rest -> PInv (List.length done) res ->
  x < n -> nth x res n = n ->
  PInv (List.length (done ++ [x])) (Runtime.vector_set x (List.length done) res).
Proof.
  intros Hf [Hlen Hback Hforth] Hx Hfree.
  assert (Hi : List.length done < n).
  { unfold n. rewrite Hf, length_app. simpl. lia. }
  assert (Hxi : nth (List.length done) f0 0 = x).
  { rewrite Hf. apply nth_middle_length. }
  rewrite length_app. simpl. rewrite Nat.add_1_r.
  constructor.
  - rewrite length_vector_set. exact Hlen.
  - intros j Hj. rewrite nth_vector_set, Hlen.
    destruct (j =? x) eqn:E.
    + apply Nat.eqb_eq in E. subst j. apply Nat.ltb_lt in Hx. rewrite Hx. simpl.
      right. split; [lia | exact Hxi].
    + simpl. destruct (Hback j Hj) as [H | [H1 H2]]; [left; exact H|].
      right. split; [lia | exact H2].
  - intros k Hk. rewrite nth_vector_set, Hlen.
    destruct (Nat.eq_dec k (List.length done)) as [-> | Hne].
    + rewrite Hxi. split; [exact Hx|]. rewrite Nat.eqb_refl.
      apply Nat.ltb_lt in Hx. rewrite Hx. reflexivity.
    + assert (Hk' : k < List.length done) by lia.
      destruct (Hforth k Hk') as [H1 H2]. split; [exact H1|].
      destruct (nth k f0 0 =? x) eqn:E; [|exact H2].
      apply Nat.eqb_eq in E. rewrite E in H2. lia.
Qed.

Lemma invert_cases : forall rest done res,
  f0 = done ++ rest -> PInv (List.length done) res -> NoDup done ->
  (exists r, Runtime.invert rest (List.length done) n res = Ok r /\ PInv n r /\ NoDup f0) \/
  (Runtime.invert rest (List.length done) n res = Err bad_range /\
   exists x, In x f0 /\ n <= x) \/
  (Runtime.invert rest (List.length done) n res = Err not_injective /\ ~ NoDup f0).
Proof.
  induction rest as [|x rest IH]; intros done res Hf I Hnd.
  - left. exists res. rewrite app_nil_r in Hf. subst done.
    split; [reflexivity|]. split; [exact I | exact Hnd].
  - cbn [Runtime.invert]. destruct (n <=? x) eqn:E1.
    + right. left. split; [reflexivity|]. exists x. apply Nat.leb_le in E1.
      split; [rewrite Hf; apply in_elt | exact E1].
    + apply Nat.leb_gt in E1. destruct (nth x res n =? n) eqn:E2; simpl.
      * apply Nat.eqb_eq in E2.
        assert (Hx : ~ In x done).
        { intros Hin. destruct (In_nth _ _ 0 Hin) as (k & Hk & Hnth).
          destruct (pinv_forth _ _ I k Hk) as [_ H2].
          rewrite Hf, app_nth1, Hnth in H2 by exact Hk.
          assert (k < n) by (unfold n; rewrite Hf, length_app; lia). lia. }
        assert (Hf' : f0 = (done ++ [x]) ++ rest) by (rewrite <- app_assoc; exact Hf).
        pose proof (PInv_step done x rest res Hf I E1 E2) as I'.
        assert (Hnd' : NoDup (done ++ [x])).
        { apply NoDup_app; [exact Hnd | repeat constructor; intros [] |].
          intros a Ha [<- | []]. exact (Hx Ha). }
        specialize (IH (done ++ [x]) _ Hf' I' Hnd').
        rewrite length_app in IH. simpl in IH. rewrite Nat.add_1_r in IH. exact IH.
      * right. right. split; [reflexivity|]. apply Nat.eqb_neq in E2.
        destruct (pinv_back _ _ I x E1) as [H | [H1 H2]]; [contradiction|].
        intros Hnd0. rewrite Hf in Hnd0. apply NoDup_remove_2 in Hnd0.
        apply Hnd0, in_or_app. left.
        rewrite Hf, app_nth1 in H2 by exact H1. rewrite <- H2. apply nth_In, H1.
Qed.

End Invert.

(** The check for surjectivity never fails: the values of an injective
    [f] with the right range are all of [0, ..., N-1]. *)
Lemma all_set f r :
  PInv f (List.length f) r -> NoDup f ->
  existsb (fun x => x =? List.length f) r = false.
Proof.
  intros I Hnd. destruct (existsb _ r) eqn:E; [|reflexivity]. exfalso.
  apply existsb_exists in E. destruct E as (v & Hv & Ev). apply Nat.eqb_eq in Ev. subst v.
  destruct (In_nth _ _ (List.length f) Hv) as (j & Hj & Hnth).
  rewrite (pinv_length _ _ _ I) in Hj.
  (* no element of [f] is [j] *)
  assert (Hnot : ~ In j f).
  { intros Hin. destruct (In_nth _ _ 0 Hin) as (k & Hk & Hk').
    destruct (pinv_forth _ _ _ I k Hk) as [_ H2]. rewrite Hk', Hnth in H2. lia. }
  assert (Hincl : incl f (remove Nat.eq_dec j (seq 0 (List.length f)))).
  { intros x Hx. apply in_in_remove; [intros ->; exact (Hnot Hx)|].
    apply in_seq. destruct (In_nth _ _ 0 Hx) as (k & Hk & Hk').
    destruct (pinv_forth _ _ _ I k Hk) as [H1 _]. rewrite Hk' in H1. lia. }
  pose proof (NoDup_incl_length Hnd Hincl) as Hlen.
  assert (Hj' : In j (seq 0 (List.length f))) by (apply in_seq; lia).
  pose proof (remove_length_lt Nat.eq_dec (seq 0 (List.length f)) j Hj') as Hlt.
  rewrite length_seq in Hlt. lia.
Qed.

Lemma inverse_permutation_cases f :
  (exists r, Runtime.inverse_permutation f = Ok r /\ PInv f (List.length f) r /\ NoDup f) \/
  (Runtime.inverse_permutation f = Err bad_range /\
   exists x, In x f /\ List.length f <= x) \/
  (Runtime.inverse_permutation f = Err not_injective /\ ~ NoDup f).
Proof.
  unfold Runtime.inverse_permutation.
  destruct (invert_cases f f [] (repeat (List.length f) (List.length f)) eq_refl
              (PInv_init f) (NoDup_nil _))
    as [(r & E & I & Hnd) | [[E H] | [E H]]]; simpl in E; rewrite E.
  - left. exists r. cbn [bind]. rewrite (all_set f r I Hnd). auto.
  - right. left. split; [reflexivity | exact H].
  - right. right. split; [reflexivity | exact H].
Qed.

(** X14: [inverse_permutation(f)] returns the inverse of [f]: a vector of the
    same length with [result[f[i]] = i] and [f[result[j]] = j] at every
    index. *)
Theorem inverse_permutation_inverse f r :
  Runtime.inverse_permutation f = Ok r ->
  List.length r = List.length f /\
  (forall i, i < List.length f ->
             nth i f 0 < List.length f /\ nth (nth i f 0) r 0 = i) /\
  (forall j, j < List.length f ->
             nth j r 0 < List.length f /\ nth (nth j r 0) f 0 = j).
Proof.
  intros E.
  destruct (inverse_permutation_cases f) as [(r' & E' & I & Hnd) | [[E' _] | [E' _]]];
    rewrite E in E'; try discriminate E'. injection E' as <-.
  pose proof (all_set f r I Hnd) as Hall.
  split; [exact (pinv_length _ _ _ I)|]. split.
  - intros i Hi. destruct (pinv_forth _ _ _ I i Hi) as [H1 H2]. split; [exact H1|].
    rewrite (nth_indep r 0 (List.length f)); [exact H2|].
    rewrite (pinv_length _ _ _ I). exact H1.
  - intros j Hj.
    assert (Hjr : j < List.length r) by (rewrite (pinv_length _ _ _ I); exact Hj).
    rewrite (nth_indep r 0 (List.length f) Hjr).
    destruct (pinv_back _ _ _ I j Hj) as [H | [H1 H2]]; [|split; assumption].
    exfalso. assert (Hex : existsb (fun x => x =? List.length f) r = true).
    { apply existsb_exists. exists (nth j r (List.length f)).
      split; [apply nth_In, Hjr | apply Nat.eqb_eq, H]. }
    congruence.
Qed.

Lemma inverse_permutation_inverse_witness :
  Runtime.inverse_permutation [2; 0; 1] = Ok [1; 2; 0] /\
  List.length [1; 2; 0] = List.length [2; 0; 1] /\
  (forall i, i < List.length [2; 0; 1] ->
             nth i [2; 0; 1] 0 < List.length [2; 0; 1] /\
             nth (nth i [2; 0; 1] 0) [1; 2; 0] 0 = i) /\
  (forall j, j < List.length [2; 0; 1] ->
             nth j [1; 2; 0] 0 < List.length [2; 0; 1] /\
             nth (nth j [1; 2; 0] 0) [2; 0; 1] 0 = j).
Proof.
  split; [reflexivity|].
  exact (inverse_permutation_inverse [2; 0; 1] [1; 2; 0] eq_refl).
Defined.

(** X15: [inverse_permutation(f)] returns exactly when [f] is a permutation
    of [0, ..., N-1].  Otherwise it throws "bad range", having met an
    element that is [N] or more, or "not injective", [f] having an element
    twice; the third exception, "not surjective", is never thrown. *)
Theorem inverse_permutation_errors f :
  (exists r, Runtime.inverse_permutation f = Ok r /\
             Permutation f (seq 0 (List.length f))) \/
  (Runtime.inverse_permutation f = Err bad_range /\
   exists x, In x f /\ List.length f <= x) \/
  (Runtime.inverse_permutation f = Err not_injective /\ ~ NoDup f).
Proof.
  destruct (inverse_permutation_cases f) as [(r & E & I & Hnd) | H]; [|right; exact H].
  left. exists r. split; [exact E|].
  apply NoDup_Permutation_bis; [exact Hnd | rewrite length_seq; lia |].
  intros x Hx. apply in_seq. destruct (In_nth _ _ 0 Hx) as (k & Hk & Hk').
  destruct (pinv_forth _ _ _ I k Hk) as [H1 _]. rewrite Hk' in H1. lia.
Qed.

End InversePermutation.

(** * The constructor of [datastructure_runtime] *)
Module DatastructureRuntime.

Local Open Scope nat_scope.

Import Resource.

(** The datastructure [name] is counted in phase [p]. *)
Definition counted (name : string) (p : nat) (m : datastructure_runtime) : Prop :=
  exists agg, In (name, agg) m /\ alive p agg = true.

(** Every entry spans phases up to [q], the first before the last. *)
Definition spans_upto (q : nat) (m : datastructure_runtime) : Prop :=
  forall k agg, In (k, agg) m ->
    left_most_phase agg <= right_most_phase agg /\ right_most_phase agg <= q.

(** What [upsert] does to the entries. *)
Lemma In_upsert name f m k v :
  In (k, v) (upsert name f m) ->
  (k = name /\ (v = f None \/ exists v0, In (name, v0) m /\ v = f (Some v0))) \/
  In (k, v) m.
Proof.
  induction m as [|[k0 v0] rest IH]; simpl.
  - intros [[= <- <-] | []]. left. auto.
  - destruct (String.compare name k0) eqn:E.
    + apply String.compare_eq_iff in E. subst k0.
      intros [[= <- <-] | H]; [|right; right; exact H].
      left. split; [reflexivity|]. right. exists v0. auto.
    + intros [[= <- <-] | H]; [left; auto | right; exact H].
    + intros [[= <- <-] | H]; [right; left; reflexivity|].
      destruct (IH H) as [[-> [-> | (w & Hw & ->)]] | H']; [left; auto | | right; right; exact H'].
      left. split; [reflexivity|]. right. exists w. auto.
Qed.

Lemma upsert_kept name f m k v :
  In (k, v) m ->
  In (k, v) (upsert name f m) \/ (k = name /\ In (name, f (Some v)) (upsert name f m)).
Proof.
  induction m as [|[k0 v0] rest IH]; simpl; [contradiction|].
  intros Hin. destruct (String.compare name k0) eqn:E.
  - apply String.compare_eq_iff in E. subst k0.
    destruct Hin as [[= <- <-] | H]; [right; split; [reflexivity | left; reflexivity]|].
    left. right. exact H.
  - left. right. exact Hin.
  - destruct Hin as [H | H]; [left; left; exact H|].
    destruct (IH H) as [H' | [-> H']]; [left; right; exact H' | right; split; [reflexivity | right; exact H']].
Qed.

Lemma upsert_has name f m :
  exists v, In (name, v) (upsert name f m) /\
            (v = f None \/ exists v0, In (name, v0) m /\ v = f (Some v0)).
Proof.
  induction m as [|[k0 v0] rest IH]; simpl.
  - exists (f None). split; [left; reflexivity | left; reflexivity].
  - destruct (String.compare name k0) eqn:E.
    + apply String.compare_eq_iff in E. subst k0. exists (f (Some v0)).
      split; [left; reflexivity|]. right. exists v0. auto.
    + exists (f None). split; [left; reflexivity | left; reflexivity].
    + destruct IH as (v & Hv & [-> | (w & Hw & ->)]).
      * exists (f None). split; [right; exact Hv | left; reflexivity].
      * exists (f (Some w)). split; [right; exact Hv|]. right. exists w. auto.
Qed.

Lemma alive_spec p agg :
  alive p agg = true <-> left_most_phase agg <= p <= right_most_phase agg.
Proof.
  unfold alive. rewrite andb_true_iff, !Nat.leb_le. reflexivity.
Qed.

Section Declare.

Variables (q : nat) (d : string * datastructure_decl).

Lemma declare_spans m : spans_upto q m -> spans_upto q (declare q d m).
Proof.
  intros H k agg Hin. unfold declare in Hin. apply In_upsert in Hin.
  destruct Hin as [[-> [-> | (v0 & Hv0 & ->)]] | Hin].
  - simpl. lia.
  - simpl. destruct (H _ _ Hv0). lia.
  - exact (H k agg Hin).
Qed.

Lemma declare_counts m : spans_upto q m -> counted (fst d) q (declare q d m).
Proof.
  intros H. unfold declare.
  destruct (upsert_has (fst d)
    (fun o => match o with
              | None => mk_ds_info (ds_min (snd d)) (ds_max (snd d)) (ds_priority (snd d))
                                   q q double_max
              | Some agg => mk_ds_info (Z.max (min agg) (ds_min (snd d)))
                                       (Z.min (max agg) (ds_max (snd d)))
                                       (fmin (priority agg) (ds_priority (snd d)))
                                       q (left_most_phase agg) (factor agg)
              end) m) as (v & Hv & [-> | (v0 & Hv0 & ->)]).
  - eexists. split; [exact Hv|]. apply alive_spec. simpl. lia.
  - eexists. split; [exact Hv|]. apply alive_spec. simpl. destruct (H _ _ Hv0). lia.
Qed.

Lemma declare_keeps m name p :
  p <= q -> counted name p m -> counted name p (declare q d m).
Proof.
  intros Hp (agg & Hin & Ha). unfold declare.
  destruct (upsert_kept (fst d)
    (fun o => match o with
              | None => mk_ds_info (ds_min (snd d)) (ds_max (snd d)) (ds_priority (snd d))
                                   q q double_max
              | Some agg => mk_ds_info (Z.max (min agg) (ds_min (snd d)))
                                       (Z.min (max agg) (ds_max (snd d)))
                                       (fmin (priority agg) (ds_priority (snd d)))
                                       q (left_most_phase agg) (factor agg)
              end) m name agg Hin) as [H | [-> H]].
  - exists agg. auto.
  - eexists. split; [exact H|]. apply alive_spec in Ha. apply alive_spec. simpl. lia.
Qed.

End Declare.

Lemma spans_upto_weaken q q' m : q <= q' -> spans_upto q m -> spans_upto q' m.
Proof. intros Hq H k agg Hin. destruct (H k agg Hin). lia. Qed.

(** The two inner loops of the constructor, for the nodes of phase [q]. *)
Definition declare_phase (q : nat) (nodes : list node) (m : datastructure_runtime)
  : datastructure_runtime :=
  fold_left (fun m n => fold_left (fun m d => declare q d m) (get_datastructures n) m)
            nodes m.

Lemma declare_list q : forall ds m,
  spans_upto q m ->
  let m' := fold_left (fun m d => declare q d m) ds m in
  spans_upto q m' /\
  (forall name p, p <= q -> counted name p m -> counted name p m') /\
  (forall d, In d ds -> counted (fst d) q m').
Proof.
  induction ds as [|d ds IH]; intros m H; simpl.
  - split; [exact H|]. split; [auto | intros d []].
  - destruct (IH (declare q d m) (declare_spans q d m H)) as (H1 & H2 & H3).
    split; [exact H1|]. split.
    + intros name p Hp Hc. apply H2; [exact Hp|]. apply declare_keeps; assumption.
    + intros d' [<- | Hd]; [|exact (H3 d' Hd)].
      apply H2; [lia|]. apply declare_counts, H.
Qed.

Lemma declare_phase_spec q : forall nodes m,
  spans_upto q m ->
  spans_upto q (declare_phase q nodes m) /\
  (forall name p, p <= q -> counted name p m -> counted name p (declare_phase q nodes m)) /\
  (forall n d, In n nodes -> In d (get_datastructures n) ->
               counted (fst d) q (declare_phase q nodes m)).
Proof.
  unfold declare_phase. induction nodes as [|n nodes IH]; intros m H; simpl.
  - split; [exact H|]. split; [auto | intros n d []].
  - destruct (declare_list q (get_datastructures n) m H) as (H1 & H2 & H3).
    destruct (IH _ H1) as (G1 & G2 & G3).
    split; [exact G1|]. split.
    + intros name p Hp Hc. apply G2; [exact Hp|]. apply H2; assumption.
    + intros n' d [<- | Hn] Hd; [|exact (G3 n' d Hn Hd)].
      apply G2; [lia|]. exact (H3 d Hd).
Qed.

Lemma build_drt_spec : forall phases q m,
  spans_upto q m ->
  let m' := build_drt q phases m in
  (forall k agg, In (k, agg) m' -> left_most_phase agg <= right_most_phase agg) /\
  (forall name p, p <= q -> counted name p m -> counted name p m') /\
  (forall i nodes n d, nth_error phases i = Some nodes -> In n nodes ->
                       In d (get_datastructures n) -> counted (fst d) (q + i) m').
Proof.
  induction phases as [|nodes phases IH]; intros q m H; simpl.
  - split; [intros k agg Hin; apply (H k agg Hin)|].
    split; [auto|]. intros [|i] nodes n d E; discriminate E.
  - fold (declare_phase q nodes m).
    destruct (declare_phase_spec q nodes m H) as (H1 & H2 & H3).
    destruct (IH (S q) _ (spans_upto_weaken q (S q) _ (Nat.le_succ_diag_r q) H1))
      as (G1 & G2 & G3).
    split; [exact G1|]. split.
    + intros name p Hp Hc. apply G2; [lia|]. apply H2; assumption.
    + intros [|i] nodes' n d E Hn Hd.
      * injection E as <-. rewrite Nat.add_0_r. apply G2; [lia|]. exact (H3 n d Hn Hd).
      * simpl in E. replace (q + S i) with (S q + i) by lia.
        exact (G3 i nodes' n d E Hn Hd).
Qed.

(** X16: The constructor of [datastructure_runtime] gives every datastructure
    a span of phases, the first not after the last, that holds every phase
    in which a node declares it: the datastructure is counted in each of
    those phases. *)
Theorem make_drt_spans phases :
  (forall k agg, In (k, agg) (make_drt phases) ->
                 left_most_phase agg <= right_most_phase agg) /\
  (forall i nodes n d,
     nth_error phases i = Some nodes -> In n nodes -> In d (get_datastructures n) ->
     exists agg, In (fst d, agg) (make_drt phases) /\ alive i agg = true).
Proof.
  destruct (build_drt_spec phases 0 []) as (H1 & _ & H3).
  { intros k agg []. }
  split; [exact H1|]. intros i nodes n d E Hn Hd. exact (H3 i nodes n d E Hn Hd).
Qed.

End DatastructureRuntime.

(** * [file_stream_base::get_block] and [read_block] *)
Module FileStream.

Local Open Scope Z_scope.

Import FileBase.

(** The fields of a block buffer ([block_t], and [file_base::block_t]
    with its [usage]) that the functions of this file read and write; the
    items themselves are left out. *)
Record block : Type := mk_block {
  b_size : Z;        (* [memory_size_type size] *)
  b_usage : Z;       (* [memory_size_type usage] *)
  b_number : Z;      (* [stream_size_type number] *)
  b_dirty : bool
}.

(** How a call ends: normally, or with one of the two exceptions. *)
Inductive outcome (A : Type) : Type :=
| returns (a : A)
| throws_end_of_stream
| throws_io (msg : string).
Arguments returns {A} a.
Arguments throws_end_of_stream {A}.
Arguments throws_io {A} msg.

Section Accessor.

(** [m_fileAccessor->read_block(data, number, size)]: the number of
    items the accessor reads. *)
Variable accessor_read : Z -> Z -> Z.

(** [file_base_crtp::read_block(b, block)]. *)
Definition read_block (f : file) (b : block) (blk : Z) : outcome block :=
  let size0 := m_blockItems f in
  let size1 :=
    if wrap64 (size0 + wrap64 (blk * m_blockItems f)) >? size f
    then wrap64 (size f - wrap64 (blk * m_blockItems f))
    else size0 in
  let b' := mk_block size1 (b_usage b) blk false in
  if (size1 >? 0) && negb (accessor_read blk size1 =? size1)
  then throws_io "Incorrect number of items read"
  else returns b'.

(** [file_stream_base::get_block(block)], on the buffer [m_block]. *)
Definition get_block (f : file) (m_block : block) (blk : Z) : outcome block :=
  match get_block_check f blk with
  | Err _ => throws_end_of_stream
  | Ok _ => read_block f m_block blk
  end.

(** The items of the file that lie in block [blk]. *)
Definition items_in_block (f : file) (blk : Z) : Z :=
  Z.min (m_blockItems f) (size f - blk * m_blockItems f).

Lemma read_block_size f b blk :
  file_wf f -> 0 <= blk -> (blk + 1) * m_blockItems f < two64 ->
  blk * m_blockItems f <= size f ->
  let n := items_in_block f blk in
  0 <= n <= m_blockItems f /\ blk * m_blockItems f + n <= size f /\
  read_block f b blk
  = if (n >? 0) && negb (accessor_read blk n =? n)
    then throws_io "Incorrect number of items read"
    else returns (mk_block n (b_usage b) blk false).
Proof.
  intros [[Hi Hi'] [Hs Hs']] Hb Hov Hle. unfold items_in_block, read_block.
  assert (Hp : 0 <= blk * m_blockItems f) by (apply Z.mul_nonneg_nonneg; assumption).
  rewrite (wrap64_small (blk * m_blockItems f)) by (unfold is_u64; lia).
  rewrite (wrap64_small (m_blockItems f + blk * m_blockItems f)) by (unfold is_u64; lia).
  destruct (m_blockItems f + blk * m_blockItems f >? size f) eqn:E.
  - apply Z.gtb_lt in E.
    rewrite (wrap64_small (size f - blk * m_blockItems f)) by (unfold is_u64; lia).
    rewrite Z.min_r by lia. simpl. split; [lia|]. split; [lia | reflexivity].
  - assert (E' : m_blockItems f + blk * m_blockItems f <= size f).
    { destruct (Z.gtb_spec (m_blockItems f + blk * m_blockItems f) (size f)); [discriminate | lia]. }
    rewrite Z.min_l by lia. simpl. split; [lia|]. split; [lia | reflexivity].
Qed.

(** X17: [file_stream_base::get_block(block)], when the products it computes
    fit 64 bits: it throws [end_of_stream_exception] exactly when the
    block starts behind the end of the file.  Otherwise the buffer is
    given the items of the block that the file holds, never more than a
    block and never items behind the end of the file, and [io_exception]
    is thrown exactly when there are such items and the accessor reads
    another number of them. *)
Theorem get_block_spec f b blk :
  file_wf f -> 0 <= blk -> (blk + 1) * m_blockItems f < two64 ->
  let n := items_in_block f blk in
  (blk * m_blockItems f > size f -> get_block f b blk = throws_end_of_stream) /\
  (blk * m_blockItems f <= size f ->
   0 <= n <= m_blockItems f /\ blk * m_blockItems f + n <= size f /\
   get_block f b blk
   = if (n >? 0) && negb (accessor_read blk n =? n)
     then throws_io "Incorrect number of items read"
     else returns (mk_block n (b_usage b) blk false)).
Proof.
  intros Hwf Hb Hov n. unfold get_block, get_block_check.
  pose proof Hwf as [[Hi Hi'] [Hs Hs']].
  assert (Hp : 0 <= blk * m_blockItems f) by (apply Z.mul_nonneg_nonneg; assumption).
  rewrite (wrap64_small (blk * m_blockItems f)) by (unfold is_u64; lia).
  split.
  - intros Hgt. apply Z.gt_lt, Z.gtb_lt in Hgt. rewrite Hgt. reflexivity.
  - intros Hle. destruct (blk * m_blockItems f >? size f) eqn:E.
    + apply Z.gtb_lt in E. lia.
    + exact (read_block_size f b blk Hwf Hb Hov Hle).
Qed.

End Accessor.

(** A file of ten items in blocks of four, with an accessor that reads
    what it is asked for: the last block, block 2, holds two items. *)
Lemma get_block_spec_witness :
  file_wf (mk_file 4 10) /\
  get_block (fun _ n => n) (mk_file 4 10) (mk_block 0 0 0 false) 2
  = returns (mk_block 2 0 2 false) /\
  get_block (fun _ n => n) (mk_file 4 10) (mk_block 0 0 0 false) 3
  = throws_end_of_stream.
Proof.
  assert (Hwf : file_wf (mk_file 4 10)) by (unfold file_wf, is_u64, two64; simpl; lia).
  split; [exact Hwf|]. split.
  - destruct (get_block_spec (fun _ n => n) (mk_file 4 10) (mk_block 0 0 0 false) 2 Hwf)
      as [_ H]; [lia | unfold two64; simpl; lia |].
    destruct H as (_ & _ & E); [simpl; lia|]. rewrite E. reflexivity.
  - destruct (get_block_spec (fun _ n => n) (mk_file 4 10) (mk_block 0 0 0 false) 3 Hwf)
      as [H _]; [lia | unfold two64; simpl; lia |].
    apply H. simpl. lia.
Defined.

End FileStream.

(** * The buffers of [file_base] and its streams

    [file_base] keeps its buffers in two intrusive lists, [m_free] and
    [m_used], and counts in [usage] the streams that hold a buffer.  A
    buffer is named by its address. *)
Module BlockPool.

Local Open Scope Z_scope.

Import FileBase.
Import FileStream.

(** A buffer of [file_base] on the heap: its address and its fields. *)
Record pblock : Type := mk_pblock {
  p_id : nat;
  p_block : block
}.

(** The fields of a [file_base] that the functions of this file use.  The
    two intrusive lists hold the buffers front first; [written] records
    the calls of [m_fileAccessor->write_block], the latest first, by block
    number and size. *)
Record file_base : Type := mk_file_base {
  fb_file : file;
  m_canRead : bool;
  m_canWrite : bool;
  m_free : list pblock;
  m_used : list pblock;
  written : list (Z * Z)
}.

Definition with_lists (fb : file_base) (free used : list pblock) : file_base :=
  mk_file_base (fb_file fb) (m_canRead fb) (m_canWrite fb) free used (written fb).

Definition with_usage (u : Z) (b : pblock) : pblock :=
  mk_pblock (p_id b)
    (mk_block (b_size (p_block b)) u (b_number (p_block b)) (b_dirty (p_block b))).

(** How a call ends: as [outcome] tells, or in an assertion that does
    not hold (with [NDEBUG], in what follows it). *)
Inductive ending (A : Type) : Type :=
| ends (o : outcome A)
| assertion_fails (what : string).
Arguments ends {A} o.
Arguments assertion_fails {A} what.

Section Accessor.

Variable accessor_read : Z -> Z -> Z.

(** Modelled from the spec: [m_fileAccessor->write_block(data, number,
    size)] belongs to the file accessor, which raises the IO exception on
    a short write.  [None] when the call returns, the message of the
    [io_exception] when it throws. *)
Variable accessor_write : Z -> Z -> option string.

(** The fields [read_block] leaves in the buffer, also when it throws. *)
Definition read_into (f : file) (b : block) (blk : Z) : block :=
  let size0 := m_blockItems f in
  let size1 :=
    if wrap64 (size0 + wrap64 (blk * m_blockItems f)) >? size f
    then wrap64 (size f - wrap64 (blk * m_blockItems f))
    else size0 in
  mk_block size1 (b_usage b) blk false.

Lemma read_block_read_into f b blk :
  read_block accessor_read f b blk
  = if (b_size (read_into f b blk) >? 0)
       && negb (accessor_read blk (b_size (read_into f b blk)) =? b_size (read_into f b blk))
    then throws_io "Incorrect number of items read"
    else returns (read_into f b blk).
Proof. reflexivity. Qed.

(** The search of [get_block] through [m_used], and [++b->usage] on the
    buffer it finds. *)
Fixpoint use_buffered (blk : Z) (used : list pblock) : option (nat * list pblock) :=
  match used with
  | [] => None
  | b :: rest =>
      if b_number (p_block b) =? blk
      then Some (p_id b, with_usage (wrap64 (b_usage (p_block b) + 1)) b :: rest)
      else match use_buffered blk rest with
           | Some (id, rest') => Some (id, b :: rest')
           | None => None
           end
  end.

(** [file_base::get_block(block)]: the address of the buffer, and the
    file afterwards. *)
Definition fb_get_block (fb : file_base) (blk : Z) : file_base * ending nat :=
  match get_block_check (fb_file fb) blk with
  | Err _ => (fb, ends throws_end_of_stream)
  | Ok _ =>
      match use_buffered blk (m_used fb) with
      | Some (id, used') => (with_lists fb (m_free fb) used', ends (returns id))
      | None =>
          match m_free fb with
          | [] => (fb, assertion_fails "!m_free.empty()")
          | b :: rest =>
              let b0 := p_block (with_usage 0 b) in
              match read_block accessor_read (fb_file fb) b0 blk with
              | returns b1 =>
                  let b2 := mk_pblock (p_id b)
                              (mk_block (b_size b1) (wrap64 (b_usage b1 + 1)) blk false) in
                  (with_lists fb rest (b2 :: m_used fb), ends (returns (p_id b)))
              | throws_io msg =>
                  (with_lists fb
                     (mk_pblock (p_id b) (read_into (fb_file fb) b0 blk) :: rest)
                     (m_used fb),
                   ends (throws_io msg))
              | throws_end_of_stream => (fb, ends throws_end_of_stream)
              end
          end
      end
  end.

(** The buffer at an address in a list, and the list without it. *)
Fixpoint take (id : nat) (l : list pblock) : option (pblock * list pblock) :=
  match l with
  | [] => None
  | b :: rest =>
      if (p_id b =? id)%nat then Some (b, rest)
      else match take id rest with
           | Some (b', rest') => Some (b', b :: rest')
           | None => None
           end
  end.

(** An assignment to a field of the buffer at an address. *)
Fixpoint assign (id : nat) (f : pblock -> pblock) (l : list pblock) : list pblock :=
  match l with
  | [] => []
  | b :: rest => if (p_id b =? id)%nat then f b :: rest else b :: assign id f rest
  end.

(** [file_base::free_block(block)], for the buffer at address [id].
    A pointer to no buffer of [m_used] has no meaning to
    [m_used.iterator_to].  When [write_block] throws, [usage] has been
    decremented and the buffer is still in [m_used]. *)
Definition fb_free_block (fb : file_base) (id : nat) : file_base * ending unit :=
  match take id (m_used fb) with
  | None => (fb, assertion_fails "the block is in m_used")
  | Some (b, rest) =>
      if b_usage (p_block b) >? 0 then
        let u := wrap64 (b_usage (p_block b) - 1) in
        let decremented := with_lists fb (m_free fb) (assign id (with_usage u) (m_used fb)) in
        if u >? 0
        then (decremented, ends (returns tt))
        else
          let b' := with_usage u b in
          if b_dirty (p_block b) || negb (m_canRead fb) then
            if m_canWrite fb
            then match accessor_write (b_number (p_block b)) (b_size (p_block b)) with
                 | None =>
                     (mk_file_base (fb_file fb) (m_canRead fb) (m_canWrite fb)
                        (b' :: m_free fb) rest
                        ((b_number (p_block b), b_size (p_block b)) :: written fb),
                      ends (returns tt))
                 | Some msg => (decremented, ends (throws_io msg))
                 end
            else (decremented, assertion_fails "m_canWrite")
          else (with_lists fb (b' :: m_free fb) rest, ends (returns tt))
      else (fb, assertion_fails "block->usage > 0")
  end.

(** [file_base::create_block()]: [id] is the address of the new buffer
    and [b0] what its constructor leaves in it. *)
Definition create_block (id : nat) (b0 : block) (fb : file_base) : file_base :=
  with_lists fb (mk_pblock id b0 :: m_free fb) (m_used fb).

(** [file_base::delete_block()]. *)
Definition delete_block (fb : file_base) : file_base * ending unit :=
  match m_free fb with
  | [] => (fb, assertion_fails "!m_free.empty()")
  | _ :: rest => (with_lists fb rest (m_used fb), ends (returns tt))
  end.

(** *** [file_base::stream] *)

(** [m_block] of a stream: null, [&m_file.m_emptyBlock], or the address
    of a buffer. *)
Inductive held : Type :=
| null_block
| empty_block
| used_block (id : nat).

(** A file and the streams on it, each by its [m_block]. *)
Record system : Type := mk_system {
  the_file : file_base;
  streams : list held
}.

Fixpoint set_stream (s : nat) (h : held) (l : list held) : list held :=
  match l, s with
  | [], _ => []
  | _ :: rest, O => h :: rest
  | a :: rest, S s' => a :: set_stream s' h rest
  end.

(** The constructor [stream(f, offset)] on a file that is not open. *)
Definition stream_new (id : nat) (b0 : block) (sys : system) : system :=
  mk_system (create_block id b0 (the_file sys)) (streams sys ++ [empty_block]).

(** [m_block = m_file.get_block(m_nextBlock)] in the stream [s], whose
    [m_block] is [&m_file.m_emptyBlock] until the call returns. *)
Definition get_for (fb1 : file_base) (streams1 : list held) (s : nat) (blk : Z)
  : system * ending unit :=
  match fb_get_block fb1 blk with
  | (fb2, ends (returns id)) =>
      (mk_system fb2 (set_stream s (used_block id) streams1), ends (returns tt))
  | (fb2, ends throws_end_of_stream) => (mk_system fb2 streams1, ends throws_end_of_stream)
  | (fb2, ends (throws_io msg)) => (mk_system fb2 streams1, ends (throws_io msg))
  | (fb2, assertion_fails what) => (mk_system fb2 streams1, assertion_fails what)
  end.

(** [file_base::stream::update_block_core()] of the stream [s], with
    [m_nextBlock = blk].  What [free_block] throws leaves the stream with
    the [m_block] it had. *)
Definition update_block_core (sys : system) (s : nat) (blk : Z) : system * ending unit :=
  match nth_error (streams sys) s with
  | None => (sys, assertion_fails "the stream exists")
  | Some h =>
      let '(fb1, e1) :=
        match h with
        | null_block => (the_file sys, assertion_fails "m_block != 0")
        | empty_block => (the_file sys, ends (returns tt))
        | used_block id => fb_free_block (the_file sys) id
        end in
      match e1 with
      | ends (returns _) => get_for fb1 (set_stream s empty_block (streams sys)) s blk
      | ends throws_end_of_stream => (mk_system fb1 (streams sys), ends throws_end_of_stream)
      | ends (throws_io msg) => (mk_system fb1 (streams sys), ends (throws_io msg))
      | assertion_fails what => (mk_system fb1 (streams sys), assertion_fails what)
      end
  end.

(** [m_file.delete_block(); m_block = 0] in the stream [s]. *)
Definition delete_for (fb1 : file_base) (streams1 : list held) (s : nat)
  : system * ending unit :=
  match delete_block fb1 with
  | (fb2, ends (returns _)) =>
      (mk_system fb2 (set_stream s null_block streams1), ends (returns tt))
  | (fb2, e) => (mk_system fb2 streams1, e)
  end.

(** [file_base::stream::free()]. *)
Definition stream_free (sys : system) (s : nat) : system * ending unit :=
  match nth_error (streams sys) s with
  | None => (sys, assertion_fails "the stream exists")
  | Some null_block => (sys, ends (returns tt))
  | Some h =>
      let '(fb1, e1) :=
        match h with
        | used_block id => fb_free_block (the_file sys) id
        | _ => (the_file sys, ends (returns tt))
        end in
      match e1 with
      | ends (returns _) => delete_for fb1 (streams sys) s
      | e => (mk_system fb1 (streams sys), e)
      end
  end.

(** *** What the streams keep of the file *)

Definition holds (id : nat) (h : held) : bool :=
  match h with used_block i => (i =? id)%nat | _ => false end.

Definition holding (h : held) : bool :=
  match h with used_block _ => true | _ => false end.

Definition nonnull (h : held) : bool :=
  match h with null_block => false | _ => true end.

(** The number of streams whose [m_block] is the buffer at [id]. *)
Definition holders (id : nat) (l : list held) : nat :=
  List.length (filter (holds id) l).

Definition number_of (b : pblock) : Z := b_number (p_block b).

(** What the file keeps of its buffers and streams between two calls: the
    buffers have distinct addresses; no two buffers of [m_used] hold the
    same block; the [usage] of a buffer of [m_used] is the number of
    streams whose [m_block] it is, and is not 0; the [m_block] of a stream
    is null, [&m_emptyBlock] or a buffer of [m_used]; there is one buffer
    for every stream that is not freed; the streams are fewer than 2^64;
    and a file that cannot be written can be read and has no dirty
    buffer. *)
Record SysInv (sys : system) : Prop := mk_SysInv {
  inv_ids : NoDup (map p_id (m_free (the_file sys) ++ m_used (the_file sys)));
  inv_numbers : NoDup (map number_of (m_used (the_file sys)));
  inv_usage : forall b, In b (m_used (the_file sys)) ->
              b_usage (p_block b) = Z.of_nat (holders (p_id b) (streams sys)) /\
              (0 < holders (p_id b) (streams sys))%nat;
  inv_held : forall id, In (used_block id) (streams sys) ->
             In id (map p_id (m_used (the_file sys)));
  inv_count : (List.length (m_free (the_file sys)) + List.length (m_used (the_file sys))
               = List.length (filter nonnull (streams sys)))%nat;
  inv_small : Z.of_nat (List.length (streams sys)) < two64;
  inv_writable : m_canWrite (the_file sys) = true \/
                 (m_canRead (the_file sys) = true /\
                  forall b, In b (m_used (the_file sys)) -> b_dirty (p_block b) = false)
}.

(** The same without its last part, which [free_block] asserts and no
    function of the file establishes. *)
Record PoolInv (sys : system) : Prop := mk_PoolInv {
  pool_ids : NoDup (map p_id (m_free (the_file sys) ++ m_used (the_file sys)));
  pool_numbers : NoDup (map number_of (m_used (the_file sys)));
  pool_usage : forall b, In b (m_used (the_file sys)) ->
               b_usage (p_block b) = Z.of_nat (holders (p_id b) (streams sys)) /\
               (0 < holders (p_id b) (streams sys))%nat;
  pool_held : forall id, In (used_block id) (streams sys) ->
              In id (map p_id (m_used (the_file sys)));
  pool_count : (List.length (m_free (the_file sys)) + List.length (m_used (the_file sys))
                = List.length (filter nonnull (streams sys)))%nat;
  pool_small : Z.of_nat (List.length (streams sys)) < two64
}.

Lemma SysInv_PoolInv sys : SysInv sys -> PoolInv sys.
Proof. intros [H1 H2 H3 H4 H5 H6 _]. constructor; assumption. Qed.

(** The buffer that [free_block] writes to the file when the buffer at
    [id] is let go: the one at [id], when no other stream holds it and it
    is dirty or the file cannot be read. *)
Definition writes_back (fb : file_base) (id : nat) : option pblock :=
  match take id (m_used fb) with
  | Some (b, _) =>
      if (b_usage (p_block b) =? 1) && (b_dirty (p_block b) || negb (m_canRead fb))
      then Some b else None
  | None => None
  end.

(** The buffer written to the file when the stream [s] lets go of its
    buffer. *)
Definition stream_writes_back (sys : system) (s : nat) : option pblock :=
  match nth_error (streams sys) s with
  | Some (used_block id) => writes_back (the_file sys) id
  | _ => None
  end.

(** **** Lists of streams *)

Lemma set_stream_length s h l : List.length (set_stream s h l) = List.length l.
Proof.
  revert s. induction l as [|a l IH]; intros [|s]; simpl; try reflexivity.
  rewrite IH. reflexivity.
Qed.

Lemma set_stream_count (p : held -> bool) s h h0 l :
  nth_error l s = Some h0 ->
  (List.length (filter p (set_stream s h l)) + (if p h0 then 1 else 0)
   = List.length (filter p l) + (if p h then 1 else 0))%nat.
Proof.
  revert s. induction l as [|a l IH]; intros [|s] E; simpl in *; try discriminate.
  - injection E as ->. destruct (p h0), (p h); simpl; lia.
  - specialize (IH s E). destruct (p a); simpl; lia.
Qed.

Lemma set_stream_nth s h h0 l :
  nth_error l s = Some h0 -> nth_error (set_stream s h l) s = Some h.
Proof.
  revert s. induction l as [|a l IH]; intros [|s] E; simpl in *; try discriminate.
  - reflexivity.
  - exact (IH s E).
Qed.

Lemma In_set_stream x s h l : In x (set_stream s h l) -> x = h \/ In x l.
Proof.
  revert s. induction l as [|a l IH]; intros [|s]; simpl; try tauto.
  - intros [H | H]; auto.
  - intros [H | H]; auto. destruct (IH s H); auto.
Qed.

Lemma holders_pos id l : (0 < holders id l)%nat <-> In (used_block id) l.
Proof.
  unfold holders. induction l as [|a l IH]; simpl.
  - split; [lia | contradiction].
  - destruct a as [| |i]; simpl; try (rewrite IH; split; [auto | intros [H | H]; [discriminate | exact H]]).
    destruct (i =? id)%nat eqn:E; simpl.
    + apply Nat.eqb_eq in E. subst. split; [auto | lia].
    + apply Nat.eqb_neq in E. rewrite IH. split; [auto|].
      intros [[= H] | H]; [contradiction | exact H].
Qed.

Lemma filter_length_le_all {A} (p : A -> bool) l : (List.length (filter p l) <= List.length l)%nat.
Proof. induction l as [|a l IH]; simpl; [lia|]. destruct (p a); simpl; lia. Qed.

Lemma holders_le id l : (holders id l <= List.length l)%nat.
Proof. apply filter_length_le_all. Qed.

(** A stream that holds no buffer is one stream more than those that
    hold one. *)
Lemma holding_lt_nonnull s l :
  nth_error l s = Some empty_block ->
  (List.length (filter holding l) < List.length (filter nonnull l))%nat.
Proof.
  revert s. induction l as [|a l IH]; intros [|s] E; simpl in *; try discriminate.
  - injection E as ->. simpl.
    assert (H : (List.length (filter holding l) <= List.length (filter nonnull l))%nat).
    { clear. induction l as [|a l IH]; simpl; [lia|]. destruct a; simpl; lia. }
    lia.
  - specialize (IH s E). destruct a; simpl; lia.
Qed.

Lemma holders_lt_length s id l :
  nth_error l s = Some empty_block -> (holders id l < List.length l)%nat.
Proof.
  unfold holders. revert s. induction l as [|a l IH]; intros [|s] E; simpl in *; try discriminate.
  - injection E as ->. simpl. pose proof (filter_length_le_all (holds id) l). lia.
  - specialize (IH s E). destruct (holds id a); simpl; lia.
Qed.

(** Buffers at different addresses with a holder each have different
    holders. *)
Lemma used_le_holding : forall (used : list pblock) (l : list held),
  NoDup (map p_id used) ->
  (forall b, In b used -> (0 < holders (p_id b) l)%nat) ->
  (List.length used <= List.length (filter holding l))%nat.
Proof.
  induction used as [|b used IH]; intros l Hnd Hpos; simpl; [lia|].
  inversion Hnd as [|? ? Hnot Hnd']; subst.
  set (l' := filter (fun h => negb (holds (p_id b) h)) l).
  assert (Hsplit : (List.length (filter holding l)
                    = List.length (filter holding l') + holders (p_id b) l)%nat).
  { unfold l', holders. clear. induction l as [|a l IH]; simpl; [reflexivity|].
    destruct a as [| |i]; simpl; try exact IH.
    destruct (i =? p_id b)%nat; simpl; lia. }
  assert (Hsame : forall b', In b' used -> holders (p_id b') l' = holders (p_id b') l).
  { intros b' Hb'. assert (Hne : p_id b' <> p_id b).
    { intros E. apply Hnot. rewrite <- E. apply in_map, Hb'. }
    unfold l', holders. clear -Hne. induction l as [|a l IH]; simpl; [reflexivity|].
    destruct a as [| |i]; simpl; try exact IH.
    destruct (i =? p_id b)%nat eqn:E1; simpl.
    - apply Nat.eqb_eq in E1. subst i.
      assert (E2 : (p_id b =? p_id b')%nat = false) by (apply Nat.eqb_neq; congruence).
      rewrite E2. exact IH.
    - destruct (i =? p_id b')%nat; simpl; rewrite IH; reflexivity. }
  assert (IH' : (List.length used <= List.length (filter holding l'))%nat).
  { apply IH; [exact Hnd'|]. intros b' Hb'. rewrite (Hsame b' Hb').
    apply Hpos. right. exact Hb'. }
  pose proof (Hpos b (or_introl eq_refl)). lia.
Qed.

(** **** Lists of buffers *)

Lemma take_spec id : forall l b rest,
  take id l = Some (b, rest) ->
  p_id b = id /\
  exists l1 l2, l = l1 ++ b :: l2 /\ rest = l1 ++ l2 /\ ~ In id (map p_id l1).
Proof.
  induction l as [|a l IH]; intros b rest E; simpl in E; [discriminate|].
  destruct (p_id a =? id)%nat eqn:Ea.
  - injection E as <- <-. apply Nat.eqb_eq in Ea. split; [exact Ea|].
    exists [], l. simpl. auto.
  - destruct (take id l) as [[b' rest']|] eqn:Et; [|discriminate].
    injection E as <- <-. destruct (IH b' rest' eq_refl) as (Hid & l1 & l2 & -> & -> & Hn).
    split; [exact Hid|]. exists (a :: l1), l2. simpl. split; [reflexivity|].
    split; [reflexivity|]. apply Nat.eqb_neq in Ea. intros [H | H]; [contradiction | exact (Hn H)].
Qed.

Lemma take_some id : forall l, In id (map p_id l) -> exists b rest, take id l = Some (b, rest).
Proof.
  induction l as [|a l IH]; simpl; [contradiction|]. intros Hin.
  destruct (p_id a =? id)%nat eqn:Ea; [eexists; eexists; reflexivity|].
  apply Nat.eqb_neq in Ea. destruct Hin as [H | H]; [contradiction|].
  destruct (IH H) as (b & rest & E). rewrite E. eexists. eexists. reflexivity.
Qed.

Lemma assign_spec id f : forall l l1 b l2,
  l = l1 ++ b :: l2 -> p_id b = id -> ~ In id (map p_id l1) ->
  assign id f l = l1 ++ f b :: l2.
Proof.
  induction l as [|a l IH]; intros l1 b l2 E Hb Hn.
  - destruct l1; discriminate E.
  - destruct l1 as [|c l1]; simpl in E; injection E as -> ->; simpl.
    + rewrite Hb, Nat.eqb_refl. reflexivity.
    + assert (Ec : (p_id c =? id)%nat = false).
      { apply Nat.eqb_neq. intros H. apply Hn. left. exact H. }
      rewrite Ec. f_equal. apply (IH l1 b l2 eq_refl Hb).
      intros H. apply Hn. right. exact H.
Qed.

Lemma use_buffered_none blk : forall used,
  use_buffered blk used = None -> ~ In blk (map number_of used).
Proof.
  induction used as [|b used IH]; simpl; [auto|].
  destruct (b_number (p_block b) =? blk) eqn:E; [discriminate|].
  destruct (use_buffered blk used) as [[id rest]|]; [discriminate|].
  intros _ [H | H]; [|exact (IH eq_refl H)].
  unfold number_of in H. apply Z.eqb_neq in E. contradiction.
Qed.

Lemma use_buffered_some blk : forall used id used',
  use_buffered blk used = Some (id, used') ->
  exists l1 b l2, used = l1 ++ b :: l2 /\ number_of b = blk /\ p_id b = id /\
                  used' = l1 ++ with_usage (wrap64 (b_usage (p_block b) + 1)) b :: l2.
Proof.
  induction used as [|a used IH]; intros id used' E; simpl in E; [discriminate|].
  destruct (b_number (p_block a) =? blk) eqn:Ea.
  - injection E as <- <-. apply Z.eqb_eq in Ea. exists [], a, used. auto.
  - destruct (use_buffered blk used) as [[id0 rest]|] eqn:Eu; [|discriminate].
    injection E as <- <-. destruct (IH id0 rest eq_refl) as (l1 & b & l2 & -> & Hn & Hi & ->).
    exists (a :: l1), b, l2. auto.
Qed.

(** The invariant does not depend on the fields it does not name. *)
Lemma ids_middle (f : pblock -> pblock) (free l1 l2 : list pblock) b :
  p_id (f b) = p_id b ->
  map p_id (free ++ l1 ++ f b :: l2) = map p_id (free ++ l1 ++ b :: l2).
Proof. intros H. rewrite !map_app. simpl. rewrite H. reflexivity. Qed.

Lemma NoDup_ids_middle (free l1 l2 : list pblock) b :
  NoDup (map p_id (free ++ l1 ++ b :: l2)) ->
  (forall b0, In b0 (l1 ++ l2) -> p_id b0 <> p_id b) /\
  ~ In (p_id b) (map p_id free) /\
  NoDup (map p_id ((b :: free) ++ l1 ++ l2)).
Proof.
  intros Hnd.
  assert (Hperm : Permutation.Permutation (map p_id (free ++ l1 ++ b :: l2))
                    (map p_id ((b :: free) ++ l1 ++ l2))).
  { simpl. rewrite !map_app. simpl. rewrite app_assoc.
    apply Permutation.Permutation_sym.
    rewrite (app_assoc (map p_id free) (map p_id l1)).
    apply Permutation.Permutation_middle. }
  pose proof (Permutation.Permutation_NoDup Hperm Hnd) as Hnd'.
  simpl in Hnd'. inversion Hnd' as [|? ? Hnot _]; subst.
  split; [|split; [|exact Hnd']].
  - intros b0 Hb0 E. apply Hnot. rewrite <- E. apply in_map, in_or_app. right. exact Hb0.
  - intros H. apply Hnot. rewrite map_app. apply in_or_app. left. exact H.
Qed.

Lemma holders_set_stream id s h h0 l :
  nth_error l s = Some h0 ->
  (holders id (set_stream s h l) + (if holds id h0 then 1 else 0)
   = holders id l + (if holds id h then 1 else 0))%nat.
Proof. apply set_stream_count. Qed.

(** [free_block] on the buffer a stream holds. *)
Lemma free_block_cases sys s id :
  PoolInv sys -> nth_error (streams sys) s = Some (used_block id) ->
  match writes_back (the_file sys) id with
  | None =>
      exists fb1,
        fb_free_block (the_file sys) id = (fb1, ends (returns tt)) /\
        PoolInv (mk_system fb1 (set_stream s empty_block (streams sys))) /\
        written fb1 = written (the_file sys)
  | Some b =>
      p_id b = id /\
      if m_canWrite (the_file sys) then
        match accessor_write (b_number (p_block b)) (b_size (p_block b)) with
        | None =>
            exists fb1,
              fb_free_block (the_file sys) id = (fb1, ends (returns tt)) /\
              PoolInv (mk_system fb1 (set_stream s empty_block (streams sys))) /\
              written fb1
              = (b_number (p_block b), b_size (p_block b)) :: written (the_file sys)
        | Some msg =>
            exists fb1,
              fb_free_block (the_file sys) id = (fb1, ends (throws_io msg)) /\
              m_free fb1 = m_free (the_file sys) /\
              written fb1 = written (the_file sys) /\
              In (with_usage 0 b) (m_used fb1)
        end
      else snd (fb_free_block (the_file sys) id) = assertion_fails "m_canWrite"
  end.
Proof.
  intros I Hs. destruct sys as [fb st]. simpl in *.
  destruct I as [Hids Hnum Huse Hheld Hcount Hsmall]. simpl in *.
  assert (Hin : In (used_block id) st) by exact (nth_error_In _ _ Hs).
  destruct (take_some id (m_used fb) (Hheld id Hin)) as (b & rest & Et).
  destruct (take_spec id _ _ _ Et) as (Hb & l1 & l2 & Eu & -> & Hn1).
  assert (Hbu : In b (m_used fb)) by (rewrite Eu; apply in_elt).
  destruct (Huse b Hbu) as [Hub Hpos]. rewrite Hb in Hub, Hpos.
  pose proof (holders_le id st) as Hle.
  pose proof (holders_set_stream id s empty_block _ st Hs) as Hh.
  simpl in Hh. rewrite Nat.eqb_refl in Hh.
  assert (Hother : forall i, i <> id ->
            holders i (set_stream s empty_block st) = holders i st).
  { intros i Hi. pose proof (holders_set_stream i s empty_block _ st Hs) as H.
    simpl in H. apply Nat.eqb_neq in Hi. rewrite (Nat.eqb_sym id i), Hi in H. lia. }
  pose proof (set_stream_count nonnull s empty_block _ st Hs) as Hnn. simpl in Hnn.
  rewrite Eu in Hids. destruct (NoDup_ids_middle _ _ _ _ Hids) as (Hne & Hnf & Hids').
  rewrite Hb in Hne.
  unfold writes_back, fb_free_block. rewrite Et.
  assert (Egt : (b_usage (p_block b) >? 0) = true) by (apply Z.gtb_lt; lia).
  rewrite Egt.
  assert (Eu' : wrap64 (b_usage (p_block b) - 1) = Z.of_nat (holders id st - 1)).
  { rewrite wrap64_small; [lia|]. unfold is_u64. lia. }
  rewrite Eu'.
  assert (E1 : (b_usage (p_block b) =? 1) = negb (Z.of_nat (holders id st - 1) >? 0)).
  { rewrite Hub. destruct (Z.gtb_spec (Z.of_nat (holders id st - 1)) 0); simpl;
      [apply Z.eqb_neq | apply Z.eqb_eq]; lia. }
  rewrite E1.
  assert (Hrest : forall b0, In b0 (l1 ++ l2) -> In b0 (m_used fb)).
  { intros b0 H0. rewrite Eu. apply in_app_or in H0. apply in_or_app.
    destruct H0; [left | right; right]; assumption. }
  destruct (Z.of_nat (holders id st - 1) >? 0) eqn:Epos; cbn [negb andb].
  - (* other streams hold the buffer *)
    apply Z.gtb_lt in Epos.
    rewrite (assign_spec id _ _ l1 b l2 Eu Hb Hn1).
    eexists. split; [reflexivity|]. split; [|reflexivity]. constructor; simpl.
    + rewrite ids_middle by reflexivity. exact Hids.
    + rewrite Eu in Hnum. rewrite map_app in *. exact Hnum.
    + intros b0 H0. apply in_app_or in H0. destruct H0 as [H0 | [<- | H0]].
      * rewrite (Hother (p_id b0)) by (apply Hne, in_or_app; left; exact H0).
        apply Huse, Hrest, in_or_app. left. exact H0.
      * simpl. rewrite Hb. split; lia.
      * rewrite (Hother (p_id b0)) by (apply Hne, in_or_app; right; exact H0).
        apply Huse, Hrest, in_or_app. right. exact H0.
    + intros i Hi. apply In_set_stream in Hi. destruct Hi as [Hi | Hi]; [discriminate|].
      pose proof (Hheld i Hi) as H. rewrite Eu in H. rewrite !map_app in *. exact H.
    + rewrite length_app in *. simpl in *. rewrite Eu, length_app in Hcount. simpl in Hcount. lia.
    + rewrite set_stream_length. exact Hsmall.
  - (* the last stream lets go of the buffer *)
    assert (Hone : holders id st = 1%nat).
    { destruct (Z.gtb_spec (Z.of_nat (holders id st - 1)) 0); [discriminate | lia]. }
    assert (Hgone : ~ In (used_block id) (set_stream s empty_block st)).
    { intros H. apply holders_pos in H. lia. }
    rewrite Hone. change (Z.of_nat (1 - 1)) with 0.
    assert (Hinv : forall w written',
              PoolInv (mk_system
                         (mk_file_base (fb_file fb) (m_canRead fb) w
                            (with_usage 0 b :: m_free fb) (l1 ++ l2) written')
                         (set_stream s empty_block st))).
    { intros w written'. constructor; simpl.
      - exact Hids'.
      - rewrite Eu in Hnum. rewrite map_app in *. simpl in Hnum.
        exact (NoDup_remove_1 _ _ _ Hnum).
      - intros b0 H0. rewrite (Hother (p_id b0)) by (apply Hne; exact H0).
        apply Huse, Hrest, H0.
      - intros i Hi. assert (Hi' : i <> id) by (intros ->; exact (Hgone Hi)).
        apply In_set_stream in Hi. destruct Hi as [Hi | Hi]; [discriminate|].
        pose proof (Hheld i Hi) as H. rewrite Eu in H. rewrite !map_app in *. simpl in H.
        apply in_app_or in H. apply in_or_app.
        destruct H as [H | [H | H]]; [left; exact H | congruence | right; exact H].
      - rewrite Eu, !length_app in Hcount. simpl in Hcount. rewrite length_app. lia.
      - rewrite set_stream_length. exact Hsmall. }
    destruct (b_dirty (p_block b) || negb (m_canRead fb)) eqn:Ed.
    + split; [exact Hb|].
      destruct (m_canWrite fb) eqn:Ew.
      * destruct (accessor_write (b_number (p_block b)) (b_size (p_block b))) as [msg|].
        -- eexists. split; [reflexivity|]. split; [reflexivity|]. split; [reflexivity|].
           simpl. rewrite (assign_spec id _ _ l1 b l2 Eu Hb Hn1). apply in_elt.
        -- eexists. split; [reflexivity|]. split; [apply Hinv | reflexivity].
      * reflexivity.
    + eexists. split; [reflexivity|]. split; [apply Hinv | reflexivity].
Qed.

(** [get_block] for a stream that holds no buffer. *)
Lemma get_block_inv sys s blk :
  PoolInv sys -> nth_error (streams sys) s = Some empty_block ->
  (exists fb2 id,
      fb_get_block (the_file sys) blk = (fb2, ends (returns id)) /\
      PoolInv (mk_system fb2 (set_stream s (used_block id) (streams sys))) /\
      written fb2 = written (the_file sys) /\
      exists b, In b (m_used fb2) /\ p_id b = id /\ number_of b = blk) \/
  (exists fb2 o,
      fb_get_block (the_file sys) blk = (fb2, ends o) /\
      (forall id, o <> returns id) /\
      written fb2 = written (the_file sys) /\
      PoolInv (mk_system fb2 (streams sys))).
Proof.
  intros I Hs. pose proof I as I0. destruct sys as [fb st]. simpl in *.
  destruct I as [Hids Hnum Huse Hheld Hcount Hsmall]. simpl in *.
  assert (Hset : forall i id,
            (holders i (set_stream s (used_block id) st)
             = holders i st + (if (id =? i)%nat then 1 else 0))%nat).
  { intros i id. pose proof (holders_set_stream i s (used_block id) _ st Hs) as H.
    simpl in H. lia. }
  pose proof (set_stream_count nonnull s) as Hnn.
  unfold fb_get_block. destruct (get_block_check (fb_file fb) blk) as [[]|e] eqn:Ec.
  2:{ right. exists fb, throws_end_of_stream.
      split; [reflexivity|]. split; [discriminate|]. split; [reflexivity | exact I0]. }
  destruct (use_buffered blk (m_used fb)) as [[id used']|] eqn:Eb.
  - (* the block is buffered *)
    left. destruct (use_buffered_some _ _ _ _ Eb) as (l1 & b & l2 & Eu & Hn & Hi & ->).
    assert (Hbu : In b (m_used fb)) by (rewrite Eu; apply in_elt).
    rewrite Eu in Hids. destruct (NoDup_ids_middle _ _ _ _ Hids) as (Hne & _ & _).
    assert (Hrest : forall b0, In b0 (l1 ++ l2) -> In b0 (m_used fb)).
    { intros b0 H0. rewrite Eu. apply in_app_or in H0. apply in_or_app.
      destruct H0; [left | right; right]; assumption. }
    assert (Hsame : forall b0, In b0 (l1 ++ l2) ->
              holders (p_id b0) (set_stream s (used_block id) st) = holders (p_id b0) st).
    { intros b0 H0. rewrite Hset. specialize (Hne b0 H0).
      assert (E : (id =? p_id b0)%nat = false) by (apply Nat.eqb_neq; congruence).
      rewrite E. lia. }
    eexists. exists id. split; [reflexivity|]. split.
    + constructor; simpl.
      * rewrite ids_middle by reflexivity. exact Hids.
      * rewrite Eu in Hnum. rewrite map_app in *. exact Hnum.
      * intros b0 H0. apply in_app_or in H0. destruct H0 as [H0 | [<- | H0]].
        -- rewrite Hsame by (apply in_or_app; left; exact H0).
           apply Huse, Hrest, in_or_app. left. exact H0.
        -- simpl. rewrite Hset, Hi, Nat.eqb_refl.
           destruct (Huse b Hbu) as [Hub _]. rewrite Hi in Hub.
           pose proof (holders_lt_length s id st Hs).
           rewrite wrap64_small; [split; lia|]. unfold is_u64. lia.
        -- rewrite Hsame by (apply in_or_app; right; exact H0).
           apply Huse, Hrest, in_or_app. right. exact H0.
      * intros i Hin.
        assert (E : map p_id (l1 ++ with_usage (wrap64 (b_usage (p_block b) + 1)) b :: l2)
                    = map p_id (m_used fb)) by (rewrite Eu, !map_app; reflexivity).
        rewrite E. apply In_set_stream in Hin. destruct Hin as [[= ->] | Hin].
        -- rewrite <- Hi. apply in_map, Hbu.
        -- apply Hheld, Hin.
      * specialize (Hnn (used_block id) _ st Hs). simpl in Hnn.
        rewrite Eu, !length_app in *. simpl in *. lia.
      * rewrite set_stream_length. exact Hsmall.
    + split; [reflexivity|]. eexists. split; [apply in_elt|]. split; [exact Hi | exact Hn].
  - (* the block is read into a free buffer *)
    destruct (m_free fb) as [|b rest] eqn:Ef.
    { exfalso. pose proof (holding_lt_nonnull s st Hs).
      assert (Hnd : NoDup (map p_id (m_used fb))) by exact Hids.
      pose proof (used_le_holding (m_used fb) st Hnd (fun b Hb => proj2 (Huse b Hb))).
      simpl in Hcount. lia. }
    simpl in Hids. inversion Hids as [|? ? Hnot Hnd]; subst.
    rewrite read_block_read_into.
    destruct ((b_size _ >? 0) && _) eqn:Er.
    + (* the accessor reads too few items *)
      right. eexists. eexists. split; [reflexivity|]. split; [discriminate|].
      split; [reflexivity|]. constructor; simpl; assumption.
    + left. eexists. exists (p_id b). split; [reflexivity|].
      assert (Hfree : holders (p_id b) st = 0%nat).
      { destruct (holders (p_id b) st) eqn:E; [reflexivity|]. exfalso. apply Hnot.
        rewrite map_app. apply in_or_app. right. apply Hheld, holders_pos. lia. }
      split.
      * constructor; simpl.
        -- apply (Permutation.Permutation_NoDup (l := map p_id (b :: rest ++ m_used fb)));
             [|exact Hids].
           simpl. rewrite !map_app. simpl. apply Permutation.Permutation_middle.
        -- constructor; [exact (use_buffered_none _ _ Eb) | exact Hnum].
        -- intros b0 [<- | H0]; simpl.
           ++ rewrite Hset, Nat.eqb_refl, Hfree. split; [reflexivity | lia].
           ++ rewrite Hset.
              assert (E : (p_id b =? p_id b0)%nat = false).
              { apply Nat.eqb_neq. intros E. apply Hnot. rewrite E, map_app.
                apply in_or_app. right. apply in_map, H0. }
              rewrite E, Nat.add_0_r. apply Huse, H0.
        -- intros i Hin. apply In_set_stream in Hin. destruct Hin as [[= ->] | Hin].
           ++ left. reflexivity.
           ++ right. apply Hheld, Hin.
        -- specialize (Hnn (used_block (p_id b)) _ st Hs). simpl in Hnn, Hcount. lia.
        -- rewrite set_stream_length. exact Hsmall.
      * split; [reflexivity|]. eexists. split; [left; reflexivity|]. split; reflexivity.
Qed.

Lemma set_stream_twice s h h' : forall l,
  set_stream s h (set_stream s h' l) = set_stream s h l.
Proof.
  revert s. induction s as [|s IH]; intros [|a l]; simpl; try reflexivity.
  rewrite IH. reflexivity.
Qed.

Lemma set_stream_other s s' h : forall l,
  s <> s' -> nth_error (set_stream s h l) s' = nth_error l s'.
Proof.
  revert s s'. induction s as [|s IH]; intros [|s'] [|a l] Hne; simpl; try reflexivity.
  - contradiction.
  - apply IH. congruence.
Qed.

Lemma NoDup_map_same {A B} (f : A -> B) : forall l x y,
  NoDup (map f l) -> In x l -> In y l -> f x = f y -> x = y.
Proof.
  induction l as [|a l IH]; intros x y Hnd Hx Hy E; [contradiction|].
  simpl in Hnd. inversion Hnd as [|? ? Hnot Hnd']; subst.
  destruct Hx as [-> | Hx], Hy as [-> | Hy].
  - reflexivity.
  - exfalso. apply Hnot. rewrite E. apply in_map, Hy.
  - exfalso. apply Hnot. rewrite <- E. apply in_map, Hx.
  - exact (IH x y Hnd' Hx Hy E).
Qed.

(** [delete_block] for a stream that holds no buffer. *)
Lemma delete_block_inv sys s :
  PoolInv sys -> nth_error (streams sys) s = Some empty_block ->
  exists fb2,
    delete_block (the_file sys) = (fb2, ends (returns tt)) /\
    PoolInv (mk_system fb2 (set_stream s null_block (streams sys))) /\
    written fb2 = written (the_file sys).
Proof.
  intros I Hs. destruct sys as [fb st]. simpl in *.
  destruct I as [Hids Hnum Huse Hheld Hcount Hsmall]. simpl in *.
  assert (Hset : forall i, holders i (set_stream s null_block st) = holders i st).
  { intros i. pose proof (holders_set_stream i s null_block _ st Hs) as H.
    simpl in H. lia. }
  pose proof (set_stream_count nonnull s null_block _ st Hs) as Hnn. simpl in Hnn.
  unfold delete_block. destruct (m_free fb) as [|b rest] eqn:Ef.
  { exfalso. pose proof (holding_lt_nonnull s st Hs).
    assert (Hnd : NoDup (map p_id (m_used fb))) by exact Hids.
    pose proof (used_le_holding (m_used fb) st Hnd (fun b Hb => proj2 (Huse b Hb))).
    simpl in Hcount. lia. }
  eexists. split; [reflexivity|]. split; [|reflexivity]. constructor; simpl.
  - simpl in Hids. inversion Hids; assumption.
  - exact Hnum.
  - intros b0 H0. rewrite Hset. apply Huse, H0.
  - intros i Hin. apply In_set_stream in Hin.
    destruct Hin as [Hin | Hin]; [discriminate | apply Hheld, Hin].
  - simpl in Hcount. lia.
  - rewrite set_stream_length. exact Hsmall.
Qed.

Lemma stream_new_keeps_pool sys id b0 :
  PoolInv sys ->
  ~ In id (map p_id (m_free (the_file sys) ++ m_used (the_file sys))) ->
  Z.of_nat (List.length (streams sys)) + 1 < two64 ->
  PoolInv (stream_new id b0 sys).
Proof.
  intros I Hfresh Hlen. destruct sys as [fb st]. simpl in *.
  destruct I as [Hids Hnum Huse Hheld Hcount Hsmall]. simpl in *.
  assert (Hset : forall i, holders i (st ++ [empty_block]) = holders i st).
  { intros i. unfold holders. rewrite filter_app, length_app. simpl. lia. }
  unfold stream_new. constructor; simpl.
  - constructor; assumption.
  - exact Hnum.
  - intros b H0. rewrite Hset. apply Huse, H0.
  - intros i Hin. apply in_app_or in Hin.
    destruct Hin as [Hin | [Hin | []]]; [apply Hheld, Hin | discriminate].
  - rewrite filter_app, length_app. simpl. lia.
  - rewrite length_app. simpl. lia.
Qed.


(** [update_block_core()] has gone through: [res] is its result on
    [sys], for the stream [s] and [m_nextBlock = blk], and [w] the blocks
    written to the file by then.  It returned or it threw, what the file
    keeps of its buffers and streams holds again, and the other streams
    are as they were.  When it returned, the stream holds the one buffer
    of [m_used] with the block [blk]; when it threw, [m_emptyBlock]. *)
Definition updated (sys : system) (s : nat) (blk : Z) (w : list (Z * Z))
    (res : system * ending unit) : Prop :=
  exists sys' o,
    res = (sys', ends o) /\ PoolInv sys' /\ written (the_file sys') = w /\
    (forall s', s' <> s -> nth_error (streams sys') s' = nth_error (streams sys) s') /\
    match o with
    | returns _ =>
        exists b, In b (m_used (the_file sys')) /\ b_number (p_block b) = blk /\
                  nth_error (streams sys') s = Some (used_block (p_id b)) /\
                  forall b', In b' (m_used (the_file sys')) ->
                             b_number (p_block b') = blk -> b' = b
    | _ => nth_error (streams sys') s = Some empty_block
    end.

(** [free()] has gone through: it returned, the stream has a null
    [m_block], and what the file keeps of its buffers and streams holds
    again. *)
Definition freed (sys : system) (s : nat) (w : list (Z * Z))
    (res : system * ending unit) : Prop :=
  exists sys',
    res = (sys', ends (returns tt)) /\ PoolInv sys' /\ written (the_file sys') = w /\
    streams sys' = set_stream s null_block (streams sys).

(** [write_block] threw in [free_block]: the [io_exception] leaves the
    call, nothing is written, every stream keeps its [m_block] and the
    free buffers are as they were, but the buffer [b] of the stream is in
    [m_used] with the [usage] 0. *)
Definition write_failed (sys : system) (s : nat) (b : pblock) (msg : string)
    (res : system * ending unit) : Prop :=
  exists sys',
    res = (sys', ends (throws_io msg)) /\
    streams sys' = streams sys /\
    nth_error (streams sys) s = Some (used_block (p_id b)) /\
    m_free (the_file sys') = m_free (the_file sys) /\
    written (the_file sys') = written (the_file sys) /\
    In (with_usage 0 b) (m_used (the_file sys')).

Lemma set_stream_same s h : forall l, nth_error l s = Some h -> set_stream s h l = l.
Proof.
  revert s. induction s as [|s IH]; intros [|a l] E; simpl in *; try discriminate.
  - congruence.
  - rewrite (IH l E). reflexivity.
Qed.

(** [get_block] for the stream [s] after it let go of its buffer. *)
Lemma updated_get_for sys s blk h fb1 :
  nth_error (streams sys) s = Some h ->
  PoolInv (mk_system fb1 (set_stream s empty_block (streams sys))) ->
  updated sys s blk (written fb1) (get_for fb1 (set_stream s empty_block (streams sys)) s blk).
Proof.
  intros Hs I1.
  assert (Hs1 : nth_error (set_stream s empty_block (streams sys)) s = Some empty_block)
    by exact (set_stream_nth _ _ _ _ Hs).
  unfold get_for, updated.
  destruct (get_block_inv _ s blk I1 Hs1)
    as [(fb2 & id & E2 & I2 & W2 & b & Hb & Hid & Hn) | (fb2 & o & E2 & Ho & W2 & I2)];
    simpl in E2, W2; rewrite E2.
  - simpl in I2.
    eexists. exists (returns tt). split; [reflexivity|]. split; [exact I2|].
    split; [exact W2|].
    split; [intros s' Hne; simpl; rewrite !set_stream_other; congruence|].
    exists b. simpl. split; [exact Hb|]. split; [exact Hn|].
    split; [rewrite Hid; exact (set_stream_nth _ _ _ _ Hs1)|].
    intros b' Hb' Hn'. apply (NoDup_map_same number_of (m_used fb2)); try assumption.
    + exact (pool_numbers _ I2).
    + unfold number_of in *. congruence.
  - destruct o as [id | | msg]; [exfalso; exact (Ho id eq_refl) | |].
    + eexists. exists throws_end_of_stream. split; [reflexivity|]. split; [exact I2|].
      split; [exact W2|].
      split; [intros s' Hne; simpl; apply set_stream_other; congruence | exact Hs1].
    + eexists. exists (throws_io msg). split; [reflexivity|]. split; [exact I2|].
      split; [exact W2|].
      split; [intros s' Hne; simpl; apply set_stream_other; congruence | exact Hs1].
Qed.

(** [delete_block] for the stream [s] after it let go of its buffer. *)
Lemma freed_delete_for sys s h fb1 :
  nth_error (streams sys) s = Some h ->
  PoolInv (mk_system fb1 (set_stream s empty_block (streams sys))) ->
  freed sys s (written fb1) (delete_for fb1 (streams sys) s).
Proof.
  intros Hs I1.
  destruct (delete_block_inv _ s I1 (set_stream_nth _ _ _ _ Hs)) as (fb2 & E2 & I2 & W2).
  simpl in E2, I2, W2. unfold delete_for, freed. rewrite E2.
  rewrite set_stream_twice in I2.
  eexists. split; [reflexivity|]. split; [exact I2|]. split; [exact W2 | reflexivity].
Qed.

(** X19: [update_block_core()] of a stream that is not freed, when what the
    file keeps of its buffers and streams holds.  The one assertion that
    can fail is [m_canWrite] in [free_block], and it fails exactly when the
    stream is the last to hold a buffer that has to be written (it is dirty,
    or the file cannot be read) and the file cannot be written.  When
    [write_block] throws, the exception leaves the call with the buffer in
    [m_used] at [usage] 0 and the stream still holding it.  In every other
    case the call goes through: a buffer to read into is at hand, a buffer
    is written to the file exactly when its last stream lets go of it and
    it has to be, and the call ends as [updated] tells. *)
Theorem update_block_core_spec sys s blk h :
  PoolInv sys -> nth_error (streams sys) s = Some h -> h <> null_block ->
  let res := update_block_core sys s blk in
  match stream_writes_back sys s with
  | None => updated sys s blk (written (the_file sys)) res
  | Some b =>
      if m_canWrite (the_file sys) then
        match accessor_write (b_number (p_block b)) (b_size (p_block b)) with
        | None =>
            updated sys s blk
              ((b_number (p_block b), b_size (p_block b)) :: written (the_file sys)) res
        | Some msg => write_failed sys s b msg res
        end
      else snd res = assertion_fails "m_canWrite"
  end.
Proof.
  intros I Hs Hh. unfold stream_writes_back, update_block_core. rewrite Hs.
  destruct h as [| |id]; [contradiction | |]; cbv zeta.
  - pose proof (updated_get_for sys s blk _ (the_file sys) Hs) as H.
    apply H. rewrite (set_stream_same _ _ _ Hs). destruct sys. exact I.
  - pose proof (free_block_cases sys s id I Hs) as H.
    destruct (writes_back (the_file sys) id) as [b|].
    + destruct H as [Hb H]. destruct (m_canWrite (the_file sys)).
      * destruct (accessor_write (b_number (p_block b)) (b_size (p_block b))) as [msg|].
        -- destruct H as (fb1 & E1 & F1 & W1 & U1). rewrite E1.
           eexists. split; [reflexivity|]. split; [reflexivity|].
           split; [rewrite Hb; exact Hs|]. auto.
        -- destruct H as (fb1 & E1 & I1 & W1). rewrite E1, <- W1.
           exact (updated_get_for sys s blk _ fb1 Hs I1).
      * destruct (fb_free_block (the_file sys) id) as [fb1 e1]. simpl in H. subst e1.
        reflexivity.
    + destruct H as (fb1 & E1 & I1 & W1). rewrite E1, <- W1.
      exact (updated_get_for sys s blk _ fb1 Hs I1).
Qed.

(** X20: [free()] of a stream, when what the file keeps of its buffers and
    streams holds.  The one assertion that can fail is [m_canWrite] in
    [free_block], exactly when the stream is the last to hold a buffer
    that has to be written and the file cannot be written; when
    [write_block] throws, the exception leaves the call before
    [delete_block], with the buffer in [m_used] at [usage] 0 and the stream
    still holding it.  In every other case [free()] returns: it leaves the
    stream with a null [m_block], one buffer fewer, the buffer written to
    the file when it had to be, and what the file keeps holds again. *)
Theorem stream_free_spec sys s h :
  PoolInv sys -> nth_error (streams sys) s = Some h ->
  let res := stream_free sys s in
  match stream_writes_back sys s with
  | None => freed sys s (written (the_file sys)) res
  | Some b =>
      if m_canWrite (the_file sys) then
        match accessor_write (b_number (p_block b)) (b_size (p_block b)) with
        | None =>
            freed sys s
              ((b_number (p_block b), b_size (p_block b)) :: written (the_file sys)) res
        | Some msg => write_failed sys s b msg res
        end
      else snd res = assertion_fails "m_canWrite"
  end.
Proof.
  intros I Hs. unfold stream_writes_back, stream_free. rewrite Hs.
  destruct h as [| |id]; cbv zeta.
  - exists sys. split; [reflexivity|]. split; [exact I|]. split; [reflexivity|].
    symmetry. exact (set_stream_same _ _ _ Hs).
  - pose proof (freed_delete_for sys s _ (the_file sys) Hs) as H.
    apply H. rewrite (set_stream_same _ _ _ Hs). destruct sys. exact I.
  - pose proof (free_block_cases sys s id I Hs) as H.
    destruct (writes_back (the_file sys) id) as [b|].
    + destruct H as [Hb H]. destruct (m_canWrite (the_file sys)).
      * destruct (accessor_write (b_number (p_block b)) (b_size (p_block b))) as [msg|].
        -- destruct H as (fb1 & E1 & F1 & W1 & U1). rewrite E1.
           eexists. split; [reflexivity|]. split; [reflexivity|].
           split; [rewrite Hb; exact Hs|]. auto.
        -- destruct H as (fb1 & E1 & I1 & W1). rewrite E1, <- W1.
           exact (freed_delete_for sys s _ fb1 Hs I1).
      * destruct (fb_free_block (the_file sys) id) as [fb1 e1]. simpl in H. subst e1.
        reflexivity.
    + destruct H as (fb1 & E1 & I1 & W1). rewrite E1, <- W1.
      exact (freed_delete_for sys s _ fb1 Hs I1).
Qed.



End Accessor.



(** One stream, the only one to hold the buffer of block 1, which is
    dirty; and the same on a file that cannot be written. *)
Definition dirty_stream : system :=
  mk_system
    (mk_file_base (mk_file 4 10) true true [] [mk_pblock 7 (mk_block 4 1 1 true)] [])
    [used_block 7].

Definition dirty_read_only : system :=
  mk_system
    (mk_file_base (mk_file 4 10) true false [] [mk_pblock 7 (mk_block 4 1 1 true)] [])
    [used_block 7].

Lemma PoolInv_dirty (w : bool) :
  PoolInv (mk_system
             (mk_file_base (mk_file 4 10) true w [] [mk_pblock 7 (mk_block 4 1 1 true)] [])
             [used_block 7]).
Proof.
  constructor; simpl.
  - repeat constructor. intros [].
  - repeat constructor. intros [].
  - intros b [<- | []]. unfold holders. simpl. split; [reflexivity | lia].
  - intros id [[= <-] | []]. left. reflexivity.
  - reflexivity.
  - unfold two64. simpl. lia.
Qed.

(** The stream moves from block 1 to block 2: the dirty buffer is
    written and read into again.  When the write throws, the exception
    leaves the call. *)
Lemma update_block_core_spec_witness :
  PoolInv dirty_stream /\
  update_block_core (fun _ n => n) (fun _ _ => None) dirty_stream 0 2
  = (mk_system
       (mk_file_base (mk_file 4 10) true true [] [mk_pblock 7 (mk_block 2 1 2 false)]
          [(1, 4)])
       [used_block 7],
     ends (returns tt)) /\
  PoolInv (mk_system
       (mk_file_base (mk_file 4 10) true true [] [mk_pblock 7 (mk_block 2 1 2 false)]
          [(1, 4)])
       [used_block 7]) /\
  write_failed dirty_stream 0 (mk_pblock 7 (mk_block 4 1 1 true)) "short write"
    (update_block_core (fun _ n => n) (fun _ _ => Some "short write"%string)
       dirty_stream 0 2).
Proof.
  split; [exact (PoolInv_dirty true)|].
  assert (Hh : used_block 7 <> null_block) by discriminate.
  pose proof (update_block_core_spec (fun _ n => n) (fun _ _ => None) dirty_stream 0 2
                (used_block 7) (PoolInv_dirty true) eq_refl Hh) as T.
  pose proof (update_block_core_spec (fun _ n => n) (fun _ _ => Some "short write"%string)
                dirty_stream 0 2 (used_block 7) (PoolInv_dirty true) eq_refl Hh) as F.
  split; [|split; [|exact F]].
  - reflexivity.
  - destruct T as (sys' & o & E & I & _). vm_compute in E. injection E as <- <-. exact I.
Defined.


(** The stream is freed: its dirty buffer is written and deleted.  On
    the file that cannot be written the assertion of [free_block] fails. *)
Lemma stream_free_spec_witness :
  PoolInv dirty_stream /\
  stream_free (fun _ _ => None) dirty_stream 0
  = (mk_system (mk_file_base (mk_file 4 10) true true [] [] [(1, 4)]) [null_block],
     ends (returns tt)) /\
  PoolInv (mk_system (mk_file_base (mk_file 4 10) true true [] [] [(1, 4)]) [null_block]) /\
  snd (stream_free (fun _ _ => None) dirty_read_only 0) = assertion_fails "m_canWrite".
Proof.
  split; [exact (PoolInv_dirty true)|].
  pose proof (stream_free_spec (fun _ _ => None) dirty_stream 0 (used_block 7)
                (PoolInv_dirty true) eq_refl) as T.
  pose proof (stream_free_spec (fun _ _ => None) dirty_read_only 0 (used_block 7)
                (PoolInv_dirty false) eq_refl) as F.
  split; [|split; [|exact F]].
  - reflexivity.
  - destruct T as (sys' & E & I & _). vm_compute in E. injection E as <-. exact I.
Defined.


End BlockPool.

(** * [runtime::get_item_sources] and [get_item_sinks] *)
Module ItemSources.

Local Open Scope nat_scope.

(** [possibleSources.insert(i->first)] for every node of the map. *)
Definition all_ids (nm : node_map) : list nat :=
  fold_left (fun s n => set_insert (get_id n) s) (m_tokens nm) [].

(** [std::set::erase]. *)
Definition erase (id : nat) (s : list nat) : list nat :=
  filter (fun x => negb (x =? id)) s.

(** The loops of [get_item_sources] and [get_item_sinks] over the
    relations. *)
Fixpoint erase_targets (rels : list (nat * (nat * node_relation))) (s : list nat)
  : list nat :=
  match rels with
  | [] => s
  | (from, (to, rel)) :: rest =>
      erase_targets rest
        (match rel with
         | pushes => erase to s
         | pulls | depends | no_forward_depends | memory_share_depends => erase from s
         end)
  end.

Fixpoint erase_origins (rels : list (nat * (nat * node_relation))) (s : list nat)
  : list nat :=
  match rels with
  | [] => s
  | (from, (to, rel)) :: rest =>
      erase_origins rest
        (match rel with
         | pushes => erase from s
         | pulls | depends | no_forward_depends | memory_share_depends => erase to s
         end)
  end.

(** [runtime::get_item_sources] and [runtime::get_item_sinks]: the ids
    whose nodes they push to the result, in their order. *)
Definition get_item_sources (nm : node_map) : list nat :=
  erase_targets (m_relations nm) (all_ids nm).

Definition get_item_sinks (nm : node_map) : list nat :=
  erase_origins (m_relations nm) (all_ids nm).

(** The node that receives items through a relation, and the node that
    sends them: [pushes] sends from its first node to its second, every
    other relation from its second to its first. *)
Definition receiver (r : nat * (nat * node_relation)) : nat :=
  match snd (snd r) with pushes => fst (snd r) | _ => fst r end.

Definition sender (r : nat * (nat * node_relation)) : nat :=
  match snd (snd r) with pushes => fst r | _ => fst (snd r) end.

Lemma In_erase x id s : In x (erase id s) <-> In x s /\ x <> id.
Proof.
  unfold erase. rewrite filter_In, negb_true_iff, Nat.eqb_neq. reflexivity.
Qed.

Lemma In_all_ids nm id : In id (all_ids nm) <-> exists n, In n (m_tokens nm) /\ get_id n = id.
Proof.
  unfold all_ids.
  assert (H : forall l s, In id (fold_left (fun s n => set_insert (get_id n) s) l s)
                          <-> In id s \/ exists n, In n l /\ get_id n = id).
  { induction l as [|n l IH]; intros s; simpl.
    - split; [auto | intros [H | (n & [] & _)]; exact H].
    - rewrite IH, Runtime.In_set_insert. split.
      + intros [[-> | H] | (m & Hm & E)]; [right; exists n; auto | left; exact H |].
        right. exists m. auto.
      + intros [H | (m & [<- | Hm] & E)]; [left; right; exact H | left; left; auto |].
        right. exists m. auto. }
  rewrite H. split; [intros [[] | Hn]; exact Hn | intros Hn; right; exact Hn].
Qed.

Lemma In_erase_targets id : forall rels s,
  In id (erase_targets rels s) <->
  In id s /\ forall r, In r rels -> receiver r <> id.
Proof.
  induction rels as [|[from [to rel]] rest IH]; intros s; simpl.
  - split; [intros H; split; [exact H | intros r []] | tauto].
  - rewrite IH. unfold receiver.
    destruct rel; rewrite In_erase; simpl; split.
    all: try (intros [[H1 H2] H3]; split; [exact H1|];
              intros r [<- | Hr]; [simpl; congruence | exact (H3 r Hr)]).
    all: intros [H1 H2]; split;
      [split; [exact H1|]; intros ->; apply (H2 _ (or_introl eq_refl)); reflexivity
      | intros r Hr; apply H2; right; exact Hr].
Qed.

Lemma In_erase_origins id : forall rels s,
  In id (erase_origins rels s) <->
  In id s /\ forall r, In r rels -> sender r <> id.
Proof.
  induction rels as [|[from [to rel]] rest IH]; intros s; simpl.
  - split; [intros H; split; [exact H | intros r []] | tauto].
  - rewrite IH. unfold sender.
    destruct rel; rewrite In_erase; simpl; split.
    all: try (intros [[H1 H2] H3]; split; [exact H1|];
              intros r [<- | Hr]; [simpl; congruence | exact (H3 r Hr)]).
    all: intros [H1 H2]; split;
      [split; [exact H1|]; intros ->; apply (H2 _ (or_introl eq_refl)); reflexivity
      | intros r Hr; apply H2; right; exact Hr].
Qed.

(** X22: The item sources are the nodes of the map that are neither the second
    node of a [pushes] relation nor the first node of a relation of another
    kind; the item sinks are the nodes that are neither the first node of a
    [pushes] relation nor the second node of a relation of another kind. *)
Theorem item_sources_and_sinks nm id :
  (In id (get_item_sources nm) <->
   (exists n, In n (m_tokens nm) /\ get_id n = id) /\
   forall r, In r (m_relations nm) -> receiver r <> id) /\
  (In id (get_item_sinks nm) <->
   (exists n, In n (m_tokens nm) /\ get_id n = id) /\
   forall r, In r (m_relations nm) -> sender r <> id).
Proof.
  unfold get_item_sources, get_item_sinks.
  rewrite In_erase_targets, In_erase_origins, In_all_ids. split; reflexivity.
Qed.

End ItemSources.
